(** * wire: binary marshalling of Go structures

    A shallow embedding of [visitor.go] and [wire.go].  The Go code walks a
    value through package [reflect]; here a [reflect.Value] is a tree
    ([Value]), the traversal driver [runVisitorInternal] is written once
    over an arbitrary visitor, and the three visitors ([sizeofVisitor],
    [encodeVisitor], [decodeVisitor]) are plugged into it exactly as the
    source does it.

    What the model fixes:
    - a Go call either returns or panics ([outcome]); the panics are
      those of package [reflect] and of a nil dereference;
    - a pointer owns what it points to, so two fields never share a
      target; mutation through [reflect] is the new value handed back
      by the walk, and a store into a value that cannot be set panics
      as in Go;
    - every struct field is exported and none is embedded;
    - a struct tag is held as the list of matches of [tagRegexp] on it;
    - [int] and [uint] are 64 bits wide; floats and complex numbers are
      their bit patterns, and the conversion of a [float32] to [float64]
      and back sets the quiet bit of a NaN, as the processor does;
    - a slice is its elements: a nil slice and an empty one are the same
      [Value], so the equality of two values says less than
      [reflect.DeepEqual] where a slice is empty;
    - a nil pointer carries no type: [Value.Len] takes it for a pointer
      to something that is no array;
    - the reader of [Decode] is a [bytes.Buffer]; the writer of [Encode]
      is any instance of [io.Writer];
    - memory is not bounded: a slice or a string of any length below
      2^63 can be made. *)

From Stdlib Require Import ZArith List Bool Lia.
From Stdlib.Strings Require Import Byte.
From stdpp Require Import base list gmap strings.
Set Warnings "-register-all".

Local Open Scope string_scope.
Local Open Scope list_scope.
Local Open Scope Z_scope.

(** ** Outcomes

    A Go call either returns or panics.  Errors are ordinary return
    values (see [error] below); a panic is kept apart from them. *)

Inductive panic :=
| NilPointerDereference
| ReflectValueError (method : string)
| ReflectUnaddressable (method : string)
| MakeNegativeLen
| MakeLenOutOfRange
| ReflectLenOfPointer.

Inductive outcome (A : Type) :=
| Return (a : A)
| Panic (why : panic).
Arguments Return {A} a.
Arguments Panic {A} why.

#[global] Instance outcome_ret : MRet outcome := fun A a => Return a.
#[global] Instance outcome_bind : MBind outcome := fun A B k m =>
  match m with
  | Return a => k a
  | Panic why => Panic why
  end.

(** ** Package errors, package io *)

(** An [error] is identified with its message; [nil] is [None]. *)
Definition error := string.

Module errors.
Definition New (text : string) : error := text.
End errors.

Module io.
Definition EOF : error := errors.New "EOF".

(** [io.Writer].  [Write w p] gives the error of the call and the sink
    afterwards; the byte count that Go returns as well is never looked
    at by this package. *)
Class Writer (W : Type) := Write : W -> list byte -> option error * W.

(** [io.WriteString] on a sink without a [WriteString] method. *)
Definition WriteString {W} `{Writer W} (w : W) (s : list byte) : option error * W :=
  Write w s.
End io.

Module bytes.
(** [bytes.Buffer], the sink and source of [wire_test.go]: the unread
    bytes, oldest first. *)
Definition Buffer := list byte.

(** [Buffer.Write] appends and never fails. *)
#[global] Instance Buffer_Writer : io.Writer Buffer := fun b p => (None, b ++ p).

(** [Buffer.Read]: [p] is the destination slice; the result is [p]
    after the call, the error, and the buffer afterwards.  An empty
    buffer reports [io.EOF] unless [p] is empty too; otherwise as many
    bytes as fit are copied and the call succeeds, also when [p] was
    not filled. *)
Definition Read (b : Buffer) (p : list byte) : list byte * option error * Buffer :=
  match b with
  | [] => (p, if decide (length p = 0%nat) then None else Some io.EOF, b)
  | _ :: _ =>
      let n := Nat.min (length p) (length b) in
      (take n b ++ drop n p, None, drop n b)
  end.
End bytes.

(** A writer whose every [Write] fails with [e], and which counts the
    calls it received. *)
Record brokenWriter := { failure : error; calls : nat }.

#[global] Instance brokenWriter_Writer : io.Writer brokenWriter := fun w _ =>
  (Some (failure w), {| failure := failure w; calls := S (calls w) |}).

(** ** Fixed-width integers *)

(** Go conversions to an unsigned and to a signed type of [w] bits. *)
Definition uintN (w : Z) (x : Z) : Z := x mod 2 ^ w.
Definition intN (w : Z) (x : Z) : Z := (x + 2 ^ (w - 1)) mod 2 ^ w - 2 ^ (w - 1).

Definition Z_of_byte (b : byte) : Z := Z.of_N (Byte.to_N b).

(** The conversion [byte(x)]. *)
Definition byte_of_Z (x : Z) : byte :=
  match Byte.of_N (Z.to_N (uintN 8 x)) with
  | Some b => b
  | None => x00
  end.

(** ** Package encoding/binary *)

Module binary.
Inductive ByteOrder := LittleEndian | BigEndian.

(** The bytes of [v] from the least significant one. *)
Fixpoint le_bytes (n : nat) (v : Z) : list byte :=
  match n with
  | O => []
  | S n' => byte_of_Z v :: le_bytes n' (Z.shiftr v 8)
  end.

Fixpoint le_uint (b : list byte) : Z :=
  match b with
  | [] => 0
  | x :: b' => Z.lor (Z_of_byte x) (Z.shiftl (le_uint b') 8)
  end.

Definition put (o : ByteOrder) (n : nat) (v : Z) : list byte :=
  match o with
  | LittleEndian => le_bytes n v
  | BigEndian => rev (le_bytes n v)
  end.

Definition get (o : ByteOrder) (b : list byte) : Z :=
  match o with
  | LittleEndian => le_uint b
  | BigEndian => le_uint (rev b)
  end.

(** [PutUintN] gives the contents of the [N/8]-byte destination. *)
Definition PutUint16 (o : ByteOrder) (v : Z) : list byte := put o 2 v.
Definition PutUint32 (o : ByteOrder) (v : Z) : list byte := put o 4 v.
Definition PutUint64 (o : ByteOrder) (v : Z) : list byte := put o 8 v.

Definition Uint16 (o : ByteOrder) (b : list byte) : Z := get o (take 2 b).
Definition Uint32 (o : ByteOrder) (b : list byte) : Z := get o (take 4 b).
Definition Uint64 (o : ByteOrder) (b : list byte) : Z := get o (take 8 b).
End binary.

(** ** Package math *)

Module math.
(** Whether the 32 bits [bits] are those of a NaN: the exponent all
    ones and the fraction not zero. *)
Definition isNaN32 (bits : Z) : bool :=
  bool_decide (Z.land bits 0x7F800000 = 0x7F800000)
  && negb (bool_decide (Z.land bits 0x007FFFFF = 0)).

(** [math.Float32bits(float32(f))], [f] being the [float64] that
    [Value.Float] returns for a [float32] with the bits [bits]: the
    two conversions give back every [float32] but a signalling NaN,
    which comes back quiet. *)
Definition Float32bits_of_Float (bits : Z) : Z :=
  if isNaN32 bits then Z.lor bits 0x00400000 else bits.
End math.

(** ** Package reflect *)

Module reflect.
Inductive Kind :=
| Invalid | Bool
| Int | Int8 | Int16 | Int32 | Int64
| Uint | Uint8 | Uint16 | Uint32 | Uint64 | Uintptr
| Float32 | Float64 | Complex64 | Complex128
| Array | Chan | Func | Interface | Map | Ptr | Slice | String | Struct
| UnsafePointer.

#[global] Instance Kind_eq_dec : EqDecision Kind.
Proof. solve_decision. Defined.

(** [Kind.String] *)
Definition Kind_String (k : Kind) : string :=
  match k with
  | Invalid => "invalid" | Bool => "bool"
  | Int => "int" | Int8 => "int8" | Int16 => "int16" | Int32 => "int32"
  | Int64 => "int64"
  | Uint => "uint" | Uint8 => "uint8" | Uint16 => "uint16"
  | Uint32 => "uint32" | Uint64 => "uint64" | Uintptr => "uintptr"
  | Float32 => "float32" | Float64 => "float64"
  | Complex64 => "complex64" | Complex128 => "complex128"
  | Array => "array" | Chan => "chan" | Func => "func"
  | Interface => "interface" | Map => "map" | Ptr => "ptr"
  | Slice => "slice" | String => "string" | Struct => "struct"
  | UnsafePointer => "unsafe.Pointer"
  end.

(** The width of an integer type; [W0] is that of [int] and [uint]. *)
Inductive width := W0 | W8 | W16 | W32 | W64.

Definition bits (w : width) : Z :=
  match w with
  | W8 => 8 | W16 => 16 | W32 => 32 | W0 | W64 => 64
  end.

(** One match of the tag expression of [visitor.go] on a field's
    [wire] tag: the whole match and its two groups, as
    [FindAllStringSubmatch] returns them. *)
Record submatch := { x0 : string; x1 : string; x2 : string }.

(** The kinds this package never looks into. *)
Inductive opaque :=
| OChan (len : nat) | OMap (len : nat) | OFunc | OInterface
| OUnsafePointer.

(** A [reflect.Value].  Its constructor is its kind.  A value of an
    integer kind holds the integer; a float holds its IEEE bit
    pattern; an array and a slice hold the zero value of their element
    type next to their elements; a struct holds its fields in
    declaration order, each with its name and the matches of the tag
    expression on its tag; a pointer owns what it points to.
    [VInvalid] is the zero [Value]. *)
Inductive Value :=
| VInvalid
| VBool (b : bool)
| VInt (w : width) (i : Z)
| VUint (w : width) (u : Z)
| VUintptr (u : Z)
| VFloat32 (bits : Z)
| VFloat64 (bits : Z)
| VComplex64 (bits : Z)
| VComplex128 (bits : Z)
| VArray (zero : Value) (elems : list Value)
| VSlice (zero : Value) (elems : list Value)
| VString (s : list byte)
| VStruct (fields : list (string * list submatch * Value))
| VPtr (pointee : option Value)
| VOther (o : opaque).

(** [reflect.StructField], with the matches of the tag expression in
    place of the raw tag. *)
Record StructField :=
  { Name : string; Tag : list submatch; Index : nat }.

Definition Kind_of (v : Value) : Kind :=
  match v with
  | VInvalid => Invalid
  | VBool _ => Bool
  | VInt W0 _ => Int | VInt W8 _ => Int8 | VInt W16 _ => Int16
  | VInt W32 _ => Int32 | VInt W64 _ => Int64
  | VUint W0 _ => Uint | VUint W8 _ => Uint8 | VUint W16 _ => Uint16
  | VUint W32 _ => Uint32 | VUint W64 _ => Uint64
  | VUintptr _ => Uintptr
  | VFloat32 _ => Float32 | VFloat64 _ => Float64
  | VComplex64 _ => Complex64 | VComplex128 _ => Complex128
  | VArray _ _ => Array
  | VSlice _ _ => Slice
  | VString _ => String
  | VStruct _ => Struct
  | VPtr _ => Ptr
  | VOther (OChan _) => Chan | VOther (OMap _) => Map
  | VOther OFunc => Func | VOther OInterface => Interface
  | VOther OUnsafePointer => UnsafePointer
  end.

Definition IsValid (v : Value) : bool :=
  match v with VInvalid => false | _ => true end.

(** [Value.Elem] of a pointer: the zero [Value] for a nil pointer. *)
Definition Elem (v : Value) : outcome Value :=
  match v with
  | VPtr (Some x) => Return x
  | VPtr None => Return VInvalid
  | _ => Panic (ReflectValueError "reflect.Value.Elem")
  end.

(** [Value.Len]: the length of an array, a slice, a string, a channel
    or a map, and of the array that a pointer points to.  It panics on
    a pointer to anything else ("reflect: call of reflect.Value.Len on
    ptr to non-array Value") and on every other kind. *)
Definition Len (v : Value) : outcome Z :=
  match v with
  | VArray _ elems | VSlice _ elems => Return (Z.of_nat (length elems))
  | VString s => Return (Z.of_nat (length s))
  | VOther (OChan len) | VOther (OMap len) => Return (Z.of_nat len)
  | VPtr (Some (VArray _ elems)) => Return (Z.of_nat (length elems))
  | VPtr _ => Panic ReflectLenOfPointer
  | _ => Panic (ReflectValueError "reflect.Value.Len")
  end.

Definition Int_ (v : Value) : outcome Z :=
  match v with
  | VInt _ i => Return i
  | _ => Panic (ReflectValueError "reflect.Value.Int")
  end.

Definition Uint_ (v : Value) : outcome Z :=
  match v with
  | VUint _ u | VUintptr u => Return u
  | _ => Panic (ReflectValueError "reflect.Value.Uint")
  end.

(** The setters need a value that can be set: [canSet] is the
    [CanSet] of the receiver. *)
Definition SetInt (v : Value) (canSet : bool) (x : Z) : outcome Value :=
  if negb canSet then Panic (ReflectUnaddressable "reflect.Value.SetInt")
  else match v with
       | VInt w _ => Return (VInt w (intN (bits w) x))
       | _ => Panic (ReflectValueError "reflect.Value.SetInt")
       end.

Definition SetUint (v : Value) (canSet : bool) (x : Z) : outcome Value :=
  if negb canSet then Panic (ReflectUnaddressable "reflect.Value.SetUint")
  else match v with
       | VUint w _ => Return (VUint w (uintN (bits w) x))
       | VUintptr _ => Return (VUintptr (uintN 64 x))
       | _ => Panic (ReflectValueError "reflect.Value.SetUint")
       end.

Definition SetString (v : Value) (canSet : bool) (x : list byte) : outcome Value :=
  if negb canSet then Panic (ReflectUnaddressable "reflect.Value.SetString")
  else match v with
       | VString _ => Return (VString x)
       | _ => Panic (ReflectValueError "reflect.Value.SetString")
       end.

(** [v.Set(reflect.MakeSlice(v.Type(), len, len))] on a slice [v]. *)
Definition Set_MakeSlice (v : Value) (canSet : bool) (len : Z) : outcome Value :=
  if bool_decide (len < 0) then Panic MakeNegativeLen
  else if negb canSet then Panic (ReflectUnaddressable "reflect.Value.Set")
  else match v with
       | VSlice zero _ => Return (VSlice zero (replicate (Z.to_nat len) zero))
       | _ => Panic (ReflectValueError "reflect.MakeSlice")
       end.

(** Whether [v.Index(i)] can be set: always in a slice, in an array
    when the array can. *)
Definition Index_CanSet (v : Value) (canSet : bool) : bool :=
  match v with
  | VSlice _ _ => true
  | _ => canSet
  end.

(** [Value.Type().Field(i)] of a struct. *)
Definition Field_of (i : nat) (f : string * list submatch) : StructField :=
  {| Name := f.1; Tag := f.2; Index := i |}.

(** [Value.FieldByName]: the zero [Value] when no field has the name
    (embedded fields are not modelled). *)
Fixpoint lookupField (fields : list (string * list submatch * Value))
    (name : string) : Value :=
  match fields with
  | [] => VInvalid
  | (nm, _, x) :: rest =>
      if bool_decide (nm = name) then x else lookupField rest name
  end.

Definition FieldByName (v : Value) (name : string) : outcome Value :=
  match v with
  | VStruct fields => Return (lookupField fields name)
  | _ => Panic (ReflectValueError "reflect.Value.FieldByName")
  end.

(** [reflect.Zero(v.Type())] *)
Fixpoint Zero (v : Value) : Value :=
  match v with
  | VInvalid => VInvalid
  | VBool _ => VBool false
  | VInt w _ => VInt w 0
  | VUint w _ => VUint w 0
  | VUintptr _ => VUintptr 0
  | VFloat32 _ => VFloat32 0
  | VFloat64 _ => VFloat64 0
  | VComplex64 _ => VComplex64 0
  | VComplex128 _ => VComplex128 0
  | VArray zero elems => VArray zero (replicate (length elems) zero)
  | VSlice zero _ => VSlice zero []
  | VString _ => VString []
  | VStruct fields => VStruct (map (fun f => (f.1, Zero f.2)) fields)
  | VPtr _ => VPtr None
  | VOther (OChan _) => VOther (OChan 0)
  | VOther (OMap _) => VOther (OMap 0)
  | VOther o => VOther o
  end.
End reflect.

Import reflect.

(** ** visitor.go *)

(** The [node] of the source.  [val] is a reference into the value under
    traversal, so [canSet] is kept next to it.  [sizeFrom] points to the
    node of a sibling and is only ever dereferenced as [sizeFrom.val]:
    it is kept as that [val], [None] for nil.  In [sizeFroms] a node is
    named by the index of the field it was built for; [None] is the nil
    map. *)
Module node.
Record t := mk {
  val : Value;
  canSet : bool;
  sizeof : Value;
  sizeFrom : option Value;
  sizeFroms : option (gmap string nat);
  endianness : option binary.ByteOrder;
  nullTerminated : bool
}.

Definition set_val (x : Value) (n : t) : t :=
  mk x (canSet n) (sizeof n) (sizeFrom n) (sizeFroms n) (endianness n)
     (nullTerminated n).
Definition set_sizeof (x : Value) (n : t) : t :=
  mk (val n) (canSet n) x (sizeFrom n) (sizeFroms n) (endianness n)
     (nullTerminated n).
Definition set_sizeFrom (x : option Value) (n : t) : t :=
  mk (val n) (canSet n) (sizeof n) x (sizeFroms n) (endianness n)
     (nullTerminated n).
Definition set_sizeFroms (x : option (gmap string nat)) (n : t) : t :=
  mk (val n) (canSet n) (sizeof n) (sizeFrom n) x (endianness n)
     (nullTerminated n).
Definition set_endianness (x : option binary.ByteOrder) (n : t) : t :=
  mk (val n) (canSet n) (sizeof n) (sizeFrom n) (sizeFroms n) x
     (nullTerminated n).
Definition set_nullTerminated (x : bool) (n : t) : t :=
  mk (val n) (canSet n) (sizeof n) (sizeFrom n) (sizeFroms n)
     (endianness n) x.
End node.

(** What the traversal of a value hands back: the value afterwards, the
    state of the visitor afterwards, and the error. *)
Definition visited (St : Type) : Type := Value * St * option error.

(** The [val] that [runVisitorInternal] gives to the node of a value: a
    pointer is followed once. *)
Definition nodeVal (x : Value) : Value :=
  match x with
  | VPtr (Some y) => y
  | VPtr None => VInvalid
  | _ => x
  end.

(** [p.sizeFroms[name]], as the [val] of the node found. *)
Definition sizeFroms_lookup (p : node.t) (name : string) : option Value :=
  m ← node.sizeFroms p;
  i ← m !! name;
  match node.val p with
  | VStruct fields => f ← fields !! i; Some (nodeVal f.2)
  | _ => None
  end.

(** The body of the loop over the matches of the tag expression. *)
Definition applyMatch (f : StructField) (x : submatch)
    (n : node.t) (p : option node.t) : outcome (node.t * option node.t) :=
  if bool_decide (x0 x = "big") then
    Return (node.set_endianness (Some binary.BigEndian) n, p)
  else if bool_decide (x0 x = "little") then
    Return (node.set_endianness (Some binary.LittleEndian) n, p)
  else if bool_decide (x0 x = "nullterm") then
    Return (node.set_nullTerminated true n, p)
  else if bool_decide (x1 x = "sizeof") then
    match p with
    | None => Panic NilPointerDereference
    | Some pn =>
        target ← FieldByName (node.val pn) (x2 x);
        let m := default ∅ (node.sizeFroms pn) in
        Return (node.set_sizeof target n,
                Some (node.set_sizeFroms (Some (<[x2 x := Index f]> m)) pn))
    end
  else Return (n, p).

Fixpoint applyMatches (f : StructField) (xs : list submatch)
    (n : node.t) (p : option node.t) : outcome (node.t * option node.t) :=
  match xs with
  | [] => Return (n, p)
  | x :: xs' => '(n', p') ← applyMatch f x n p; applyMatches f xs' n' p'
  end.

(** Lines 34 to 59 of [runVisitorInternal]: the node of [val], its
    [sizeFrom] taken from the parent, and the directives of its tag. *)
Definition newNode (val : Value) (canSet : bool) (p : option node.t)
    (f : option StructField) : outcome (node.t * option node.t) :=
  let n := node.mk val canSet VInvalid None None None false in
  n ← match p with
      | Some pn =>
          match node.sizeFroms pn, f with
          | Some _, Some fld =>
              Return (node.set_sizeFrom (sizeFroms_lookup pn (Name fld)) n)
          | Some _, None => Panic NilPointerDereference
          | None, _ => Return n
          end
      | None => Return n
      end;
  match f with
  | Some fld => applyMatches fld (Tag fld) n p
  | None => Return (n, p)
  end.

(** The kinds that [runVisitorInternal] hands to the visitor. *)
Definition isLeafKind (k : Kind) : bool :=
  match k with
  | Bool
  | Int | Int8 | Int16 | Int32 | Int64
  | Uint | Uint8 | Uint16 | Uint32 | Uint64
  | Uintptr
  | Float32 | Float64
  | Complex64 | Complex128
  | Array | Slice | String => true
  | _ => false
  end.

Definition unsupportedType (k : Kind) : error :=
  errors.New ("wire: unsupported type: " +:+ Kind_String k).

(** [p.val.Field(i)] after the traversal of field [i] left [x] there. *)
Definition storeField (i : nat) (x : Value) (n : node.t) : node.t :=
  match node.val n with
  | VStruct fields =>
      node.set_val (VStruct (alter (fun f => (f.1, x)) i fields)) n
  | _ => n
  end.

Section Driver.
Context {St : Type}.

(** The [visitor] interface: its state and its one method. *)
Variable visit : node.t -> St -> outcome (visited St).

(** The loop of the [reflect.Struct] case over the fields from the
    [i]-th on, [n] being the node of the struct and [walk] the
    recursive call.  A field's value is written back into [n.val]
    when its traversal is over; nothing reads it there in between. *)
Fixpoint fieldLoop
    (walk : Value -> bool -> option node.t -> option StructField -> St ->
            outcome (Value * option node.t * St * option error))
    (rest : list (string * list submatch * Value))
    (i : nat) (n : node.t) (s : St) {struct rest}
    : outcome (node.t * St * option error) :=
  match rest with
  | [] => Return (n, s, None)
  | (fld, x) :: rest' =>
      '(x', n', s, err) ←
        walk x (node.canSet n) (Some n) (Some (Field_of i fld)) s;
      let n := storeField i x' (default n n') in
      match err with
      | Some e => Return (n, s, Some e)
      | None => fieldLoop walk rest' (S i) n s
      end
  end.

(** [runVisitorInternal] from its line 34 on, [val] being what the
    pointer, if any, was followed to, and [self] the recursive call.
    The result is the walked value afterwards, the parent afterwards
    (its [sizeFroms] may have grown), the visitor afterwards, and the
    error. *)
Definition walk
    (self : Value -> bool -> option node.t -> option StructField -> St ->
            outcome (Value * option node.t * St * option error))
    (val : Value) (canSet : bool)
    (p : option node.t) (f : option StructField) (s : St)
    : outcome (Value * option node.t * St * option error) :=
  '(n, p) ← newNode val canSet p f;
  (* [n.val] is still [val], see [newNode_val] *)
  let n := node.set_val val n in
  match val with
  | VStruct fields =>
      '(n, s, err) ← fieldLoop self fields 0%nat n s;
      Return (node.val n, p, s, err)
  | _ =>
      if isLeafKind (Kind_of val) then
        '(val', s, err) ← visit n s;
        Return (val', p, s, err)
      else
        Return (val, p, s, Some (unsupportedType (Kind_of val)))
  end.

(** [val0] and [canSet0] make the [reflect.Value] argument; what a
    pointer points to can always be set. *)
Fixpoint runVisitorInternal (val0 : Value) (canSet0 : bool)
    (p : option node.t) (f : option StructField) (s : St) {struct val0}
    : outcome (Value * option node.t * St * option error) :=
  match val0 with
  | VPtr (Some x) =>
      '(x', p, s, err) ← walk runVisitorInternal x true p f s;
      Return (VPtr (Some x'), p, s, err)
  | VPtr None =>
      '(_, p, s, err) ← walk runVisitorInternal VInvalid true p f s;
      Return (VPtr None, p, s, err)
  | _ => walk runVisitorInternal val0 canSet0 p f s
  end.

Definition runVisitor (val : Value) (canSet : bool) (s : St)
    : outcome (visited St) :=
  '(val', _, s, err) ← runVisitorInternal val canSet None None s;
  Return (val', s, err).
End Driver.

(** ** wire.go *)

(** Arithmetic on a Go [int] wraps at 64 bits. *)
Definition int (x : Z) : Z := intN 64 x.

(** A loop [for i := 0; i < n.val.Len(); i++] whose body walks
    [n.val.Index(i)] with [f] and returns at the first error. *)
Fixpoint eachIndex {St : Type} (f : Value -> St -> outcome (visited St))
    (elems : list Value) (s : St) : outcome (list Value * St * option error) :=
  match elems with
  | [] => Return ([], s, None)
  | x :: rest =>
      '(x', s, err) ← f x s;
      match err with
      | Some e => Return (x' :: rest, s, Some e)
      | None =>
          '(rest', s, err) ← eachIndex f rest s;
          Return (x' :: rest', s, err)
      end
  end.

(** The same loop over the [len] elements of a slice fresh from
    [reflect.MakeSlice]: each of them is [zero] until it is walked. *)
Fixpoint eachFresh {St : Type} (f : St -> outcome (visited St))
    (len : nat) (zero : Value) (s : St)
    : outcome (list Value * St * option error) :=
  match len with
  | O => Return ([], s, None)
  | S len' =>
      '(x', s, err) ← f s;
      match err with
      | Some e => Return (x' :: replicate len' zero, s, Some e)
      | None =>
          '(rest', s, err) ← eachFresh f len' zero s;
          Return (x' :: rest', s, err)
      end
  end.

(** *** Sizeof *)

(** The visitor's state is its [size]. *)
Definition sizeofVisitor_visit
    (sizeof : Value -> bool -> outcome (Z * option error))
    (n : node.t) (size : Z) : outcome (visited Z) :=
  let val := node.val n in
  match val with
  | VInt W8 _ | VUint W8 _ => Return (val, int (size + 1), None)
  | VInt W16 _ | VUint W16 _ => Return (val, int (size + 2), None)
  | VInt W32 _ | VUint W32 _ | VFloat32 _ => Return (val, int (size + 4), None)
  | VInt W64 _ | VUint W64 _ | VFloat64 _ | VComplex64 _ =>
      Return (val, int (size + 8), None)
  | VComplex128 _ => Return (val, int (size + 16), None)
  | VArray zero elems | VSlice zero elems =>
      match elems with
      | [] => Return (val, size, None)
      | first :: _ =>
          if bool_decide (Kind_of zero = Struct) then
            '(_, size, err) ←
              eachIndex (fun x size =>
                           '(isize, err) ← sizeof x (Index_CanSet val (node.canSet n));
                           match err with
                           | Some e => Return (x, size, Some e)
                           | None => Return (x, int (size + isize), None)
                           end) elems size;
            Return (val, size, err)
          else
            '(isize, err) ← sizeof first (Index_CanSet val (node.canSet n));
            match err with
            | Some e => Return (val, size, Some e)
            | None =>
                Return (val, int (size + int (Z.of_nat (length elems) * isize)), None)
            end
      end
  | VString s =>
      if node.nullTerminated n then
        Return (val, int (size + int (Z.of_nat (length s) + 1)), None)
      else
        Return (val, int (size + Z.of_nat (length s)), None)
  | _ => Return (val, size, Some (unsupportedType (Kind_of val)))
  end.

Fixpoint sizeof (v : Value) (canSet : bool) {struct v}
    : outcome (Z * option error) :=
  '(_, size, err) ← runVisitor (sizeofVisitor_visit sizeof) v canSet 0;
  match err with
  | Some e => Return (-1, Some e)
  | None => Return (size, None)
  end.

(** [reflect.ValueOf(v)] cannot be set; what [v] points to can. *)
Definition Sizeof (v : Value) : outcome (Z * option error) := sizeof v false.

(** *** Encode *)

(** The first switch of [encodeVisitor.visit], on a length producer:
    [n.val] after it. *)
Definition setLength (n : node.t) : outcome Value :=
  if IsValid (node.sizeof n) then
    match node.val n with
    | VInt W8 _ | VInt W32 _ | VInt W64 _ =>
        len ← Len (node.sizeof n);
        SetInt (node.val n) (node.canSet n) len
    | VUint W8 _ | VUint W32 _ | VUint W64 _ =>
        len ← Len (node.sizeof n);
        SetUint (node.val n) (node.canSet n) len
    | _ => Return (node.val n)
    end
  else Return (node.val n).

Section Encode.
Context {W : Type} `{io.Writer W}.

(** [v.writer.Write(p)], whose results the source drops. *)
Definition write_ (writer : W) (p : list byte) : W := (io.Write writer p).2.

Definition encodeVisitor_visit
    (encode : Value -> bool -> binary.ByteOrder -> W -> outcome (visited W))
    (v_order : binary.ByteOrder) (n : node.t) (writer : W)
    : outcome (visited W) :=
  let order := default v_order (node.endianness n) in
  val ← setLength n;
  match node.val n with
  | VInt W8 _ =>
      i ← Int_ val; Return (val, write_ writer [byte_of_Z i], None)
  | VUint W8 _ =>
      u ← Uint_ val; Return (val, write_ writer [byte_of_Z u], None)
  | VInt W16 _ =>
      i ← Int_ val;
      Return (val, write_ writer (binary.PutUint16 order (uintN 16 i)), None)
  | VUint W16 _ =>
      u ← Uint_ val;
      Return (val, write_ writer (binary.PutUint16 order (uintN 16 u)), None)
  | VInt W32 _ =>
      i ← Int_ val;
      Return (val, write_ writer (binary.PutUint32 order (uintN 32 i)), None)
  | VUint W32 _ =>
      u ← Uint_ val;
      Return (val, write_ writer (binary.PutUint32 order (uintN 32 u)), None)
  | VInt W64 _ =>
      i ← Int_ val;
      Return (val, write_ writer (binary.PutUint64 order (uintN 64 i)), None)
  | VUint W64 _ =>
      u ← Uint_ val;
      Return (val, write_ writer (binary.PutUint64 order (uintN 64 u)), None)
  | VFloat32 bits =>
      Return (val, write_ writer
                     (binary.PutUint32 order (math.Float32bits_of_Float bits)), None)
  | VFloat64 bits =>
      Return (val, write_ writer (binary.PutUint64 order bits), None)
  | VArray zero elems =>
      '(elems', writer, err) ←
        eachIndex (fun x writer =>
                     encode x (Index_CanSet val (node.canSet n)) order writer)
          elems writer;
      Return (VArray zero elems', writer, err)
  | VSlice zero elems =>
      '(elems', writer, err) ←
        eachIndex (fun x writer =>
                     encode x (Index_CanSet val (node.canSet n)) order writer)
          elems writer;
      Return (VSlice zero elems', writer, err)
  | VString s =>
      let writer := (io.WriteString writer s).2 in
      if node.nullTerminated n then
        Return (val, write_ writer [x00], None)
      else Return (val, writer, None)
  | _ => Return (val, writer, Some (unsupportedType (Kind_of (node.val n))))
  end.

Fixpoint encode (v : Value) (canSet : bool) (o : binary.ByteOrder) (w : W)
    {struct v} : outcome (visited W) :=
  runVisitor (encodeVisitor_visit encode o) v canSet w.

Definition EncodeWithOrder (w : W) (v : Value) (o : binary.ByteOrder)
    : outcome (visited W) :=
  encode v false o w.

Definition Encode (w : W) (v : Value) : outcome (visited W) :=
  encode v false binary.LittleEndian w.
End Encode.

(** *** Decode *)

(** The loop of [readNullTerminatedString] over a [bytes.Buffer]: every
    [r.Read(single)] takes the next byte if there is one and reports
    [io.EOF] otherwise (see [readNull_step]). *)
Fixpoint readNull (r : bytes.Buffer) (buf : list byte)
    : list byte * option error * bytes.Buffer :=
  match r with
  | [] => ([], Some io.EOF, r)
  | single :: r' =>
      if Byte.eqb single x00 then (buf, None, r')
      else readNull r' (buf ++ [single])
  end.

Definition readNullTerminatedString (r : bytes.Buffer)
    : list byte * option error * bytes.Buffer :=
  readNull r [].

(** A fresh array [[k]byte{}], as [db], [dw], [dd] and [dq] are. *)
Definition zeroed (k : nat) : list byte := replicate k x00.

(** [db[0]] *)
Definition first_byte (b : list byte) : Z :=
  match b with
  | x :: _ => Z_of_byte x
  | [] => 0
  end.

Definition decodeVisitor_visit
    (decode : Value -> bool -> binary.ByteOrder -> bytes.Buffer ->
              outcome (visited bytes.Buffer))
    (v_order : binary.ByteOrder) (n : node.t) (reader : bytes.Buffer)
    : outcome (visited bytes.Buffer) :=
  let order := default v_order (node.endianness n) in
  let val := node.val n in
  let canSet := node.canSet n in
  match val with
  | VInt W8 _ =>
      let '(db, err, reader) := bytes.Read reader (zeroed 1) in
      val' ← SetInt val canSet (first_byte db);
      Return (val', reader, err)
  | VUint W8 _ =>
      let '(db, err, reader) := bytes.Read reader (zeroed 1) in
      val' ← SetUint val canSet (first_byte db);
      Return (val', reader, err)
  | VInt W16 _ =>
      let '(dw, err, reader) := bytes.Read reader (zeroed 2) in
      val' ← SetInt val canSet (binary.Uint16 order dw);
      Return (val', reader, err)
  | VUint W16 _ =>
      let '(dw, err, reader) := bytes.Read reader (zeroed 2) in
      val' ← SetUint val canSet (binary.Uint16 order dw);
      Return (val', reader, err)
  | VInt W32 _ =>
      let '(dd, err, reader) := bytes.Read reader (zeroed 4) in
      val' ← SetInt val canSet (binary.Uint32 order dd);
      Return (val', reader, err)
  | VUint W32 _ =>
      let '(dd, err, reader) := bytes.Read reader (zeroed 4) in
      val' ← SetUint val canSet (binary.Uint32 order dd);
      Return (val', reader, err)
  | VInt W64 _ =>
      let '(dq, err, reader) := bytes.Read reader (zeroed 8) in
      val' ← SetInt val canSet (intN 64 (binary.Uint64 order dq));
      Return (val', reader, err)
  | VUint W64 _ =>
      let '(dq, err, reader) := bytes.Read reader (zeroed 8) in
      val' ← SetUint val canSet (binary.Uint64 order dq);
      Return (val', reader, err)
  | VArray zero elems =>
      '(elems', reader, err) ←
        eachIndex (fun x reader => decode x (Index_CanSet val canSet) order reader)
          elems reader;
      Return (VArray zero elems', reader, err)
  | VSlice zero _ =>
      match node.sizeFrom n with
      | None => Return (val, reader, Some (errors.New "wire: slice with no size source"))
      | Some from =>
          u ← Uint_ from;
          let len := int u in
          val' ← Set_MakeSlice val canSet len;
          '(elems', reader, err) ←
            eachFresh (fun reader => decode zero true order reader)
              (Z.to_nat len) zero reader;
          Return (VSlice zero elems', reader, err)
      end
  | VString _ =>
      if node.nullTerminated n then
        let '(str, err, reader) := readNullTerminatedString reader in
        val' ← SetString val canSet str;
        Return (val', reader, err)
      else
        match node.sizeFrom n with
        | None => Panic NilPointerDereference
        | Some from =>
            u ← Uint_ from;
            if bool_decide (2 ^ 63 <= u) then Panic MakeLenOutOfRange
            else
              let '(buf, err, reader) :=
                bytes.Read reader (zeroed (Z.to_nat u)) in
              val' ← SetString val canSet buf;
              Return (val', reader, err)
        end
  | _ => Return (val, reader, Some (unsupportedType (Kind_of val)))
  end.

Fixpoint decode (v : Value) (canSet : bool) (o : binary.ByteOrder)
    (r : bytes.Buffer) {struct v} : outcome (visited bytes.Buffer) :=
  runVisitor (decodeVisitor_visit decode o) v canSet r.

Definition DecodeWithOrder (r : bytes.Buffer) (v : Value) (o : binary.ByteOrder)
    : outcome (visited bytes.Buffer) :=
  decode v false o r.

Definition Decode (r : bytes.Buffer) (v : Value) : outcome (visited bytes.Buffer) :=
  decode v false binary.LittleEndian r.

(** ** The directives of a tag

    What the tag expression [big|little|nullterm|(sizeof)=(\w+)] yields
    for each of the four directives. *)
Module tag.
Definition big : submatch := {| x0 := "big"; x1 := ""; x2 := "" |}.
Definition little : submatch := {| x0 := "little"; x1 := ""; x2 := "" |}.
Definition nullterm : submatch := {| x0 := "nullterm"; x1 := ""; x2 := "" |}.
Definition sizeof (name : string) : submatch :=
  {| x0 := "sizeof=" +:+ name; x1 := "sizeof"; x2 := name |}.
End tag.

(** [&v]: the argument the callers of [Encode] and [Decode] pass. *)
Definition addressOf (v : Value) : Value := VPtr (Some v).

(** ** The tag loop as a function

    What the loop over a field's tag matches leaves in the field's node
    and in the parent's [sizeFroms], when the parent is the node of a
    struct with the fields [all] (see [applyMatches_struct]). *)

Inductive directive :=
| DBig | DLittle | DNullterm | DSizeof (name : string) | DNone.

Definition classify (x : submatch) : directive :=
  if bool_decide (x0 x = "big") then DBig
  else if bool_decide (x0 x = "little") then DLittle
  else if bool_decide (x0 x = "nullterm") then DNullterm
  else if bool_decide (x1 x = "sizeof") then DSizeof (x2 x)
  else DNone.

Definition tagNode (all : list (string * list submatch * Value))
    (tags : list submatch) (n : node.t) : node.t :=
  foldl (fun n x =>
           match classify x with
           | DBig => node.set_endianness (Some binary.BigEndian) n
           | DLittle => node.set_endianness (Some binary.LittleEndian) n
           | DNullterm => node.set_nullTerminated true n
           | DSizeof name => node.set_sizeof (lookupField all name) n
           | DNone => n
           end) n tags.

Definition tagRegister (i : nat) (tags : list submatch)
    (m : option (gmap string nat)) : option (gmap string nat) :=
  foldl (fun m x =>
           match classify x with
           | DSizeof name => Some (<[name := i]> (default ∅ m))
           | _ => m
           end) m tags.

(** The node of a value walked as field [i], named [name] and tagged
    [tags], of the struct node [pn] whose fields are [all]. *)
Definition fieldNode (all : list (string * list submatch * Value))
    (pn : node.t) (name : string) (tags : list submatch)
    (val : Value) (canSet : bool) : node.t :=
  tagNode all tags
    (node.mk val canSet VInvalid (sizeFroms_lookup pn name) None None false).

(** The node of a value walked without a parent. *)
Definition rootNode (val : Value) (canSet : bool) : node.t :=
  node.mk val canSet VInvalid None None None false.

Definition isStruct (v : Value) : bool :=
  match v with VStruct _ => true | _ => false end.

(** What a call wrote, when it returned without an error. *)
Definition written {W : Type} (r : outcome (visited W)) : option W :=
  match r with
  | Return (_, w, None) => Some w
  | _ => None
  end.

(** What is left of a call when the value is forgotten: the visitor's
    state and the error. *)
Definition effect {St : Type} (r : outcome (visited St)) : outcome (St * option error) :=
  '(_, s, err) ← r; Return (s, err).

(** ** Scenarios *)

(** [struct {Cmd uint8; Len uint16 `wire:"sizeof=Name,big"`; Name string;
    Flag string `wire:"nullterm"`}] with [Cmd = 1], [Name = "ab"],
    [Flag = "x"] and [Len] holding [len]. *)
Definition Example (len : Z) : Value :=
  VStruct [("Cmd", [], VUint W8 1);
           ("Len", [tag.sizeof "Name"; tag.big], VUint W16 len);
           ("Name", [], VString [x61; x62]);
           ("Flag", [tag.nullterm], VString [x78])].

(** [struct {A [2]string}] with [A = {"a", "bbb"}]. *)
Definition TwoStrings : Value :=
  VStruct [("A", [], VArray (VString [])
                       [VString [x61]; VString [x62; x62; x62]])].

(** [struct {Count uint16 `wire:"sizeof=Items"`; Items []uint8}] with
    [Items = {7, 8, 9}] and [Count] holding [count]. *)
Definition Counted (count : Z) : Value :=
  VStruct [("Count", [tag.sizeof "Items"], VUint W16 count);
           ("Items", [], VSlice (VUint W8 0)
                           [VUint W8 7; VUint W8 8; VUint W8 9])].

(** The same with a [uint32] count. *)
Definition Counted32 (count : Z) : Value :=
  VStruct [("Count", [tag.sizeof "Items"], VUint W32 count);
           ("Items", [], VSlice (VUint W8 0)
                           [VUint W8 7; VUint W8 8; VUint W8 9])].

(** [struct {A uint8}] with [A = 1]. *)
Definition OneByte : Value := VStruct [("A", [], VUint W8 1)].

(** [struct {S string}] *)
Definition PlainString (s : list byte) : Value :=
  VStruct [("S", [], VString s)].

(** [struct {S string `wire:"nullterm"`}] *)
Definition Terminated (s : list byte) : Value :=
  VStruct [("S", [tag.nullterm], VString s)].

(** [struct {N int32 `wire:"sizeof=S"`; S []uint8}] *)
Definition SignedCount (n : Z) (s : list Value) : Value :=
  VStruct [("N", [tag.sizeof "S"], VInt W32 n);
           ("S", [], VSlice (VUint W8 0) s)].

(** [struct {N uint8; S []uint8}], no tag. *)
Definition Unlinked : Value :=
  VStruct [("N", [], VUint W8 0); ("S", [], VSlice (VUint W8 0) [])].

(** [struct {F T `wire:"big"`}] resp. [`wire:"little"`] and
    [struct {F T}], [x] being the field's value. *)
Definition order_tag (o : binary.ByteOrder) : submatch :=
  match o with
  | binary.BigEndian => tag.big
  | binary.LittleEndian => tag.little
  end.

Definition Tagged (o : binary.ByteOrder) (x : Value) : Value :=
  VStruct [("F", [order_tag o], x)].

Definition Untagged (x : Value) : Value := VStruct [("F", [], x)].

(** [struct {U16 uint16}] with [U16 = 0x0102]. *)
Definition Inner : Value := VStruct [("U16", [], VUint W16 0x0102)].


Definition walkCanSet (val0 : Value) (canSet : bool) : bool :=
  match val0 with VPtr _ => true | _ => canSet end.

Definition rewrap (val0 x' : Value) : Value :=
  match val0 with
  | VPtr (Some _) => VPtr (Some x')
  | VPtr None => VPtr None
  | _ => x'
  end.

Definition sameParent (p p' : option node.t) : Prop :=
  match p, p' with
  | Some a, Some b => node.val b = node.val a /\ node.canSet b = node.canSet a
  | None, None => True
  | _, _ => False
  end.

Definition rejectedKind (k : Kind) : bool :=
  match k with
  | Bool | Int | Uint | Uintptr => true
  | _ => false
  end.

Definition reached {St : Type} (visit : node.t -> St -> outcome (visited St))
    (top : Value) (canSet : bool) (fields : list (string * list submatch * Value))
    (i : nat) (s : St) (n' : node.t) (s' : St) : Prop :=
  fieldLoop (runVisitorInternal visit) (take i fields) 0%nat
    (rootNode (VStruct fields) (walkCanSet top canSet)) s
  = Return (n', s', None).

Definition BoolAfterByte : Value :=
  VStruct [("A", [], VUint W8 1); ("B", [], VBool true)].

Definition noSizeSource : error := errors.New "wire: slice with no size source".

(** wire_test.go *)
Definition u32 (x : Z) := VUint W32 x.
Definition innerStruct (x : Z) := VStruct [("U32", [], u32 x)].
Definition refStruct (tf ss : Z) : Value := VStruct [
  ("I8", [], VInt W8 0x11);
  ("I16", [], VInt W16 0x1122);
  ("I32", [tag.little], VInt W32 0x11223344);
  ("I64", [], VInt W64 0x1122334455667788);
  ("U8", [], VUint W8 0x11);
  ("U16", [], VUint W16 0x1122);
  ("U32", [tag.big], VUint W32 0x11223344);
  ("U64", [], VUint W64 0x1122334455667788);
  ("AU32", [], VArray (u32 0) [u32 0; u32 1; u32 2; u32 3]);
  ("SU32", [], VArray (u32 0) [u32 0; u32 1; u32 2; u32 3]);
  ("TF", [tag.little; tag.sizeof "SIS"], u32 tf);
  ("IS", [], innerStruct 0x11223344);
  ("AIS", [], VArray (innerStruct 0) [innerStruct 0; innerStruct 1]);
  ("SIS", [], VSlice (innerStruct 0) [innerStruct 0; innerStruct 1]);
  ("SZ", [tag.nullterm], VString [x68; x65; x6c; x6c; x6f]);
  ("SS", [tag.sizeof "SQ"], u32 ss);
  ("SQ", [], VString [x62; x61; x6e; x61; x6e])].

Definition refBytes : list byte := [
  x11;
  x11; x22;
  x44; x33; x22; x11;
  x11; x22; x33; x44; x55; x66; x77; x88;
  x11;
  x11; x22;
  x11; x22; x33; x44;
  x11; x22; x33; x44; x55; x66; x77; x88;
  x00; x00; x00; x00;
  x00; x00; x00; x01;
  x00; x00; x00; x02;
  x00; x00; x00; x03;
  x00; x00; x00; x00;
  x00; x00; x00; x01;
  x00; x00; x00; x02;
  x00; x00; x00; x03;
  x02; x00; x00; x00;
  x11; x22; x33; x44;
  x00; x00; x00; x00;
  x00; x00; x00; x01;
  x00; x00; x00; x00;
  x00; x00; x00; x01;
  x68; x65; x6c; x6c; x6f; x00;
  x00; x00; x00; x05;
  x62; x61; x6e; x61; x6e].

(** ** Values that round trip *)

#[global] Instance width_eq_dec : EqDecision width.
Proof. solve_decision. Defined.
#[global] Instance submatch_eq_dec : EqDecision submatch.
Proof. solve_decision. Defined.
#[global] Instance opaque_eq_dec : EqDecision opaque.
Proof. solve_decision. Defined.
#[global] Instance byte_eq_dec : EqDecision byte := Byte.byte_eq_dec.

Fixpoint Value_eqb (a b : Value) {struct a} : bool :=
  match a, b with
  | VInvalid, VInvalid => true
  | VBool x, VBool y => bool_decide (x = y)
  | VInt w x, VInt w' y => bool_decide (w = w') && bool_decide (x = y)
  | VUint w x, VUint w' y => bool_decide (w = w') && bool_decide (x = y)
  | VUintptr x, VUintptr y => bool_decide (x = y)
  | VFloat32 x, VFloat32 y => bool_decide (x = y)
  | VFloat64 x, VFloat64 y => bool_decide (x = y)
  | VComplex64 x, VComplex64 y => bool_decide (x = y)
  | VComplex128 x, VComplex128 y => bool_decide (x = y)
  | VArray z l, VArray z' l' =>
      Value_eqb z z' &&
      (fix all2 (l l' : list Value) {struct l} : bool :=
         match l, l' with
         | [], [] => true
         | x :: l, y :: l' => Value_eqb x y && all2 l l'
         | _, _ => false
         end) l l'
  | VSlice z l, VSlice z' l' =>
      Value_eqb z z' &&
      (fix all2 (l l' : list Value) {struct l} : bool :=
         match l, l' with
         | [], [] => true
         | x :: l, y :: l' => Value_eqb x y && all2 l l'
         | _, _ => false
         end) l l'
  | VString s, VString s' => bool_decide (s = s')
  | VStruct fs, VStruct fs' =>
      (fix all2 (l l' : list (string * list submatch * Value)) {struct l} : bool :=
         match l, l' with
         | [], [] => true
         | (f, x) :: l, (f', y) :: l' =>
             bool_decide (f = f') && Value_eqb x y && all2 l l'
         | _, _ => false
         end) fs fs'
  | VPtr None, VPtr None => true
  | VPtr (Some x), VPtr (Some y) => Value_eqb x y
  | VOther o, VOther o' => bool_decide (o = o')
  | _, _ => false
  end.

Definition fixedWidth (w : width) : bool :=
  match w with W0 => false | _ => true end.

Definition inInt (w : width) (i : Z) : bool :=
  bool_decide (- 2 ^ (bits w - 1) <= i < 2 ^ (bits w - 1)).

Definition inUint (w : width) (u : Z) : bool :=
  bool_decide (0 <= u < 2 ^ bits w).

Definition lengthFrom (n : node.t) : option Z :=
  match node.sizeFrom n with
  | Some from =>
      match Uint_ from with
      | Return u => Some u
      | Panic _ => None
      end
  | None => None
  end.

Definition holdsLength (n : node.t) (len : nat) : bool :=
  match lengthFrom n with
  | Some u => bool_decide (u = Z.of_nat len) && bool_decide (u < 2 ^ 63)
  | None => false
  end.

Definition keptBySetLength (n : node.t) : bool :=
  match setLength n with
  | Return v => Value_eqb v (node.val n)
  | Panic _ => false
  end.

Definition leafRoundTrips (self : Value -> bool) (n : node.t) (x : Value) : bool :=
  match x with
  | VInt w i => fixedWidth w && inInt w i && keptBySetLength n
  | VUint w u => fixedWidth w && inUint w u && keptBySetLength n
  | VArray zero elems =>
      forallb (fun e => self e && Value_eqb (Zero e) zero) elems
  | VSlice zero elems =>
      negb (bool_decide (elems = []))
      && holdsLength n (length elems)
      && forallb (fun e => self e && Value_eqb (Zero e) zero) elems
  | VString s =>
      if node.nullTerminated n then forallb (fun b => negb (Byte.eqb b x00)) s
      else holdsLength n (length s)
  | _ => false
  end.

Definition parentOf (all : list (string * list submatch * Value))
    (reg : option (gmap string nat)) : node.t :=
  node.mk (VStruct all) true VInvalid None reg None false.

Fixpoint fieldsRoundTrip (self : Value -> bool)
    (all rest : list (string * list submatch * Value))
    (i : nat) (reg : option (gmap string nat)) {struct rest} : bool :=
  match rest with
  | [] => true
  | (name, tags, x) :: rest' =>
      match x with
      | VStruct _ => self x
      | _ => leafRoundTrips self (fieldNode all (parentOf all reg) name tags x true) x
      end
      && fieldsRoundTrip self all rest' (S i) (tagRegister i tags reg)
  end.

Fixpoint roundTrips (v : Value) : bool :=
  match v with
  | VStruct fields => fieldsRoundTrip roundTrips fields fields 0 None
  | _ => leafRoundTrips roundTrips (rootNode v true) v
  end.


Definition children (v : Value) : list Value :=
  match v with
  | VArray zero elems | VSlice zero elems => zero :: elems
  | VStruct fields => map snd fields
  | VPtr (Some x) => [x]
  | _ => []
  end.

(** [v] round trips through the bytes [bs] under the order [o]. *)
Definition roundTripsWith (o : binary.ByteOrder) (v : Value) (bs : list byte) : Prop :=
  (forall w : bytes.Buffer, encode v true o w = Return (v, w ++ bs, None))
  /\ (forall r, decode (Zero v) true o (bs ++ r) = Return (v, r, None)).

Definition zeroFields (fields : list (string * list submatch * Value))
  : list (string * list submatch * Value) :=
  map (fun f => (f.1, Zero f.2)) fields.

(** Every node registered so far belongs to a field before the [i]-th. *)
Definition registeredBelow (reg : option (gmap string nat)) (i : nat) : Prop :=
  forall m name j, reg = Some m -> m !! name = Some j -> (j < i)%nat.

(** The loop over the fields of a struct round trips through [bs]:
    [ne] is the node of the struct in [Encode], [nd] the node of the
    fresh struct in [Decode]. *)
Definition structRoundTripsWith (o : binary.ByteOrder)
    (fields : list (string * list submatch * Value)) (bs : list byte) : Prop :=
  forall ne nd,
    node.val ne = VStruct fields -> node.canSet ne = true ->
    node.sizeFroms ne = None ->
    node.val nd = VStruct (zeroFields fields) -> node.canSet nd = true ->
    node.sizeFroms nd = None ->
    (forall w : bytes.Buffer, exists ne',
        fieldLoop (runVisitorInternal (encodeVisitor_visit encode o)) fields 0%nat ne w
        = Return (ne', w ++ bs, None) /\ node.val ne' = VStruct fields)
    /\ (forall r, exists nd',
          fieldLoop (runVisitorInternal (decodeVisitor_visit decode o))
            (zeroFields fields) 0%nat nd (bs ++ r)
          = Return (nd', r, None) /\ node.val nd' = VStruct fields).

Definition roundTripsAnywhere (v : Value) : Prop :=
  roundTrips v = true ->
  forall o, exists bs,
    roundTripsWith o v bs
    /\ (forall fields, v = VStruct fields -> structRoundTripsWith o fields bs).

(** What the loop over the fields [rest], the first of which has the
    index [i], leaves in the [sizeFroms] of the struct's node. *)
Fixpoint registered (rest : list (string * list submatch * Value)) (i : nat)
    (reg : option (gmap string nat)) : option (gmap string nat) :=
  match rest with
  | [] => reg
  | (_, tags, _) :: rest' => registered rest' (S i) (tagRegister i tags reg)
  end.

(** The kinds that [runVisitorInternal] turns away itself: neither
    handed to the visitor nor a struct. *)
Definition refusedKind (k : Kind) : bool :=
  negb (isLeafKind k) && negb (bool_decide (k = Struct)).

(** [struct {A uint8; P *T}] with [A = 1] and [P] nil. *)
Definition NilAfterByte : Value :=
  VStruct [("A", [], VUint W8 1); ("P", [], VPtr None)].

(** ** Floats and complex numbers *)

Definition isFloat (v : Value) : bool :=
  match v with VFloat32 _ | VFloat64 _ => true | _ => false end.

Definition isComplex (v : Value) : bool :=
  match v with VComplex64 _ | VComplex128 _ => true | _ => false end.

(** The size in bytes that [sizeofVisitor.visit] counts for a float or
    a complex number. *)
Definition scalarSize (v : Value) : Z :=
  match v with
  | VFloat32 _ => 4
  | VFloat64 _ | VComplex64 _ => 8
  | VComplex128 _ => 16
  | _ => 0
  end.

(** [struct {A uint8; F float32}] *)
Definition FloatAfterByte (bits : Z) : Value :=
  VStruct [("A", [], VUint W8 1); ("F", [], VFloat32 bits)].

(** [struct {A uint8; C complex128}] *)
Definition ComplexAfterByte (bits : Z) : Value :=
  VStruct [("A", [], VUint W8 1); ("C", [], VComplex128 bits)].

(** ** Input that ends early *)

(** The number of bytes of an integer of width [w] on the wire. *)
Definition bytesOf (w : width) : nat :=
  match w with
  | W8 => 1 | W16 => 2 | W32 => 4 | W0 | W64 => 8
  end.

(** [struct {N uint8 `wire:"sizeof=S"`; S string}] *)
Definition Sized (n : Z) (s : list byte) : Value :=
  VStruct [("N", [tag.sizeof "S"], VUint W8 n); ("S", [], VString s)].

(** [struct {N uint64 `wire:"sizeof=S"`; S T}], [x] the value of [S] *)
Definition Announced (n : Z) (x : Value) : Value :=
  VStruct [("N", [tag.sizeof "S"], VUint W64 n); ("S", [], x)].

(** ** What the encoder does with its writer *)

(** Two results that are the same up to the visitor's state, where [R]
    holds: the same value and error, or the same panic. *)
Definition agree {A S1 S2 : Type} (R : S1 -> S2 -> Prop)
    (r1 : outcome (A * S1 * option error)) (r2 : outcome (A * S2 * option error))
  : Prop :=
  match r1, r2 with
  | Return (a1, s1, e1), Return (a2, s2, e2) => a1 = a2 /\ R s1 s2 /\ e1 = e2
  | Panic y1, Panic y2 => y1 = y2
  | _, _ => False
  end.

(** The encoder walks [v] alike with two writers related by [R]. *)
Definition alikeAt (W1 W2 : Type) `{io.Writer W1} `{io.Writer W2}
    (R : W1 -> W2 -> Prop) (v : Value) : Prop :=
  forall canSet o p f (w1 : W1) (w2 : W2), R w1 w2 ->
    agree R (runVisitorInternal (encodeVisitor_visit encode o) v canSet p f w1)
            (runVisitorInternal (encodeVisitor_visit encode o) v canSet p f w2).

Definition alikeWalk (W1 W2 : Type) `{io.Writer W1} `{io.Writer W2}
    (R : W1 -> W2 -> Prop) (x : Value) : Prop :=
  forall canSet o p f (w1 : W1) (w2 : W2), R w1 w2 ->
    agree R (walk (encodeVisitor_visit encode o)
               (runVisitorInternal (encodeVisitor_visit encode o)) x canSet p f w1)
            (walk (encodeVisitor_visit encode o)
               (runVisitorInternal (encodeVisitor_visit encode o)) x canSet p f w2).

(** A writer that keeps the arguments of the calls of [Write] it
    received, oldest first, and never fails. *)
Definition recorder := list (list byte).

#[global] Instance recorder_Writer : io.Writer recorder := fun w p => (None, w ++ [p]).

(** The writer [w] after calls of [Write] with the arguments [ps], one
    after the other. *)
Definition replay {W : Type} `{io.Writer W} (w : W) (ps : list (list byte)) : W :=
  foldl write_ w ps.

(** ** Values passed without a pointer *)

(** No pointer in [v] where a traversal that starts at [v] itself,
    not at a pointer to it, can get to: below arrays and structs. *)
Fixpoint noPointer (v : Value) : bool :=
  match v with
  | VPtr _ => false
  | VArray _ elems => forallb noPointer elems
  | VStruct fields => forallb (fun f => noPointer f.2) fields
  | _ => true
  end.

(** [Decode] gave nothing to [v]: it left [v] as it was and, unless it
    returned an error, read nothing. *)
Definition nothingDecoded {A : Type} (v : Value) (r : bytes.Buffer)
    (res : outcome (Value * A * bytes.Buffer * option error)) : Prop :=
  forall v' a r' e, res = Return (v', a, r', e) ->
    v' = v /\ (e = None -> r' = r).

(** [struct {A [0]uint8}], which holds nothing to decode. *)
Definition EmptyArray : Value := VStruct [("A", [], VArray (VUint W8 0) [])].

(** [struct {F T `wire:"..."`}] with the byte-order directives [ds], in
    this order, in the tag of [F]. *)
Definition Ordered (ds : list binary.ByteOrder) (x : Value) : Value :=
  VStruct [("F", map order_tag ds, x)].

(** ** Where a length producer is declared *)

#[global] Instance directive_eq_dec : EqDecision directive.
Proof. solve_decision. Defined.

(** Whether the tag matches [tags] hold a [sizeof] directive for the
    field [name]. *)
Definition declaresSizeof (name : string) (tags : list submatch) : bool :=
  existsb (fun x => bool_decide (classify x = DSizeof name)) tags.

(** [struct {S []uint8; N uint8 `wire:"sizeof=S"`}]: the length comes
    after the slice. *)
Definition LengthAfter : Value :=
  VStruct [("S", [], VSlice (VUint W8 0) []);
           ("N", [tag.sizeof "S"], VUint W8 0)].

(** ** Traversals that leave the value alone *)

(** The elements of an array or slice. *)
Definition elements (v : Value) : list Value :=
  match v with
  | VArray _ elems | VSlice _ elems => elems
  | _ => []
  end.

(** Every tag of every field anywhere in [v] passes [tagsOk]. *)
Fixpoint tagsAll (tagsOk : list submatch -> bool) (v : Value) : bool :=
  match v with
  | VArray _ elems | VSlice _ elems => forallb (tagsAll tagsOk) elems
  | VStruct fields =>
      forallb (fun f => tagsOk f.1.2 && tagsAll tagsOk f.2) fields
  | VPtr (Some x) => tagsAll tagsOk x
  | _ => true
  end.

(** Two parents of the walk of one field, in two traversals of the
    same struct: they may differ in [canSet]. *)
Definition siblings (tagsOk : list submatch -> bool)
    (p1 p2 : option node.t) (f : option StructField) : Prop :=
  match p1, p2, f with
  | None, None, None => True
  | Some n1, Some n2, Some fld =>
      isStruct (node.val n1) = true /\ node.val n1 = node.val n2
      /\ node.sizeFroms n1 = node.sizeFroms n2 /\ tagsOk (Tag fld) = true
  | _, _, _ => False
  end.

(** The visitors [visit o] walk [v] alike whether or not it can be
    set, leave it as it is, and do not panic. *)
Definition keptAt {P St : Type} (visit : P -> node.t -> St -> outcome (visited St))
    (tagsOk : list submatch -> bool) (v : Value) : Prop :=
  forall o c1 c2 p1 p2 f s, siblings tagsOk p1 p2 f ->
    exists s' e p1' p2',
      runVisitorInternal (visit o) v c1 p1 f s = Return (v, p1', s', e)
      /\ runVisitorInternal (visit o) v c2 p2 f s = Return (v, p2', s', e).

(** The same for the walk from line 34 of [runVisitorInternal] on. *)
Definition keptWalk {P St : Type} (visit : P -> node.t -> St -> outcome (visited St))
    (tagsOk : list submatch -> bool) (x : Value) : Prop :=
  forall o c1 c2 p1 p2 f s, siblings tagsOk p1 p2 f ->
    exists s' e p1' p2',
      walk (visit o) (runVisitorInternal (visit o)) x c1 p1 f s
      = Return (x, p1', s', e)
      /\ walk (visit o) (runVisitorInternal (visit o)) x c2 p2 f s
         = Return (x, p2', s', e).

(** Whether the tag matches [tags] hold a [sizeof] directive. *)
Definition hasSizeof (tags : list submatch) : bool :=
  existsb (fun x => match classify x with DSizeof _ => true | _ => false end) tags.

(** No field anywhere in [v] carries a [sizeof] directive. *)
Definition noSizeof (v : Value) : bool :=
  tagsAll (fun tags => negb (hasSizeof tags)) v.

(** [struct {A uint8; P *struct {U16 uint16}}] *)
Definition WithPointer : Value :=
  VStruct [("A", [], VUint W8 1); ("P", [], VPtr (Some Inner))].

(** ** Values that [Sizeof] measures right *)

(** The number of bytes of every value of a type, when the type fixes
    it: integers, floats and arrays of such.  The type is given by its
    zero value. *)
Fixpoint typeSize (z : Value) : option Z :=
  match z with
  | VInt w _ | VUint w _ =>
      if fixedWidth w then Some (Z.of_nat (bytesOf w)) else None
  | VFloat32 _ => Some 4
  | VFloat64 _ => Some 8
  | VArray zero elems =>
      match typeSize zero with
      | Some t => Some (Z.of_nat (length elems) * t)
      | None => None
      end
  | _ => None
  end.

(** The values that [Encode] accepts and in which every array and
    slice holds elements of its element type, that type being a struct
    or of a fixed size: these take the path of [sizeofVisitor.visit]
    that measures every element, or all their elements measure the
    same as the first. *)
Fixpoint measured (v : Value) : bool :=
  match v with
  | VInt w _ | VUint w _ => fixedWidth w
  | VFloat32 _ | VFloat64 _ => true
  | VString _ => true
  | VArray zero elems | VSlice zero elems =>
      forallb (fun e => measured e && Value_eqb (Zero e) zero) elems
      && (isStruct zero || bool_decide (is_Some (typeSize zero)))
  | VStruct fields => forallb (fun f => measured f.2) fields
  | VPtr (Some x) => measured x
  | _ => false
  end.

(** Two parents of the walk of one field, one in each of two
    traversals of structs with the same fields. *)
Definition bothStructs (p1 p2 : option node.t) (f : option StructField) : Prop :=
  match p1, p2, f with
  | None, None, None => True
  | Some n1, Some n2, Some _ =>
      isStruct (node.val n1) = true /\ isStruct (node.val n2) = true
  | _, _, _ => False
  end.

(** Where the encoder walks [v] without an error, the measuring
    visitor counts the bytes written. *)
Definition measuredAt (v : Value) : Prop :=
  forall c cs o pe ps f (w : bytes.Buffer) size v' pe' w',
    bothStructs pe ps f -> int size = size ->
    runVisitorInternal (encodeVisitor_visit encode o) v c pe f w
    = Return (v', pe', w', None) ->
    exists bs ps',
      w' = w ++ bs
      /\ runVisitorInternal (sizeofVisitor_visit sizeof) v cs ps f size
         = Return (v, ps', int (size + Z.of_nat (length bs)), None).

(** The same for the walk from line 34 of [runVisitorInternal] on. *)
Definition measuredWalk (x : Value) : Prop :=
  forall c cs o pe ps f (w : bytes.Buffer) size v' pe' w',
    bothStructs pe ps f -> int size = size ->
    walk (encodeVisitor_visit encode o)
      (runVisitorInternal (encodeVisitor_visit encode o)) x c pe f w
    = Return (v', pe', w', None) ->
    exists bs ps',
      w' = w ++ bs
      /\ walk (sizeofVisitor_visit sizeof)
           (runVisitorInternal (sizeofVisitor_visit sizeof)) x cs ps f size
         = Return (x, ps', int (size + Z.of_nat (length bs)), None).

(** ** What the target of [Decode] held before *)

(** Every array in [v] holds elements of its element type, and [v]
    holds no pointer. *)
Fixpoint typed (v : Value) : bool :=
  match v with
  | VArray zero elems => forallb (fun e => typed e && Value_eqb (Zero e) zero) elems
  | VStruct fields => forallb (fun f => typed f.2) fields
  | VPtr _ => false
  | _ => true
  end.

(** Two results of [Decode] that are the same but for what a failed
    call leaves in the value: the same panic, or the same reader and
    error and, where the error is nil, the same value. *)
Definition sameDecoded (r1 r2 : outcome (visited bytes.Buffer)) : Prop :=
  match r1, r2 with
  | Return (v1, s1, e1), Return (v2, s2, e2) =>
      s1 = s2 /\ e1 = e2 /\ (e1 = None -> v1 = v2)
  | Panic y1, Panic y2 => y1 = y2
  | _, _ => False
  end.

(** The result of a walk without the parent. *)
Definition dropParent {St : Type}
    (r : outcome (Value * option node.t * St * option error)) : outcome (visited St) :=
  '(v, _, s, e) ← r; Return (v, s, e).

(** The walk of [v] and the walk of the zero value of its type decode
    the same, on their own and as the field [Index fld] of two structs
    that agree in the fields before it and in what is registered. *)
Definition priorAt (v : Value) : Prop :=
  forall c o r,
    sameDecoded
      (dropParent (runVisitorInternal (decodeVisitor_visit decode o) v c None None r))
      (dropParent (runVisitorInternal (decodeVisitor_visit decode o) (Zero v) c None None r))
    /\ forall pe pz fld all allz,
         node.val pe = VStruct all -> node.val pz = VStruct allz ->
         node.sizeFroms pz = node.sizeFroms pe ->
         registeredBelow (node.sizeFroms pe) (Index fld) ->
         (forall j, (j < Index fld)%nat -> allz !! j = all !! j) ->
         sameDecoded
           (dropParent (runVisitorInternal (decodeVisitor_visit decode o) v c
                          (Some pe) (Some fld) r))
           (dropParent (runVisitorInternal (decodeVisitor_visit decode o) (Zero v) c
                          (Some pz) (Some fld) r)).

(** ** [Encode] a second time *)

(** Two values of one kind that [Value.Len] does not tell apart. *)
Definition sameLen (a b : Value) : Prop :=
  Kind_of a = Kind_of b /\ Len a = Len b.

(** The fields of two structs of one type, field by field of the same
    length where they have one. *)
Definition related (all1 all2 : list (string * list submatch * Value)) : Prop :=
  Forall2 (fun f g => f.1 = g.1 /\ sameLen f.2 g.2) all1 all2.

(** Two parents of the walk of one field, in two traversals of
    structs with [related] fields. *)
Definition sameTargets (p1 p2 : option node.t) (f : option StructField) : Prop :=
  match p1, p2, f with
  | None, None, None => True
  | Some n1, Some n2, Some _ =>
      exists all1 all2,
        node.val n1 = VStruct all1 /\ node.val n2 = VStruct all2
        /\ node.canSet n1 = node.canSet n2 /\ related all1 all2
  | _, _, _ => False
  end.

(** What the encoder left of [v] it walks again without a change,
    writing the same bytes and ending the same way. *)
Definition againAt (v : Value) : Prop :=
  forall c o p1 p2 f (w1 w2 : bytes.Buffer) v' p1' w1' e,
    sameTargets p1 p2 f ->
    runVisitorInternal (encodeVisitor_visit encode o) v c p1 f w1
    = Return (v', p1', w1', e) ->
    sameLen v v'
    /\ exists bs p2',
         w1' = w1 ++ bs
         /\ runVisitorInternal (encodeVisitor_visit encode o) v' c p2 f w2
            = Return (v', p2', w2 ++ bs, e).

(** The same for the walk from line 34 of [runVisitorInternal] on. *)
Definition againWalk (x : Value) : Prop :=
  forall c o p1 p2 f (w1 w2 : bytes.Buffer) x' p1' w1' e,
    sameTargets p1 p2 f ->
    walk (encodeVisitor_visit encode o)
      (runVisitorInternal (encodeVisitor_visit encode o)) x c p1 f w1
    = Return (x', p1', w1', e) ->
    sameLen x x'
    /\ exists bs p2',
         w1' = w1 ++ bs
         /\ walk (encodeVisitor_visit encode o)
              (runVisitorInternal (encodeVisitor_visit encode o)) x' c p2 f w2
            = Return (x', p2', w2 ++ bs, e).

(** ** The errors returned *)

(** Every error that the traversal of [v] by the visitors [visit o]
    returns passes [okErr]. *)
Definition errsAt {P St : Type} (visit : P -> node.t -> St -> outcome (visited St))
    (okErr : error -> Prop) (v : Value) : Prop :=
  forall o c p f s v' p' s' e,
    runVisitorInternal (visit o) v c p f s = Return (v', p', s', Some e) -> okErr e.

(** The errors of [Decode] from a [bytes.Buffer]. *)
Definition decodeError (e : error) : Prop :=
  (exists k, e = unsupportedType k)
  \/ e = errors.New "wire: slice with no size source"
  \/ e = io.EOF.

(** ** Targets on which [Decode] cannot panic *)

(** The fields that may give a length: [uint8], [uint16] and
    [uint32]. *)
Definition sizer (v : Value) : bool :=
  match v with
  | VUint W8 _ | VUint W16 _ | VUint W32 _ => true
  | _ => false
  end.

(** Whether the tag matches [tags] hold the directive [nullterm]. *)
Definition hasNullterm (tags : list submatch) : bool :=
  existsb (fun x => match classify x with DNullterm => true | _ => false end) tags.

(** What is known of the [sizeFrom] of the node of the field [name],
    [reg] being the [sizeFroms] of the struct's node: [None] for nil,
    otherwise whether it is the node of a [sizer]. *)
Definition sourceOf (all : list (string * list submatch * Value))
    (reg : option (gmap string nat)) (name : string) : option bool :=
  m ← reg; j ← m !! name; f ← all !! j; Some (sizer f.2).

(** The targets of [Decode] whose strings are null-terminated or get
    their length from a [sizer] declared before them, and whose slices
    get theirs from such a field or from nowhere.  [src] and [nt] say
    what the node of [v] has as [sizeFrom] and [nullTerminated]. *)
Fixpoint panicFree (src : option bool) (nt : bool) (v : Value) {struct v} : bool :=
  match v with
  | VString _ => nt || bool_decide (src = Some true)
  | VSlice zero _ =>
      match src with
      | None => true
      | Some good => good && panicFree None false zero
      end
  | VArray _ elems => forallb (panicFree None false) elems
  | VStruct fields =>
      (fix go (rest : list (string * list submatch * Value)) (i : nat)
           (reg : option (gmap string nat)) {struct rest} : bool :=
         match rest with
         | [] => true
         | (nm, tags, x) :: rest' =>
             panicFree (sourceOf fields reg nm) (hasNullterm tags) x
             && go rest' (S i) (tagRegister i tags reg)
         end) fields 0%nat None
  | VPtr (Some x) => panicFree src nt x
  | _ => true
  end.

(** The loop of [panicFree] over the fields [rest] of the struct with
    the fields [all]. *)
Fixpoint panicFreeFields (all rest : list (string * list submatch * Value)) (i : nat)
    (reg : option (gmap string nat)) : bool :=
  match rest with
  | [] => true
  | (nm, tags, x) :: rest' =>
      panicFree (sourceOf all reg nm) (hasNullterm tags) x
      && panicFreeFields all rest' (S i) (tagRegister i tags reg)
  end.

(** A [sizeFrom] as [src] describes it. *)
Definition srcOk (src : option bool) (sf : option Value) : Prop :=
  match src with
  | None => sf = None
  | Some true => exists w u, sf = Some (VUint w u) /\ 0 <= u < 2 ^ 63
  | Some false => True
  end.

(** What [Decode] leaves of [v] where it returns no error: a [sizer]
    stays one, and holds less than 2^63. *)
Definition settled (v v' : Value) : Prop :=
  sizer v' = sizer v
  /\ (sizer v = true -> exists w u, v' = VUint w u /\ 0 <= u < 2 ^ 63).

(** The walk of [v] by the decoder returns, when the node of [v] is
    as [src] and [nt] say and can be set. *)
Definition calmAt (src : option bool) (nt : bool) (v : Value) : Prop :=
  forall o c p f (r : bytes.Buffer) n q,
    newNode (nodeVal v) (walkCanSet v c) p f = Return (n, q) ->
    walkCanSet v c = true ->
    srcOk src (node.sizeFrom n) -> node.nullTerminated n = nt ->
    exists v' r' e,
      runVisitorInternal (decodeVisitor_visit decode o) v c p f r
      = Return (v', q, r', e)
      /\ (e = None -> settled v v').

(** The same for the walk from line 34 of [runVisitorInternal] on. *)
Definition calmWalk (src : option bool) (nt : bool) (x : Value) : Prop :=
  forall o p f (r : bytes.Buffer) n q,
    newNode x true p f = Return (n, q) ->
    srcOk src (node.sizeFrom n) -> node.nullTerminated n = nt ->
    exists x' r' e,
      walk (decodeVisitor_visit decode o)
        (runVisitorInternal (decodeVisitor_visit decode o)) x true p f r
      = Return (x', q, r', e)
      /\ (e = None -> settled x x').

(** ** Values on which [Encode] cannot panic *)

(** Whether [Value.Len] returns. *)
Definition hasLen (v : Value) : bool :=
  match Len v with
  | Return _ => true
  | Panic _ => false
  end.

(** The [sizeof] that the tag matches [tags] give to the node of a
    field of the struct with the fields [all]: the zero [Value] where
    no directive names a field. *)
Definition targetOf (all : list (string * list submatch * Value))
    (tags : list submatch) : Value :=
  node.sizeof (tagNode all tags (rootNode VInvalid true)).

(** The values in which every length field that [Encode] patches
    names a field that has a length, or no field.  [sz] is the
    [sizeof] of the node of [v]. *)
Fixpoint patchFree (sz : Value) (v : Value) {struct v} : bool :=
  match v with
  | VInt W8 _ | VInt W32 _ | VInt W64 _
  | VUint W8 _ | VUint W32 _ | VUint W64 _ => negb (IsValid sz) || hasLen sz
  | VArray _ elems | VSlice _ elems => forallb (patchFree VInvalid) elems
  | VStruct fields =>
      forallb (fun f => patchFree (targetOf fields f.1.2) f.2) fields
  | VPtr (Some x) => patchFree sz x
  | _ => true
  end.

(** The walk of [v] by the encoder returns, when the node of [v] can
    be set and its [sizeof] is as long as [sz]. *)
Definition quietAt (sz : Value) (v : Value) : Prop :=
  forall o c p f (w : bytes.Buffer) n q,
    newNode (nodeVal v) (walkCanSet v c) p f = Return (n, q) ->
    walkCanSet v c = true ->
    sameLen sz (node.sizeof n) ->
    exists v' w' e,
      runVisitorInternal (encodeVisitor_visit encode o) v c p f w
      = Return (v', q, w', e).

(** The same for the walk from line 34 of [runVisitorInternal] on. *)
Definition quietWalk (sz : Value) (x : Value) : Prop :=
  forall o p f (w : bytes.Buffer) n q,
    newNode x true p f = Return (n, q) ->
    sameLen sz (node.sizeof n) ->
    exists x' w' e,
      walk (encodeVisitor_visit encode o)
        (runVisitorInternal (encodeVisitor_visit encode o)) x true p f w
      = Return (x', q, w', e).

(** ** What a traversal reaches *)

Section Reaching.
Context {P St : Type}.

(** The visitors of an operation, by what the operation hands to its
    visitor (a byte order, or nothing). *)
Variable visit : P -> node.t -> St -> outcome (visited St).

(** [elementCall o n s o' x c' s']: the visitor [visit o], at the node
    [n] of an array or slice and in the state [s], gets to the call of
    the operation on the element [x], with [c'] for whether [x] can be
    set, with the visitor [visit o'] in the state [s']. *)
Variable elementCall : P -> node.t -> St -> P -> Value -> bool -> St -> Prop.

(** The traversal of [v], started by [runVisitorInternal] with the
    parent [p], the field [f] and the visitor [visit o] in the state
    [s], reaches a value of kind [k]: the value is [v] itself (what a
    pointer points to), or the traversal of a field of the struct [v]
    reaches it, the fields before having been walked without an
    error, or the traversal of an element of the array or slice [v]
    does. *)
Inductive Reaches (k : Kind)
  : P -> Value -> bool -> option node.t -> option StructField -> St -> Prop :=
| Reaches_here o v c p f s n q :
    newNode (nodeVal v) (walkCanSet v c) p f = Return (n, q) ->
    Kind_of (nodeVal v) = k ->
    Reaches k o v c p f s
| Reaches_field o v c p f s n q pre fld x rest n' s' :
    newNode (nodeVal v) (walkCanSet v c) p f = Return (n, q) ->
    nodeVal v = VStruct (pre ++ (fld, x) :: rest) ->
    fieldLoop (runVisitorInternal (visit o)) pre 0%nat
      (node.set_val (nodeVal v) n) s = Return (n', s', None) ->
    Reaches k o x (node.canSet n') (Some n') (Some (Field_of (length pre) fld)) s' ->
    Reaches k o v c p f s
| Reaches_element o v c p f s n q o' x c' s' :
    newNode (nodeVal v) (walkCanSet v c) p f = Return (n, q) ->
    elementCall o (node.set_val (nodeVal v) n) s o' x c' s' ->
    Reaches k o' x c' None None s' ->
    Reaches k o v c p f s.
End Reaching.

(** [sizeofVisitor.visit] calls [sizeof] on every element of an array
    or slice of structs, up to the first error, and on the first
    element of any other array or slice; each call starts a visitor
    of its own. *)
Definition sizeofCalls (_ : unit) (n : node.t) (size : Z)
    (_ : unit) (x : Value) (c' : bool) (size' : Z) : Prop :=
  size' = 0 /\ c' = Index_CanSet (node.val n) (node.canSet n)
  /\ exists zero elems,
       (node.val n = VArray zero elems \/ node.val n = VSlice zero elems)
       /\ if bool_decide (Kind_of zero = Struct) then
            exists pre rest,
              elems = pre ++ x :: rest
              /\ Forall (fun y => exists isize, sizeof y c' = Return (isize, None)) pre
          else exists rest, elems = x :: rest.

(** [encodeVisitor.visit] calls [encode] on the elements of an array
    or slice in turn, with its writer and the order of the node, up to
    the first error. *)
Definition encodeCalls {W : Type} `{io.Writer W} (o : binary.ByteOrder) (n : node.t)
    (w : W) (o' : binary.ByteOrder) (x : Value) (c' : bool) (w' : W) : Prop :=
  o' = default o (node.endianness n)
  /\ c' = Index_CanSet (node.val n) (node.canSet n)
  /\ exists pre rest pre',
       elements (node.val n) = pre ++ x :: rest
       /\ eachIndex (fun y w => encode y c' o' w) pre w = Return (pre', w', None).

(** [decodeVisitor.visit] calls [decode] on the elements of an array
    in turn, and on the elements of the slice it has made, as many as
    the length producer says, up to the first error. *)
Definition decodeCalls (o : binary.ByteOrder) (n : node.t) (r : bytes.Buffer)
    (o' : binary.ByteOrder) (x : Value) (c' : bool) (r' : bytes.Buffer) : Prop :=
  o' = default o (node.endianness n)
  /\ ((exists zero pre rest pre',
         node.val n = VArray zero (pre ++ x :: rest)
         /\ c' = node.canSet n
         /\ eachIndex (fun y r => decode y c' o' r) pre r = Return (pre', r', None))
      \/ (exists zero elems from u made i l,
            node.val n = VSlice zero elems /\ x = zero /\ c' = true
            /\ node.sizeFrom n = Some from /\ Uint_ from = Return u
            /\ Set_MakeSlice (node.val n) (node.canSet n) (int u) = Return made
            /\ (i < Z.to_nat (int u))%nat
            /\ eachFresh (fun r => decode zero true o' r) i zero r
               = Return (l, r', None))).

(** [struct {Y uint8; B bool}] *)
Definition BoolElem (y : Z) (b : bool) : Value :=
  VStruct [("Y", [], VUint W8 y); ("B", [], VBool b)].

(** [struct {A uint8; In struct {X uint16; P *struct {Arr [2]struct {Y
    uint8; B bool}}}}] *)
Definition BoolInside : Value :=
  VStruct [("A", [], VUint W8 1);
           ("In", [],
            VStruct [("X", [], VUint W16 2);
                     ("P", [],
                      VPtr (Some (VStruct [("Arr", [], VArray (BoolElem 0 false)
                                                    [BoolElem 3 true;
                                                     BoolElem 4 true])])))])].

(** * Properties *)

(** ** The driver *)

Lemma node_eta (n : node.t) :
  node.mk (node.val n) (node.canSet n) (node.sizeof n) (node.sizeFrom n)
    (node.sizeFroms n) (node.endianness n) (node.nullTerminated n) = n.
Proof. destruct n; reflexivity. Qed.

Lemma applyMatch_struct f x n pn all :
  node.val pn = VStruct all ->
  applyMatch f x n (Some pn) =
  Return (tagNode all [x] n,
          Some (node.set_sizeFroms (tagRegister (Index f) [x] (node.sizeFroms pn)) pn)).
Proof.
  intros Hall. unfold applyMatch, tagNode, tagRegister, classify. simpl.
  repeat case_bool_decide; simpl; rewrite ?Hall; simpl;
    try (destruct pn; reflexivity).
Qed.

Lemma applyMatches_struct f tags n pn all :
  node.val pn = VStruct all ->
  applyMatches f tags n (Some pn) =
  Return (tagNode all tags n,
          Some (node.set_sizeFroms (tagRegister (Index f) tags (node.sizeFroms pn)) pn)).
Proof.
  revert n pn. induction tags as [|x tags IH]; intros n pn Hall.
  - simpl. destruct pn; reflexivity.
  - cbn [applyMatches]. rewrite (applyMatch_struct _ _ _ _ all Hall). simpl.
    rewrite IH by (destruct pn; exact Hall). destruct pn; reflexivity.
Qed.

Lemma tagNode_val all tags n : node.val (tagNode all tags n) = node.val n.
Proof.
  revert n. induction tags as [|x tags IH]; intros n; [reflexivity|].
  cbn. unfold tagNode in IH. rewrite IH. destruct (classify x), n; reflexivity.
Qed.

Lemma tagNode_canSet all tags n : node.canSet (tagNode all tags n) = node.canSet n.
Proof.
  revert n. induction tags as [|x tags IH]; intros n; [reflexivity|].
  cbn. unfold tagNode in IH. rewrite IH. destruct (classify x), n; reflexivity.
Qed.

Lemma tagNode_sizeFrom all tags n : node.sizeFrom (tagNode all tags n) = node.sizeFrom n.
Proof.
  revert n. induction tags as [|x tags IH]; intros n; [reflexivity|].
  cbn. unfold tagNode in IH. rewrite IH. destruct (classify x), n; reflexivity.
Qed.

Lemma tagNode_sizeFroms all tags n : node.sizeFroms (tagNode all tags n) = node.sizeFroms n.
Proof.
  revert n. induction tags as [|x tags IH]; intros n; [reflexivity|].
  cbn. unfold tagNode in IH. rewrite IH. destruct (classify x), n; reflexivity.
Qed.

(** The node of a field of a struct: no panic, and the parent only
    changes in its [sizeFroms]. *)
Lemma newNode_field val canSet pn fld all :
  node.val pn = VStruct all ->
  newNode val canSet (Some pn) (Some fld) =
  Return (fieldNode all pn (Name fld) (Tag fld) val canSet,
          Some (node.set_sizeFroms
                  (tagRegister (Index fld) (Tag fld) (node.sizeFroms pn)) pn)).
Proof.
  intros Hall. unfold newNode, fieldNode.
  assert (Hn : match node.sizeFroms pn with
               | Some _ => Return (node.set_sizeFrom (sizeFroms_lookup pn (Name fld))
                                     (node.mk val canSet VInvalid None None None false))
               | None => Return (node.mk val canSet VInvalid None None None false)
               end =
               Return (node.mk val canSet VInvalid (sizeFroms_lookup pn (Name fld))
                         None None false)).
  { unfold sizeFroms_lookup. destruct (node.sizeFroms pn); reflexivity. }
  rewrite Hn. simpl. apply applyMatches_struct, Hall.
Qed.

Lemma newNode_root val canSet :
  newNode val canSet None None = Return (rootNode val canSet, None).
Proof. reflexivity. Qed.

(** [newNode] leaves [val] in the node, whatever the parent and the tag. *)
Lemma applyMatch_val f x n p n' p' :
  applyMatch f x n p = Return (n', p') ->
  node.val n' = node.val n /\ node.canSet n' = node.canSet n.
Proof.
  unfold applyMatch. intros Hret. repeat case_bool_decide;
    try (injection Hret as <- <-; destruct n; split; reflexivity).
  destruct p as [pn|]; [|discriminate].
  destruct (FieldByName (node.val pn) (x2 x)); [|discriminate].
  simpl in Hret. injection Hret as <- <-. destruct n; split; reflexivity.
Qed.

Lemma applyMatches_val f xs n p n' p' :
  applyMatches f xs n p = Return (n', p') ->
  node.val n' = node.val n /\ node.canSet n' = node.canSet n.
Proof.
  revert n p. induction xs as [|x xs IH]; intros n p H.
  - injection H as <- <-. split; reflexivity.
  - cbn [applyMatches] in H.
    destruct (applyMatch f x n p) as [[n1 p1]|] eqn:E; [|discriminate].
    simpl in H. apply applyMatch_val in E as [E1 E2].
    apply IH in H as [H1 H2]. split; congruence.
Qed.

Lemma newNode_val val canSet p f n p' :
  newNode val canSet p f = Return (n, p') ->
  node.val n = val /\ node.canSet n = canSet.
Proof.
  unfold newNode. intros H.
  match type of H with (?m ≫= _) = _ => destruct m as [n0|] eqn:E end;
    [|discriminate].
  simpl in H.
  assert (node.val n0 = val /\ node.canSet n0 = canSet) as [H1 H2].
  { destruct p as [pn|]; [|injection E as <-; split; reflexivity].
    destruct (node.sizeFroms pn), f; try discriminate;
      injection E as <-; split; reflexivity. }
  destruct f as [fld|].
  - apply applyMatches_val in H as [H3 H4]. split; congruence.
  - injection H as <- <-. split; assumption.
Qed.

Lemma set_val_id n : node.set_val (node.val n) n = n.
Proof. destruct n; reflexivity. Qed.

Section DriverFacts.
Context {St : Type} (visit : node.t -> St -> outcome (visited St)).

Lemma runVisitorInternal_walk val0 canSet p f s :
  runVisitorInternal visit val0 canSet p f s =
  '(x', p, s, err) ←
    walk visit (runVisitorInternal visit) (nodeVal val0)
      (walkCanSet val0 canSet) p f s;
  Return (rewrap val0 x', p, s, err).
Proof.
  destruct val0 as [| | | | | | | | | | | | |[x|]|]; simpl;
    try reflexivity;
    match goal with
    | |- ?m = _ => destruct m as [[[[? ?] ?] ?]|]; reflexivity
    end.
Qed.

Lemma fieldLoop_app wk pre rest i n s :
  fieldLoop wk (pre ++ rest) i n s =
  '(n', s', err) ← fieldLoop (St:=St) wk pre i n s;
  match err with
  | Some e => Return (n', s', Some e)
  | None => fieldLoop wk rest (i + length pre)%nat n' s'
  end.
Proof.
  revert i n s. induction pre as [|[fld x] pre IH]; intros i n s.
  - simpl. rewrite Nat.add_0_r. reflexivity.
  - cbn [app fieldLoop].
    destruct (wk x (node.canSet n) (Some n) (Some (Field_of i fld)) s)
      as [[[[x' n'] s'] [e|]]|]; simpl; try reflexivity.
    rewrite IH, Nat.add_succ_r. reflexivity.
Qed.

Lemma applyMatch_parent f x n p n' p' :
  applyMatch f x n p = Return (n', p') -> sameParent p p'.
Proof.
  unfold applyMatch. intros Hret.
  assert (Hrefl : sameParent p p) by (destruct p; simpl; auto).
  repeat case_bool_decide; try (injection Hret as <- <-; exact Hrefl).
  destruct p as [pn|]; [|discriminate].
  destruct (FieldByName (node.val pn) (x2 x)); [|discriminate].
  simpl in Hret. injection Hret as <- <-. destruct pn; simpl; auto.
Qed.

Lemma sameParent_trans p q r : sameParent p q -> sameParent q r -> sameParent p r.
Proof.
  destruct p, q, r; simpl; try tauto. intros [-> ->] [-> ->]; auto.
Qed.

Lemma applyMatches_parent f xs n p n' p' :
  applyMatches f xs n p = Return (n', p') -> sameParent p p'.
Proof.
  revert n p. induction xs as [|x xs IH]; intros n p Hret.
  - injection Hret as <- <-. destruct p; simpl; auto.
  - cbn [applyMatches] in Hret.
    destruct (applyMatch f x n p) as [[n1 p1]|] eqn:E; [|discriminate].
    simpl in Hret. eapply sameParent_trans; [eapply applyMatch_parent, E|].
    eapply IH, Hret.
Qed.

Lemma newNode_parent val canSet p f n p' :
  newNode val canSet p f = Return (n, p') -> sameParent p p'.
Proof.
  unfold newNode. intros Hret.
  match type of Hret with (?m ≫= _) = _ => destruct m as [n0|] end;
    [|discriminate].
  simpl in Hret. destruct f as [fld|].
  - eapply applyMatches_parent, Hret.
  - injection Hret as <- <-. destruct p; simpl; auto.
Qed.

Lemma walk_parent self val canSet p f s x' p' s' err :
  walk visit self val canSet p f s = Return (x', p', s', err) ->
  sameParent p p'.
Proof.
  unfold walk. intros Hret.
  destruct (newNode val canSet p f) as [[n p1]|] eqn:E; [|discriminate].
  apply newNode_parent in E. simpl in Hret.
  assert (p' = p1); [|subst; exact E].
  destruct val; simpl in Hret;
    repeat match type of Hret with
      | (?m ≫= _) = _ => destruct m as [[[? ?] ?]|]; simpl in Hret
      | (if ?b then _ else _) = _ => destruct b
      end; congruence.
Qed.

Lemma runVisitorInternal_parent val0 canSet p f s x' p' s' err :
  runVisitorInternal visit val0 canSet p f s = Return (x', p', s', err) ->
  sameParent p p'.
Proof.
  rewrite runVisitorInternal_walk. intros Hret.
  match type of Hret with
  | (?m ≫= _) = _ => destruct m as [[[[? p1] ?] ?]|] eqn:E
  end; [|discriminate].
  simpl in Hret. apply walk_parent in E. congruence.
Qed.

Lemma storeField_struct i x n :
  isStruct (node.val (storeField i x n)) = isStruct (node.val n).
Proof. unfold storeField. destruct (node.val n) eqn:E; simpl; rewrite ?E; reflexivity. Qed.

Lemma storeField_canSet i x n :
  node.canSet (storeField i x n) = node.canSet n.
Proof. unfold storeField. destruct (node.val n); reflexivity. Qed.

Lemma fieldLoop_struct rest i n s n' s' err :
  fieldLoop (runVisitorInternal visit) rest i n s = Return (n', s', err) ->
  isStruct (node.val n') = isStruct (node.val n)
  /\ node.canSet n' = node.canSet n.
Proof.
  revert i n s. induction rest as [|[fld x] rest IH]; intros i n s Hret.
  - injection Hret as <- <- <-. auto.
  - cbn [fieldLoop] in Hret.
    destruct (runVisitorInternal visit x (node.canSet n) (Some n)
                (Some (Field_of i fld)) s) as [[[[x' p1] s1] e1]|] eqn:E;
      [|discriminate].
    apply runVisitorInternal_parent in E. destruct p1 as [n1|]; [|destruct E].
    destruct E as [E1 E2]. simpl in Hret.
    assert (isStruct (node.val (storeField i x' n1)) = isStruct (node.val n)
            /\ node.canSet (storeField i x' n1) = node.canSet n) as [Hs Hc].
    { rewrite storeField_struct, storeField_canSet, E1, E2. auto. }
    destruct e1.
    + injection Hret as <- <- <-. auto.
    + apply IH in Hret as [-> ->]. auto.
Qed.
End DriverFacts.

Lemma sizeof_eq v canSet :
  sizeof v canSet =
  '(_, size, err) ← runVisitor (sizeofVisitor_visit sizeof) v canSet 0;
  match err with
  | Some e => Return (-1, Some e)
  | None => Return (size, None)
  end.
Proof. destruct v; reflexivity. Qed.

Lemma encode_eq {W} `{io.Writer W} v canSet o (w : W) :
  encode v canSet o w = runVisitor (encodeVisitor_visit encode o) v canSet w.
Proof. destruct v; reflexivity. Qed.

Lemma decode_eq v canSet o r :
  decode v canSet o r = runVisitor (decodeVisitor_visit decode o) v canSet r.
Proof. destruct v; reflexivity. Qed.

Section Propagation.
Context {St : Type} (visit : node.t -> St -> outcome (visited St)).

(** The error of a field that the loop reaches is the error of the
    whole traversal, which stops there. *)
Lemma field_error top canSet fields i fld x s n' s' x' p' s'' e :
  nodeVal top = VStruct fields ->
  fields !! i = Some (fld, x) ->
  reached visit top canSet fields i s n' s' ->
  runVisitorInternal visit x (node.canSet n') (Some n')
    (Some (Field_of i fld)) s' = Return (x', p', s'', Some e) ->
  exists top', runVisitor visit top canSet s = Return (top', s'', Some e).
Proof.
  intros Htop Hi Hpre Hfld. unfold reached in Hpre.
  unfold runVisitor. rewrite runVisitorInternal_walk, Htop.
  unfold walk. rewrite newNode_root. simpl.
  change (node.set_val (VStruct fields) (rootNode (VStruct fields) (walkCanSet top canSet)))
    with (rootNode (VStruct fields) (walkCanSet top canSet)).
  set (n0 := rootNode (VStruct fields) (walkCanSet top canSet)) in *.
  pose proof (take_drop_middle _ _ _ Hi) as Hsplit.
  assert (Hloop : fieldLoop (runVisitorInternal visit) fields 0 n0 s =
                  Return (storeField i x' (default n' p'), s'', Some e)).
  { rewrite <- Hsplit at 1.
    rewrite fieldLoop_app, Hpre. simpl.
    rewrite length_take_le by (apply Nat.lt_le_incl, (lookup_lt_Some _ _ _ Hi)).
    rewrite Hfld. reflexivity. }
  rewrite Hloop. simpl. eauto.
Qed.
End Propagation.

(** Each visitor turns the four kinds away. *)
Lemma sizeofVisitor_rejects self n size :
  rejectedKind (Kind_of (node.val n)) = true ->
  sizeofVisitor_visit self n size =
  Return (node.val n, size, Some (unsupportedType (Kind_of (node.val n)))).
Proof.
  unfold sizeofVisitor_visit.
  destruct (node.val n) as [| |[]|[]| | | | | | | | | | |[]];
    simpl; intros; try discriminate; reflexivity.
Qed.

Lemma encodeVisitor_rejects {W} `{io.Writer W} self o n (w : W) :
  rejectedKind (Kind_of (node.val n)) = true ->
  encodeVisitor_visit self o n w =
  Return (node.val n, w, Some (unsupportedType (Kind_of (node.val n)))).
Proof.
  unfold encodeVisitor_visit, setLength.
  destruct (node.val n) as [| |[]|[]| | | | | | | | | | |[]];
    simpl; intros; try discriminate; destruct (IsValid (node.sizeof n)); reflexivity.
Qed.

Lemma decodeVisitor_rejects self o n r :
  rejectedKind (Kind_of (node.val n)) = true ->
  decodeVisitor_visit self o n r =
  Return (node.val n, r, Some (unsupportedType (Kind_of (node.val n)))).
Proof.
  unfold decodeVisitor_visit.
  destruct (node.val n) as [| |[]|[]| | | | | | | | | | |[]];
    simpl; intros; try discriminate; reflexivity.
Qed.

Lemma rejectedKind_leaf v :
  rejectedKind (Kind_of v) = true -> isStruct v = false /\ isLeafKind (Kind_of v) = true.
Proof.
  destruct v as [| |[]|[]| | | | | | | | | | |[]]; simpl; intros;
    try discriminate; auto.
Qed.

Section Rejection.
Context {St : Type} (visit : node.t -> St -> outcome (visited St)).
Hypothesis visit_rejects : forall n s,
  rejectedKind (Kind_of (node.val n)) = true ->
  visit n s = Return (node.val n, s, Some (unsupportedType (Kind_of (node.val n)))).

Lemma walk_rejected self val canSet p f s n p' :
  rejectedKind (Kind_of val) = true ->
  newNode val canSet p f = Return (n, p') ->
  walk visit self val canSet p f s =
  Return (val, p', s, Some (unsupportedType (Kind_of val))).
Proof.
  intros Hk Hn. unfold walk. rewrite Hn. simpl.
  destruct (rejectedKind_leaf _ Hk) as [Hs Hl]. rewrite Hl.
  pose proof (newNode_val _ _ _ _ _ _ Hn) as [Hv _].
  rewrite visit_rejects by (simpl; exact Hk). simpl.
  destruct val; try discriminate; reflexivity.
Qed.

Lemma rewrap_nodeVal v : rewrap v (nodeVal v) = v.
Proof. destruct v as [| | | | | | | | | | | | |[x|]|]; reflexivity. Qed.

Lemma run_rejected_root v canSet s :
  rejectedKind (Kind_of (nodeVal v)) = true ->
  runVisitor visit v canSet s =
  Return (v, s, Some (unsupportedType (Kind_of (nodeVal v)))).
Proof.
  intros Hk. unfold runVisitor. rewrite runVisitorInternal_walk.
  erewrite walk_rejected; [|exact Hk|apply newNode_root]. simpl.
  rewrite rewrap_nodeVal. reflexivity.
Qed.

Lemma run_rejected_field v canSet pn fld s :
  rejectedKind (Kind_of (nodeVal v)) = true ->
  isStruct (node.val pn) = true ->
  exists p',
    runVisitorInternal visit v canSet (Some pn) (Some fld) s =
    Return (v, p', s, Some (unsupportedType (Kind_of (nodeVal v)))).
Proof.
  intros Hk Hp. destruct (node.val pn) as [| | | | | | | | | | | |all| |] eqn:Hall;
    try discriminate.
  rewrite runVisitorInternal_walk.
  erewrite walk_rejected; [|exact Hk|apply (newNode_field _ _ _ _ all Hall)].
  simpl. rewrite rewrap_nodeVal. eauto.
Qed.

Lemma run_rejected_reached top canSet fields i fld v s n' s' :
  rejectedKind (Kind_of (nodeVal v)) = true ->
  nodeVal top = VStruct fields ->
  fields !! i = Some (fld, v) ->
  reached visit top canSet fields i s n' s' ->
  exists top', runVisitor visit top canSet s =
               Return (top', s', Some (unsupportedType (Kind_of (nodeVal v)))).
Proof.
  intros Hk Htop Hi Hpre.
  assert (Hs : isStruct (node.val n') = true).
  { apply fieldLoop_struct in Hpre as [-> _]. reflexivity. }
  destruct (run_rejected_field v (node.canSet n') n' (Field_of i fld) s' Hk Hs)
    as [p' Hrun].
  eapply field_error; eauto.
Qed.
End Rejection.

Section Frame.
Context {St : Type} (visit : node.t -> St -> outcome (visited St)).

(** The loop over the fields from the [i]-th on leaves the other fields
    of the struct alone: when the traversal reaches a field, the field
    still holds what the struct held at the start. *)
Lemma fieldLoop_frame rest : forall i n s n' s' err fields,
  node.val n = VStruct fields ->
  fieldLoop (runVisitorInternal visit) rest i n s = Return (n', s', err) ->
  exists fields',
    node.val n' = VStruct fields'
    /\ forall j, (j < i \/ i + length rest <= j)%nat -> fields' !! j = fields !! j.
Proof.
  induction rest as [|[fld x] rest IH]; intros i n s n' s' err fields Hn Hrun.
  - injection Hrun as <- <- <-. eauto.
  - cbn [fieldLoop] in Hrun.
    destruct (runVisitorInternal visit x (node.canSet n) (Some n)
                (Some (Field_of i fld)) s) as [[[[x' p1] s1] e1]|] eqn:E;
      [|discriminate].
    apply runVisitorInternal_parent in E. destruct p1 as [n1|]; [|destruct E].
    destruct E as [E1 _]. simpl in Hrun.
    assert (Hstore : node.val (storeField i x' n1)
                     = VStruct (alter (fun f => (f.1, x')) i fields)).
    { unfold storeField. rewrite E1, Hn. reflexivity. }
    destruct e1 as [e|].
    + injection Hrun as <- <- <-. eexists. split; [exact Hstore|].
      intros j Hj. apply list_lookup_alter_ne. simpl in Hj. lia.
    + destruct (IH _ _ _ _ _ _ _ Hstore Hrun) as [fields' [Hval Hsame]].
      exists fields'. split; [exact Hval|]. intros j Hj. simpl in Hj.
      rewrite Hsame by lia. apply list_lookup_alter_ne. lia.
Qed.
End Frame.

(** ** Induction on values *)

Lemma Value_children_ind (P : Value -> Prop) :
  (forall v, Forall P (children v) -> P v) -> forall v, P v.
Proof.
  intros Hstep. fix IH 1. intros v. apply Hstep.
  destruct v as [| | | | | | | | |zero elems|zero elems| |fields|[x|]|];
    simpl; try constructor; try apply IH; try constructor.
  - induction elems; constructor; auto.
  - induction elems; constructor; auto.
  - induction fields as [|[? x] ?]; constructor; auto.
Qed.

Lemma Value_eqb_eq a : forall b, Value_eqb a b = true <-> a = b.
Proof.
  induction a as [a IH] using Value_children_ind.
  assert (Hlist : forall l, Forall (fun x => forall y, Value_eqb x y = true <-> x = y) l ->
            forall l', (fix all2 (l l' : list Value) {struct l} : bool :=
                          match l, l' with
                          | [], [] => true
                          | x :: l, y :: l' => Value_eqb x y && all2 l l'
                          | _, _ => false
                          end) l l' = true <-> l = l').
  { intros l Hl. induction Hl as [|x l Hx Hl IHl]; intros [|y l']; simpl;
      try (split; [discriminate|congruence]); try tauto.
    rewrite andb_true_iff, Hx, IHl. split; [intros [-> ->]|intros [= -> ->]]; auto. }
  intros b.
  destruct a as [| | | | | | | | |zero elems|zero elems| |fields|[x|]|];
    destruct b as [| | | | | | | | |zero' elems'|zero' elems'| |fields'|[x'|]|];
    simpl; try (split; [discriminate|congruence]); try tauto;
    rewrite ?andb_true_iff, ?bool_decide_eq_true.
  - split; congruence.
  - split; [intros [-> ->]|intros [= -> ->]]; auto.
  - split; [intros [-> ->]|intros [= -> ->]]; auto.
  - split; congruence.
  - split; congruence.
  - split; congruence.
  - split; congruence.
  - split; congruence.
  - simpl in IH. inversion IH as [|? ? Hz Hl]; subst.
    rewrite Hz, (Hlist _ Hl). split; [intros [-> ->]|intros [= -> ->]]; auto.
  - simpl in IH. inversion IH as [|? ? Hz Hl]; subst.
    rewrite Hz, (Hlist _ Hl). split; [intros [-> ->]|intros [= -> ->]]; auto.
  - split; congruence.
  - simpl in IH. revert fields'.
    induction fields as [|[f x] fields IHf]; intros [|[f' y] fields']; simpl;
      try (split; [discriminate|congruence]); try tauto.
    inversion IH as [|? ? Hx Hl]; subst.
    rewrite !andb_true_iff, bool_decide_eq_true, Hx, (IHf Hl).
    split; [intros [[-> ->] [= ->]]|intros [= -> -> ->]]; auto.
  - simpl in IH. inversion IH as [|? ? Hx _]; subst. rewrite Hx.
    split; congruence.
  - split; congruence.
Qed.


(** ** Kinds that no visitor supports *)

Lemma sizeof_of_run v canSet val' size e :
  runVisitor (sizeofVisitor_visit sizeof) v canSet 0 = Return (val', size, Some e) ->
  sizeof v canSet = Return (-1, Some e).
Proof. intros Hrun. rewrite sizeof_eq, Hrun. reflexivity. Qed.

(** A value of kind bool, int, uint or uintptr at the value an
    operation was called on, or at a field of the struct it was called
    on that the traversal reaches (the loop over the fields before it
    ended without an error), or wherever the driver walks it as a field
    of a struct: the operation returns the unsupported-type error that
    names the kind, and the visitor's state does not change at that
    field, so nothing is written or read there. *)
Lemma rejected_kind_keeps_state (v : Value) (k : Kind) :
  Kind_of (nodeVal v) = k -> rejectedKind k = true ->
  (Sizeof v = Return (-1, Some (unsupportedType k))
   /\ (forall W (HW : io.Writer W) (w : W) o,
         EncodeWithOrder w v o = Return (v, w, Some (unsupportedType k)))
   /\ (forall r o, DecodeWithOrder r v o = Return (v, r, Some (unsupportedType k))))
  /\ (forall top fields i fld,
        nodeVal top = VStruct fields -> fields !! i = Some (fld, v) ->
        (forall n' size',
            reached (sizeofVisitor_visit sizeof) top false fields i 0 n' size' ->
            Sizeof top = Return (-1, Some (unsupportedType k)))
        /\ (forall W (HW : io.Writer W) (w : W) o n' w',
              reached (encodeVisitor_visit encode o) top false fields i w n' w' ->
              exists top', EncodeWithOrder w top o =
                           Return (top', w', Some (unsupportedType k)))
        /\ (forall r o n' r',
              reached (decodeVisitor_visit decode o) top false fields i r n' r' ->
              exists top', DecodeWithOrder r top o =
                           Return (top', r', Some (unsupportedType k))))
  /\ (forall canSet pn fld,
        isStruct (node.val pn) = true ->
        (forall size, exists p',
            runVisitorInternal (sizeofVisitor_visit sizeof) v canSet (Some pn)
              (Some fld) size = Return (v, p', size, Some (unsupportedType k)))
        /\ (forall W (HW : io.Writer W) (w : W) o, exists p',
              runVisitorInternal (encodeVisitor_visit encode o) v canSet (Some pn)
                (Some fld) w = Return (v, p', w, Some (unsupportedType k)))
        /\ (forall r o, exists p',
              runVisitorInternal (decodeVisitor_visit decode o) v canSet (Some pn)
                (Some fld) r = Return (v, p', r, Some (unsupportedType k)))).
Proof.
  intros <- Hk. split; [|split].
  - split; [|split].
    + unfold Sizeof. rewrite sizeof_eq, run_rejected_root;
        auto using sizeofVisitor_rejects.
    + intros W HW w o. unfold EncodeWithOrder. rewrite encode_eq.
      apply run_rejected_root; auto using @encodeVisitor_rejects.
    + intros r o. unfold DecodeWithOrder. rewrite decode_eq.
      apply run_rejected_root; auto using decodeVisitor_rejects.
  - intros top fields i fld Htop Hi. split; [|split].
    + intros n' size' Hpre. unfold Sizeof.
      destruct (run_rejected_reached _ (sizeofVisitor_rejects sizeof)
                  _ _ _ _ _ _ _ _ _ Hk Htop Hi Hpre) as [top' Hrun].
      eapply sizeof_of_run, Hrun.
    + intros W HW w o n' w' Hpre. unfold EncodeWithOrder.
      destruct (run_rejected_reached _ (encodeVisitor_rejects encode o)
                  _ _ _ _ _ _ _ _ _ Hk Htop Hi Hpre) as [top' Hrun].
      exists top'. rewrite encode_eq. exact Hrun.
    + intros r o n' r' Hpre. unfold DecodeWithOrder.
      destruct (run_rejected_reached _ (decodeVisitor_rejects decode o)
                  _ _ _ _ _ _ _ _ _ Hk Htop Hi Hpre) as [top' Hrun].
      exists top'. rewrite decode_eq. exact Hrun.
  - intros canSet pn fld Hp. split; [|split].
    + intros size. apply run_rejected_field; auto using sizeofVisitor_rejects.
    + intros W HW w o. apply run_rejected_field; auto using @encodeVisitor_rejects.
    + intros r o. apply run_rejected_field; auto using decodeVisitor_rejects.
Qed.

(** At [struct {A uint8; B bool}] the traversal reaches [B] after one
    byte of [A]: [Encode] has written that byte, [Decode] has read
    it. *)
Lemma BoolAfterByte_rejected :
  Sizeof (addressOf BoolAfterByte) = Return (-1, Some (unsupportedType Bool))
  /\ (exists top', EncodeWithOrder (W:=bytes.Buffer) [] (addressOf BoolAfterByte) binary.LittleEndian
                   = Return (top', [x01], Some (unsupportedType Bool)))
  /\ (exists top', DecodeWithOrder [x05; x06] (addressOf BoolAfterByte) binary.LittleEndian
                   = Return (top', [x06], Some (unsupportedType Bool))).
Proof.
  pose proof (rejected_kind_keeps_state (VBool true) Bool eq_refl eq_refl)
    as [_ [Hfield _]].
  destruct (Hfield (addressOf BoolAfterByte) _ 1%nat ("B", []) eq_refl eq_refl)
    as [Hs [He Hd]].
  split; [|split].
  - eapply Hs. reflexivity.
  - eapply (He bytes.Buffer _ [] binary.LittleEndian). reflexivity.
  - eapply (Hd [x05; x06] binary.LittleEndian). reflexivity.
Qed.

(** ** Slices without a length producer *)

Lemma decodeVisitor_slice_unsized self o n r zero elems :
  node.val n = VSlice zero elems -> node.sizeFrom n = None ->
  decodeVisitor_visit self o n r = Return (node.val n, r, Some noSizeSource).
Proof. unfold decodeVisitor_visit. intros -> ->. reflexivity. Qed.

Lemma fieldNode_val all pn name tags val canSet :
  node.val (fieldNode all pn name tags val canSet) = val.
Proof. unfold fieldNode. rewrite tagNode_val. reflexivity. Qed.

Lemma fieldNode_canSet all pn name tags val canSet :
  node.canSet (fieldNode all pn name tags val canSet) = canSet.
Proof. unfold fieldNode. rewrite tagNode_canSet. reflexivity. Qed.

Lemma fieldNode_sizeFrom all pn name tags val canSet :
  node.sizeFrom (fieldNode all pn name tags val canSet) = sizeFroms_lookup pn name.
Proof. unfold fieldNode. rewrite tagNode_sizeFrom. reflexivity. Qed.

Lemma set_val_sizeFrom x n : node.sizeFrom (node.set_val x n) = node.sizeFrom n.
Proof. reflexivity. Qed.

(** C6.  Decoding a slice whose node has no [sizeFrom] fails with
    the error "wire: slice with no size source" and reads nothing:
    the reader is the same after the visit as before.  This holds for
    a slice decoded on its own, for a slice walked as a field of a
    struct in whose [sizeFroms] no node is registered under the
    field's name, and so for [Decode] on a struct whose traversal
    reaches such a field: the error is returned and the reader is
    left as it was when the field was reached. *)
Theorem slice_without_size_source (o : binary.ByteOrder) (val0 zero : Value)
    (elems : list Value) :
  nodeVal val0 = VSlice zero elems ->
  (forall r, DecodeWithOrder r val0 o = Return (val0, r, Some noSizeSource))
  /\ (forall canSet pn fld r,
        isStruct (node.val pn) = true ->
        sizeFroms_lookup pn (Name fld) = None ->
        exists p',
          runVisitorInternal (decodeVisitor_visit decode o) val0 canSet (Some pn)
            (Some fld) r = Return (val0, p', r, Some noSizeSource))
  /\ (forall top fields i fld r n' r',
        nodeVal top = VStruct fields -> fields !! i = Some (fld, val0) ->
        reached (decodeVisitor_visit decode o) top false fields i r n' r' ->
        sizeFroms_lookup n' fld.1 = None ->
        exists top', DecodeWithOrder r top o = Return (top', r', Some noSizeSource)).
Proof.
  intros Hval.
  assert (Hfield : forall canSet pn fld r,
             isStruct (node.val pn) = true ->
             sizeFroms_lookup pn (Name fld) = None ->
             exists p',
               runVisitorInternal (decodeVisitor_visit decode o) val0 canSet (Some pn)
                 (Some fld) r = Return (val0, p', r, Some noSizeSource)).
  { intros canSet pn fld r Hp Hnone.
    destruct (node.val pn) as [| | | | | | | | | | | |all| |] eqn:Hall;
      try discriminate.
    rewrite runVisitorInternal_walk, Hval. unfold walk.
    rewrite (newNode_field _ _ _ _ all Hall). simpl.
    erewrite decodeVisitor_slice_unsized;
      [|simpl; reflexivity|simpl; rewrite fieldNode_sizeFrom; exact Hnone].
    simpl. rewrite <- Hval, rewrap_nodeVal. eauto. }
  split; [|split].
  - intros r. unfold DecodeWithOrder. rewrite decode_eq. unfold runVisitor.
    rewrite runVisitorInternal_walk, Hval. simpl.
    rewrite <- Hval, rewrap_nodeVal. reflexivity.
  - exact Hfield.
  - intros top fields i fld r n' r' Htop Hi Hpre Hnone.
    assert (Hs : isStruct (node.val n') = true).
    { apply fieldLoop_struct in Hpre as [-> _]. reflexivity. }
    destruct (Hfield (node.canSet n') n' (Field_of i fld) r' Hs Hnone) as [p' Hrun].
    destruct (field_error _ _ _ _ _ _ _ _ _ _ _ _ _ _ Htop Hi Hpre Hrun)
      as [top' Htop'].
    exists top'. unfold DecodeWithOrder. rewrite decode_eq. exact Htop'.
Qed.

(** C6 at [struct {N uint8; S []uint8}] without tags: [N] takes one
    byte, [S] none. *)
Lemma slice_without_size_source_witness :
  exists top', Decode [x05; x01; x02] (addressOf Unlinked)
               = Return (top', [x01; x02], Some noSizeSource).
Proof.
  pose proof (slice_without_size_source binary.LittleEndian
                (VSlice (VUint W8 0) []) (VUint W8 0) [] eq_refl) as [_ [_ Hreach]].
  eapply (Hreach (addressOf Unlinked) _ 1%nat ("S", [])); reflexivity.
Defined.

(** ** Byte-order directives *)

Lemma fieldNode_set_val all pn name tags val canSet :
  node.set_val val (fieldNode all pn name tags val canSet) =
  fieldNode all pn name tags val canSet.
Proof.
  rewrite <- (fieldNode_val all pn name tags val canSet) at 1. apply set_val_id.
Qed.

Section FieldWalk.
Context {St : Type} (visit : node.t -> St -> outcome (visited St)).

Lemma walk_leaf self val canSet p f s :
  isStruct val = false ->
  walk visit self val canSet p f s =
  '(n, p) ← newNode val canSet p f;
  if isLeafKind (Kind_of val) then
    '(val', s, err) ← visit (node.set_val val n) s; Return (val', p, s, err)
  else Return (val, p, s, Some (unsupportedType (Kind_of val))).
Proof. destruct val; try discriminate; reflexivity. Qed.

(** The walk of a field that is not a struct. *)
Lemma run_field_leaf x canSet pn fld all s :
  node.val pn = VStruct all ->
  isStruct (nodeVal x) = false ->
  runVisitorInternal visit x canSet (Some pn) (Some fld) s =
  let n := fieldNode all pn (Name fld) (Tag fld) (nodeVal x) (walkCanSet x canSet) in
  let p' := Some (node.set_sizeFroms
                    (tagRegister (Index fld) (Tag fld) (node.sizeFroms pn)) pn) in
  if isLeafKind (Kind_of (nodeVal x)) then
    '(val', s, err) ← visit n s; Return (rewrap x val', p', s, err)
  else Return (x, p', s, Some (unsupportedType (Kind_of (nodeVal x)))).
Proof.
  intros Hall Hx. rewrite runVisitorInternal_walk, walk_leaf by exact Hx.
  rewrite (newNode_field _ _ _ _ all Hall). simpl.
  rewrite fieldNode_set_val.
  destruct (isLeafKind (Kind_of (nodeVal x))).
  - match goal with
    | |- context [visit ?n ?s] => destruct (visit n s) as [[[? ?] ?]|]; reflexivity
    end.
  - simpl. rewrite rewrap_nodeVal. reflexivity.
Qed.

(** The walk of [&struct{...}] with one field. *)
Lemma run_single_field nm tags x canSet s :
  runVisitor visit (addressOf (VStruct [(nm, tags, x)])) canSet s =
  '(x', p', s, err) ←
    runVisitorInternal visit x true
      (Some (rootNode (VStruct [(nm, tags, x)]) true))
      (Some (Field_of 0 (nm, tags))) s;
  Return (addressOf (node.val (storeField 0 x'
            (default (rootNode (VStruct [(nm, tags, x)]) true) p'))), s, err).
Proof.
  unfold runVisitor, addressOf. rewrite runVisitorInternal_walk. simpl.
  unfold walk. rewrite newNode_root. simpl.
  change (node.set_val (VStruct [(nm, tags, x)]) (rootNode (VStruct [(nm, tags, x)]) true))
    with (rootNode (VStruct [(nm, tags, x)]) true).
  destruct (runVisitorInternal visit x true
              (Some (rootNode (VStruct [(nm, tags, x)]) true))
              (Some (Field_of 0 (nm, tags))) s) as [[[[x' p'] s'] [e|]]|];
    reflexivity.
Qed.
End FieldWalk.

(** ** What a traversal reaches *)

Lemma eachIndex_stop {St : Type} (g : Value -> St -> outcome (visited St))
    pre x rest : forall s pre' s' x' s'' e,
  eachIndex g pre s = Return (pre', s', None) ->
  g x s' = Return (x', s'', Some e) ->
  eachIndex g (pre ++ x :: rest) s = Return (pre' ++ x' :: rest, s'', Some e).
Proof.
  induction pre as [|y pre IH]; intros s pre' s' x' s'' e Hpre Hx.
  - injection Hpre as <- <-. cbn [app eachIndex]. rewrite Hx. reflexivity.
  - cbn [app eachIndex] in Hpre |- *.
    destruct (g y s) as [[[y' s1] [e1|]]|]; cbn in Hpre |- *; try discriminate.
    destruct (eachIndex g pre s1) as [[[l t1] d1]|] eqn:El; [|discriminate].
    cbn in Hpre. injection Hpre as <- <- ->.
    rewrite (IH _ _ _ _ _ _ El Hx). reflexivity.
Qed.

Lemma eachFresh_stop {St : Type} (g : St -> outcome (visited St)) zero i :
  forall len s l s' x' s'' e,
  (i < len)%nat ->
  eachFresh g i zero s = Return (l, s', None) ->
  g s' = Return (x', s'', Some e) ->
  exists l', eachFresh g len zero s = Return (l', s'', Some e).
Proof.
  induction i as [|i IH]; intros len s l s' x' s'' e Hlt Hpre Hx.
  - injection Hpre as <- <-. destruct len as [|len]; [lia|].
    cbn [eachFresh]. rewrite Hx. cbn. eauto.
  - destruct len as [|len]; [lia|]. cbn [eachFresh] in Hpre |- *.
    destruct (g s) as [[[y' s1] [e1|]]|]; cbn in Hpre |- *; try discriminate.
    destruct (eachFresh g i zero s1) as [[[l1 t1] d1]|] eqn:El; [|discriminate].
    cbn in Hpre. injection Hpre as <- <- ->.
    destruct (IH len _ _ _ _ _ _ ltac:(lia) El Hx) as [l' ->]. cbn. eauto.
Qed.

Section Reached.
Context {P St : Type} (visit : P -> node.t -> St -> outcome (visited St)).
Variable elementCall : P -> node.t -> St -> P -> Value -> bool -> St -> Prop.
Hypothesis visit_rejects : forall o n s,
  rejectedKind (Kind_of (node.val n)) = true ->
  visit o n s = Return (node.val n, s, Some (unsupportedType (Kind_of (node.val n)))).
Hypothesis call_leaf : forall o n s o' x c' s',
  elementCall o n s o' x c' s' ->
  isStruct (node.val n) = false /\ isLeafKind (Kind_of (node.val n)) = true.
Hypothesis call_error : forall o n s o' x c' s' x' p' s'' e,
  elementCall o n s o' x c' s' ->
  runVisitorInternal (visit o') x c' None None s' = Return (x', p', s'', Some e) ->
  exists v' s3, visit o n s = Return (v', s3, Some e).

(** The error of what the traversal reaches is the error of the
    traversal. *)
Lemma Reaches_error k o v c p f s :
  rejectedKind k = true ->
  Reaches visit elementCall k o v c p f s ->
  exists v' p' s',
    runVisitorInternal (visit o) v c p f s
    = Return (v', p', s', Some (unsupportedType k)).
Proof.
  intros Hk Hreach.
  induction Hreach as
    [o v c p f s n q Hn Hkind
    |o v c p f s n q pre fld x rest n' s' Hn Hv Hpre _ IH
    |o v c p f s n q o' x c' s' Hn Hcall _ IH];
    rewrite runVisitorInternal_walk.
  - subst k.
    rewrite (walk_rejected (visit o) (visit_rejects o) _ _ _ _ _ _ _ _ Hk Hn).
    cbn. eauto.
  - destruct IH as [x' [p' [s'' IH]]].
    unfold walk. rewrite Hn. cbn [mbind outcome_bind]. rewrite Hv in Hpre |- *.
    rewrite fieldLoop_app, Hpre. cbn [mbind outcome_bind fieldLoop Nat.add].
    rewrite IH. cbn. eauto.
  - destruct IH as [x' [p' [s'' IH]]].
    destruct (call_leaf _ _ _ _ _ _ _ Hcall) as [Hs Hl].
    cbn [node.val node.set_val] in Hs, Hl.
    destruct (call_error _ _ _ _ _ _ _ _ _ _ _ Hcall IH) as [v' [s3 Hvis]].
    rewrite walk_leaf by exact Hs. rewrite Hn. cbn [mbind outcome_bind].
    rewrite Hl, Hvis. cbn. eauto.
Qed.
End Reached.

(** *** The calls of the three visitors *)

Lemma sizeofCalls_leaf o n s o' x c' s' :
  sizeofCalls o n s o' x c' s' ->
  isStruct (node.val n) = false /\ isLeafKind (Kind_of (node.val n)) = true.
Proof.
  intros (_ & _ & zero & elems & [Hv|Hv] & _); rewrite Hv; split; reflexivity.
Qed.

Lemma sizeofCalls_error o n s o' x c' s' x' p' s'' e :
  sizeofCalls o n s o' x c' s' ->
  runVisitorInternal (sizeofVisitor_visit sizeof) x c' None None s'
  = Return (x', p', s'', Some e) ->
  exists v' s3, sizeofVisitor_visit sizeof n s = Return (v', s3, Some e).
Proof.
  intros (-> & Hc & zero & elems & Hv & Hcalls) Hrun.
  assert (Hx : sizeof x c' = Return (-1, Some e))
    by (rewrite sizeof_eq; unfold runVisitor; rewrite Hrun; reflexivity).
  assert (Hbody : forall pre rest size,
            Forall (fun y => exists isize, sizeof y c' = Return (isize, None)) pre ->
            exists l size',
              eachIndex (fun x size =>
                           '(isize, err) ← sizeof x c';
                           match err with
                           | Some e => Return (x, size, Some e)
                           | None => Return (x, int (size + isize), None)
                           end) (pre ++ x :: rest) size
              = Return (l, size', Some e)).
  { intros pre rest size Hpre.
    assert (Hloop : exists size',
              eachIndex (fun x size =>
                           '(isize, err) ← sizeof x c';
                           match err with
                           | Some e => Return (x, size, Some e)
                           | None => Return (x, int (size + isize), None)
                           end) pre size = Return (pre, size', None)).
    { revert size. induction Hpre as [|y pre [isize Hy] _ IH]; intros size;
        [eexists; reflexivity|].
      cbn [eachIndex]. rewrite Hy. cbn. destruct (IH (int (size + isize))) as [size' ->].
      cbn. eauto. }
    destruct Hloop as [size' Hloop].
    eexists _, _. apply (eachIndex_stop _ pre x rest _ _ _ x _ e Hloop).
    rewrite Hx. reflexivity. }
  unfold sizeofVisitor_visit.
  destruct Hv as [Hv|Hv]; rewrite Hv in Hc |- *; rewrite <- Hc;
    (destruct (bool_decide (Kind_of zero = Struct));
     [destruct Hcalls as (pre & rest & -> & Hpre);
      destruct (Hbody pre rest s Hpre) as [l [size' Hl]];
      destruct pre; cbn [app] in Hl |- *;
      match goal with
      | |- context [eachIndex ?g ?l0 ?s0] =>
          assert (Hl' : eachIndex g l0 s0 = Return (l, size', Some e)) by exact Hl;
          rewrite Hl'
      end; cbn; eauto
     |destruct Hcalls as (rest & ->); rewrite Hx; cbn; eauto]).
Qed.

Section EncodeCalls.
Context {W : Type} `{io.Writer W}.

Lemma encodeCalls_leaf o n (w : W) o' x c' w' :
  encodeCalls o n w o' x c' w' ->
  isStruct (node.val n) = false /\ isLeafKind (Kind_of (node.val n)) = true.
Proof.
  intros (_ & _ & pre & rest & pre' & Hel & _).
  destruct (node.val n); try (exfalso; exact (app_cons_not_nil _ _ _ Hel));
    split; reflexivity.
Qed.

Lemma encodeCalls_error o n (w : W) o' x c' w' x' p' w'' e :
  encodeCalls o n w o' x c' w' ->
  runVisitorInternal (encodeVisitor_visit encode o') x c' None None w'
  = Return (x', p', w'', Some e) ->
  exists v' w3, encodeVisitor_visit encode o n w = Return (v', w3, Some e).
Proof.
  intros (-> & -> & pre & rest & pre' & Hel & Hpre) Hrun.
  assert (Hx : encode x (Index_CanSet (node.val n) (node.canSet n))
                 (default o (node.endianness n)) w' = Return (x', w'', Some e))
    by (rewrite encode_eq; unfold runVisitor; rewrite Hrun; reflexivity).
  pose proof (eachIndex_stop _ pre x rest _ _ _ _ _ _ Hpre Hx) as Hloop.
  unfold encodeVisitor_visit, setLength.
  destruct (node.val n) as [| | | | | | | | |zero elems|zero elems| | | |];
    try (exfalso; exact (app_cons_not_nil _ _ _ Hel));
    cbn [elements] in Hel; subst elems;
    destruct (IsValid (node.sizeof n)); cbn [mbind outcome_bind];
    rewrite Hloop; cbn; eauto.
Qed.
End EncodeCalls.

Lemma decodeCalls_leaf o n r o' x c' r' :
  decodeCalls o n r o' x c' r' ->
  isStruct (node.val n) = false /\ isLeafKind (Kind_of (node.val n)) = true.
Proof.
  intros (_ & [(zero & pre & rest & pre' & Hv & _)
              |(zero & elems & from & u & made & i & l & Hv & _)]);
    rewrite Hv; split; reflexivity.
Qed.

Lemma decodeCalls_error o n r o' x c' r' x' p' r'' e :
  decodeCalls o n r o' x c' r' ->
  runVisitorInternal (decodeVisitor_visit decode o') x c' None None r'
  = Return (x', p', r'', Some e) ->
  exists v' r3, decodeVisitor_visit decode o n r = Return (v', r3, Some e).
Proof.
  intros (-> & Hcall) Hrun.
  assert (Hx : decode x c' (default o (node.endianness n)) r'
               = Return (x', r'', Some e))
    by (rewrite decode_eq; unfold runVisitor; rewrite Hrun; reflexivity).
  unfold decodeVisitor_visit.
  destruct Hcall as [(zero & pre & rest & pre' & Hv & -> & Hpre)
                    |(zero & elems & from & u & made & i & l & Hv & -> & -> & Hsf & Hu
                      & Hmade & Hi & Hpre)]; rewrite Hv in *.
  - cbn [Index_CanSet].
    rewrite (eachIndex_stop _ pre x rest _ _ _ _ _ _ Hpre Hx). cbn. eauto.
  - rewrite Hsf, Hu. cbn [mbind outcome_bind]. rewrite Hmade. cbn [mbind outcome_bind].
    destruct (eachFresh_stop _ zero i (Z.to_nat (int u)) _ _ _ _ _ _ Hi Hpre Hx)
      as [l' ->].
    cbn. eauto.
Qed.

(** C9.  Whatever the traversal of a value reaches, if it is of kind
    bool, int, uint or uintptr then [Sizeof], [Encode] and [Decode]
    return the unsupported-type error that names this kind: the value
    may be what the operation was called on, a field of a struct, or
    lie any number of structs, pointers, arrays and slices below; the
    driver hands these kinds to the visitor, every visitor turns them
    away, and every level of the traversal returns the error of the
    level below.  [Sizeof] returns -1 with the error. *)
Theorem unsupported_scalar_kinds (k : Kind) :
  rejectedKind k = true ->
  (forall v,
      Reaches (fun _ : unit => sizeofVisitor_visit sizeof) sizeofCalls k tt
        v false None None 0 ->
      Sizeof v = Return (-1, Some (unsupportedType k)))
  /\ (forall W (HW : io.Writer W) (w : W) v o,
        Reaches (encodeVisitor_visit encode) encodeCalls k o v false None None w ->
        exists v' w', EncodeWithOrder w v o = Return (v', w', Some (unsupportedType k)))
  /\ (forall r v o,
        Reaches (decodeVisitor_visit decode) decodeCalls k o v false None None r ->
        exists v' r', DecodeWithOrder r v o = Return (v', r', Some (unsupportedType k))).
Proof.
  intros Hk. split; [|split].
  - intros v Hreach.
    destruct (Reaches_error _ sizeofCalls
                (fun _ => sizeofVisitor_rejects sizeof)
                sizeofCalls_leaf sizeofCalls_error k tt v false None None 0 Hk Hreach)
      as [v' [p' [s' Hrun]]].
    unfold Sizeof. rewrite sizeof_eq. unfold runVisitor.
    match goal with
    | |- context [runVisitorInternal ?g ?a ?b ?c ?d ?e] =>
        replace (runVisitorInternal g a b c d e)
          with (Return (v', p', s', Some (unsupportedType k)))
          by (symmetry; exact Hrun)
    end.
    reflexivity.
  - intros W HW w v o Hreach.
    destruct (Reaches_error _ encodeCalls
                (fun o => encodeVisitor_rejects encode o)
                encodeCalls_leaf encodeCalls_error k o v false None None w Hk Hreach)
      as [v' [p' [s' Hrun]]].
    exists v', s'. unfold EncodeWithOrder. rewrite encode_eq. unfold runVisitor.
    match goal with
    | |- context [runVisitorInternal ?g ?a ?b ?c ?d ?e] =>
        replace (runVisitorInternal g a b c d e)
          with (Return (v', p', s', Some (unsupportedType k)))
          by (symmetry; exact Hrun)
    end.
    reflexivity.
  - intros r v o Hreach.
    destruct (Reaches_error _ decodeCalls
                (fun o => decodeVisitor_rejects decode o)
                decodeCalls_leaf decodeCalls_error k o v false None None r Hk Hreach)
      as [v' [p' [s' Hrun]]].
    exists v', s'. unfold DecodeWithOrder. rewrite decode_eq. unfold runVisitor.
    match goal with
    | |- context [runVisitorInternal ?g ?a ?b ?c ?d ?e] =>
        replace (runVisitorInternal g a b c d e)
          with (Return (v', p', s', Some (unsupportedType k)))
          by (symmetry; exact Hrun)
    end.
    reflexivity.
Qed.

(** C9 at a pointer to [struct {A uint8; In struct {X uint16; P
    *struct {Arr [2]struct {Y uint8; B bool}}}}]: the traversal goes
    through the struct [In], the pointer [P] and the array [Arr], and
    reaches [B] in the first element of [Arr], after [A], [X] and
    [Y]. *)
Lemma unsupported_scalar_kinds_witness :
  Sizeof (addressOf BoolInside) = Return (-1, Some (unsupportedType Bool))
  /\ (exists v' w',
        EncodeWithOrder (W:=bytes.Buffer) [] (addressOf BoolInside) binary.LittleEndian
        = Return (v', w', Some (unsupportedType Bool)))
  /\ (exists v' r',
        DecodeWithOrder [x01; x02; x00; x03; x09] (addressOf BoolInside)
          binary.LittleEndian
        = Return (v', r', Some (unsupportedType Bool))).
Proof.
  destruct (unsupported_scalar_kinds Bool eq_refl) as [Hs [He Hd]].
  split; [|split].
  - apply Hs.
    eapply (Reaches_field _ _ _ _ _ _ _ _ _ _ _ [("A", [], VUint W8 1)] ("In", []));
      [reflexivity|reflexivity|reflexivity|].
    eapply (Reaches_field _ _ _ _ _ _ _ _ _ _ _ [("X", [], VUint W16 2)] ("P", []));
      [reflexivity|reflexivity|reflexivity|].
    eapply (Reaches_field _ _ _ _ _ _ _ _ _ _ _ [] ("Arr", []));
      [reflexivity|reflexivity|reflexivity|].
    eapply Reaches_element with (o' := tt); [reflexivity| |].
    { split; [reflexivity|]. split; [reflexivity|].
      eexists _, _. split; [left; reflexivity|].
      exists [], [BoolElem 4 true]. split; [reflexivity|constructor]. }
    eapply (Reaches_field _ _ _ _ _ _ _ _ _ _ _ [("Y", [], VUint W8 3)] ("B", []));
      [reflexivity|reflexivity|reflexivity|].
    eapply Reaches_here; reflexivity.
  - apply (He bytes.Buffer _ []).
    eapply (Reaches_field _ _ _ _ _ _ _ _ _ _ _ [("A", [], VUint W8 1)] ("In", []));
      [reflexivity|reflexivity|reflexivity|].
    eapply (Reaches_field _ _ _ _ _ _ _ _ _ _ _ [("X", [], VUint W16 2)] ("P", []));
      [reflexivity|reflexivity|reflexivity|].
    eapply (Reaches_field _ _ _ _ _ _ _ _ _ _ _ [] ("Arr", []));
      [reflexivity|reflexivity|reflexivity|].
    eapply Reaches_element; [reflexivity| |].
    { split; [reflexivity|]. split; [reflexivity|].
      exists [], [BoolElem 4 true], []. split; reflexivity. }
    eapply (Reaches_field _ _ _ _ _ _ _ _ _ _ _ [("Y", [], VUint W8 3)] ("B", []));
      [reflexivity|reflexivity|reflexivity|].
    eapply Reaches_here; reflexivity.
  - apply Hd.
    eapply (Reaches_field _ _ _ _ _ _ _ _ _ _ _ [("A", [], VUint W8 1)] ("In", []));
      [reflexivity|reflexivity|reflexivity|].
    eapply (Reaches_field _ _ _ _ _ _ _ _ _ _ _ [("X", [], VUint W16 2)] ("P", []));
      [reflexivity|reflexivity|reflexivity|].
    eapply (Reaches_field _ _ _ _ _ _ _ _ _ _ _ [] ("Arr", []));
      [reflexivity|reflexivity|reflexivity|].
    eapply Reaches_element; [reflexivity| |].
    { split; [reflexivity|]. left.
      exists (BoolElem 0 false), [], [BoolElem 4 true], [].
      split; [reflexivity|]. split; reflexivity. }
    eapply (Reaches_field _ _ _ _ _ _ _ _ _ _ _ [("Y", [], VUint W8 3)] ("B", []));
      [reflexivity|reflexivity|reflexivity|].
    eapply Reaches_here; reflexivity.
Defined.

Lemma tagNode_order all d n :
  tagNode all [order_tag d] n = node.set_endianness (Some d) n.
Proof. destruct d; reflexivity. Qed.

Section Order.
Context {W : Type} `{io.Writer W}.

(** The visitor looks at its own order only where the node has none. *)
Lemma encodeVisitor_order self o d val canSet sz sf sfs nt (w : W) :
  encodeVisitor_visit self o (node.mk val canSet sz sf sfs (Some d) nt) w =
  encodeVisitor_visit self d (node.mk val canSet sz sf sfs None nt) w.
Proof. reflexivity. Qed.

Lemma encode_tagged_field d o x (w : W) :
  isStruct (nodeVal x) = false ->
  effect (EncodeWithOrder w (addressOf (Tagged d x)) o) =
  effect (EncodeWithOrder w (addressOf (Untagged x)) d).
Proof.
  intros Hx. unfold EncodeWithOrder, Tagged, Untagged.
  rewrite !encode_eq, !run_single_field.
  rewrite (run_field_leaf _ x true (rootNode (VStruct [("F", [order_tag d], x)]) true)
             _ [("F", [order_tag d], x)] w eq_refl Hx).
  rewrite (run_field_leaf _ x true (rootNode (VStruct [("F", [], x)]) true)
             _ [("F", [], x)] w eq_refl Hx).
  cbv zeta. unfold fieldNode. cbn [Name Tag Index Field_of fst snd].
  rewrite tagNode_order. simpl tagNode.
  change (sizeFroms_lookup (rootNode (VStruct [("F", [order_tag d], x)]) true) "F")
    with (@None Value).
  change (sizeFroms_lookup (rootNode (VStruct [("F", [], x)]) true) "F")
    with (@None Value).
  unfold node.set_endianness. cbn [node.val node.canSet node.sizeof node.sizeFrom
    node.sizeFroms node.endianness node.nullTerminated].
  rewrite encodeVisitor_order.
  destruct (isLeafKind (Kind_of (nodeVal x))); [|reflexivity].
  match goal with
  | |- context [encodeVisitor_visit ?a ?b ?c ?w] =>
      destruct (encodeVisitor_visit a b c w) as [[[? ?] [?|]]|]; reflexivity
  end.
Qed.
End Order.

(** A byte-order directive on a field that is not a struct replaces
    the order of the call for that field and for everything below it:
    [Encode] with any default order [o] writes for [struct {F T
    `wire:"big"`}] what [Encode] with default big-endian writes for
    [struct {F T}], and returns the same error; likewise for
    [little].  In particular a [uint16] tagged [big] under the
    little-endian default is written most significant byte first. *)
Lemma order_directive_on_leaf :
  (forall W (HW : io.Writer W) (d o : binary.ByteOrder) (x : Value) (w : W),
      isStruct (nodeVal x) = false ->
      effect (EncodeWithOrder w (addressOf (Tagged d x)) o) =
      effect (EncodeWithOrder w (addressOf (Untagged x)) d))
  /\ written (Encode (W:=bytes.Buffer) [] (addressOf (Tagged binary.BigEndian (VUint W16 0x0102))))
     = Some [x01; x02]
  /\ written (Encode (W:=bytes.Buffer) [] (addressOf (Untagged (VUint W16 0x0102))))
     = Some [x02; x01].
Proof.
  split; [|split; reflexivity].
  intros. apply encode_tagged_field. assumption.
Qed.

(** An array of structs tagged [big]: its elements and their fields
    are written big-endian under the little-endian default. *)
Lemma order_directive_on_array :
  effect (EncodeWithOrder (W:=bytes.Buffer) []
            (addressOf (Tagged binary.BigEndian
                          (VArray (Zero Inner) [Inner; Inner]))) binary.LittleEndian)
  = Return ([x01; x02; x01; x02], None).
Proof.
  rewrite (proj1 order_directive_on_leaf bytes.Buffer _ binary.BigEndian
             binary.LittleEndian (VArray (Zero Inner) [Inner; Inner]) [] eq_refl).
  reflexivity.
Qed.

(** ** A directive on a field that is a struct *)

Lemma applyMatch_order_blind f x n (p : option node.t) e :
  applyMatch f x n (node.set_endianness e <$> p) =
  '(n', p') ← applyMatch f x n p; Return (n', node.set_endianness e <$> (p' : option node.t)).
Proof.
  unfold applyMatch. repeat case_bool_decide; try reflexivity.
  destruct p as [pn|]; [|reflexivity]. cbn [fmap option_fmap option_map].
  cbn [node.set_endianness node.val node.sizeFroms].
  destruct (FieldByName (node.val pn) (x2 x)); reflexivity.
Qed.

Lemma applyMatches_order_blind f xs e : forall n (p : option node.t),
  applyMatches f xs n (node.set_endianness e <$> p) =
  '(n', p') ← applyMatches f xs n p; Return (n', node.set_endianness e <$> (p' : option node.t)).
Proof.
  induction xs as [|x xs IH]; intros n p; [reflexivity|].
  cbn [applyMatches]. rewrite applyMatch_order_blind.
  destruct (applyMatch f x n p) as [[n1 p1]|]; [|reflexivity].
  cbn [mbind outcome_bind]. apply IH.
Qed.

(** The node of a field does not depend on the byte order of the node
    of its struct. *)
Lemma newNode_order_blind val canSet pn f e :
  newNode val canSet (Some (node.set_endianness e pn)) f =
  '(n, p) ← newNode val canSet (Some pn) f;
  Return (n, node.set_endianness e <$> (p : option node.t)).
Proof.
  unfold newNode. cbn [node.set_endianness node.sizeFroms].
  change (sizeFroms_lookup (node.mk (node.val pn) (node.canSet pn) (node.sizeof pn)
            (node.sizeFrom pn) (node.sizeFroms pn) e (node.nullTerminated pn)))
    with (sizeFroms_lookup pn).
  destruct (node.sizeFroms pn), f as [fld|]; cbn [mbind outcome_bind]; try reflexivity.
  - apply (applyMatches_order_blind fld (Tag fld) e _ (Some pn)).
  - apply (applyMatches_order_blind fld (Tag fld) e _ (Some pn)).
Qed.

Section OrderBlind.
Context {St : Type} (visit : node.t -> St -> outcome (visited St)).

Lemma runVisitorInternal_order_blind x canSet pn f e s :
  runVisitorInternal visit x canSet (Some (node.set_endianness e pn)) f s =
  '(x', p', s', err) ← runVisitorInternal visit x canSet (Some pn) f s;
  Return (x', node.set_endianness e <$> (p' : option node.t), s', err).
Proof.
  rewrite !runVisitorInternal_walk. unfold walk. rewrite newNode_order_blind.
  destruct (newNode (nodeVal x) (walkCanSet x canSet) (Some pn) f) as [[n p]|];
    [|reflexivity].
  cbn [mbind outcome_bind].
  destruct (nodeVal x);
    repeat match goal with
      | |- context [fieldLoop ?a ?b ?c ?d ?g] =>
          destruct (fieldLoop a b c d g) as [[[? ?] ?]|]; cbn [mbind outcome_bind]
      | |- context [if ?b then _ else _] => destruct b
      | |- context [visit ?a ?b] =>
          destruct (visit a b) as [[[? ?] ?]|]; cbn [mbind outcome_bind]
      end; reflexivity.
Qed.

Lemma storeField_order i x e n :
  storeField i x (node.set_endianness e n) = node.set_endianness e (storeField i x n).
Proof. unfold storeField. cbn [node.set_endianness node.val]. destruct (node.val n); reflexivity. Qed.

(** The loop over the fields of a struct never looks at the byte order
    of the node of the struct. *)
Lemma fieldLoop_order_blind e rest : forall i n s,
  fieldLoop (runVisitorInternal visit) rest i (node.set_endianness e n) s =
  '(n', s', err) ← fieldLoop (runVisitorInternal visit) rest i n s;
  Return (node.set_endianness e n', s', err).
Proof.
  induction rest as [|[fld x] rest IH]; intros i n s; [reflexivity|].
  cbn [fieldLoop]. change (node.canSet (node.set_endianness e n)) with (node.canSet n).
  rewrite runVisitorInternal_order_blind.
  destruct (runVisitorInternal visit x (node.canSet n) (Some n) (Some (Field_of i fld)) s)
    as [[[[x' p'] s'] err]|]; [|reflexivity].
  cbn [mbind outcome_bind].
  assert (Hd : default (node.set_endianness e n) (node.set_endianness e <$> p')
               = node.set_endianness e (default n p')) by (destruct p'; reflexivity).
  rewrite Hd, storeField_order.
  destruct err as [err|]; [reflexivity|]. apply IH.
Qed.

(** A byte-order directive on a field that is a struct, or a pointer
    to one, changes nothing in what the visitor does. *)
Lemma run_tagged_struct d x s :
  isStruct (nodeVal x) = true ->
  effect (runVisitor visit (addressOf (Tagged d x)) false s) =
  effect (runVisitor visit (addressOf (Untagged x)) false s).
Proof.
  intros Hx. unfold Tagged, Untagged, effect. rewrite !run_single_field.
  rewrite !runVisitorInternal_walk. unfold walk.
  rewrite (newNode_field _ _ (rootNode (VStruct [("F", [order_tag d], x)]) true) _
             [("F", [order_tag d], x)] eq_refl).
  rewrite (newNode_field _ _ (rootNode (VStruct [("F", [], x)]) true) _
             [("F", [], x)] eq_refl).
  cbn [mbind outcome_bind]. destruct (nodeVal x) as [| | | | | | | | | | | |fields| |];
    try discriminate.
  unfold fieldNode. cbn [Name Tag Index Field_of fst snd].
  rewrite tagNode_order. simpl tagNode.
  change (sizeFroms_lookup (rootNode (VStruct [("F", [order_tag d], x)]) true) "F")
    with (@None Value).
  change (sizeFroms_lookup (rootNode (VStruct [("F", [], x)]) true) "F")
    with (@None Value).
  match goal with
  | |- context [fieldLoop ?wk fields 0%nat (node.set_val ?v (node.set_endianness ?e ?n)) s] =>
      change (node.set_val v (node.set_endianness e n))
        with (node.set_endianness e (node.set_val v n));
      rewrite (fieldLoop_order_blind e fields 0%nat (node.set_val v n) s)
  end.
  match goal with
  | |- context [fieldLoop ?wk fields 0%nat ?n s] =>
      destruct (fieldLoop wk fields 0%nat n s) as [[[n' s'] err]|]; reflexivity
  end.
Qed.
End OrderBlind.

(** C8.  The code does not do what C8 says where the tagged field is a
    struct or a pointer to one: the directive is stored in the node of
    the struct, which no visitor sees, and the loop over the fields
    does not pass it on, so [Encode] and [Decode] do for [struct {F T
    `wire:"big"`}] what they do for [struct {F T}], whatever the order
    of the call.  With the little-endian default the [uint16] of
    [struct {F struct {U16 uint16} `wire:"big"`}] is written least
    significant byte first, and read so.  The sibling paths do what C8
    says: the same directive on a [uint16] field, and on an array of
    the same struct, where [visit] hands the order of the node to the
    [encode] of each element, gives the most significant byte
    first. *)
Theorem order_directive_on_struct :
  (forall W (HW : io.Writer W) (d o : binary.ByteOrder) (x : Value) (w : W),
      isStruct (nodeVal x) = true ->
      effect (EncodeWithOrder w (addressOf (Tagged d x)) o) =
      effect (EncodeWithOrder w (addressOf (Untagged x)) o))
  /\ (forall (d o : binary.ByteOrder) (x : Value) (r : bytes.Buffer),
        isStruct (nodeVal x) = true ->
        effect (DecodeWithOrder r (addressOf (Tagged d x)) o) =
        effect (DecodeWithOrder r (addressOf (Untagged x)) o))
  /\ EncodeWithOrder (W:=bytes.Buffer) [] (addressOf (Tagged binary.BigEndian Inner))
       binary.LittleEndian
     = Return (addressOf (Tagged binary.BigEndian Inner), [x02; x01], None)
  /\ DecodeWithOrder [x01; x02] (addressOf (Tagged binary.BigEndian (Zero Inner)))
       binary.LittleEndian
     = Return (addressOf (Tagged binary.BigEndian
                            (VStruct [("U16", [], VUint W16 0x0201)])), [], None)
  /\ written (Encode (W:=bytes.Buffer) []
                (addressOf (Tagged binary.BigEndian (VUint W16 0x0102))))
     = Some [x01; x02]
  /\ written (Encode (W:=bytes.Buffer) []
                (addressOf (Tagged binary.BigEndian (VArray (Zero Inner) [Inner]))))
     = Some [x01; x02].
Proof.
  split; [|split; [|repeat split]].
  - intros W HW d o x w Hx. unfold EncodeWithOrder. rewrite !encode_eq.
    apply run_tagged_struct, Hx.
  - intros d o x r Hx. unfold DecodeWithOrder. rewrite !decode_eq.
    apply run_tagged_struct, Hx.
Qed.

(** C8 at [struct {F *struct {U16 uint16} `wire:"little"`}] under the
    big-endian default: [U16] is written most significant byte
    first. *)
Lemma order_directive_on_struct_witness :
  effect (EncodeWithOrder (W:=bytes.Buffer) []
            (addressOf (Tagged binary.LittleEndian (addressOf Inner))) binary.BigEndian)
  = Return ([x01; x02], None).
Proof.
  rewrite (proj1 order_directive_on_struct bytes.Buffer _ binary.LittleEndian
             binary.BigEndian (addressOf Inner) [] eq_refl).
  reflexivity.
Defined.

(** ** The tests of the repository

    [wire_test.go] on the model; [TestEncode] leaves the lengths 2 and
    5 in [refStruct], which is what [TestDecode] then compares with. *)

Example TestSizeof : Sizeof (addressOf (refStruct 0 0)) = Return (101, None).
Proof. reflexivity. Qed.

Example TestEncode :
  EncodeWithOrder (W:=bytes.Buffer) [] (addressOf (refStruct 0 0)) binary.BigEndian
  = Return (addressOf (refStruct 2 5), refBytes, None).
Proof. reflexivity. Qed.

Example TestDecode :
  DecodeWithOrder refBytes (addressOf (Zero (refStruct 0 0))) binary.BigEndian
  = Return (addressOf (refStruct 2 5), [], None).
Proof. reflexivity. Qed.

(** ** The scenario of the package comment *)



(** ** Where the code departs from the specification *)

(** C2.  For [struct {A [2]string}] with [A = {"a", "bbb"}] both
    operations succeed, [Sizeof] returns 2 and [Encode] writes 4
    bytes: an array whose elements are not structs is measured by its
    first element. *)
Theorem TwoStrings_size_disagrees :
  Sizeof (addressOf TwoStrings) = Return (2, None)
  /\ Encode (W:=bytes.Buffer) [] (addressOf TwoStrings)
     = Return (addressOf TwoStrings, [x61; x62; x62; x62], None).
Proof. split; reflexivity. Qed.

(** C4.  For [struct {Count uint16 `sizeof=Items`; Items []uint8}]
    with [Count = 0] and three items [Encode] leaves [Count] at 0 and
    writes 00 00 before the items: the length switch has no case for
    the 16-bit kinds. *)
Theorem Counted_uint16_not_patched :
  Encode (W:=bytes.Buffer) [] (addressOf (Counted 0))
  = Return (addressOf (Counted 0), [x00; x00; x07; x08; x09], None).
Proof. reflexivity. Qed.

(** The same struct with a [uint32] count is patched to 3. *)
Lemma Counted32_patched :
  Encode (W:=bytes.Buffer) [] (addressOf (Counted32 0))
  = Return (addressOf (Counted32 3), [x03; x00; x00; x00; x07; x08; x09], None).
Proof. reflexivity. Qed.

(** C5.  [Encode] to a writer whose [Write] fails returns no error:
    for [struct {A uint8}] the writer is called once, fails, and
    [Encode] returns nil. *)
Theorem write_failure_dropped :
  Encode {| failure := "broken pipe"; calls := 0 |} (addressOf OneByte)
  = Return (addressOf OneByte, {| failure := "broken pipe"; calls := 1 |}, None).
Proof. reflexivity. Qed.

(** C7.  [Decode] into [struct {S string}] panics with a nil pointer
    dereference: the string has neither [nullterm] nor a length
    producer, and [n.sizeFrom] is read without the nil check of the
    slice case. *)
Theorem PlainString_decode_panics :
  Decode [x61; x62] (addressOf (PlainString [])) = Panic NilPointerDereference.
Proof. reflexivity. Qed.

(** C10.  [Encode] accepts [struct {N int32 `sizeof=S`; S []uint8}]
    and patches [N]; [Decode] of the bytes it wrote panics in
    [reflect.Value.Uint], called on the signed producer. *)
Theorem SignedCount_decode_panics :
  Encode (W:=bytes.Buffer) [] (addressOf (SignedCount 0 [VUint W8 7; VUint W8 8]))
  = Return (addressOf (SignedCount 2 [VUint W8 7; VUint W8 8]),
            [x02; x00; x00; x00; x07; x08], None)
  /\ Decode [x02; x00; x00; x00; x07; x08] (addressOf (SignedCount 0 []))
     = Panic (ReflectValueError "reflect.Value.Uint").
Proof. split; reflexivity. Qed.

(** C3 as stated fails on a value without any length producer:
    [struct {S string `wire:"nullterm"`}] with [S = "a\x00b"] is
    encoded to 61 00 62 00, which decodes to [S = "a"] and leaves two
    bytes unread. *)
Lemma Terminated_round_trip_fails :
  Encode (W:=bytes.Buffer) [] (addressOf (Terminated [x61; x00; x62]))
  = Return (addressOf (Terminated [x61; x00; x62]), [x61; x00; x62; x00], None)
  /\ Decode [x61; x00; x62; x00] (addressOf (Zero (Terminated [x61; x00; x62])))
     = Return (addressOf (Terminated [x61]), [x62; x00], None)
  /\ addressOf (Terminated [x61]) <> addressOf (Terminated [x61; x00; x62]).
Proof. split; [|split]; [reflexivity|reflexivity|discriminate]. Qed.

(** ** Bytes and integers *)

Lemma Z_of_byte_range b : 0 <= Z_of_byte b < 256.
Proof.
  unfold Z_of_byte. pose proof (Byte.to_N_bounded b) as Hb. lia.
Qed.

Lemma Z_of_byte_of_Z x : Z_of_byte (byte_of_Z x) = uintN 8 x.
Proof.
  unfold byte_of_Z, Z_of_byte.
  assert (Hr : 0 <= uintN 8 x < 256) by (unfold uintN; apply Z.mod_pos_bound; lia).
  pose proof (Byte.to_of_N_option_map (Z.to_N (uintN 8 x))) as Hm.
  destruct (N.leb_spec (Z.to_N (uintN 8 x)) 255) as [_|Hgt]; [|lia].
  destruct (Byte.of_N (Z.to_N (uintN 8 x))) as [b|]; [|discriminate].
  simpl in Hm. injection Hm as ->. lia.
Qed.

Lemma le_bytes_length n v : length (binary.le_bytes n v) = n.
Proof. revert v. induction n; intros; simpl; auto. Qed.

Lemma le_uint_le_bytes n v :
  binary.le_uint (binary.le_bytes n v) = uintN (8 * Z.of_nat n) v.
Proof.
  revert v. induction n as [|n IH]; intros v.
  - simpl. unfold uintN. rewrite Z.mod_1_r. reflexivity.
  - cbn [binary.le_bytes binary.le_uint]. rewrite IH, Z_of_byte_of_Z.
    unfold uintN. apply Z.bits_inj'. intros k Hk.
    rewrite Z.lor_spec.
    replace (8 * Z.of_nat (S n)) with (8 * Z.of_nat n + 8) by lia.
    destruct (Z.lt_ge_cases k 8) as [Hlt|Hge].
    + rewrite Z.shiftl_spec_low by lia. rewrite orb_false_r.
      rewrite !Z.mod_pow2_bits_low by lia. reflexivity.
    + rewrite (Z.mod_pow2_bits_high v 8) by lia. simpl.
      rewrite Z.shiftl_spec by lia.
      destruct (Z.lt_ge_cases k (8 * Z.of_nat n + 8)) as [Hlt|Hge'].
      * rewrite !Z.mod_pow2_bits_low by lia.
        rewrite Z.shiftr_spec by lia. f_equal. lia.
      * rewrite !Z.mod_pow2_bits_high by lia. reflexivity.
Qed.

Lemma put_length o n v : length (binary.put o n v) = n.
Proof. destruct o; simpl; rewrite ?length_rev; apply le_bytes_length. Qed.

Lemma get_put o n v : binary.get o (binary.put o n v) = uintN (8 * Z.of_nat n) v.
Proof.
  destruct o; simpl; rewrite ?rev_involutive; apply le_uint_le_bytes.
Qed.

Lemma uintN_small w x : 0 <= x < 2 ^ w -> uintN w x = x.
Proof. intros. unfold uintN. apply Z.mod_small. assumption. Qed.

Lemma uintN_idem w x : 0 <= w -> uintN w (uintN w x) = uintN w x.
Proof. intros. unfold uintN. apply Z.mod_mod. apply Z.pow_nonzero; lia. Qed.

Lemma intN_uintN w x : 0 < w -> intN w (uintN w x) = intN w x.
Proof.
  intros Hw. unfold intN, uintN.
  rewrite Zplus_mod_idemp_l. reflexivity.
Qed.

Lemma intN_small w x : 0 < w -> - 2 ^ (w - 1) <= x < 2 ^ (w - 1) -> intN w x = x.
Proof.
  intros Hw Hx. unfold intN.
  assert (2 ^ w = 2 * 2 ^ (w - 1)).
  { replace w with (1 + (w - 1)) at 1 by lia. rewrite Z.pow_add_r by lia. reflexivity. }
  rewrite Z.mod_small by lia. lia.
Qed.

(** ** Reading from a buffer *)

Lemma Read_exact bs r :
  bs <> [] ->
  bytes.Read (bs ++ r) (zeroed (length bs)) = (bs, None, r).
Proof.
  intros Hne. unfold bytes.Read, zeroed.
  destruct (bs ++ r) eqn:E; [destruct bs; [congruence|discriminate]|].
  rewrite <- E. rewrite length_replicate, length_app.
  rewrite Nat.min_l by lia.
  rewrite take_app_length, drop_app_length.
  rewrite drop_ge by (rewrite length_replicate; lia).
  rewrite app_nil_r. reflexivity.
Qed.

Lemma Read_exact_nil r : bytes.Read r (zeroed 0) = ([], None, r).
Proof. destruct r; reflexivity. Qed.

Lemma Read_string s r : bytes.Read (s ++ r) (zeroed (length s)) = (s, None, r).
Proof.
  destruct s as [|b s]; [apply Read_exact_nil|].
  apply Read_exact. discriminate.
Qed.

Lemma readNull_app s r buf :
  forallb (fun b => negb (Byte.eqb b x00)) s = true ->
  readNull (s ++ x00 :: r) buf = (buf ++ s, None, r).
Proof.
  revert buf. induction s as [|b s IH]; intros buf Hs.
  - simpl. rewrite app_nil_r. reflexivity.
  - simpl in Hs. apply andb_true_iff in Hs as [Hb Hs].
    cbn [app readNull]. destruct (Byte.eqb b x00); [discriminate|].
    rewrite IH by assumption. rewrite <- app_assoc. reflexivity.
Qed.

(** [readNull] is the loop of the source over [Buffer.Read]. *)
Lemma readNull_step r buf :
  readNull r buf =
  match bytes.Read r (zeroed 1) with
  | (_, Some err, _) => ([], Some err, r)
  | (single, None, r') =>
      if bool_decide (first_byte single = 0) then (buf, None, r')
      else readNull r' (buf ++ single)
  end.
Proof.
  destruct r as [|b r]; [reflexivity|].
  cbn [readNull]. unfold bytes.Read, zeroed. simpl.
  rewrite drop_0. unfold first_byte.
  destruct (Byte.eqb b x00) eqn:E.
  - apply Byte.byte_dec_bl in E. subst. reflexivity.
  - case_bool_decide as Hz; [|reflexivity].
    exfalso. apply Byte.eqb_false in E. apply E.
    assert (Hn : Byte.to_N b = 0%N) by (unfold Z_of_byte in Hz; lia).
    pose proof (Byte.of_to_N b) as Hb. rewrite Hn in Hb. simpl in Hb. congruence.
Qed.

(** ** Round trip of the elements of an array or slice *)

Lemma eachIndex_round_trip o zero elems :
  Forall (fun e => exists bs, roundTripsWith o e bs) elems ->
  Forall (fun e => Zero e = zero) elems ->
  exists bs,
    (forall w : bytes.Buffer,
        eachIndex (fun x w => encode x true o w) elems w = Return (elems, w ++ bs, None))
    /\ (forall r,
          eachIndex (fun x r => decode x true o r) (replicate (length elems) zero)
            (bs ++ r) = Return (elems, r, None))
    /\ (forall r,
          eachFresh (fun r => decode zero true o r) (length elems) zero (bs ++ r)
          = Return (elems, r, None)).
Proof.
  intros Hrt Hz. induction Hrt as [|x elems [bx [Hex Hdx]] _ IH].
  - exists []. repeat split; intros; simpl; rewrite ?app_nil_r; reflexivity.
  - inversion Hz as [|? ? Hzx Hzs]; subst.
    destruct (IH Hzs) as [bs [He [Hd Hf]]]. exists (bx ++ bs).
    repeat split; intros; cbn [eachIndex eachFresh length replicate].
    + rewrite Hex. simpl. rewrite He. simpl. rewrite app_assoc. reflexivity.
    + rewrite <- app_assoc, Hdx. simpl. rewrite Hd. reflexivity.
    + rewrite <- app_assoc, Hdx. simpl. rewrite Hf. reflexivity.
Qed.

Lemma elements_checked (P : Value -> Prop) zero elems :
  forallb (fun e => roundTrips e && Value_eqb (Zero e) zero) elems = true ->
  Forall (fun e => roundTrips e = true -> P e) elems ->
  Forall P elems /\ Forall (fun e => Zero e = zero) elems.
Proof.
  intros Hc HP. induction HP as [|x elems Hx _ IH]; [split; constructor|].
  simpl in Hc. apply andb_true_iff in Hc as [Hc Hcs].
  apply andb_true_iff in Hc as [Hr Hz]. apply Value_eqb_eq in Hz.
  destruct (IH Hcs). split; constructor; auto.
Qed.

#[local] Arguments bytes.Read : simpl never.
#[local] Arguments binary.put : simpl never.
#[local] Arguments binary.get : simpl never.
#[local] Arguments uintN : simpl never.
#[local] Arguments intN : simpl never.
#[local] Arguments byte_of_Z : simpl never.
#[local] Arguments Z_of_byte : simpl never.
#[local] Arguments Z.mul : simpl never.

Lemma setLength_kept n : keptBySetLength n = true -> setLength n = Return (node.val n).
Proof.
  unfold keptBySetLength. destruct (setLength n) as [v|]; [|discriminate].
  intros Hv. apply Value_eqb_eq in Hv. congruence.
Qed.

Lemma Read_put o k v r :
  (0 < k)%nat ->
  bytes.Read (binary.put o k v ++ r) (zeroed k) = (binary.put o k v, None, r).
Proof.
  intros Hk. rewrite <- (put_length o k v) at 2. apply Read_exact.
  intros Hnil. apply (f_equal length) in Hnil. rewrite put_length in Hnil.
  simpl in Hnil. lia.
Qed.

Lemma get_take_put o k v :
  binary.get o (take k (binary.put o k v)) = uintN (8 * Z.of_nat k) v.
Proof. rewrite take_ge by (rewrite put_length; lia). apply get_put. Qed.

Lemma Read_byte b r : bytes.Read (b :: r) (zeroed 1) = ([b], None, r).
Proof. apply (Read_exact [b] r). discriminate. Qed.

Lemma bits_pos w : 0 < bits w.
Proof. destruct w; simpl; lia. Qed.

Lemma inInt_true w i : inInt w i = true -> intN (bits w) i = i.
Proof.
  unfold inInt. rewrite bool_decide_eq_true. intros Hi.
  apply intN_small; [apply bits_pos|assumption].
Qed.

Lemma inUint_true w u : inUint w u = true -> uintN (bits w) u = u.
Proof.
  unfold inUint. rewrite bool_decide_eq_true. apply uintN_small.
Qed.

(** What the two visitors do on an integer node. *)
Lemma int_round_trip self self' o ne nd w i :
  node.val ne = VInt w i -> node.val nd = VInt w 0 ->
  node.canSet nd = true ->
  node.endianness nd = node.endianness ne ->
  fixedWidth w = true -> inInt w i = true -> keptBySetLength ne = true ->
  exists bs,
    (forall wr : bytes.Buffer,
        encodeVisitor_visit self o ne wr = Return (VInt w i, wr ++ bs, None))
    /\ (forall r, decodeVisitor_visit self' o nd (bs ++ r) = Return (VInt w i, r, None)).
Proof.
  intros Hne Hnd Hc He Hw Hi Hk.
  apply setLength_kept in Hk. apply inInt_true in Hi.
  unfold encodeVisitor_visit, decodeVisitor_visit. rewrite Hk, Hne, Hnd, Hc, He.
  set (order := default o (node.endianness ne)).
  destruct w; try discriminate; simpl in Hi |- *.
  - exists [byte_of_Z i]. split; intros; [reflexivity|].
    simpl. rewrite Z_of_byte_of_Z, intN_uintN, Hi by lia.
    reflexivity.
  - exists (binary.PutUint16 order (uintN 16 i)). split; intros; [reflexivity|].
    unfold binary.PutUint16, binary.Uint16. rewrite Read_put by lia. simpl.
    rewrite get_take_put. change (8 * Z.of_nat 2) with 16. change (8 * Z.of_nat 4) with 32. change (8 * Z.of_nat 8) with 64. rewrite uintN_idem, intN_uintN, Hi by lia.
    reflexivity.
  - exists (binary.PutUint32 order (uintN 32 i)). split; intros; [reflexivity|].
    unfold binary.PutUint32, binary.Uint32. rewrite Read_put by lia. simpl.
    rewrite get_take_put. change (8 * Z.of_nat 2) with 16. change (8 * Z.of_nat 4) with 32. change (8 * Z.of_nat 8) with 64. rewrite uintN_idem, intN_uintN, Hi by lia.
    reflexivity.
  - exists (binary.PutUint64 order (uintN 64 i)). split; intros; [reflexivity|].
    unfold binary.PutUint64, binary.Uint64. rewrite Read_put by lia. simpl.
    rewrite get_take_put. change (8 * Z.of_nat 2) with 16. change (8 * Z.of_nat 4) with 32. change (8 * Z.of_nat 8) with 64. rewrite uintN_idem, !intN_uintN, Hi by lia.
    rewrite Hi. reflexivity.
Qed.

Lemma uint_round_trip self self' o ne nd w u :
  node.val ne = VUint w u -> node.val nd = VUint w 0 ->
  node.canSet nd = true ->
  node.endianness nd = node.endianness ne ->
  fixedWidth w = true -> inUint w u = true -> keptBySetLength ne = true ->
  exists bs,
    (forall wr : bytes.Buffer,
        encodeVisitor_visit self o ne wr = Return (VUint w u, wr ++ bs, None))
    /\ (forall r, decodeVisitor_visit self' o nd (bs ++ r) = Return (VUint w u, r, None)).
Proof.
  intros Hne Hnd Hc He Hw Hu Hk.
  apply setLength_kept in Hk. apply inUint_true in Hu.
  unfold encodeVisitor_visit, decodeVisitor_visit. rewrite Hk, Hne, Hnd, Hc, He.
  set (order := default o (node.endianness ne)).
  destruct w; try discriminate; simpl in Hu |- *.
  - exists [byte_of_Z u]. split; intros; [reflexivity|].
    simpl. rewrite Z_of_byte_of_Z, uintN_idem, Hu by lia.
    reflexivity.
  - exists (binary.PutUint16 order (uintN 16 u)). split; intros; [reflexivity|].
    unfold binary.PutUint16, binary.Uint16. rewrite Read_put by lia. simpl.
    rewrite get_take_put. change (8 * Z.of_nat 2) with 16. change (8 * Z.of_nat 4) with 32. change (8 * Z.of_nat 8) with 64. rewrite !uintN_idem, Hu by lia.
    reflexivity.
  - exists (binary.PutUint32 order (uintN 32 u)). split; intros; [reflexivity|].
    unfold binary.PutUint32, binary.Uint32. rewrite Read_put by lia. simpl.
    rewrite get_take_put. change (8 * Z.of_nat 2) with 16. change (8 * Z.of_nat 4) with 32. change (8 * Z.of_nat 8) with 64. rewrite !uintN_idem, Hu by lia.
    reflexivity.
  - exists (binary.PutUint64 order (uintN 64 u)). split; intros; [reflexivity|].
    unfold binary.PutUint64, binary.Uint64. rewrite Read_put by lia. simpl.
    rewrite get_take_put. change (8 * Z.of_nat 2) with 16. change (8 * Z.of_nat 4) with 32. change (8 * Z.of_nat 8) with 64. rewrite !uintN_idem, Hu by lia.
    reflexivity.
Qed.


Lemma holdsLength_true n len :
  holdsLength n len = true ->
  exists from, node.sizeFrom n = Some from
               /\ Uint_ from = Return (Z.of_nat len)
               /\ Z.of_nat len < 2 ^ 63.
Proof.
  unfold holdsLength, lengthFrom.
  destruct (node.sizeFrom n) as [from|]; [|discriminate].
  destruct (Uint_ from) as [u|] eqn:E; [|discriminate].
  rewrite andb_true_iff, !bool_decide_eq_true. intros [-> Hu].
  exists from. repeat split; auto.
Qed.

Lemma int_of_nat_small k : Z.of_nat k < 2 ^ 63 -> int (Z.of_nat k) = Z.of_nat k.
Proof. intros. unfold int. apply intN_small; lia. Qed.

(** What the two visitors do on a leaf that round trips: [ne] is the
    node of the value in [Encode], [nd] the node of the fresh value in
    [Decode]. *)
Lemma leaf_round_trip o ne nd x :
  isStruct x = false ->
  leafRoundTrips roundTrips ne x = true ->
  node.val ne = x -> node.val nd = Zero x ->
  node.canSet ne = true -> node.canSet nd = true ->
  node.sizeFrom nd = node.sizeFrom ne ->
  node.endianness nd = node.endianness ne ->
  node.nullTerminated nd = node.nullTerminated ne ->
  Forall (fun e => roundTrips e = true -> forall o, exists bs, roundTripsWith o e bs)
    (children x) ->
  exists bs,
    (forall w : bytes.Buffer,
        encodeVisitor_visit encode o ne w = Return (x, w ++ bs, None))
    /\ (forall r, decodeVisitor_visit decode o nd (bs ++ r) = Return (x, r, None)).
Proof.
  intros Hs Hok Hne Hnd Hce Hcd Hsf Hen Hnt IH.
  destruct x as [| |w i|w u| | | | | |zero elems|zero elems|s| | |];
    try discriminate; simpl in Hok.
  - (* signed integers *)
    apply andb_true_iff in Hok as [Hok Hk]. apply andb_true_iff in Hok as [Hw Hi].
    eapply int_round_trip; eauto.
  - (* unsigned integers *)
    apply andb_true_iff in Hok as [Hok Hk]. apply andb_true_iff in Hok as [Hw Hu].
    eapply uint_round_trip; eauto.
  - (* arrays *)
    simpl in IH. inversion IH as [|? ? _ IHe]; subst.
    destruct (elements_checked _ _ _ Hok IHe) as [Hrt Hz].
    set (order := default o (node.endianness ne)).
    assert (Hrt' : Forall (fun e => exists bs, roundTripsWith order e bs) elems).
    { eapply Forall_impl; [exact Hrt|]. intros e He. apply He. }
    destruct (eachIndex_round_trip order zero elems Hrt' Hz) as [bs [He [Hd _]]].
    exists bs. unfold encodeVisitor_visit, decodeVisitor_visit, setLength.
    rewrite Hnd, Hen, Hne, Hce, Hcd. fold order. split; intros.
    + destruct (IsValid (node.sizeof ne)); simpl; rewrite He; reflexivity.
    + simpl. rewrite Hd. reflexivity.
  - (* slices *)
    apply andb_true_iff in Hok as [Hlen Hok].
    apply andb_true_iff in Hlen as [_ Hlen].
    simpl in IH. inversion IH as [|? ? _ IHe]; subst.
    destruct (elements_checked _ _ _ Hok IHe) as [Hrt Hz].
    set (order := default o (node.endianness ne)).
    assert (Hrt' : Forall (fun e => exists bs, roundTripsWith order e bs) elems).
    { eapply Forall_impl; [exact Hrt|]. intros e He. apply He. }
    destruct (eachIndex_round_trip order zero elems Hrt' Hz) as [bs [He [_ Hd]]].
    destruct (holdsLength_true _ _ Hlen) as [from [Hfrom [Hu Hsmall]]].
    exists bs. unfold encodeVisitor_visit, decodeVisitor_visit, setLength.
    rewrite Hnd, Hen, Hne, Hce, Hcd, Hsf, Hfrom. fold order. split; intros.
    + destruct (IsValid (node.sizeof ne)); simpl; rewrite He; reflexivity.
    + simpl. rewrite Hu. simpl. rewrite int_of_nat_small by assumption.
      unfold Set_MakeSlice. rewrite bool_decide_eq_false_2 by lia. simpl.
      rewrite Nat2Z.id, Hd. reflexivity.
  - (* strings *)
    unfold encodeVisitor_visit, decodeVisitor_visit, setLength.
    rewrite Hnd, Hnt, Hne, Hcd, Hsf.
    destruct (node.nullTerminated ne).
    + exists (s ++ [x00]). split; intros.
      * change (write_ (io.WriteString w s).2 [x00]) with ((w ++ s) ++ [x00]).
        rewrite <- app_assoc. destruct (IsValid (node.sizeof ne)); reflexivity.
      * simpl. unfold readNullTerminatedString.
        rewrite <- app_assoc. simpl. rewrite readNull_app by assumption. reflexivity.
    + destruct (holdsLength_true _ _ Hok) as [from [Hfrom [Hu Hsmall]]].
      exists s. rewrite Hfrom. split; intros.
      * destruct (IsValid (node.sizeof ne)); reflexivity.
      * simpl. rewrite Hu. simpl. rewrite bool_decide_eq_false_2 by lia.
        rewrite Nat2Z.id, Read_string. reflexivity.
Qed.

(** ** Nodes of the fields of a struct *)

Lemma sizeFroms_lookup_ext p q name :
  node.val p = node.val q -> node.sizeFroms p = node.sizeFroms q ->
  sizeFroms_lookup p name = sizeFroms_lookup q name.
Proof. unfold sizeFroms_lookup. intros -> ->. reflexivity. Qed.

Lemma fieldNode_ext all p q name tags val canSet :
  node.val p = node.val q -> node.sizeFroms p = node.sizeFroms q ->
  fieldNode all p name tags val canSet = fieldNode all q name tags val canSet.
Proof.
  intros Hv Hs. unfold fieldNode. rewrite (sizeFroms_lookup_ext p q name Hv Hs).
  reflexivity.
Qed.

Lemma tagNode_endianness all all' tags n n' :
  node.endianness n = node.endianness n' ->
  node.endianness (tagNode all tags n) = node.endianness (tagNode all' tags n').
Proof.
  revert n n'. induction tags as [|x tags IH]; intros n n' Hn; [exact Hn|].
  cbn. apply IH. destruct (classify x), n, n'; simpl in *; auto.
Qed.

Lemma tagNode_nullTerminated all all' tags n n' :
  node.nullTerminated n = node.nullTerminated n' ->
  node.nullTerminated (tagNode all tags n) = node.nullTerminated (tagNode all' tags n').
Proof.
  revert n n'. induction tags as [|x tags IH]; intros n n' Hn; [exact Hn|].
  cbn. apply IH. destruct (classify x), n, n'; simpl in *; auto.
Qed.

Lemma fieldNode_sizeFroms all pn name tags val canSet :
  node.sizeFroms (fieldNode all pn name tags val canSet) = None.
Proof. unfold fieldNode. rewrite tagNode_sizeFroms. reflexivity. Qed.

Lemma tagRegister_le i tags reg :
  (forall m name j, reg = Some m -> m !! name = Some j -> (j <= i)%nat) ->
  forall m name j,
    tagRegister i tags reg = Some m -> m !! name = Some j -> (j <= i)%nat.
Proof.
  unfold tagRegister. revert reg.
  induction tags as [|x tags IH]; intros reg Hreg; [exact Hreg|].
  cbn. apply IH. destruct (classify x) as [| | |nm|]; try exact Hreg.
  intros m name j Hm Hj. injection Hm as <-.
  destruct (decide (nm = name)) as [->|Hne].
  - rewrite lookup_insert_eq in Hj. injection Hj as <-. lia.
  - rewrite lookup_insert_ne in Hj by assumption.
    destruct reg as [m0|]; simpl in Hj.
    + apply (Hreg m0 name j eq_refl Hj).
    + rewrite lookup_empty in Hj. discriminate.
Qed.

Lemma tagRegister_below i tags reg :
  registeredBelow reg i -> registeredBelow (tagRegister i tags reg) (S i).
Proof.
  intros Hreg m name j Hm Hj. apply Nat.lt_succ_r.
  apply (tagRegister_le i tags reg) with (m := m) (name := name); auto.
  intros m0 name0 j0 Hm0 Hj0. specialize (Hreg m0 name0 j0 Hm0 Hj0). lia.
Qed.

Lemma sizeFroms_lookup_prefix ne nd all alld reg i name :
  node.val ne = VStruct all -> node.val nd = VStruct alld ->
  node.sizeFroms ne = reg -> node.sizeFroms nd = reg ->
  registeredBelow reg i ->
  (forall j, (j < i)%nat -> alld !! j = all !! j) ->
  sizeFroms_lookup nd name = sizeFroms_lookup ne name.
Proof.
  intros Hne Hnd Hse Hsd Hreg Hagree. unfold sizeFroms_lookup.
  rewrite Hne, Hnd, Hse, Hsd. destruct reg as [m|]; [|reflexivity]. simpl.
  destruct (m !! name) as [j|] eqn:Hj; [|reflexivity]. simpl.
  rewrite Hagree by (eapply Hreg; eauto). reflexivity.
Qed.

Lemma leafRoundTrips_shape self n x :
  leafRoundTrips self n x = true ->
  isStruct x = false /\ nodeVal x = x /\ isLeafKind (Kind_of x) = true
  /\ isStruct (Zero x) = false /\ nodeVal (Zero x) = Zero x
  /\ isLeafKind (Kind_of (Zero x)) = true
  /\ (forall c, walkCanSet x c = c) /\ (forall c, walkCanSet (Zero x) c = c)
  /\ (forall y, rewrap x y = y) /\ (forall y, rewrap (Zero x) y = y).
Proof.
  destruct x as [| |[]|[]| | | | | | | | | | |]; simpl; try discriminate;
    intros _; repeat split.
Qed.

Lemma alter_same {A} (f : A -> A) (l : list A) i y :
  l !! i = Some y -> f y = y -> alter f i l = l.
Proof.
  intros Hi Hf. apply list_eq. intros j.
  destruct (decide (i = j)) as [<-|Hne].
  - rewrite list_lookup_alter_eq, Hi. simpl. rewrite Hf. reflexivity.
  - rewrite list_lookup_alter_ne by assumption. reflexivity.
Qed.

Lemma alter_middle {A} (f : A -> A) (l1 l2 : list A) y :
  alter f (length l1) (l1 ++ y :: l2) = l1 ++ f y :: l2.
Proof.
  induction l1 as [|a l1 IH]; [reflexivity|].
  change (a :: alter f (length l1) (l1 ++ y :: l2) = a :: l1 ++ f y :: l2).
  rewrite IH. reflexivity.
Qed.

Lemma decodeVisitor_ext self o n n' r :
  node.val n = node.val n' -> node.canSet n = node.canSet n' ->
  node.sizeFrom n = node.sizeFrom n' ->
  node.endianness n = node.endianness n' ->
  node.nullTerminated n = node.nullTerminated n' ->
  decodeVisitor_visit self o n r = decodeVisitor_visit self o n' r.
Proof.
  unfold decodeVisitor_visit. intros -> -> -> -> ->. reflexivity.
Qed.

Section FieldRoundTrip.
Variable o : binary.ByteOrder.
Variable all : list (string * list submatch * Value).

Lemma field_round_trip i reg name tags x :
  roundTripsAnywhere x ->
  Forall roundTripsAnywhere (children x) ->
  match x with
  | VStruct _ => roundTrips x
  | _ => leafRoundTrips roundTrips
           (fieldNode all (parentOf all reg) name tags x true) x
  end = true ->
  registeredBelow reg i ->
  exists bx, forall ne nd alld,
    node.val ne = VStruct all -> node.canSet ne = true ->
    node.sizeFroms ne = reg ->
    node.val nd = VStruct alld -> node.canSet nd = true ->
    node.sizeFroms nd = reg ->
    (forall j, (j < i)%nat -> alld !! j = all !! j) ->
    (forall w : bytes.Buffer,
        runVisitorInternal (encodeVisitor_visit encode o) x true (Some ne)
          (Some (Field_of i (name, tags))) w
        = Return (x, Some (node.set_sizeFroms (tagRegister i tags reg) ne),
                  w ++ bx, None))
    /\ (forall r,
          runVisitorInternal (decodeVisitor_visit decode o) (Zero x) true (Some nd)
            (Some (Field_of i (name, tags))) (bx ++ r)
          = Return (x, Some (node.set_sizeFroms (tagRegister i tags reg) nd),
                    r, None)).
Proof.
  intros Hx Hchildren Hok Hreg.
  destruct (isStruct x) eqn:Hstruct.
  - (* a nested struct *)
    destruct x as [| | | | | | | | | | | |inner| |]; try discriminate.
    destruct (Hx Hok o) as [bx [_ Hloop]]. specialize (Hloop inner eq_refl).
    exists bx. intros ne nd alld Hne Hce Hse Hnd Hcd Hsd Hagree.
    split; intros.
    + rewrite runVisitorInternal_walk. simpl nodeVal. simpl walkCanSet.
      unfold walk. rewrite (newNode_field _ _ _ _ all Hne). simpl.
      destruct (Hloop
                  (node.set_val (VStruct inner)
                     (fieldNode all ne name tags (VStruct inner) true))
                  (node.set_val (VStruct (zeroFields inner))
                     (fieldNode alld nd name tags (VStruct (zeroFields inner)) true)))
        as [Henc _]; try reflexivity;
        try (simpl; apply fieldNode_canSet); try (simpl; apply fieldNode_sizeFroms).
      destruct (Henc w) as [ne' [Hrun Hval]].
      rewrite Hrun. simpl. rewrite Hval, Hse. reflexivity.
    + rewrite runVisitorInternal_walk. simpl nodeVal. simpl walkCanSet.
      unfold walk. rewrite (newNode_field _ _ _ _ alld Hnd). simpl.
      destruct (Hloop
                  (node.set_val (VStruct inner)
                     (fieldNode all ne name tags (VStruct inner) true))
                  (node.set_val (VStruct (zeroFields inner))
                     (fieldNode alld nd name tags (VStruct (zeroFields inner)) true)))
        as [_ Hdec]; try reflexivity;
        try (simpl; apply fieldNode_canSet); try (simpl; apply fieldNode_sizeFroms).
      destruct (Hdec r) as [nd' [Hrun Hval]].
      fold (zeroFields inner). rewrite Hrun. simpl. rewrite Hval, Hsd. reflexivity.
  - (* a leaf *)
    assert (Hleaf : leafRoundTrips roundTrips
                      (fieldNode all (parentOf all reg) name tags x true) x = true).
    { destruct x; try discriminate; exact Hok. }
    clear Hok.
    destruct (leafRoundTrips_shape _ _ _ Hleaf)
      as (_ & Hnv & Hlk & Hsz & Hnvz & Hlkz & Hwc & Hwcz & Hrw & Hrwz).
    assert (Hch : Forall (fun e => roundTrips e = true ->
                                   forall o, exists bs, roundTripsWith o e bs)
                    (children x)).
    { eapply Forall_impl; [exact Hchildren|]. intros e He Hr o'.
      destruct (He Hr o') as [bs [Hrt _]]. eauto. }
    assert (Hex : forall ne nd alld,
               node.val ne = VStruct all -> node.canSet ne = true ->
               node.sizeFroms ne = reg ->
               node.val nd = VStruct alld -> node.canSet nd = true ->
               node.sizeFroms nd = reg ->
               (forall j, (j < i)%nat -> alld !! j = all !! j) ->
               fieldNode all ne name tags x true
               = fieldNode all (parentOf all reg) name tags x true
               /\ node.sizeFrom (fieldNode alld nd name tags (Zero x) true)
                  = node.sizeFrom (fieldNode all (parentOf all reg) name tags x true)
               /\ node.endianness (fieldNode alld nd name tags (Zero x) true)
                  = node.endianness (fieldNode all (parentOf all reg) name tags x true)
               /\ node.nullTerminated (fieldNode alld nd name tags (Zero x) true)
                  = node.nullTerminated
                      (fieldNode all (parentOf all reg) name tags x true)).
    { intros ne nd alld Hne Hce Hse Hnd Hcd Hsd Hagree. repeat split.
      - apply fieldNode_ext; [rewrite Hne|rewrite Hse]; reflexivity.
      - rewrite !fieldNode_sizeFrom.
        rewrite (sizeFroms_lookup_prefix ne nd all alld reg i name); auto.
        apply sizeFroms_lookup_ext; [rewrite Hne|rewrite Hse]; reflexivity.
      - apply tagNode_endianness. reflexivity.
      - apply tagNode_nullTerminated. reflexivity. }
    (* the bytes do not depend on the parents: take canonical ones *)
    destruct (leaf_round_trip o
                (fieldNode all (parentOf all reg) name tags x true)
                (node.set_sizeFrom
                   (node.sizeFrom (fieldNode all (parentOf all reg) name tags x true))
                   (fieldNode all (parentOf all reg) name tags (Zero x) true))
                x) as [bx [Henc Hdec]]; auto.
    { apply fieldNode_val. }
    { simpl. apply fieldNode_val. }
    { apply fieldNode_canSet. }
    { simpl. apply fieldNode_canSet. }
    { simpl. apply tagNode_endianness. reflexivity. }
    { simpl. apply tagNode_nullTerminated. reflexivity. }
    exists bx. intros ne nd alld Hne Hce Hse Hnd Hcd Hsd Hagree.
    destruct (Hex ne nd alld Hne Hce Hse Hnd Hcd Hsd Hagree) as (He1 & He2 & He3 & He4).
    split; intros.
    + rewrite (run_field_leaf _ x true ne _ all w Hne) by (rewrite Hnv; assumption).
      cbv zeta. rewrite Hnv, Hlk, Hwc. cbn [Name Tag Index Field_of fst snd].
      rewrite He1, Henc. simpl. rewrite Hrw, Hse. reflexivity.
    + rewrite (run_field_leaf _ (Zero x) true nd _ alld (bx ++ r) Hnd)
        by (rewrite Hnvz; assumption).
      cbv zeta. rewrite Hnvz, Hlkz, Hwcz. cbn [Name Tag Index Field_of fst snd].
      assert (Hsame : decodeVisitor_visit decode o
                        (fieldNode alld nd name tags (Zero x) true) (bx ++ r)
                      = Return (x, r, None)).
      { rewrite <- (Hdec r). apply decodeVisitor_ext.
        - rewrite fieldNode_val. simpl. rewrite fieldNode_val. reflexivity.
        - rewrite fieldNode_canSet. simpl. rewrite fieldNode_canSet. reflexivity.
        - exact He2.
        - rewrite He3. simpl. apply tagNode_endianness. reflexivity.
        - rewrite He4. simpl. apply tagNode_nullTerminated. reflexivity. }
      rewrite Hsame. simpl. rewrite Hrwz, Hsd. reflexivity.
Qed.
End FieldRoundTrip.

Lemma storeField_same i x n all fld :
  node.val n = VStruct all -> all !! i = Some (fld, x) ->
  node.val (storeField i x n) = VStruct all.
Proof.
  intros Hn Hi. unfold storeField. rewrite Hn. simpl.
  rewrite (alter_same _ all i (fld, x)); auto.
Qed.

Lemma storeField_sizeFroms i x n :
  node.sizeFroms (storeField i x n) = node.sizeFroms n.
Proof. unfold storeField. destruct (node.val n); reflexivity. Qed.

Lemma storeField_decoded i x n all fld rest :
  node.val n = VStruct (take i all ++ (fld, Zero x) :: zeroFields rest) ->
  drop i all = (fld, x) :: rest ->
  node.val (storeField i x n) = VStruct (take (S i) all ++ zeroFields rest).
Proof.
  intros Hn Hdrop. unfold storeField. rewrite Hn. simpl.
  assert (Hi : all !! i = Some (fld, x)).
  { rewrite <- (take_drop i all) at 1. rewrite Hdrop.
    rewrite lookup_app_r by (rewrite length_take; lia).
    assert (Hlen : (i <= length all)%nat).
    { destruct (Nat.le_gt_cases i (length all)) as [|Hgt]; [assumption|].
      rewrite drop_ge in Hdrop by lia. discriminate. }
    rewrite length_take, Nat.min_l by assumption.
    rewrite Nat.sub_diag. reflexivity. }
  assert (Hlen : length (take i all) = i).
  { apply length_take_le, Nat.lt_le_incl, (lookup_lt_Some _ _ _ Hi). }
  rewrite <- Hlen at 1. rewrite alter_middle. simpl.
  rewrite (take_S_r _ _ _ Hi), <- app_assoc. reflexivity.
Qed.

Section StructRoundTrip.
Variable o : binary.ByteOrder.
Variable all : list (string * list submatch * Value).
Hypothesis fields_ind :
  Forall (fun f => roundTripsAnywhere f.2
                   /\ Forall roundTripsAnywhere (children f.2)) all.

Lemma fields_round_trip rest : forall i reg,
  drop i all = rest ->
  fieldsRoundTrip roundTrips all rest i reg = true ->
  registeredBelow reg i ->
  exists bs, forall ne nd,
    node.val ne = VStruct all -> node.canSet ne = true ->
    node.sizeFroms ne = reg ->
    node.val nd = VStruct (take i all ++ zeroFields rest) ->
    node.canSet nd = true -> node.sizeFroms nd = reg ->
    (forall w : bytes.Buffer, exists ne',
        fieldLoop (runVisitorInternal (encodeVisitor_visit encode o)) rest i ne w
        = Return (ne', w ++ bs, None) /\ node.val ne' = VStruct all)
    /\ (forall r, exists nd',
          fieldLoop (runVisitorInternal (decodeVisitor_visit decode o))
            (zeroFields rest) i nd (bs ++ r)
          = Return (nd', r, None) /\ node.val nd' = VStruct all).
Proof.
  induction rest as [|[[name tags] x] rest IH]; intros i reg Hdrop Hok Hreg.
  - exists []. intros ne nd Hne Hce Hse Hnd Hcd Hsd. split; intros.
    + exists ne. simpl. rewrite app_nil_r. auto.
    + exists nd. simpl. split; [reflexivity|]. rewrite Hnd. simpl.
      rewrite app_nil_r, take_ge; [reflexivity|].
      destruct (Nat.le_gt_cases (length all) i) as [|Hgt]; [assumption|].
      apply (f_equal length) in Hdrop. rewrite length_drop in Hdrop.
      simpl in Hdrop. lia.
  - assert (Hi : all !! i = Some ((name, tags), x)).
    { rewrite <- (take_drop i all) at 1. rewrite Hdrop.
      assert (Hlen : (i <= length all)%nat).
      { destruct (Nat.le_gt_cases i (length all)) as [|Hgt]; [assumption|].
        rewrite drop_ge in Hdrop by lia. discriminate. }
      rewrite lookup_app_r by (rewrite length_take; lia).
      rewrite length_take, Nat.min_l by assumption.
      rewrite Nat.sub_diag. reflexivity. }
    assert (Hdrop' : drop (S i) all = rest).
    { replace (S i) with (i + 1)%nat by lia.
      rewrite <- drop_drop, Hdrop. reflexivity. }
    cbn [fieldsRoundTrip] in Hok. apply andb_true_iff in Hok as [Hfield Hrest].
    pose proof (proj1 (Forall_lookup _ _) fields_ind i _ Hi) as [Hx Hch].
    simpl in Hx, Hch.
    destruct (field_round_trip o all i reg name tags x Hx Hch Hfield Hreg)
      as [bx Hbx].
    destruct (IH (S i) (tagRegister i tags reg) Hdrop' Hrest
                (tagRegister_below i tags reg Hreg)) as [bs Hbs].
    exists (bx ++ bs). intros ne nd Hne Hce Hse Hnd Hcd Hsd.
    assert (Hagree : forall j, (j < i)%nat ->
               (take i all ++ zeroFields ((name, tags, x) :: rest)) !! j = all !! j).
    { intros j Hj. rewrite lookup_app_l by (rewrite length_take; apply lookup_lt_Some in Hi; lia).
      apply lookup_take_lt. assumption. }
    destruct (Hbx ne nd _ Hne Hce Hse Hnd Hcd Hsd Hagree) as [Henc Hdec].
    set (ne1 := storeField i x (node.set_sizeFroms (tagRegister i tags reg) ne)).
    set (nd1 := storeField i x (node.set_sizeFroms (tagRegister i tags reg) nd)).
    destruct (Hbs ne1 nd1) as [Henc' Hdec'].
    { unfold ne1. eapply storeField_same; [|exact Hi]. exact Hne. }
    { unfold ne1. rewrite storeField_canSet. exact Hce. }
    { unfold ne1. rewrite storeField_sizeFroms. reflexivity. }
    { unfold nd1. eapply storeField_decoded; [|exact Hdrop]. exact Hnd. }
    { unfold nd1. rewrite storeField_canSet. exact Hcd. }
    { unfold nd1. rewrite storeField_sizeFroms. reflexivity. }
    split; intros.
    + destruct (Henc' (w ++ bx)) as [ne' [Hrun Hval]]. exists ne'.
      cbn [fieldLoop]. rewrite Hce, Henc. simpl. fold ne1.
      rewrite Hrun, app_assoc. auto.
    + destruct (Hdec' r) as [nd' [Hrun Hval]]. exists nd'.
      cbn [zeroFields map fieldLoop fst snd]. rewrite Hcd, <- app_assoc, Hdec. simpl.
      fold nd1. fold (zeroFields rest). rewrite Hrun. auto.
Qed.
End StructRoundTrip.

Lemma roundTrips_leaf v :
  isStruct v = false -> roundTrips v = leafRoundTrips roundTrips (rootNode v true) v.
Proof. destruct v; try discriminate; reflexivity. Qed.

Lemma struct_round_trip o fields :
  Forall (fun f => roundTripsAnywhere f.2
                   /\ Forall roundTripsAnywhere (children f.2)) fields ->
  roundTrips (VStruct fields) = true ->
  exists bs, roundTripsWith o (VStruct fields) bs
             /\ structRoundTripsWith o fields bs.
Proof.
  intros Hind Hok.
  destruct (fields_round_trip o fields Hind fields 0%nat None eq_refl Hok)
    as [bs Hbs].
  { intros m name j Hm. discriminate. }
  exists bs.
  assert (Hloop : structRoundTripsWith o fields bs).
  { intros ne nd Hne Hce Hse Hnd Hcd Hsd. apply Hbs; auto. }
  split; [|exact Hloop]. split; intros.
  - rewrite encode_eq. unfold runVisitor. rewrite runVisitorInternal_walk.
    simpl nodeVal. simpl walkCanSet. unfold walk. rewrite newNode_root. simpl.
    destruct (Hloop (node.set_val (VStruct fields) (rootNode (VStruct fields) true))
                (rootNode (VStruct (zeroFields fields)) true))
      as [Henc _]; try reflexivity.
    destruct (Henc w) as [ne' [Hrun Hval]]. rewrite Hrun. simpl. rewrite Hval.
    reflexivity.
  - change (Zero (VStruct fields)) with (VStruct (zeroFields fields)).
    rewrite decode_eq. unfold runVisitor. rewrite runVisitorInternal_walk.
    simpl nodeVal. simpl walkCanSet. unfold walk. rewrite newNode_root. simpl.
    destruct (Hloop (rootNode (VStruct fields) true)
                (node.set_val (VStruct (zeroFields fields))
                   (rootNode (VStruct (zeroFields fields)) true)))
      as [_ Hdec]; try reflexivity.
    destruct (Hdec r) as [nd' [Hrun Hval]].
    fold (zeroFields fields). rewrite Hrun. simpl. rewrite Hval.
    reflexivity.
Qed.

Lemma leaf_value_round_trip o v :
  isStruct v = false ->
  Forall roundTripsAnywhere (children v) ->
  roundTrips v = true ->
  exists bs, roundTripsWith o v bs.
Proof.
  intros Hs Hch Hok. rewrite roundTrips_leaf in Hok by assumption.
  destruct (leafRoundTrips_shape _ _ _ Hok)
    as (_ & Hnv & Hlk & Hsz & Hnvz & Hlkz & Hwc & Hwcz & Hrw & Hrwz).
  destruct (leaf_round_trip o (rootNode v true) (rootNode (Zero v) true) v)
    as [bs [Henc Hdec]]; auto.
  { eapply Forall_impl; [exact Hch|]. intros e He Hr o'.
    destruct (He Hr o') as [bs [Hrt _]]. eauto. }
  exists bs. split; intros.
  - rewrite encode_eq. unfold runVisitor. rewrite runVisitorInternal_walk.
    rewrite Hnv, Hwc, walk_leaf, newNode_root by assumption. simpl.
    rewrite Hlk. change (node.set_val v (rootNode v true)) with (rootNode v true).
    rewrite Henc. simpl. rewrite Hrw. reflexivity.
  - rewrite decode_eq. unfold runVisitor. rewrite runVisitorInternal_walk.
    rewrite Hnvz, Hwcz, walk_leaf, newNode_root by assumption. simpl.
    rewrite Hlkz.
    change (node.set_val (Zero v) (rootNode (Zero v) true))
      with (rootNode (Zero v) true).
    rewrite Hdec. simpl. rewrite Hrwz. reflexivity.
Qed.

Lemma roundTrips_anywhere v :
  roundTripsAnywhere v /\ Forall roundTripsAnywhere (children v).
Proof.
  induction v as [v IH] using Value_children_ind.
  assert (Hch : Forall roundTripsAnywhere (children v)).
  { eapply Forall_impl; [exact IH|]. intros c [Hc _]. exact Hc. }
  split; [|exact Hch].
  intros Hok o. destruct (isStruct v) eqn:Hs.
  - destruct v as [| | | | | | | | | | | |fields| |]; try discriminate.
    destruct (struct_round_trip o fields) as [bs [Hrt Hloop]]; auto.
    { simpl in IH. apply Forall_fmap in IH. exact IH. }
    exists bs. split; [exact Hrt|]. intros fields' [= <-]. exact Hloop.
  - destruct (leaf_value_round_trip o v Hs Hch Hok) as [bs Hrt].
    exists bs. split; [exact Hrt|]. intros fields ->. discriminate.
Qed.

Lemma roundTrips_not_pointer v :
  roundTrips v = true ->
  nodeVal v = v /\ (forall c, walkCanSet v c = c) /\ (forall y, rewrap v y = y).
Proof. destruct v as [| | | | | | | | | | | | |[x|]|]; try discriminate; auto. Qed.

Lemma Zero_not_pointer v :
  roundTrips v = true ->
  nodeVal (Zero v) = Zero v /\ (forall c, walkCanSet (Zero v) c = c)
  /\ (forall y, rewrap (Zero v) y = y).
Proof. destruct v as [| | | | | | | | | | | | |[x|]|]; try discriminate; auto. Qed.

Section AddressOf.
Context {St : Type} (visit : node.t -> St -> outcome (visited St)).

(** Walking [&v] is walking [v] as a value that can be set. *)
Lemma runVisitor_addressOf v canSet s :
  nodeVal v = v -> (forall c, walkCanSet v c = c) -> (forall y, rewrap v y = y) ->
  runVisitor visit (addressOf v) canSet s =
  '(v', s, err) ← runVisitor visit v true s; Return (addressOf v', s, err).
Proof.
  intros Hnv Hwc Hrw. unfold runVisitor, addressOf.
  rewrite (runVisitorInternal_walk _ (VPtr (Some v))).
  rewrite (runVisitorInternal_walk _ v). rewrite Hnv, Hwc. simpl.
  destruct (walk visit (runVisitorInternal visit) v true None None s)
    as [[[[x' p'] s'] e]|]; simpl; [|reflexivity].
  rewrite Hrw. reflexivity.
Qed.
End AddressOf.

(** C3, amended.  A value accepted by [roundTrips] is left as it is by
    [Encode], and [Decode] of the bytes that [Encode] wrote, into a
    fresh value of the same type and under the same default order,
    gives the value back and reads exactly those bytes.  [roundTrips]
    accepts the values made of integers of 8 to 64 bits, arrays,
    structs, null-terminated strings without a zero byte, and slices
    with at least one element and strings whose length producer is an
    unsigned field registered before them that holds their length;
    every length producer must already hold what the length switch of
    [Encode] would store.  A slice without elements is left out:
    [Decode] stores a slice fresh from [reflect.MakeSlice], which is
    never nil, while the slice encoded may be, and the two are one
    [Value] here. *)
Theorem round_trip (v : Value) (o : binary.ByteOrder) :
  roundTrips v = true ->
  exists bs,
    (forall w : bytes.Buffer,
        EncodeWithOrder w (addressOf v) o = Return (addressOf v, w ++ bs, None))
    /\ (forall rest,
          DecodeWithOrder (bs ++ rest) (addressOf (Zero v)) o
          = Return (addressOf v, rest, None)).
Proof.
  intros Hok.
  destruct (proj1 (roundTrips_anywhere v) Hok o) as [bs [[Henc Hdec] _]].
  destruct (roundTrips_not_pointer v Hok) as (Hnv & Hwc & Hrw).
  destruct (Zero_not_pointer v Hok) as (Hnvz & Hwcz & Hrwz).
  exists bs. split; intros.
  - unfold EncodeWithOrder. rewrite encode_eq, runVisitor_addressOf by assumption.
    rewrite <- encode_eq, Henc. reflexivity.
  - unfold DecodeWithOrder. rewrite decode_eq, runVisitor_addressOf by assumption.
    rewrite <- decode_eq, Hdec. reflexivity.
Qed.

(** C3 at the struct of [wire_test.go], with the lengths 2 and 5 in
    place. *)
Lemma round_trip_witness :
  exists bs,
    (forall w : bytes.Buffer,
        EncodeWithOrder w (addressOf (refStruct 2 5)) binary.BigEndian
        = Return (addressOf (refStruct 2 5), w ++ bs, None))
    /\ (forall rest,
          DecodeWithOrder (bs ++ rest) (addressOf (Zero (refStruct 2 5)))
            binary.BigEndian
          = Return (addressOf (refStruct 2 5), rest, None)).
Proof. apply (round_trip (refStruct 2 5) binary.BigEndian). reflexivity. Defined.

(** ** More on the driver *)

Section Registry.
Context {St : Type} (visit : node.t -> St -> outcome (visited St)).

(** The walk of a field hands back the parent with the field's
    [sizeof] directives registered, and nothing else changed. *)
Lemma run_field_parent x canSet pn fld all s x' p' s' err :
  node.val pn = VStruct all ->
  runVisitorInternal visit x canSet (Some pn) (Some fld) s = Return (x', p', s', err) ->
  p' = Some (node.set_sizeFroms
               (tagRegister (Index fld) (Tag fld) (node.sizeFroms pn)) pn).
Proof.
  intros Hall Hret. rewrite runVisitorInternal_walk in Hret.
  destruct (walk visit (runVisitorInternal visit) (nodeVal x) (walkCanSet x canSet)
              (Some pn) (Some fld) s) as [[[[y p1] s1] e1]|] eqn:E; [|discriminate].
  simpl in Hret. injection Hret as _ <- _ _.
  unfold walk in E. rewrite (newNode_field _ _ _ _ all Hall) in E.
  cbn [mbind outcome_bind] in E.
  destruct (nodeVal x); simpl in E;
    repeat match type of E with
      | (?m ≫= _) = _ => destruct m as [[[? ?] ?]|]; simpl in E
      | (if ?b then _ else _) = _ => destruct b
      end; congruence.
Qed.

Lemma fieldLoop_registered rest : forall i n s n' s' all,
  node.val n = VStruct all ->
  fieldLoop (runVisitorInternal visit) rest i n s = Return (n', s', None) ->
  node.sizeFroms n' = registered rest i (node.sizeFroms n).
Proof.
  induction rest as [|[[nm tags] x] rest IH]; intros i n s n' s' all Hall Hrun.
  - injection Hrun as <- <-. reflexivity.
  - cbn [fieldLoop] in Hrun.
    destruct (runVisitorInternal visit x (node.canSet n) (Some n)
                (Some (Field_of i (nm, tags))) s) as [[[[x' p1] s1] e1]|] eqn:E;
      [|discriminate].
    apply (run_field_parent _ _ _ _ all) in E; [|exact Hall]. subst p1.
    simpl in Hrun. destruct e1 as [e|]; [discriminate|].
    cbn [registered].
    match type of Hrun with
    | fieldLoop _ _ _ ?m _ = _ =>
        assert (Hall' : node.val m = VStruct (alter (fun f => (f.1, x')) i all))
          by (unfold storeField; cbn [default node.val node.set_sizeFroms];
              rewrite Hall; reflexivity)
    end.
    rewrite (IH _ _ _ _ _ _ Hall' Hrun), storeField_sizeFroms. reflexivity.
Qed.
End Registry.

(** ** Kinds that the driver refuses *)

Lemma refusedKind_shape v :
  refusedKind (Kind_of v) = true -> isStruct v = false /\ isLeafKind (Kind_of v) = false.
Proof.
  unfold refusedKind. destruct v as [| |[]|[]| | | | | | | | | | |[]]; simpl; intros;
    try discriminate; auto.
Qed.

Section Refusal.
Context {St : Type} (visit : node.t -> St -> outcome (visited St)).

Lemma run_refused_root v canSet s :
  refusedKind (Kind_of (nodeVal v)) = true ->
  runVisitor visit v canSet s =
  Return (v, s, Some (unsupportedType (Kind_of (nodeVal v)))).
Proof.
  intros Hk. destruct (refusedKind_shape _ Hk) as [Hs Hl].
  unfold runVisitor. rewrite runVisitorInternal_walk, walk_leaf by exact Hs.
  rewrite newNode_root, Hl. simpl. rewrite rewrap_nodeVal. reflexivity.
Qed.

Lemma run_refused_field v canSet pn fld s :
  refusedKind (Kind_of (nodeVal v)) = true ->
  isStruct (node.val pn) = true ->
  exists p',
    runVisitorInternal visit v canSet (Some pn) (Some fld) s =
    Return (v, p', s, Some (unsupportedType (Kind_of (nodeVal v)))).
Proof.
  intros Hk Hp. destruct (refusedKind_shape _ Hk) as [Hs Hl].
  destruct (node.val pn) as [| | | | | | | | | | | |all| |] eqn:Hall;
    try discriminate.
  rewrite (run_field_leaf visit v canSet pn fld all s Hall Hs), Hl. eauto.
Qed.

Lemma run_refused_reached top canSet fields i fld v s n' s' :
  refusedKind (Kind_of (nodeVal v)) = true ->
  nodeVal top = VStruct fields ->
  fields !! i = Some (fld, v) ->
  reached visit top canSet fields i s n' s' ->
  exists top', runVisitor visit top canSet s =
               Return (top', s', Some (unsupportedType (Kind_of (nodeVal v)))).
Proof.
  intros Hk Htop Hi Hpre.
  assert (Hs : isStruct (node.val n') = true).
  { apply fieldLoop_struct in Hpre as [-> _]. reflexivity. }
  destruct (run_refused_field v (node.canSet n') n' (Field_of i fld) s' Hk Hs)
    as [p' Hrun].
  eapply field_error; eauto.
Qed.
End Refusal.

(** A nil pointer, a pointer to a pointer, a channel, a map, a
    function, an interface and an unsafe pointer are turned away by the
    driver before any visitor sees them: [Sizeof], [Encode] and
    [Decode] return the unsupported-type error that names the kind
    found after one dereference ("invalid" for a nil pointer, "ptr" for
    a pointer to a pointer), and nothing is written or read.  The same
    holds where the value is a field that the traversal of a struct
    reaches. *)
Theorem kinds_refused_by_driver (v : Value) (k : Kind) :
  Kind_of (nodeVal v) = k -> refusedKind k = true ->
  (Sizeof v = Return (-1, Some (unsupportedType k))
   /\ (forall W (HW : io.Writer W) (w : W) o,
         EncodeWithOrder w v o = Return (v, w, Some (unsupportedType k)))
   /\ (forall r o, DecodeWithOrder r v o = Return (v, r, Some (unsupportedType k))))
  /\ (forall top fields i fld,
        nodeVal top = VStruct fields -> fields !! i = Some (fld, v) ->
        (forall n' size',
            reached (sizeofVisitor_visit sizeof) top false fields i 0 n' size' ->
            Sizeof top = Return (-1, Some (unsupportedType k)))
        /\ (forall W (HW : io.Writer W) (w : W) o n' w',
              reached (encodeVisitor_visit encode o) top false fields i w n' w' ->
              exists top', EncodeWithOrder w top o =
                           Return (top', w', Some (unsupportedType k)))
        /\ (forall r o n' r',
              reached (decodeVisitor_visit decode o) top false fields i r n' r' ->
              exists top', DecodeWithOrder r top o =
                           Return (top', r', Some (unsupportedType k)))).
Proof.
  intros <- Hk. split.
  - split; [|split].
    + unfold Sizeof. rewrite sizeof_eq, run_refused_root by exact Hk. reflexivity.
    + intros W HW w o. unfold EncodeWithOrder. rewrite encode_eq.
      apply run_refused_root, Hk.
    + intros r o. unfold DecodeWithOrder. rewrite decode_eq.
      apply run_refused_root, Hk.
  - intros top fields i fld Htop Hi. split; [|split].
    + intros n' size' Hpre. unfold Sizeof.
      destruct (run_refused_reached _ _ _ _ _ _ _ _ _ _ Hk Htop Hi Hpre) as [top' Hrun].
      rewrite sizeof_eq, Hrun. reflexivity.
    + intros W HW w o n' w' Hpre. unfold EncodeWithOrder.
      destruct (run_refused_reached _ _ _ _ _ _ _ _ _ _ Hk Htop Hi Hpre) as [top' Hrun].
      exists top'. rewrite encode_eq. exact Hrun.
    + intros r o n' r' Hpre. unfold DecodeWithOrder.
      destruct (run_refused_reached _ _ _ _ _ _ _ _ _ _ Hk Htop Hi Hpre) as [top' Hrun].
      exists top'. rewrite decode_eq. exact Hrun.
Qed.

(** At [struct {A uint8; P *T}] with [P] nil: the traversal reaches
    [P] after the one byte of [A]. *)
Lemma kinds_refused_by_driver_witness :
  Sizeof (addressOf NilAfterByte) = Return (-1, Some (unsupportedType Invalid))
  /\ (exists top', EncodeWithOrder (W:=bytes.Buffer) [] (addressOf NilAfterByte) binary.LittleEndian
                   = Return (top', [x01], Some (unsupportedType Invalid)))
  /\ (exists top', DecodeWithOrder [x05; x06] (addressOf NilAfterByte) binary.LittleEndian
                   = Return (top', [x06], Some (unsupportedType Invalid))).
Proof.
  pose proof (kinds_refused_by_driver (VPtr None) Invalid eq_refl eq_refl)
    as [_ Hfield].
  destruct (Hfield (addressOf NilAfterByte) _ 1%nat ("P", []) eq_refl eq_refl)
    as [Hs [He Hd]].
  split; [|split].
  - eapply Hs. reflexivity.
  - eapply (He bytes.Buffer _ [] binary.LittleEndian). reflexivity.
  - eapply (Hd [x05; x06] binary.LittleEndian). reflexivity.
Defined.

(** ** Floats and complex numbers *)

Section TurnedAway.
Context {St : Type} (visit : node.t -> St -> outcome (visited St)).
Variable bad : Value -> bool.
Hypothesis bad_leaf : forall v,
  bad v = true -> isStruct v = false /\ isLeafKind (Kind_of v) = true.
Hypothesis visit_bad : forall n s,
  bad (node.val n) = true ->
  visit n s = Return (node.val n, s, Some (unsupportedType (Kind_of (node.val n)))).

Lemma run_bad_root v canSet s :
  bad (nodeVal v) = true ->
  runVisitor visit v canSet s =
  Return (v, s, Some (unsupportedType (Kind_of (nodeVal v)))).
Proof.
  intros Hk. destruct (bad_leaf _ Hk) as [Hs Hl].
  unfold runVisitor. rewrite runVisitorInternal_walk, walk_leaf by exact Hs.
  rewrite newNode_root, Hl. simpl. rewrite visit_bad by exact Hk.
  simpl. rewrite rewrap_nodeVal. reflexivity.
Qed.

Lemma run_bad_field v canSet pn fld s :
  bad (nodeVal v) = true ->
  isStruct (node.val pn) = true ->
  exists p',
    runVisitorInternal visit v canSet (Some pn) (Some fld) s =
    Return (v, p', s, Some (unsupportedType (Kind_of (nodeVal v)))).
Proof.
  intros Hk Hp. destruct (bad_leaf _ Hk) as [Hs Hl].
  destruct (node.val pn) as [| | | | | | | | | | | |all| |] eqn:Hall;
    try discriminate.
  rewrite (run_field_leaf visit v canSet pn fld all s Hall Hs), Hl.
  cbv zeta. rewrite visit_bad by (rewrite fieldNode_val; exact Hk).
  simpl. rewrite fieldNode_val, rewrap_nodeVal. eauto.
Qed.

Lemma run_bad_reached top canSet fields i fld v s n' s' :
  bad (nodeVal v) = true ->
  nodeVal top = VStruct fields ->
  fields !! i = Some (fld, v) ->
  reached visit top canSet fields i s n' s' ->
  exists top', runVisitor visit top canSet s =
               Return (top', s', Some (unsupportedType (Kind_of (nodeVal v)))).
Proof.
  intros Hk Htop Hi Hpre.
  assert (Hs : isStruct (node.val n') = true).
  { apply fieldLoop_struct in Hpre as [-> _]. reflexivity. }
  destruct (run_bad_field v (node.canSet n') n' (Field_of i fld) s' Hk Hs)
    as [p' Hrun].
  eapply field_error; eauto.
Qed.
End TurnedAway.

Lemma isFloat_leaf v :
  isFloat v = true -> isStruct v = false /\ isLeafKind (Kind_of v) = true.
Proof. destruct v; simpl; intros; try discriminate; auto. Qed.

Lemma isComplex_leaf v :
  isComplex v = true -> isStruct v = false /\ isLeafKind (Kind_of v) = true.
Proof. destruct v; simpl; intros; try discriminate; auto. Qed.

Lemma decodeVisitor_float self o n r :
  isFloat (node.val n) = true ->
  decodeVisitor_visit self o n r =
  Return (node.val n, r, Some (unsupportedType (Kind_of (node.val n)))).
Proof.
  unfold decodeVisitor_visit. destruct (node.val n); simpl; intros;
    try discriminate; reflexivity.
Qed.

Lemma decodeVisitor_complex self o n r :
  isComplex (node.val n) = true ->
  decodeVisitor_visit self o n r =
  Return (node.val n, r, Some (unsupportedType (Kind_of (node.val n)))).
Proof.
  unfold decodeVisitor_visit. destruct (node.val n); simpl; intros;
    try discriminate; reflexivity.
Qed.

Lemma encodeVisitor_complex {W} `{io.Writer W} self o n (w : W) :
  isComplex (node.val n) = true ->
  encodeVisitor_visit self o n w =
  Return (node.val n, w, Some (unsupportedType (Kind_of (node.val n)))).
Proof.
  unfold encodeVisitor_visit, setLength.
  destruct (node.val n); simpl; intros; try discriminate;
    destruct (IsValid (node.sizeof n)); reflexivity.
Qed.

(** What [Sizeof] and [Encode] do with a float or complex number that
    they were called on. *)
Lemma sizeof_scalar v :
  isFloat (nodeVal v) || isComplex (nodeVal v) = true ->
  Sizeof v = Return (scalarSize (nodeVal v), None).
Proof.
  intros Hk. unfold Sizeof. rewrite sizeof_eq. unfold runVisitor.
  rewrite runVisitorInternal_walk.
  destruct (nodeVal v); try discriminate; reflexivity.
Qed.

Lemma encode_float {W} `{io.Writer W} v o (w : W) :
  isFloat (nodeVal v) = true ->
  exists bs,
    Z.of_nat (length bs) = scalarSize (nodeVal v)
    /\ EncodeWithOrder w v o = Return (v, write_ w bs, None).
Proof.
  intros Hk. unfold EncodeWithOrder. rewrite encode_eq. unfold runVisitor.
  rewrite runVisitorInternal_walk.
  destruct (nodeVal v) eqn:E; try discriminate; cbn;
    rewrite <- E, rewrap_nodeVal; eexists; (split; [|reflexivity]);
    unfold binary.PutUint32, binary.PutUint64; rewrite put_length; reflexivity.
Qed.

(** A float can be measured and encoded but not decoded.  For a value
    of kind float32 or float64 [Sizeof] returns 4 or 8, [Encode] makes
    one [Write] of that many bytes and returns nil, and [Decode]
    returns the unsupported-type error without reading anything, also
    where the float is a field that the traversal of a struct
    reaches. *)
Theorem float_encoded_not_decoded (v : Value) :
  isFloat (nodeVal v) = true ->
  Sizeof v = Return (scalarSize (nodeVal v), None)
  /\ (forall W (HW : io.Writer W) (w : W) o, exists bs,
         Z.of_nat (length bs) = scalarSize (nodeVal v)
         /\ EncodeWithOrder w v o = Return (v, write_ w bs, None))
  /\ (forall r o,
         DecodeWithOrder r v o
         = Return (v, r, Some (unsupportedType (Kind_of (nodeVal v)))))
  /\ (forall top fields i fld r o n' r',
         nodeVal top = VStruct fields -> fields !! i = Some (fld, v) ->
         reached (decodeVisitor_visit decode o) top false fields i r n' r' ->
         exists top', DecodeWithOrder r top o =
                      Return (top', r', Some (unsupportedType (Kind_of (nodeVal v))))).
Proof.
  intros Hk. split; [|split; [|split]].
  - apply sizeof_scalar. rewrite Hk. reflexivity.
  - intros W HW w o. apply encode_float, Hk.
  - intros r o. unfold DecodeWithOrder. rewrite decode_eq.
    apply (run_bad_root _ isFloat isFloat_leaf (decodeVisitor_float decode o)), Hk.
  - intros top fields i fld r o n' r' Htop Hi Hpre.
    destruct (run_bad_reached _ isFloat isFloat_leaf (decodeVisitor_float decode o)
                _ _ _ _ _ _ _ _ _ Hk Htop Hi Hpre) as [top' Hrun].
    exists top'. unfold DecodeWithOrder. rewrite decode_eq. exact Hrun.
Qed.

(** [Sizeof] of a float32 is 4; at [struct {A uint8; F float32}]
    [Decode] reads the byte of [A] and stops at [F]. *)
Lemma float_encoded_not_decoded_witness :
  Sizeof (addressOf (VFloat32 0)) = Return (4, None)
  /\ exists top', DecodeWithOrder [x05; x06] (addressOf (FloatAfterByte 0)) binary.LittleEndian
                  = Return (top', [x06], Some (unsupportedType Float32)).
Proof.
  pose proof (float_encoded_not_decoded (addressOf (VFloat32 0)) eq_refl) as [Hs _].
  pose proof (float_encoded_not_decoded (VFloat32 0) eq_refl) as [_ [_ [_ Hd]]].
  split; [exact Hs|].
  eapply (Hd (addressOf (FloatAfterByte 0)) _ 1%nat ("F", [])); reflexivity.
Defined.

(** A complex number can be measured but neither encoded nor decoded.
    For a value of kind complex64 or complex128 [Sizeof] returns 8 or
    16, while [Encode] and [Decode] return the unsupported-type error,
    writing and reading nothing, also where the number is a field that
    the traversal of a struct reaches. *)
Theorem complex_measured_only (v : Value) :
  isComplex (nodeVal v) = true ->
  Sizeof v = Return (scalarSize (nodeVal v), None)
  /\ (forall W (HW : io.Writer W) (w : W) o,
         EncodeWithOrder w v o
         = Return (v, w, Some (unsupportedType (Kind_of (nodeVal v)))))
  /\ (forall r o,
         DecodeWithOrder r v o
         = Return (v, r, Some (unsupportedType (Kind_of (nodeVal v)))))
  /\ (forall top fields i fld,
         nodeVal top = VStruct fields -> fields !! i = Some (fld, v) ->
         (forall W (HW : io.Writer W) (w : W) o n' w',
             reached (encodeVisitor_visit encode o) top false fields i w n' w' ->
             exists top', EncodeWithOrder w top o =
                          Return (top', w', Some (unsupportedType (Kind_of (nodeVal v)))))
         /\ (forall r o n' r',
               reached (decodeVisitor_visit decode o) top false fields i r n' r' ->
               exists top', DecodeWithOrder r top o =
                            Return (top', r', Some (unsupportedType (Kind_of (nodeVal v)))))).
Proof.
  intros Hk. split; [|split; [|split]].
  - apply sizeof_scalar. rewrite Hk. apply orb_true_r.
  - intros W HW w o. unfold EncodeWithOrder. rewrite encode_eq.
    apply (run_bad_root _ isComplex isComplex_leaf (encodeVisitor_complex encode o)), Hk.
  - intros r o. unfold DecodeWithOrder. rewrite decode_eq.
    apply (run_bad_root _ isComplex isComplex_leaf (decodeVisitor_complex decode o)), Hk.
  - intros top fields i fld Htop Hi. split.
    + intros W HW w o n' w' Hpre.
      destruct (run_bad_reached _ isComplex isComplex_leaf (encodeVisitor_complex encode o)
                  _ _ _ _ _ _ _ _ _ Hk Htop Hi Hpre) as [top' Hrun].
      exists top'. unfold EncodeWithOrder. rewrite encode_eq. exact Hrun.
    + intros r o n' r' Hpre.
      destruct (run_bad_reached _ isComplex isComplex_leaf (decodeVisitor_complex decode o)
                  _ _ _ _ _ _ _ _ _ Hk Htop Hi Hpre) as [top' Hrun].
      exists top'. unfold DecodeWithOrder. rewrite decode_eq. exact Hrun.
Qed.

(** [Sizeof] of a complex128 is 16; at [struct {A uint8; C complex128}]
    [Encode] writes the byte of [A] and stops at [C]. *)
Lemma complex_measured_only_witness :
  Sizeof (addressOf (VComplex128 0)) = Return (16, None)
  /\ exists top', EncodeWithOrder (W:=bytes.Buffer) [] (addressOf (ComplexAfterByte 0))
                    binary.LittleEndian
                  = Return (top', [x01], Some (unsupportedType Complex128)).
Proof.
  pose proof (complex_measured_only (addressOf (VComplex128 0)) eq_refl) as [Hs _].
  pose proof (complex_measured_only (VComplex128 0) eq_refl) as [_ [_ [_ Hf]]].
  split; [exact Hs|].
  destruct (Hf (addressOf (ComplexAfterByte 0)) _ 1%nat ("C", []) eq_refl eq_refl)
    as [He _].
  eapply (He bytes.Buffer _ [] binary.LittleEndian). reflexivity.
Defined.

(** ** Input that ends early *)

Lemma le_uint_cons x b :
  binary.le_uint (x :: b) = Z_of_byte x + 256 * binary.le_uint b.
Proof.
  cbn [binary.le_uint]. pose proof (Z_of_byte_range x) as Hx.
  assert (Hland : Z.land (Z_of_byte x) (Z.shiftl (binary.le_uint b) 8) = 0).
  { apply Z.bits_inj'. intros k Hk. rewrite Z.land_spec, Z.bits_0.
    destruct (Z.lt_ge_cases k 8).
    - rewrite Z.shiftl_spec_low by lia. apply andb_false_r.
    - rewrite <- (Z.mod_small (Z_of_byte x) (2 ^ 8)) by (change (2 ^ 8) with 256; lia).
      rewrite Z.mod_pow2_bits_high by lia. reflexivity. }
  rewrite <- Z.lxor_lor, <- Z.add_nocarry_lxor by exact Hland.
  rewrite Z.shiftl_mul_pow2 by lia. change (2 ^ 8) with 256. lia.
Qed.

Lemma le_uint_range b : 0 <= binary.le_uint b < 2 ^ (8 * Z.of_nat (length b)).
Proof.
  induction b as [|x b IH].
  - simpl. lia.
  - rewrite le_uint_cons. pose proof (Z_of_byte_range x) as Hx.
    replace (8 * Z.of_nat (length (x :: b))) with (8 + 8 * Z.of_nat (length b))
      by (simpl length; lia).
    rewrite Z.pow_add_r by lia. change (2 ^ 8) with 256. lia.
Qed.

Lemma get_range o b : 0 <= binary.get o b < 2 ^ (8 * Z.of_nat (length b)).
Proof.
  destruct o; unfold binary.get; [apply le_uint_range|].
  rewrite <- (length_rev b). apply le_uint_range.
Qed.

Lemma le_uint_zeros b : Forall (fun x => x = x00) b -> binary.le_uint b = 0.
Proof.
  induction 1 as [|x b -> _ IH]; [reflexivity|].
  rewrite le_uint_cons, IH. reflexivity.
Qed.

Lemma get_zeroed o k : binary.get o (zeroed k) = 0.
Proof.
  assert (Hz : Forall (fun x => x = x00) (zeroed k))
    by (apply Forall_forall; intros x Hx; apply elem_of_replicate in Hx as [-> _];
        reflexivity).
  destruct o; unfold binary.get; apply le_uint_zeros; [exact Hz|].
  apply Forall_rev, Hz.
Qed.

(** [Buffer.Read] on an empty buffer. *)
Lemma Read_empty k :
  k <> 0%nat -> bytes.Read [] (zeroed k) = (zeroed k, Some io.EOF, []).
Proof.
  intros Hk. unfold bytes.Read, zeroed. rewrite length_replicate.
  destruct (decide (k = 0%nat)); [contradiction|reflexivity].
Qed.

(** [Buffer.Read] on a buffer that holds less than asked for: what
    there is is copied, the rest of the destination stays, and the
    call succeeds. *)
Lemma Read_short bs k :
  bs <> [] -> (length bs <= k)%nat ->
  bytes.Read bs (zeroed k) = (bs ++ zeroed (k - length bs), None, []).
Proof.
  intros Hne Hk. unfold bytes.Read, zeroed.
  destruct bs as [|b bs]; [contradiction|].
  rewrite length_replicate, Nat.min_r by exact Hk.
  rewrite take_ge by lia. rewrite drop_replicate. rewrite drop_ge by lia. reflexivity.
Qed.

Lemma intN_idem w x : 0 < w -> intN w (intN w x) = intN w x.
Proof.
  intros Hw. unfold intN.
  replace (((x + 2 ^ (w - 1)) mod 2 ^ w - 2 ^ (w - 1)) + 2 ^ (w - 1))
    with ((x + 2 ^ (w - 1)) mod 2 ^ w) by lia.
  rewrite Z.mod_mod by (apply Z.pow_nonzero; lia). reflexivity.
Qed.

Lemma bits_bytesOf w : bits w = 8 * Z.of_nat (bytesOf w).
Proof. destruct w; reflexivity. Qed.

(** What [decodeVisitor.visit] leaves in an integer when [Read] filled
    the destination with [d], of the integer's width. *)
Lemma decodeVisitor_uint self o n w x r :
  node.val n = VUint w x -> node.canSet n = true -> node.endianness n = None ->
  fixedWidth w = true ->
  decodeVisitor_visit self o n r =
  let '(d, err, r') := bytes.Read r (zeroed (bytesOf w)) in
  if bool_decide (length d = bytesOf w) then
    Return (VUint w (binary.get o d), r', err)
  else decodeVisitor_visit self o n r.
Proof.
  intros Hv Hc He Hw. unfold decodeVisitor_visit. rewrite Hv, Hc, He.
  destruct w; try discriminate; cbn [bytesOf default];
    destruct (bytes.Read r _) as [[d err] r'];
    case_bool_decide as Hd; try reflexivity.
  - destruct d as [|b [|]]; try discriminate. cbn [first_byte SetUint negb bits].
    pose proof (Z_of_byte_range b).
    replace (binary.get o [b]) with (Z_of_byte b)
      by (destruct o; unfold binary.get; cbn; rewrite Z.shiftl_0_l, Z.lor_0_r; reflexivity).
    rewrite uintN_small by lia. reflexivity.
  - unfold binary.Uint16. rewrite take_ge by lia. cbn [SetUint negb bits].
    pose proof (get_range o d) as Hr. rewrite Hd in Hr.
    rewrite uintN_small by exact Hr. reflexivity.
  - unfold binary.Uint32. rewrite take_ge by lia. cbn [SetUint negb bits].
    pose proof (get_range o d) as Hr. rewrite Hd in Hr.
    rewrite uintN_small by exact Hr. reflexivity.
  - unfold binary.Uint64. rewrite take_ge by lia. cbn [SetUint negb bits].
    pose proof (get_range o d) as Hr. rewrite Hd in Hr.
    rewrite uintN_small by exact Hr. reflexivity.
Qed.

Lemma decodeVisitor_int self o n w x r :
  node.val n = VInt w x -> node.canSet n = true -> node.endianness n = None ->
  fixedWidth w = true ->
  decodeVisitor_visit self o n r =
  let '(d, err, r') := bytes.Read r (zeroed (bytesOf w)) in
  if bool_decide (length d = bytesOf w) then
    Return (VInt w (intN (bits w) (binary.get o d)), r', err)
  else decodeVisitor_visit self o n r.
Proof.
  intros Hv Hc He Hw. unfold decodeVisitor_visit. rewrite Hv, Hc, He.
  destruct w; try discriminate; cbn [bytesOf default];
    destruct (bytes.Read r _) as [[d err] r'];
    case_bool_decide as Hd; try reflexivity.
  - destruct d as [|b [|]]; try discriminate. cbn [first_byte SetInt negb bits].
    replace (binary.get o [b]) with (Z_of_byte b)
      by (destruct o; unfold binary.get; cbn; rewrite Z.shiftl_0_l, Z.lor_0_r; reflexivity).
    reflexivity.
  - unfold binary.Uint16. rewrite take_ge by lia. reflexivity.
  - unfold binary.Uint32. rewrite take_ge by lia. reflexivity.
  - unfold binary.Uint64. rewrite take_ge by lia. cbn [SetInt negb bits].
    rewrite intN_idem by lia. reflexivity.
Qed.

Lemma Decode_uint w x o r :
  fixedWidth w = true ->
  forall d err r', bytes.Read r (zeroed (bytesOf w)) = (d, err, r') ->
  length d = bytesOf w ->
  DecodeWithOrder r (addressOf (VUint w x)) o
  = Return (addressOf (VUint w (binary.get o d)), r', err).
Proof.
  intros Hw d err r' Hread Hd. unfold DecodeWithOrder. rewrite decode_eq.
  unfold runVisitor, addressOf. rewrite runVisitorInternal_walk.
  cbn [nodeVal walkCanSet]. rewrite walk_leaf by reflexivity.
  rewrite newNode_root. cbn [mbind outcome_bind].
  replace (isLeafKind (Kind_of (VUint w x))) with true by (destruct w; reflexivity).
  rewrite (decodeVisitor_uint _ _ _ w x) by (try reflexivity; exact Hw).
  rewrite Hread, bool_decide_eq_true_2 by exact Hd. reflexivity.
Qed.

Lemma Decode_int w x o r :
  fixedWidth w = true ->
  forall d err r', bytes.Read r (zeroed (bytesOf w)) = (d, err, r') ->
  length d = bytesOf w ->
  DecodeWithOrder r (addressOf (VInt w x)) o
  = Return (addressOf (VInt w (intN (bits w) (binary.get o d))), r', err).
Proof.
  intros Hw d err r' Hread Hd. unfold DecodeWithOrder. rewrite decode_eq.
  unfold runVisitor, addressOf. rewrite runVisitorInternal_walk.
  cbn [nodeVal walkCanSet]. rewrite walk_leaf by reflexivity.
  rewrite newNode_root. cbn [mbind outcome_bind].
  replace (isLeafKind (Kind_of (VInt w x))) with true by (destruct w; reflexivity).
  rewrite (decodeVisitor_int _ _ _ w x) by (try reflexivity; exact Hw).
  rewrite Hread, bool_decide_eq_true_2 by exact Hd. reflexivity.
Qed.

Lemma intN_0 w : 0 < w -> intN w 0 = 0.
Proof.
  intros Hw. apply intN_small; [exact Hw|].
  assert (0 < 2 ^ (w - 1)) by (apply Z.pow_pos_nonneg; lia). lia.
Qed.

(** [Decode] of an integer from an empty reader returns [io.EOF], and
    the integer is set to 0 all the same: the result of [Read] is
    stored before the error is looked at. *)
Theorem Decode_empty_input (w : width) (x : Z) (o : binary.ByteOrder) :
  fixedWidth w = true ->
  DecodeWithOrder [] (addressOf (VUint w x)) o
  = Return (addressOf (VUint w 0), [], Some io.EOF)
  /\ DecodeWithOrder [] (addressOf (VInt w x)) o
     = Return (addressOf (VInt w 0), [], Some io.EOF).
Proof.
  intros Hw.
  assert (Hread : bytes.Read [] (zeroed (bytesOf w))
                  = (zeroed (bytesOf w), Some io.EOF, []))
    by (apply Read_empty; destruct w; discriminate).
  assert (Hlen : length (zeroed (bytesOf w)) = bytesOf w)
    by apply length_replicate.
  split.
  - rewrite (Decode_uint w x o [] Hw _ _ _ Hread Hlen), get_zeroed. reflexivity.
  - rewrite (Decode_int w x o [] Hw _ _ _ Hread Hlen), get_zeroed.
    rewrite intN_0 by (destruct w; simpl; lia). reflexivity.
Qed.

Lemma Decode_empty_input_witness :
  DecodeWithOrder [] (addressOf (VUint W32 7)) binary.BigEndian
  = Return (addressOf (VUint W32 0), [], Some io.EOF)
  /\ DecodeWithOrder [] (addressOf (VInt W32 7)) binary.BigEndian
     = Return (addressOf (VInt W32 0), [], Some io.EOF).
Proof. apply (Decode_empty_input W32 7 binary.BigEndian). reflexivity. Defined.

(** [Decode] of an integer from a reader that holds some, but fewer
    bytes than the integer has returns no error: the bytes that are
    missing count as zero, and the reader is empty afterwards. *)
Theorem Decode_short_input (w : width) (x : Z) (o : binary.ByteOrder)
    (bs : list byte) :
  fixedWidth w = true -> bs <> [] -> (length bs < bytesOf w)%nat ->
  let u := binary.get o (bs ++ zeroed (bytesOf w - length bs)) in
  DecodeWithOrder bs (addressOf (VUint w x)) o
  = Return (addressOf (VUint w u), [], None)
  /\ DecodeWithOrder bs (addressOf (VInt w x)) o
     = Return (addressOf (VInt w (intN (bits w) u)), [], None).
Proof.
  intros Hw Hne Hlt u.
  assert (Hread : bytes.Read bs (zeroed (bytesOf w))
                  = (bs ++ zeroed (bytesOf w - length bs), None, []))
    by (apply Read_short; [exact Hne|lia]).
  assert (Hlen : length (bs ++ zeroed (bytesOf w - length bs)) = bytesOf w).
  { unfold zeroed. rewrite length_app, length_replicate. lia. }
  split.
  - apply (Decode_uint w x o bs Hw _ _ _ Hread Hlen).
  - apply (Decode_int w x o bs Hw _ _ _ Hread Hlen).
Qed.

(** One byte 01 for a [uint32] under the big-endian order: the value
    decoded is 0x01000000. *)
Lemma Decode_short_input_witness :
  DecodeWithOrder [x01] (addressOf (VUint W32 7)) binary.BigEndian
  = Return (addressOf (VUint W32 0x01000000), [], None)
  /\ DecodeWithOrder [x01] (addressOf (VInt W32 7)) binary.BigEndian
     = Return (addressOf (VInt W32 0x01000000), [], None).
Proof.
  apply (Decode_short_input W32 7 binary.BigEndian [x01]);
    [reflexivity|discriminate|simpl; lia].
Defined.

(** ** Strings on input *)

Lemma readNull_eof s buf :
  forallb (fun b => negb (Byte.eqb b x00)) s = true ->
  readNull s buf = ([], Some io.EOF, []).
Proof.
  revert buf. induction s as [|b s IH]; intros buf Hs; [reflexivity|].
  simpl in Hs. apply andb_true_iff in Hs as [Hb Hs].
  cbn [readNull]. destruct (Byte.eqb b x00); [discriminate|].
  apply IH, Hs.
Qed.

(** [readNullTerminatedString] returns the bytes before the first zero
    byte and leaves in the reader what follows that byte.  When the
    reader holds no zero byte it returns the empty string with
    [io.EOF], having taken every byte. *)
Theorem readNullTerminatedString_spec (s r : list byte) :
  forallb (fun b => negb (Byte.eqb b x00)) s = true ->
  readNullTerminatedString (s ++ x00 :: r) = (s, None, r)
  /\ readNullTerminatedString s = ([], Some io.EOF, []).
Proof.
  intros Hs. unfold readNullTerminatedString. split.
  - apply (readNull_app s r [] Hs).
  - apply readNull_eof, Hs.
Qed.

Lemma readNullTerminatedString_spec_witness :
  readNullTerminatedString ([x61; x62] ++ x00 :: [x63]) = ([x61; x62], None, [x63])
  /\ readNullTerminatedString [x61; x62] = ([], Some io.EOF, []).
Proof. apply (readNullTerminatedString_spec [x61; x62] [x63]). reflexivity. Defined.

Lemma tagNode_nullterm all n :
  tagNode all [tag.nullterm] n = node.set_nullTerminated true n.
Proof. reflexivity. Qed.

(** [Decode] of a null-terminated string from input without a zero
    byte returns [io.EOF]; the bytes read are dropped, the string is
    set to the empty string and the reader is empty. *)
Theorem Decode_unterminated_string (s old : list byte) (o : binary.ByteOrder) :
  forallb (fun b => negb (Byte.eqb b x00)) s = true ->
  DecodeWithOrder s (addressOf (Terminated old)) o
  = Return (addressOf (Terminated []), [], Some io.EOF).
Proof.
  intros Hs. unfold DecodeWithOrder. rewrite decode_eq.
  unfold Terminated. rewrite run_single_field.
  rewrite (run_field_leaf _ (VString old) true
             (rootNode (VStruct [("S", [tag.nullterm], VString old)]) true)
             _ [("S", [tag.nullterm], VString old)] s eq_refl eq_refl).
  cbv zeta. unfold fieldNode. cbn [Name Tag Index Field_of fst snd].
  rewrite tagNode_nullterm. cbn.
  unfold readNullTerminatedString. rewrite (readNull_eof s [] Hs). reflexivity.
Qed.

Lemma Decode_unterminated_string_witness :
  DecodeWithOrder [x61; x62] (addressOf (Terminated [x7a])) binary.LittleEndian
  = Return (addressOf (Terminated []), [], Some io.EOF).
Proof.
  apply (Decode_unterminated_string [x61; x62] [x7a] binary.LittleEndian).
  reflexivity.
Defined.

Lemma classify_sizeof name : classify (tag.sizeof name) = DSizeof name.
Proof.
  unfold classify, tag.sizeof. cbn [x0 x1 x2].
  rewrite !bool_decide_eq_false_2 by (cbn; discriminate).
  reflexivity.
Qed.

Lemma tagNode_sizeof all name n :
  tagNode all [tag.sizeof name] n = node.set_sizeof (lookupField all name) n.
Proof. unfold tagNode. cbn [foldl]. rewrite classify_sizeof. reflexivity. Qed.

Lemma tagRegister_sizeof i name reg :
  tagRegister i [tag.sizeof name] reg = Some (<[name := i]> (default ∅ reg)).
Proof. unfold tagRegister. cbn [foldl]. rewrite classify_sizeof. reflexivity. Qed.

(** [Decode] of a string whose length producer announces more bytes
    than the reader holds: in [struct {N uint8 `wire:"sizeof=S"`; S
    string}] the string is set to the bytes there are followed by
    zero bytes up to the announced length.  No error is returned when
    at least one byte was there, [io.EOF] when none was. *)
Theorem Decode_string_short_input (k : nat) (bs : list byte) (n0 : Z)
    (s0 : list byte) (o : binary.ByteOrder) :
  (k < 256)%nat -> (length bs < k)%nat ->
  DecodeWithOrder (byte_of_Z (Z.of_nat k) :: bs) (addressOf (Sized n0 s0)) o
  = Return (addressOf (Sized (Z.of_nat k) (bs ++ zeroed (k - length bs))), [],
            match bs with [] => Some io.EOF | _ => None end).
Proof.
  intros Hk Hlen. unfold DecodeWithOrder. rewrite decode_eq.
  unfold runVisitor, addressOf, Sized. rewrite runVisitorInternal_walk.
  cbn [nodeVal walkCanSet]. unfold walk. rewrite newNode_root.
  cbn [mbind outcome_bind]. cbn [fieldLoop].
  set (all := [("N", [tag.sizeof "S"], VUint W8 n0); ("S", [], VString s0)]).
  change (node.set_val (VStruct all) (rootNode (VStruct all) true))
    with (rootNode (VStruct all) true).
  rewrite (run_field_leaf _ (VUint W8 n0) _ (rootNode (VStruct all) true)
             _ all _ eq_refl eq_refl).
  cbv zeta. cbn [isLeafKind Kind_of nodeVal].
  unfold fieldNode at 1. cbn [Name Tag Index Field_of fst snd walkCanSet].
  rewrite tagNode_sizeof, tagRegister_sizeof.
  rewrite (decodeVisitor_uint decode o _ W8 n0) by reflexivity.
  cbn [bytesOf]. rewrite Read_byte. cbn [length bool_decide]. 
  rewrite bool_decide_eq_true_2 by reflexivity.
  cbn [mbind outcome_bind rewrap].
  replace (binary.get o [byte_of_Z (Z.of_nat k)]) with (Z.of_nat k).
  2:{ destruct o; unfold binary.get; cbn [rev app binary.le_uint];
      rewrite Z.shiftl_0_l, Z.lor_0_r, Z_of_byte_of_Z, uintN_small;
      try reflexivity; change (2 ^ 8) with 256; lia. }
  set (all1 := [("N", [tag.sizeof "S"], VUint W8 (Z.of_nat k)); ("S", [], VString s0)]).
  set (pn1 := node.mk (VStruct all1) true VInvalid None (Some (<["S":=0%nat]> ∅))
                None false).
  change (storeField 0 (VUint W8 (Z.of_nat k)) _) with pn1.
  rewrite (run_field_leaf _ (VString s0) _ pn1 _ all1 _ eq_refl eq_refl).
  cbv zeta. cbn [isLeafKind Kind_of nodeVal].
  unfold fieldNode. cbn [Name Tag Index Field_of fst snd walkCanSet tagNode foldl
                         tagRegister].
  assert (Hfrom : sizeFroms_lookup pn1 "S" = Some (VUint W8 (Z.of_nat k))).
  { unfold sizeFroms_lookup, pn1. cbn [node.sizeFroms node.val mbind option_bind].
    rewrite lookup_insert_eq. reflexivity. }
  rewrite Hfrom. unfold decodeVisitor_visit.
  cbn [node.val node.canSet node.nullTerminated node.sizeFrom Uint_ mbind outcome_bind].
  rewrite bool_decide_eq_false_2 by lia. rewrite Nat2Z.id.
  assert (Hread : bytes.Read bs (zeroed k)
                  = (bs ++ zeroed (k - length bs), 
                     match bs with [] => Some io.EOF | _ => None end, [])).
  { destruct bs as [|b bs'].
    - rewrite Read_empty by (simpl in Hlen; lia). simpl. rewrite Nat.sub_0_r. reflexivity.
    - apply Read_short; [discriminate|lia]. }
  rewrite Hread. destruct bs; reflexivity.
Qed.

(** The count 5 and the two bytes "ab": the string decoded is "ab"
    followed by three zero bytes. *)
Lemma Decode_string_short_input_witness :
  DecodeWithOrder (byte_of_Z (Z.of_nat 5) :: [x61; x62]) (addressOf (Sized 0 []))
    binary.LittleEndian
  = Return (addressOf (Sized (Z.of_nat 5) ([x61; x62] ++ zeroed (5 - length [x61; x62]))),
            [], None).
Proof.
  apply (Decode_string_short_input 5 [x61; x62] 0 [] binary.LittleEndian);
    simpl; lia.
Defined.

(** ** Lengths read from the input *)

(** [Decode] of [Announced]: the eight bytes of the count, then the
    visit of [S] with the count as its size source. *)
Lemma Decode_Announced (cnt rest : list byte) (n0 : Z) (x : Value)
    (o : binary.ByteOrder) :
  length cnt = 8%nat ->
  isStruct x = false -> isLeafKind (Kind_of x) = true -> nodeVal x = x ->
  DecodeWithOrder (cnt ++ rest) (addressOf (Announced n0 x)) o
  = '(x', r', err) ←
      decodeVisitor_visit decode o
        (node.mk x (walkCanSet x true) VInvalid
           (Some (VUint W64 (binary.get o cnt))) None None false) rest;
    Return (addressOf (Announced (binary.get o cnt) (rewrap x x')), r', err).
Proof.
  intros Hlen Hs Hleaf Hnv. unfold DecodeWithOrder. rewrite decode_eq.
  unfold runVisitor, addressOf, Announced. rewrite runVisitorInternal_walk.
  cbn [nodeVal walkCanSet]. unfold walk. rewrite newNode_root.
  cbn [mbind outcome_bind]. cbn [fieldLoop].
  set (all := [("N", [tag.sizeof "S"], VUint W64 n0); ("S", [], x)]).
  change (node.set_val (VStruct all) (rootNode (VStruct all) true))
    with (rootNode (VStruct all) true).
  rewrite (run_field_leaf _ (VUint W64 n0) _ (rootNode (VStruct all) true)
             _ all _ eq_refl eq_refl).
  cbv zeta. cbn [isLeafKind Kind_of nodeVal].
  unfold fieldNode at 1. cbn [Name Tag Index Field_of fst snd walkCanSet].
  rewrite tagNode_sizeof, tagRegister_sizeof.
  rewrite (decodeVisitor_uint decode o _ W64 n0) by reflexivity.
  cbn [bytesOf]. rewrite <- Hlen at 1.
  rewrite Read_exact by (intros ->; discriminate).
  rewrite bool_decide_eq_true_2 by exact Hlen.
  cbn [mbind outcome_bind rewrap].
  set (u := binary.get o cnt).
  set (all1 := [("N", [tag.sizeof "S"], VUint W64 u); ("S", [], x)]).
  set (pn1 := node.mk (VStruct all1) true VInvalid None (Some (<["S":=0%nat]> ∅))
                None false).
  change (storeField 0 (VUint W64 u) _) with pn1.
  rewrite (run_field_leaf _ x _ pn1 _ all1 _ eq_refl) by (rewrite Hnv; exact Hs).
  cbv zeta. rewrite Hnv, Hleaf.
  unfold fieldNode. cbn [Name Tag Index Field_of fst snd tagNode foldl tagRegister].
  assert (Hfrom : sizeFroms_lookup pn1 "S" = Some (VUint W64 u)).
  { unfold sizeFroms_lookup, pn1. cbn [node.sizeFroms node.val mbind option_bind].
    rewrite lookup_insert_eq. reflexivity. }
  rewrite Hfrom.
  destruct (decodeVisitor_visit decode o _ rest) as [[[x' r'] [e|]]|];
    [| |reflexivity]; subst pn1 all1; reflexivity.
Qed.

(** A count of 2^63 or more in the input makes [Decode] panic.  In
    [struct {N uint64 `wire:"sizeof=S"`; S T}], once the eight bytes
    of [N] give such a count, [Decode] panics in [make] where [S] is a
    string and in [reflect.MakeSlice] where [S] is a slice, whatever
    follows in the input and whatever the target held. *)
Theorem Decode_huge_count_panics (cnt rest : list byte) (n0 : Z) (s0 : list byte)
    (zero : Value) (xs : list Value) (o : binary.ByteOrder) :
  length cnt = 8%nat -> 2 ^ 63 <= binary.get o cnt ->
  DecodeWithOrder (cnt ++ rest) (addressOf (Announced n0 (VString s0))) o
  = Panic MakeLenOutOfRange
  /\ DecodeWithOrder (cnt ++ rest) (addressOf (Announced n0 (VSlice zero xs))) o
     = Panic MakeNegativeLen.
Proof.
  intros Hlen Hbig.
  pose proof (get_range o cnt) as Hr. rewrite Hlen in Hr.
  change (2 ^ (8 * Z.of_nat 8)) with (2 ^ 64) in Hr.
  split; rewrite Decode_Announced by (exact Hlen || reflexivity);
    unfold decodeVisitor_visit;
    cbn [node.val node.canSet node.nullTerminated node.sizeFrom Uint_
         mbind outcome_bind walkCanSet].
  - rewrite bool_decide_eq_true_2 by exact Hbig. reflexivity.
  - unfold Set_MakeSlice. rewrite bool_decide_eq_true_2; [reflexivity|].
    unfold int, intN. change (2 ^ (64 - 1)) with (2 ^ 63).
    assert (H: (binary.get o cnt + 2 ^ 63) mod 2 ^ 64 = binary.get o cnt - 2 ^ 63).
    { rewrite <- (Z.mod_small (binary.get o cnt - 2 ^ 63) (2 ^ 64)) by lia.
      rewrite <- (Z_mod_plus_full (binary.get o cnt - 2 ^ 63) 1 (2 ^ 64)).
      f_equal. change (2 ^ 64) with (2 * 2 ^ 63). lia. }
    rewrite H. lia.
Qed.

(** Eight bytes [0xff], little endian: the count 2^64 - 1. *)
Lemma Decode_huge_count_panics_witness :
  DecodeWithOrder ([xff; xff; xff; xff; xff; xff; xff; xff] ++ [x61])
    (addressOf (Announced 0 (VString []))) binary.LittleEndian
  = Panic MakeLenOutOfRange
  /\ DecodeWithOrder ([xff; xff; xff; xff; xff; xff; xff; xff] ++ [x61])
       (addressOf (Announced 0 (VSlice (VUint W8 0) []))) binary.LittleEndian
     = Panic MakeNegativeLen.
Proof.
  apply (Decode_huge_count_panics [xff; xff; xff; xff; xff; xff; xff; xff] [x61]
           0 [] (VUint W8 0) [] binary.LittleEndian);
    [reflexivity|vm_compute; discriminate].
Defined.

(** ** What the encoder does with its writer

    [write_] discards both results of [Write].  So the calls of
    [Write] that the encoder makes, the value it leaves and the error
    it returns are the same with any writer. *)

Lemma agree_bind {A B S1 S2 : Type} (R : S1 -> S2 -> Prop)
    (m1 : outcome (A * S1 * option error)) (m2 : outcome (A * S2 * option error))
    (k1 : A * S1 * option error -> outcome (B * S1 * option error))
    (k2 : A * S2 * option error -> outcome (B * S2 * option error)) :
  agree R m1 m2 ->
  (forall a s1 s2 e, R s1 s2 -> agree R (k1 (a, s1, e)) (k2 (a, s2, e))) ->
  agree R (m1 ≫= k1) (m2 ≫= k2).
Proof.
  intros Hm Hk.
  destruct m1 as [[[a1 s1] e1]|], m2 as [[[a2 s2] e2]|]; simpl in Hm |- *;
    try contradiction; [|exact Hm].
  destruct Hm as [-> [HR ->]]. apply Hk, HR.
Qed.

Lemma agree_ret {A S1 S2 : Type} (R : S1 -> S2 -> Prop) (a : A) s1 s2 e :
  R s1 s2 -> agree R (Return (a, s1, e)) (Return (a, s2, e)).
Proof. simpl. auto. Qed.

Section Alike.
Context {W1 W2 : Type} `{io.Writer W1} `{io.Writer W2}.
Variable R : W1 -> W2 -> Prop.
Hypothesis R_write : forall w1 w2 p, R w1 w2 -> R (write_ w1 p) (write_ w2 p).

(** A loop over elements whose walks agree agrees. *)
Lemma eachIndex_alike (g1 : Value -> W1 -> outcome (visited W1))
    (g2 : Value -> W2 -> outcome (visited W2)) elems :
  Forall (fun x => forall w1 w2, R w1 w2 -> agree R (g1 x w1) (g2 x w2)) elems ->
  forall w1 w2, R w1 w2 ->
    agree R (eachIndex g1 elems w1) (eachIndex g2 elems w2).
Proof.
  induction 1 as [|x elems Hx _ IH]; intros w1 w2 HR; [apply agree_ret, HR|].
  cbn [eachIndex]. apply agree_bind; [apply Hx, HR|].
  intros x' s1 s2 [e|] HR'; [apply agree_ret, HR'|].
  apply agree_bind; [apply IH, HR'|].
  intros rest' t1 t2 e HR''. apply agree_ret, HR''.
Qed.

(** The same for the loop over the fields of a struct. *)
Lemma fieldLoop_alike o rest :
  Forall (fun f => alikeAt W1 W2 R f.2) rest ->
  forall i n (w1 : W1) (w2 : W2), R w1 w2 ->
    agree R (fieldLoop (runVisitorInternal (encodeVisitor_visit encode o)) rest i n w1)
            (fieldLoop (runVisitorInternal (encodeVisitor_visit encode o)) rest i n w2).
Proof.
  induction 1 as [|[fld x] rest Hx _ IH]; intros i n w1 w2 HR; [apply agree_ret, HR|].
  cbn [fieldLoop]. simpl in Hx.
  apply (agree_bind (A:=Value * option node.t)); [apply Hx, HR|].
  intros [x' n'] s1 s2 [e|] HR'; [apply agree_ret, HR'|]. apply IH, HR'.
Qed.

Lemma elements_alike elems order c :
  Forall (alikeAt W1 W2 R) elems ->
  forall (w1 : W1) (w2 : W2), R w1 w2 ->
    agree R (eachIndex (fun y (w : W1) => encode y c order w) elems w1)
            (eachIndex (fun y (w : W2) => encode y c order w) elems w2).
Proof.
  intros Hel. apply eachIndex_alike. eapply Forall_impl; [exact Hel|].
  intros y Hy u1 u2 HR. rewrite !encode_eq. unfold runVisitor.
  apply (agree_bind (A:=Value * option node.t)); [apply Hy, HR|].
  intros [v' p'] s1 s2 e HR'. apply agree_ret, HR'.
Qed.

(** One step of the walk, when the walks below agree. *)
Lemma walk_alike x : Forall (alikeAt W1 W2 R) (children x) -> alikeWalk W1 W2 R x.
Proof.
  intros Hch canSet o p f w1 w2 HR. unfold walk.
  destruct (newNode x canSet p f) as [[n p']|]; [|reflexivity]. simpl.
  destruct x as [| |[]|[]| | | | | |zero elems|zero elems| |fields| |[]];
    simpl in Hch |- *; auto;
    try (unfold encodeVisitor_visit; simpl;
         destruct (setLength (node.set_val _ n)) as [val|]; simpl;
         [|reflexivity];
         try (destruct (Int_ val); simpl; auto);
         try (destruct (Uint_ val); simpl; auto);
         try (destruct (node.nullTerminated n); simpl; auto);
         simpl; auto; fail).
  - (* arrays *)
    unfold encodeVisitor_visit; simpl.
    destruct (setLength (node.set_val _ n)) as [val|]; simpl; [|reflexivity].
    inversion Hch as [|? ? _ Hel]; subst.
    pose proof (elements_alike elems (default o (node.endianness n))
                  (Index_CanSet val (node.canSet n)) Hel w1 w2 HR) as Helems.
    destruct (eachIndex _ elems w1) as [[[? ?] ?]|],
             (eachIndex _ elems w2) as [[[? ?] ?]|];
      simpl in Helems |- *; try contradiction; [|exact Helems].
    destruct Helems as [-> [HR' ->]]. auto.
  - (* slices *)
    unfold encodeVisitor_visit; simpl.
    destruct (setLength (node.set_val _ n)) as [val|]; simpl; [|reflexivity].
    inversion Hch as [|? ? _ Hel]; subst.
    pose proof (elements_alike elems (default o (node.endianness n))
                  (Index_CanSet val (node.canSet n)) Hel w1 w2 HR) as Helems.
    destruct (eachIndex _ elems w1) as [[[? ?] ?]|],
             (eachIndex _ elems w2) as [[[? ?] ?]|];
      simpl in Helems |- *; try contradiction; [|exact Helems].
    destruct Helems as [-> [HR' ->]]. auto.
  - (* strings *)
    unfold encodeVisitor_visit; simpl.
    destruct (setLength (node.set_val _ n)) as [val|]; simpl; [|reflexivity].
    assert (HR' : R (io.WriteString w1 s).2 (io.WriteString w2 s).2)
      by (apply (R_write w1 w2 s), HR).
    destruct (node.nullTerminated n); simpl; auto.
  - (* structs *)
    apply (proj1 (List.Forall_map snd (alikeAt W1 W2 R) fields)) in Hch.
    pose proof (fieldLoop_alike o fields Hch 0%nat
                  (node.set_val (VStruct fields) n) w1 w2 HR) as Hloop.
    destruct (fieldLoop _ fields 0%nat _ w1) as [[[? ?] ?]|],
             (fieldLoop _ fields 0%nat _ w2) as [[[? ?] ?]|];
      simpl in Hloop |- *; try contradiction; [|exact Hloop].
    destruct Hloop as [-> [HR' ->]]. auto.
Qed.

(** Dereferencing a pointer does not touch the writer. *)
Lemma alikeWalk_alikeAt v : alikeWalk W1 W2 R (nodeVal v) -> alikeAt W1 W2 R v.
Proof.
  intros Hwalk canSet o p f w1 w2 HR. rewrite !runVisitorInternal_walk.
  apply (agree_bind (A:=Value * option node.t) (B:=Value * option node.t));
    [apply Hwalk, HR|].
  intros [x' p'] s1 s2 e HR'. apply (agree_ret (A:=Value * option node.t)), HR'.
Qed.

(** Every value is walked alike with two writers related by [R]. *)
Lemma encode_alike v : alikeWalk W1 W2 R v /\ alikeAt W1 W2 R v.
Proof.
  induction v as [v IH] using Value_children_ind.
  assert (Hwalk : alikeWalk W1 W2 R v).
  { apply walk_alike. eapply Forall_impl; [exact IH|]. intros c [_ Hc]. exact Hc. }
  split; [exact Hwalk|]. apply alikeWalk_alikeAt.
  destruct v as [| | | | | | | | | | | | |[x|]|]; try exact Hwalk.
  - simpl in IH |- *. inversion IH as [|? ? [Hx _] _]; subst. exact Hx.
  - simpl. apply walk_alike. constructor.
Qed.

Lemma Encode_alike v o (w1 : W1) (w2 : W2) :
  R w1 w2 -> agree R (EncodeWithOrder w1 v o) (EncodeWithOrder w2 v o).
Proof.
  intros HR. unfold EncodeWithOrder. rewrite !encode_eq. unfold runVisitor.
  apply (agree_bind (A:=Value * option node.t)).
  - apply (proj2 (encode_alike v)), HR.
  - intros [v' p'] s1 s2 e HR'. apply agree_ret, HR'.
Qed.
End Alike.

Lemma replay_snoc {W : Type} `{io.Writer W} (w : W) ps p :
  replay w (ps ++ [p]) = write_ (replay w ps) p.
Proof. unfold replay. rewrite foldl_app. reflexivity. Qed.

(** [Encode] never looks at its writer.  The calls of [Write] it makes
    and their arguments, the value it leaves and the error it returns
    depend on the value and the byte order only: with any writer, of
    any type and whatever its [Write] returns, the outcome is the one
    obtained with a writer that only records the calls. *)
Theorem Encode_ignores_writer (v : Value) (o : binary.ByteOrder)
    (W : Type) (HW : io.Writer W) (w : W) :
  agree (fun (w' : W) (ps : recorder) => w' = replay w ps)
        (EncodeWithOrder w v o)
        (EncodeWithOrder (W:=recorder) [] v o).
Proof.
  apply (Encode_alike (fun (w' : W) (ps : recorder) => w' = replay w ps)).
  - intros w1 ps p ->. symmetry. apply replay_snoc.
  - reflexivity.
Qed.

Lemma replay_buffer (w : bytes.Buffer) ps : replay w ps = w ++ concat ps.
Proof.
  revert w. induction ps as [|p ps IH]; intros w; simpl.
  - rewrite app_nil_r. reflexivity.
  - unfold replay in IH |- *. simpl. rewrite IH.
    unfold write_, io.Write, bytes.Buffer_Writer. simpl.
    rewrite <- app_assoc. reflexivity.
Qed.

(** [Encode] to a [bytes.Buffer] appends: the buffer afterwards is the
    buffer before followed by what an empty buffer would hold, and the
    value left and the error returned are the same as with the empty
    buffer. *)
Theorem Encode_appends (v : Value) (o : binary.ByteOrder) (w : bytes.Buffer) :
  agree (fun w' bs : bytes.Buffer => w' = w ++ bs)
        (EncodeWithOrder w v o)
        (EncodeWithOrder (W:=bytes.Buffer) [] v o).
Proof.
  apply (Encode_alike (fun w' bs : bytes.Buffer => w' = w ++ bs)).
  - intros w1 bs p ->. unfold write_, io.Write, bytes.Buffer_Writer. simpl.
    rewrite app_assoc. reflexivity.
  - rewrite app_nil_r. reflexivity.
Qed.

(** ** Values passed without a pointer *)

Lemma eachIndex_nothing (g : Value -> bytes.Buffer -> outcome (visited bytes.Buffer))
    elems :
  Forall (fun x => forall r x' r' e,
              g x r = Return (x', r', e) -> x' = x /\ (e = None -> r' = r)) elems ->
  forall r l r' e,
    eachIndex g elems r = Return (l, r', e) -> l = elems /\ (e = None -> r' = r).
Proof.
  induction 1 as [|x elems Hx _ IH]; intros r l r' e Hrun.
  - injection Hrun as <- <- <-. auto.
  - cbn [eachIndex] in Hrun.
    destruct (g x r) as [[[x1 r1] e1]|] eqn:E; [|discriminate].
    apply Hx in E as [-> Hr1]. simpl in Hrun. destruct e1 as [e1|].
    + injection Hrun as <- <- <-. split; [reflexivity|discriminate].
    + destruct (eachIndex g elems r1) as [[[l2 r2] e2]|] eqn:E2; [|discriminate].
      simpl in Hrun. injection Hrun as <- <- <-.
      apply IH in E2 as [-> Hr2]. split; [reflexivity|].
      intros He. rewrite (Hr2 He). apply Hr1. reflexivity.
Qed.

(** The visitor at a node that cannot be set, when the walks of the
    elements give nothing. *)
Lemma decodeVisitor_nothing o n r x' r' e :
  node.canSet n = false ->
  Forall (fun x => forall o r, nothingDecoded x r
            (runVisitorInternal (decodeVisitor_visit decode o) x false None None r))
    (match node.val n with VArray _ elems => elems | _ => [] end) ->
  decodeVisitor_visit decode o n r = Return (x', r', e) ->
  x' = node.val n /\ (e = None -> r' = r).
Proof.
  intros Hc Hel Hrun. unfold decodeVisitor_visit in Hrun. rewrite Hc in Hrun.
  destruct (node.val n) as [| |[]|[]| | | | | |zero elems|zero elems| | | |];
    try (injection Hrun as <- <- <-; split; [reflexivity|discriminate]);
    try (destruct (bytes.Read r _) as [[? ?] ?]; discriminate).
  - (* arrays *)
    cbn [Index_CanSet] in Hrun.
    destruct (eachIndex _ elems r) as [[[l r1] e1]|] eqn:E; [|discriminate].
    simpl in Hrun. injection Hrun as <- <- <-.
    apply eachIndex_nothing in E as [-> Hr]; [auto|].
    eapply Forall_impl; [exact Hel|]. intros x Hx r0 x1 r1' e0 Hdec.
    rewrite decode_eq in Hdec. unfold runVisitor in Hdec.
    destruct (runVisitorInternal _ x false None None r0) as [[[[y p1] s1] e2]|] eqn:E1;
      [|discriminate].
    simpl in Hdec. injection Hdec as <- <- <-.
    apply (Hx _ _ _ _ _ _ E1).
  - (* slices *)
    destruct (node.sizeFrom n) as [from|].
    + destruct (Uint_ from) as [u|]; [|discriminate]. simpl in Hrun.
      unfold Set_MakeSlice in Hrun. destruct (bool_decide (int u < 0)); discriminate.
    + injection Hrun as <- <- <-. split; [reflexivity|discriminate].
  - (* strings *)
    destruct (node.nullTerminated n).
    + destruct (readNullTerminatedString r) as [[? ?] ?]. discriminate.
    + destruct (node.sizeFrom n) as [from|]; [|discriminate].
      destruct (Uint_ from) as [u|]; [|discriminate]. simpl in Hrun.
      destruct (bool_decide (2 ^ 63 <= u)); [discriminate|].
      destruct (bytes.Read r _) as [[? ?] ?]. discriminate.
Qed.

Lemma fieldLoop_nothing o all rest : forall i n r n' r' e,
  Forall (fun f => forall p fld r, nothingDecoded f.2 r
            (runVisitorInternal (decodeVisitor_visit decode o) f.2 false p fld r)) rest ->
  drop i all = rest ->
  node.val n = VStruct all -> node.canSet n = false ->
  fieldLoop (runVisitorInternal (decodeVisitor_visit decode o)) rest i n r
  = Return (n', r', e) ->
  node.val n' = VStruct all /\ (e = None -> r' = r).
Proof.
  induction rest as [|[fld x] rest IH]; intros i n r n' r' e Hrest Hdrop Hall Hc Hrun.
  - injection Hrun as <- <- <-. auto.
  - inversion Hrest as [|? ? Hx Hrest']; subst.
    cbn [fieldLoop] in Hrun. rewrite Hc in Hrun.
    destruct (runVisitorInternal _ x false (Some n) (Some (Field_of i fld)) r)
      as [[[[x1 p1] r1] e1]|] eqn:E; [|discriminate].
    pose proof (run_field_parent _ _ _ _ _ all _ _ _ _ _ Hall E) as ->.
    apply Hx in E as [-> Hr1]. simpl in Hrun.
    assert (Hi : all !! i = Some (fld, x)).
    { rewrite <- (Nat.add_0_r i), <- lookup_drop, Hdrop. reflexivity. }
    assert (Hstore : node.val (storeField i x
                       (node.set_sizeFroms (tagRegister (Index (Field_of i fld))
                          (Tag (Field_of i fld)) (node.sizeFroms n)) n)) = VStruct all).
    { apply (storeField_same _ _ _ all fld); [exact Hall|exact Hi]. }
    destruct e1 as [e1|].
    + injection Hrun as <- <- <-. split; [exact Hstore|discriminate].
    + apply IH in Hrun as [Hv Hr]; [| | |exact Hstore|].
      * split; [exact Hv|]. intros He. rewrite (Hr He). apply Hr1. reflexivity.
      * exact Hrest'.
      * rewrite <- (Nat.add_1_r i), <- drop_drop, Hdrop. reflexivity.
      * rewrite storeField_canSet. exact Hc.
Qed.

Lemma decode_nothing v :
  noPointer v = true ->
  forall o p f r, nothingDecoded v r
    (runVisitorInternal (decodeVisitor_visit decode o) v false p f r).
Proof.
  induction v as [v IH] using Value_children_ind.
  intros Hnp o p f r v' p' r' e Hrun.
  rewrite runVisitorInternal_walk in Hrun.
  assert (Hv : nodeVal v = v /\ walkCanSet v false = false /\ forall y, rewrap v y = y)
    by (destruct v; try discriminate; auto).
  destruct Hv as [Hnv [Hwc Hrw]]. rewrite Hnv, Hwc in Hrun.
  destruct (walk _ _ v false p f r) as [[[[y p1] r1] e1]|] eqn:E; [|discriminate].
  simpl in Hrun. rewrite Hrw in Hrun. injection Hrun as <- <- <- <-.
  unfold walk in E.
  destruct (newNode v false p f) as [[n p2]|] eqn:En; [|discriminate].
  pose proof (newNode_val _ _ _ _ _ _ En) as [Hval Hcan].
  cbn [mbind outcome_bind] in E.
  destruct (isStruct v) eqn:Hs.
  - destruct v as [| | | | | | | | | | | |fields| |]; try discriminate.
    destruct (fieldLoop _ fields 0%nat _ r) as [[[n1 r2] e2]|] eqn:El; [|discriminate].
    simpl in E. injection E as <- <- <- <-.
    apply (fieldLoop_nothing o fields) in El; [exact El| |reflexivity|reflexivity|].
    + simpl in IH, Hnp. apply (proj1 (List.Forall_map snd _ fields)) in IH.
      apply Forall_forall. intros [fld x] Hin p0 fld0 r0.
      rewrite Forall_forall in IH. apply (IH (fld, x) Hin).
      rewrite forallb_forall in Hnp. apply (Hnp (fld, x)).
      apply (proj1 (list_elem_of_In _ _)), Hin.
    + cbn. exact Hcan.
  - assert (E' : (if isLeafKind (Kind_of v) then
                    '(val', s, err) ← decodeVisitor_visit decode o (node.set_val v n) r;
                    Return (val', p2, s, err)
                  else Return (v, p2, r, Some (unsupportedType (Kind_of v))))
                 = Return (y, p1, r1, e1))
      by (destruct v; try discriminate; exact E).
    clear E. destruct (isLeafKind (Kind_of v)).
    + destruct (decodeVisitor_visit decode o (node.set_val v n) r)
        as [[[y1 r2] e2]|] eqn:Ev; [|discriminate].
      simpl in E'. injection E' as <- <- <- <-.
      apply decodeVisitor_nothing in Ev; [exact Ev|exact Hcan|].
      cbn [node.val node.set_val].
      destruct v as [| | | | | | | | |zero elems| | | | |]; try constructor.
      simpl in IH, Hnp. inversion IH as [|? ? _ Hel]; subst.
      apply Forall_forall. intros x Hin o0 r0.
      rewrite Forall_forall in Hel. apply Hel; [exact Hin|].
      rewrite forallb_forall in Hnp. apply Hnp, (proj1 (list_elem_of_In _ _)), Hin.
    + injection E' as <- <- <- <-. split; [reflexivity|discriminate].
Qed.

(** The value given to [Decode] must be a pointer.  On a value passed
    as it is, with no pointer in it either, [Decode] delivers nothing:
    when it returns (it panics in [reflect] as soon as it has something
    to store), the value is as before, and the reader too unless an
    error is returned. *)
Theorem Decode_by_value_delivers_nothing (v v' : Value) (r r' : bytes.Buffer)
    (o : binary.ByteOrder) (e : option error) :
  noPointer v = true ->
  DecodeWithOrder r v o = Return (v', r', e) ->
  v' = v /\ (e = None -> r' = r).
Proof.
  intros Hnp Hrun. unfold DecodeWithOrder in Hrun. rewrite decode_eq in Hrun.
  unfold runVisitor in Hrun.
  destruct (runVisitorInternal _ v false None None r) as [[[[y p1] r1] e1]|] eqn:E;
    [|discriminate].
  simpl in Hrun. injection Hrun as <- <- <-.
  apply (decode_nothing v Hnp o None None r _ _ _ _ E).
Qed.

(** At [struct {A [0]uint8}], where there is nothing to store. *)
Lemma Decode_by_value_delivers_nothing_witness :
  EmptyArray = EmptyArray /\ (@None error = None -> [x01; x02] = [x01; x02]).
Proof.
  apply (Decode_by_value_delivers_nothing EmptyArray EmptyArray [x01; x02] [x01; x02]
           binary.LittleEndian None); reflexivity.
Defined.

(** ** Several byte-order directives in one tag *)

Lemma tagNode_app all tags tags' n :
  tagNode all (tags ++ tags') n = tagNode all tags' (tagNode all tags n).
Proof. unfold tagNode. apply foldl_app. Qed.

Lemma tagNode_orders all ds n :
  exists e, tagNode all (map order_tag ds) n = node.set_endianness e n.
Proof.
  revert n. induction ds as [|d ds IH]; intros n.
  - exists (node.endianness n). destruct n; reflexivity.
  - change (map order_tag (d :: ds)) with ([order_tag d] ++ map order_tag ds).
    rewrite tagNode_app, tagNode_order. destruct (IH (node.set_endianness (Some d) n)) as [e He].
    exists e. rewrite He. destruct n; reflexivity.
Qed.

Lemma tagNode_last_order all ds d n :
  tagNode all (map order_tag (ds ++ [d])) n = node.set_endianness (Some d) n.
Proof.
  rewrite map_app, tagNode_app. destruct (tagNode_orders all ds n) as [e ->].
  cbn [map]. rewrite tagNode_order. destruct n; reflexivity.
Qed.

Lemma decodeVisitor_order self o d val canSet sz sf sfs nt r :
  decodeVisitor_visit self o (node.mk val canSet sz sf sfs (Some d) nt) r =
  decodeVisitor_visit self d (node.mk val canSet sz sf sfs None nt) r.
Proof. reflexivity. Qed.

Section LastOrder.
Context {St : Type} (visit : binary.ByteOrder -> node.t -> St -> outcome (visited St)).
Hypothesis visit_order : forall o d val canSet sz sf sfs nt s,
  visit o (node.mk val canSet sz sf sfs (Some d) nt) s =
  visit d (node.mk val canSet sz sf sfs None nt) s.

(** The walk of [&struct {F T `...`}] whose tag ends in the directive
    of [d] is the walk of the field's value on its own under [d]. *)
Lemma run_ordered_field ds d o x s :
  isStruct (nodeVal x) = false ->
  runVisitor (visit o) (addressOf (Ordered (ds ++ [d]) x)) false s =
  '(x', s', e) ← runVisitor (visit d) x true s;
  Return (addressOf (Ordered (ds ++ [d]) x'), s', e).
Proof.
  intros Hx. unfold Ordered. rewrite run_single_field.
  set (tags := map order_tag (ds ++ [d])).
  rewrite (run_field_leaf _ x true (rootNode (VStruct [("F", tags, x)]) true)
             _ [("F", tags, x)] s eq_refl Hx).
  cbv zeta. unfold fieldNode. cbn [Name Tag Index Field_of fst snd].
  change (sizeFroms_lookup (rootNode (VStruct [("F", tags, x)]) true) "F")
    with (@None Value).
  subst tags. rewrite tagNode_last_order.
  unfold node.set_endianness. cbn [node.val node.canSet node.sizeof node.sizeFrom
    node.sizeFroms node.endianness node.nullTerminated].
  rewrite visit_order.
  unfold runVisitor. rewrite runVisitorInternal_walk, walk_leaf by exact Hx.
  rewrite newNode_root. cbn [mbind outcome_bind].
  change (node.set_val (nodeVal x) (rootNode (nodeVal x) (walkCanSet x true)))
    with (node.mk (nodeVal x) (walkCanSet x true) VInvalid None None None false).
  destruct (isLeafKind (Kind_of (nodeVal x))).
  - destruct (visit d _ s) as [[[x' s'] e]|]; [|reflexivity].
    destruct e; reflexivity.
  - cbn. rewrite rewrap_nodeVal. reflexivity.
Qed.
End LastOrder.

(** When the tag of a field that is not a struct holds several
    byte-order directives, the last one counts, in [Encode] and in
    [Decode] alike: the field is written and read as its value on its
    own is under that order, whatever the order of the call. *)
Theorem last_order_directive_wins (ds : list binary.ByteOrder)
    (d o : binary.ByteOrder) (x : Value) :
  isStruct (nodeVal x) = false ->
  (forall W (HW : io.Writer W) (w : W),
      EncodeWithOrder w (addressOf (Ordered (ds ++ [d]) x)) o =
      '(x', w', e) ← encode x true d w;
      Return (addressOf (Ordered (ds ++ [d]) x'), w', e))
  /\ (forall r,
        DecodeWithOrder r (addressOf (Ordered (ds ++ [d]) x)) o =
        '(x', r', e) ← decode x true d r;
        Return (addressOf (Ordered (ds ++ [d]) x'), r', e)).
Proof.
  intros Hx. split.
  - intros W HW w. unfold EncodeWithOrder. rewrite !encode_eq.
    apply (run_ordered_field (fun o => encodeVisitor_visit encode o)); [|exact Hx].
    intros. apply encodeVisitor_order.
  - intros r. unfold DecodeWithOrder. rewrite !decode_eq.
    apply (run_ordered_field (fun o => decodeVisitor_visit decode o)); [|exact Hx].
    intros. apply decodeVisitor_order.
Qed.

(** [struct {F uint16 `wire:"little,big"`}] with [F = 0x0102] under the
    little-endian order: 01 02 is written, and 01 02 is read back as
    0x0102. *)
Lemma last_order_directive_wins_witness :
  EncodeWithOrder (W:=bytes.Buffer) []
    (addressOf (Ordered ([binary.LittleEndian] ++ [binary.BigEndian]) (VUint W16 0x0102)))
    binary.LittleEndian
  = Return (addressOf (Ordered ([binary.LittleEndian] ++ [binary.BigEndian])
                         (VUint W16 0x0102)), [x01; x02], None)
  /\ DecodeWithOrder [x01; x02]
       (addressOf (Ordered ([binary.LittleEndian] ++ [binary.BigEndian]) (VUint W16 0)))
       binary.LittleEndian
     = Return (addressOf (Ordered ([binary.LittleEndian] ++ [binary.BigEndian])
                            (VUint W16 0x0102)), [], None).
Proof.
  split.
  - rewrite (proj1 (last_order_directive_wins [binary.LittleEndian] binary.BigEndian
                      binary.LittleEndian (VUint W16 0x0102) eq_refl)).
    reflexivity.
  - rewrite (proj2 (last_order_directive_wins [binary.LittleEndian] binary.BigEndian
                      binary.LittleEndian (VUint W16 0) eq_refl)).
    reflexivity.
Defined.

(** ** Where a length producer is declared *)

Lemma tagRegister_other i tags reg name :
  declaresSizeof name tags = false ->
  (reg ≫= fun m => m !! name) = None ->
  (tagRegister i tags reg ≫= fun m => m !! name) = None.
Proof.
  revert reg. induction tags as [|x tags IH]; intros reg Hno Hreg; [exact Hreg|].
  cbn [declaresSizeof existsb] in Hno. apply orb_false_iff in Hno as [Hx Hno].
  unfold tagRegister. cbn [foldl]. apply (IH _ Hno).
  destruct (classify x) eqn:Ec; try exact Hreg.
  cbn. rewrite lookup_insert_ne.
  - destruct reg as [m|]; [exact Hreg|apply lookup_empty].
  - intros ->. rewrite bool_decide_eq_true_2 in Hx by reflexivity. discriminate.
Qed.

Lemma registered_other rest : forall i reg name,
  forallb (fun f => negb (declaresSizeof name f.1.2)) rest = true ->
  (reg ≫= fun m => m !! name) = None ->
  (registered rest i reg ≫= fun m => m !! name) = None.
Proof.
  induction rest as [|[[nm tags] x] rest IH]; intros i reg name Hno Hreg; [exact Hreg|].
  cbn [forallb] in Hno. apply andb_true_iff in Hno as [Hx Hno].
  cbn [registered]. apply IH; [exact Hno|].
  apply tagRegister_other; [|exact Hreg].
  apply negb_true_iff in Hx. exact Hx.
Qed.

Lemma sizeFroms_lookup_none pn name :
  (node.sizeFroms pn ≫= fun m => m !! name) = None ->
  sizeFroms_lookup pn name = None.
Proof.
  unfold sizeFroms_lookup. destruct (node.sizeFroms pn) as [m|]; [|reflexivity].
  cbn. intros ->. reflexivity.
Qed.

(** A [sizeof] directive takes effect for the fields after the one
    that carries it, and for no other.  [Decode] of a struct whose
    traversal reaches a slice field before any field with a [sizeof]
    directive for it returns "wire: slice with no size source",
    whatever the fields from the slice on declare, and leaves the
    reader as it was when the slice was reached. *)
Theorem length_producer_must_precede (o : binary.ByteOrder) (top val0 : Value)
    (fields : list (string * list submatch * Value)) (i : nat)
    (name : string) (tags : list submatch) (zero : Value) (elems : list Value)
    (r r' : bytes.Buffer) (n' : node.t) :
  nodeVal top = VStruct fields ->
  fields !! i = Some (name, tags, val0) ->
  nodeVal val0 = VSlice zero elems ->
  forallb (fun f => negb (declaresSizeof name f.1.2)) (take i fields) = true ->
  reached (decodeVisitor_visit decode o) top false fields i r n' r' ->
  exists top', DecodeWithOrder r top o = Return (top', r', Some noSizeSource).
Proof.
  intros Htop Hi Hval Hno Hpre.
  assert (Hs : isStruct (node.val n') = true).
  { apply fieldLoop_struct in Hpre as [-> _]. reflexivity. }
  assert (Hnone : sizeFroms_lookup n' name = None).
  { apply sizeFroms_lookup_none.
    unfold reached in Hpre.
    rewrite (fieldLoop_registered _ _ _ (rootNode (VStruct fields) (walkCanSet top false))
               _ _ _ fields eq_refl Hpre).
    apply registered_other; [exact Hno|reflexivity]. }
  destruct (node.val n') as [| | | | | | | | | | | |all| |] eqn:Hall;
    try discriminate.
  assert (Hrun : runVisitorInternal (decodeVisitor_visit decode o) val0 (node.canSet n')
                   (Some n') (Some (Field_of i (name, tags))) r'
                 = Return (val0,
                           Some (node.set_sizeFroms
                                   (tagRegister i tags (node.sizeFroms n')) n'),
                           r', Some noSizeSource)).
  { rewrite (run_field_leaf _ val0 _ n' _ all r' Hall) by (rewrite Hval; reflexivity).
    cbv zeta. rewrite Hval. cbn [isLeafKind Kind_of].
    erewrite decodeVisitor_slice_unsized;
      [|rewrite fieldNode_val; reflexivity
       |rewrite fieldNode_sizeFrom; exact Hnone].
    cbn [mbind outcome_bind]. rewrite fieldNode_val, <- Hval, rewrap_nodeVal.
    reflexivity. }
  destruct (field_error _ _ _ _ _ _ _ _ _ _ _ _ _ _ Htop Hi Hpre Hrun)
    as [top' Htop'].
  exists top'. unfold DecodeWithOrder. rewrite decode_eq. exact Htop'.
Qed.

(** At [struct {S []uint8; N uint8 `wire:"sizeof=S"`}]: [Decode] fails
    at [S] and reads nothing. *)
Lemma length_producer_must_precede_witness :
  exists top', DecodeWithOrder [x02; x07; x08] (addressOf LengthAfter) binary.LittleEndian
               = Return (top', [x02; x07; x08], Some noSizeSource).
Proof.
  eapply (length_producer_must_precede binary.LittleEndian (addressOf LengthAfter)
            (VSlice (VUint W8 0) []) _ 0%nat "S" [] (VUint W8 0) []);
    reflexivity.
Defined.

(** ** Traversals that leave the value alone *)

Lemma tagNode_sizeof_none all tags n :
  hasSizeof tags = false -> node.sizeof (tagNode all tags n) = node.sizeof n.
Proof.
  revert n. induction tags as [|x tags IH]; intros n Hno; [reflexivity|].
  cbn [hasSizeof existsb] in Hno. apply orb_false_iff in Hno as [Hx Hno].
  unfold tagNode in IH |- *. cbn [foldl]. rewrite IH by exact Hno.
  destruct (classify x); try discriminate; destruct n; reflexivity.
Qed.

Lemma newNode_sizeFroms val canSet p f n p' :
  newNode val canSet p f = Return (n, p') -> node.sizeFroms n = None.
Proof.
  unfold newNode. intros Hret.
  match type of Hret with (?m ≫= _) = _ => destruct m as [n0|] eqn:E end;
    [|discriminate].
  simpl in Hret.
  assert (Hn0 : node.sizeFroms n0 = None).
  { destruct p as [pn|]; [|injection E as <-; reflexivity].
    destruct (node.sizeFroms pn), f; try discriminate; injection E as <-; reflexivity. }
  destruct f as [fld|]; [|injection Hret as <- <-; exact Hn0].
  clear E. revert n0 p Hn0 Hret. induction (Tag fld) as [|x xs IH]; intros n0 p Hn0 Hret.
  - injection Hret as <- <-. exact Hn0.
  - cbn [applyMatches] in Hret.
    destruct (applyMatch fld x n0 p) as [[n1 p1]|] eqn:E; [|discriminate].
    simpl in Hret. apply (IH n1 p1); [|exact Hret].
    unfold applyMatch in E. repeat case_bool_decide;
      try (injection E as <- <-; destruct n0; exact Hn0).
    destruct p as [pn|]; [|discriminate].
    destruct (FieldByName (node.val pn) (x2 x)); [|discriminate].
    simpl in E. injection E as <- <-. destruct n0; exact Hn0.
Qed.

Lemma eachIndex_kept {St : Type} (g1 g2 : Value -> St -> outcome (visited St)) elems :
  Forall (fun x => forall s, exists s' e,
              g1 x s = Return (x, s', e) /\ g2 x s = Return (x, s', e)) elems ->
  forall s, exists s' e,
    eachIndex g1 elems s = Return (elems, s', e)
    /\ eachIndex g2 elems s = Return (elems, s', e).
Proof.
  induction 1 as [|x elems Hx _ IH]; intros s; [exists s, None; auto|].
  cbn [eachIndex]. destruct (Hx s) as [s1 [e1 [-> ->]]]. simpl.
  destruct e1 as [e1|]; [exists s1, (Some e1); auto|].
  destruct (IH s1) as [s2 [e2 [-> ->]]]. simpl. exists s2, e2. auto.
Qed.

Section Kept.
Context {P St : Type} (visit : P -> node.t -> St -> outcome (visited St)).
Variable tagsOk : list submatch -> bool.
Variable nodeOk : node.t -> Prop.
Hypothesis nodeOk_root : forall val c, nodeOk (rootNode val c).
Hypothesis nodeOk_field : forall all pn nm tags val c,
  tagsOk tags = true -> nodeOk (fieldNode all pn nm tags val c).
Hypothesis visit_kept : forall o n1 n2 s,
  node.val n1 = node.val n2 -> nodeOk n1 -> nodeOk n2 ->
  node.endianness n1 = node.endianness n2 ->
  node.nullTerminated n1 = node.nullTerminated n2 ->
  Forall (keptAt visit tagsOk) (elements (node.val n1)) ->
  exists s' e,
    visit o n1 s = Return (node.val n1, s', e)
    /\ visit o n2 s = Return (node.val n1, s', e).

Lemma fieldLoop_kept o all rest : forall i n1 n2 s,
  Forall (fun f => tagsOk f.1.2 = true /\ keptAt visit tagsOk f.2) rest ->
  drop i all = rest ->
  node.val n1 = VStruct all -> node.val n2 = VStruct all ->
  node.sizeFroms n1 = node.sizeFroms n2 ->
  exists s' e n1' n2',
    fieldLoop (runVisitorInternal (visit o)) rest i n1 s = Return (n1', s', e)
    /\ fieldLoop (runVisitorInternal (visit o)) rest i n2 s = Return (n2', s', e)
    /\ node.val n1' = VStruct all /\ node.val n2' = VStruct all.
Proof.
  induction rest as [|[[nm tags] x] rest IH]; intros i n1 n2 s Hrest Hdrop Hv1 Hv2 Hsf.
  - exists s, None, n1, n2. auto.
  - inversion Hrest as [|? ? [Htags Hx] Hrest']; subst. cbn [fst snd] in Htags, Hx.
    cbn [fieldLoop].
    destruct (Hx o (node.canSet n1) (node.canSet n2) (Some n1) (Some n2)
                (Some (Field_of i (nm, tags))) s) as [s1 [e1 [p1' [p2' [E1 E2]]]]].
    { cbn. rewrite Hv1, Hv2. auto. }
    rewrite E1, E2.
    pose proof (run_field_parent _ _ _ _ _ all _ _ _ _ _ Hv1 E1) as ->.
    pose proof (run_field_parent _ _ _ _ _ all _ _ _ _ _ Hv2 E2) as ->.
    cbn [mbind outcome_bind default].
    assert (Hi : all !! i = Some (nm, tags, x))
      by (rewrite <- (Nat.add_0_r i), <- lookup_drop, Hdrop; reflexivity).
    set (m1 := storeField i x _). set (m2 := storeField i x _).
    assert (Hm1 : node.val m1 = VStruct all)
      by (apply (storeField_same _ _ _ all (nm, tags)); [exact Hv1|exact Hi]).
    assert (Hm2 : node.val m2 = VStruct all)
      by (apply (storeField_same _ _ _ all (nm, tags)); [exact Hv2|exact Hi]).
    destruct e1 as [e1|].
    + exists s1, (Some e1), m1, m2. auto.
    + apply IH; try assumption.
      * rewrite <- (Nat.add_1_r i), <- drop_drop, Hdrop. reflexivity.
      * unfold m1, m2. rewrite !storeField_sizeFroms. cbn. rewrite Hsf. reflexivity.
Qed.

Lemma walk_kept x :
  match x with
  | VArray _ elems | VSlice _ elems => Forall (keptAt visit tagsOk) elems
  | VStruct fields =>
      Forall (fun f => tagsOk f.1.2 = true /\ keptAt visit tagsOk f.2) fields
  | _ => True
  end ->
  keptWalk visit tagsOk x.
Proof.
  intros IH o c1 c2 p1 p2 f s Hp.
  assert (Hnodes : exists n1 n2 q1 q2,
            newNode x c1 p1 f = Return (n1, q1)
            /\ newNode x c2 p2 f = Return (n2, q2)
            /\ nodeOk n1 /\ nodeOk n2
            /\ node.endianness n1 = node.endianness n2
            /\ node.nullTerminated n1 = node.nullTerminated n2).
  { destruct p1 as [n1|], p2 as [n2|], f as [fld|]; try contradiction.
    - destruct Hp as [Hs [Hv [Hsf Htags]]].
      destruct (node.val n1) as [| | | | | | | | | | | |all| |] eqn:Hall; try discriminate.
      rewrite (newNode_field _ _ _ _ all Hall).
      rewrite (newNode_field _ _ _ _ all (eq_sym Hv)).
      eexists _, _, _, _. split; [reflexivity|]. split; [reflexivity|].
      split; [apply nodeOk_field, Htags|]. split; [apply nodeOk_field, Htags|].
      unfold fieldNode.
      split; [apply tagNode_endianness|apply tagNode_nullTerminated]; reflexivity.
    - rewrite !newNode_root. eexists _, _, _, _. split; [reflexivity|].
      split; [reflexivity|]. auto. }
  destruct Hnodes as [n1 [n2 [q1 [q2 [En1 [En2 [Hs1 [Hs2 [He Hn]]]]]]]]].
  pose proof (newNode_val _ _ _ _ _ _ En1) as [Hval1 _].
  pose proof (newNode_val _ _ _ _ _ _ En2) as [Hval2 _].
  unfold walk. rewrite En1, En2. cbn [mbind outcome_bind].
  assert (Hsv1 : node.set_val x n1 = n1) by (rewrite <- Hval1; apply set_val_id).
  assert (Hsv2 : node.set_val x n2 = n2) by (rewrite <- Hval2; apply set_val_id).
  rewrite Hsv1, Hsv2.
  destruct (isStruct x) eqn:Hstruct.
  - destruct x as [| | | | | | | | | | | |fields| |]; try discriminate.
    destruct (fieldLoop_kept o fields fields 0%nat n1 n2 s)
      as [s' [e [n1' [n2' [E1 [E2 [Hv1 Hv2]]]]]]]; try assumption; try reflexivity.
    + rewrite (newNode_sizeFroms _ _ _ _ _ _ En1), (newNode_sizeFroms _ _ _ _ _ _ En2).
      reflexivity.
    + rewrite E1, E2. cbn. rewrite Hv1, Hv2. eexists _, _, _, _. split; reflexivity.
  - assert (Hwalk : forall (n : node.t) (q : option node.t),
              match x with
              | VStruct fields =>
                  '(n0, s0, err) ← fieldLoop (runVisitorInternal (visit o))
                                     fields 0%nat n s;
                  Return (node.val n0, q, s0, err)
              | _ =>
                  if isLeafKind (Kind_of x) then
                    '(val', s0, err) ← visit o n s; Return (val', q, s0, err)
                  else Return (x, q, s, Some (unsupportedType (Kind_of x)))
              end
              = if isLeafKind (Kind_of x) then
                  '(val', s0, err) ← visit o n s; Return (val', q, s0, err)
                else Return (x, q, s, Some (unsupportedType (Kind_of x))))
      by (intros; destruct x; try discriminate; reflexivity).
    rewrite !Hwalk. destruct (isLeafKind (Kind_of x)).
    + destruct (visit_kept o n1 n2 s) as [s' [e [E1 E2]]]; try assumption.
      * congruence.
      * rewrite Hval1. destruct x; try exact IH; constructor.
      * rewrite E1, E2. cbn. rewrite Hval1. eexists _, _, _, _. split; reflexivity.
    + eexists _, _, _, _. split; reflexivity.
Qed.

Lemma keptWalk_keptAt v : keptWalk visit tagsOk (nodeVal v) -> keptAt visit tagsOk v.
Proof.
  intros Hwalk o c1 c2 p1 p2 f s Hp. rewrite !runVisitorInternal_walk.
  destruct (Hwalk o (walkCanSet v c1) (walkCanSet v c2) p1 p2 f s Hp)
    as [s' [e [p1' [p2' [-> ->]]]]].
  cbn. rewrite rewrap_nodeVal. eexists _, _, _, _. split; reflexivity.
Qed.

Lemma tagsAll_kept v :
  tagsAll tagsOk v = true -> keptWalk visit tagsOk v /\ keptAt visit tagsOk v.
Proof.
  induction v as [v IH] using Value_children_ind. intros Hno.
  assert (Hwalk : keptWalk visit tagsOk v).
  { apply walk_kept.
    destruct v as [| | | | | | | | |zero elems|zero elems| |fields| |]; try exact I.
    - simpl in IH, Hno. inversion IH as [|? ? _ Hel]; subst.
      apply Forall_forall. intros x Hin. rewrite Forall_forall in Hel.
      rewrite forallb_forall in Hno.
      apply (Hel x Hin), Hno, (proj1 (list_elem_of_In _ _)), Hin.
    - simpl in IH, Hno. inversion IH as [|? ? _ Hel]; subst.
      apply Forall_forall. intros x Hin. rewrite Forall_forall in Hel.
      rewrite forallb_forall in Hno.
      apply (Hel x Hin), Hno, (proj1 (list_elem_of_In _ _)), Hin.
    - simpl in IH, Hno. apply (proj1 (List.Forall_map snd _ fields)) in IH.
      apply Forall_forall. intros [[nm tags] y] Hin.
      rewrite Forall_forall in IH. rewrite forallb_forall in Hno.
      specialize (Hno _ (proj1 (list_elem_of_In _ _) Hin)).
      apply andb_true_iff in Hno as [Ht Hy].
      split; [exact Ht|]. apply (IH _ Hin), Hy. }
  split; [exact Hwalk|]. apply keptWalk_keptAt.
  destruct v as [| | | | | | | | | | | | |[x|]|]; try exact Hwalk.
  - simpl in IH, Hno |- *. inversion IH as [|? ? Hx _]; subst. apply Hx, Hno.
  - simpl. apply walk_kept. exact I.
Qed.
End Kept.

(** *** [Encode] without [sizeof] directives *)

Lemma encodeVisitor_kept {W : Type} `{io.Writer W} o n1 n2 (w : W) :
  node.val n1 = node.val n2 ->
  node.sizeof n1 = VInvalid -> node.sizeof n2 = VInvalid ->
  node.endianness n1 = node.endianness n2 ->
  node.nullTerminated n1 = node.nullTerminated n2 ->
  Forall (keptAt (fun o => encodeVisitor_visit encode o)
            (fun tags => negb (hasSizeof tags))) (elements (node.val n1)) ->
  exists w' e,
    encodeVisitor_visit encode o n1 w = Return (node.val n1, w', e)
    /\ encodeVisitor_visit encode o n2 w = Return (node.val n1, w', e).
Proof.
  intros Hv Hs1 Hs2 He Hn Hel. unfold encodeVisitor_visit, setLength.
  rewrite Hs1, Hs2, <- Hv, <- He, <- Hn. cbn [IsValid mbind outcome_bind].
  assert (Helems : forall c1 c2, exists w' e,
              eachIndex (fun x w => encode x c1 (default o (node.endianness n1)) w)
                (elements (node.val n1)) w = Return (elements (node.val n1), w', e)
              /\ eachIndex (fun x w => encode x c2 (default o (node.endianness n1)) w)
                   (elements (node.val n1)) w = Return (elements (node.val n1), w', e)).
  { intros c1 c2. apply eachIndex_kept.
    eapply Forall_impl; [exact Hel|]. intros x Hx w0.
    destruct (Hx (default o (node.endianness n1)) c1 c2 None None None w0 I)
      as [w' [e [p1' [p2' [E1 E2]]]]].
    exists w', e. rewrite !encode_eq. unfold runVisitor. rewrite E1, E2. auto. }
  destruct (node.val n1) as [| |[]|[]| | | | | |zero elems|zero elems| | | |];
    cbn [Int_ Uint_ mbind outcome_bind]; try (eexists _, _; split; reflexivity).
  - destruct (Helems (Index_CanSet (VArray zero elems) (node.canSet n1))
                (Index_CanSet (VArray zero elems) (node.canSet n2)))
      as [w' [e [E1 E2]]].
    cbn [elements] in E1, E2. rewrite E1, E2.
    eexists _, _; split; reflexivity.
  - destruct (Helems (Index_CanSet (VSlice zero elems) (node.canSet n1))
                (Index_CanSet (VSlice zero elems) (node.canSet n2)))
      as [w' [e [E1 E2]]].
    cbn [elements] in E1, E2. rewrite E1, E2.
    eexists _, _; split; reflexivity.
  - destruct (node.nullTerminated n1); eexists _, _; split; reflexivity.
Qed.

(** [Encode] needs a pointer only for the [sizeof] directives.  On a
    value none of whose fields carries one, [Encode] does not panic,
    leaves the value as it is, and writes the same bytes and returns
    the same error whether it is given the value or a pointer to it. *)
Theorem Encode_without_sizeof (v : Value) (o : binary.ByteOrder)
    (W : Type) (HW : io.Writer W) (w : W) :
  noSizeof v = true -> Kind_of v <> Ptr ->
  exists w' e,
    EncodeWithOrder w v o = Return (v, w', e)
    /\ EncodeWithOrder w (addressOf v) o = Return (addressOf v, w', e).
Proof.
  intros Hno Hk. unfold EncodeWithOrder. rewrite !encode_eq. unfold runVisitor, addressOf.
  rewrite !runVisitorInternal_walk. cbn [nodeVal walkCanSet rewrap].
  assert (Hv : nodeVal v = v /\ walkCanSet v false = false /\ forall y, rewrap v y = y)
    by (destruct v; try contradiction; auto).
  destruct Hv as [-> [-> Hrw]].
  destruct (proj1 (tagsAll_kept (fun o => encodeVisitor_visit encode o)
                     (fun tags => negb (hasSizeof tags))
                     (fun n => node.sizeof n = VInvalid)
                     (fun _ _ => eq_refl)
                     (fun all pn nm tags val c Ht =>
                        eq_trans (tagNode_sizeof_none all tags _
                                    (proj1 (negb_true_iff _) Ht)) eq_refl)
                     (fun o n1 n2 s Hv H1 H2 => encodeVisitor_kept o n1 n2 s Hv H1 H2)
                     v Hno) o false true None None None w I)
    as [w' [e [p1' [p2' [-> ->]]]]].
  cbn. rewrite Hrw. eauto.
Qed.

(** At [struct {A uint8; P *struct {U16 uint16}}]: three bytes either
    way. *)
Lemma Encode_without_sizeof_witness :
  exists w' e,
    EncodeWithOrder (W:=bytes.Buffer) [] WithPointer binary.BigEndian
    = Return (WithPointer, w', e)
    /\ EncodeWithOrder (W:=bytes.Buffer) [] (addressOf WithPointer) binary.BigEndian
       = Return (addressOf WithPointer, w', e).
Proof.
  apply (Encode_without_sizeof WithPointer binary.BigEndian bytes.Buffer _ []);
    [reflexivity|discriminate].
Defined.

(** *** [Sizeof] *)

Lemma sizeofVisitor_kept n1 n2 size :
  node.val n1 = node.val n2 ->
  node.nullTerminated n1 = node.nullTerminated n2 ->
  Forall (keptAt (fun _ : unit => sizeofVisitor_visit sizeof) (fun _ => true))
    (elements (node.val n1)) ->
  exists size' e,
    sizeofVisitor_visit sizeof n1 size = Return (node.val n1, size', e)
    /\ sizeofVisitor_visit sizeof n2 size = Return (node.val n1, size', e).
Proof.
  intros Hv Hn Hel. unfold sizeofVisitor_visit. rewrite <- Hv, <- Hn.
  assert (Hsize : forall x c1 c2, x ∈ elements (node.val n1) ->
            exists r, sizeof x c1 = Return r /\ sizeof x c2 = Return r).
  { intros x c1 c2 Hin. rewrite Forall_forall in Hel.
    destruct (Hel x Hin tt c1 c2 None None None 0 I) as [s' [e [p1' [p2' [E1 E2]]]]].
    rewrite !sizeof_eq. unfold runVisitor. rewrite E1, E2. cbn.
    destruct e; eauto. }
  destruct (node.val n1) as [| |[]|[]| | | | | |zero elems|zero elems| | | |];
    try (eexists _, _; split; reflexivity).
  - destruct elems as [|first elems]; [eexists _, _; split; reflexivity|].
    case_bool_decide.
    + match goal with
      | |- exists _ _, (eachIndex ?g1 ?l ?s0 ≫= _) = _ /\ (eachIndex ?g2 _ _ ≫= _) = _ =>
          destruct (eachIndex_kept g1 g2 l) with (s := s0) as [s' [e [E1 E2]]];
            [|rewrite E1, E2; cbn; eauto]
      end.
      apply Forall_forall. intros x Hin s.
      destruct (Hsize x (Index_CanSet (VArray zero (first :: elems)) (node.canSet n1))
                  (Index_CanSet (VArray zero (first :: elems)) (node.canSet n2)) Hin)
        as [[isize [err|]] [-> ->]]; cbn; eauto.
    + destruct (Hsize first (Index_CanSet (VArray zero (first :: elems)) (node.canSet n1))
                  (Index_CanSet (VArray zero (first :: elems)) (node.canSet n2)))
        as [[isize [err|]] [-> ->]]; [left| |]; cbn; eauto.
  - destruct elems as [|first elems]; [eexists _, _; split; reflexivity|].
    case_bool_decide.
    + match goal with
      | |- exists _ _, (eachIndex ?g1 ?l ?s0 ≫= _) = _ /\ (eachIndex ?g2 _ _ ≫= _) = _ =>
          destruct (eachIndex_kept g1 g2 l) with (s := s0) as [s' [e [E1 E2]]];
            [|rewrite E1, E2; cbn; eauto]
      end.
      apply Forall_forall. intros x Hin s.
      destruct (Hsize x (Index_CanSet (VSlice zero (first :: elems)) (node.canSet n1))
                  (Index_CanSet (VSlice zero (first :: elems)) (node.canSet n2)) Hin)
        as [[isize [err|]] [-> ->]]; cbn; eauto.
    + destruct (Hsize first (Index_CanSet (VSlice zero (first :: elems)) (node.canSet n1))
                  (Index_CanSet (VSlice zero (first :: elems)) (node.canSet n2)))
        as [[isize [err|]] [-> ->]]; [left| |]; cbn; eauto.
  - destruct (node.nullTerminated n1); eexists _, _; split; reflexivity.
Qed.

Lemma tagsAll_true v : tagsAll (fun _ => true) v = true.
Proof.
  induction v as [v IH] using Value_children_ind.
  destruct v as [| | | | | | | | |zero elems|zero elems| |fields|[x|]|];
    try reflexivity; simpl in IH |- *.
  - inversion IH as [|? ? _ Hel]; subst. apply forallb_forall. intros x Hin.
    rewrite Forall_forall in Hel. apply Hel, list_elem_of_In, Hin.
  - inversion IH as [|? ? _ Hel]; subst. apply forallb_forall. intros x Hin.
    rewrite Forall_forall in Hel. apply Hel, list_elem_of_In, Hin.
  - apply (proj1 (List.Forall_map snd _ fields)) in IH.
    apply forallb_forall. intros f Hin. rewrite Forall_forall in IH.
    apply (IH f), list_elem_of_In, Hin.
  - inversion IH; subst. assumption.
Qed.

(** [Sizeof] does not panic, whatever it is given, and it needs no
    pointer: a value that is not a pointer and a pointer to it have the
    same size, or are refused with the same error. *)
Theorem Sizeof_never_panics (v : Value) :
  exists size e,
    Sizeof v = Return (size, e)
    /\ (Kind_of v <> Ptr -> Sizeof (addressOf v) = Return (size, e)).
Proof.
  pose proof (tagsAll_kept (fun _ : unit => sizeofVisitor_visit sizeof) (fun _ => true)
                (fun _ => True) (fun _ _ => I) (fun _ _ _ _ _ _ _ => I)
                (fun _ n1 n2 s Hv _ _ _ Hn Hel => sizeofVisitor_kept n1 n2 s Hv Hn Hel))
    as Hkept.
  destruct (proj2 (Hkept v (tagsAll_true v)) tt false false None None None 0 I)
    as [s' [e [p1' [_ [E _]]]]].
  exists (match e with Some _ => -1 | None => s' end), e. split.
  - unfold Sizeof. rewrite sizeof_eq. unfold runVisitor. rewrite E.
    destruct e; reflexivity.
  - intros Hk.
    assert (Hv : nodeVal v = v /\ walkCanSet v false = false /\ forall y, rewrap v y = y)
      by (destruct v; try contradiction; auto).
    destruct Hv as [Hnv [Hwc Hrw]].
    rewrite runVisitorInternal_walk, Hnv, Hwc in E.
    destruct (proj1 (Hkept v (tagsAll_true v)) tt false true None None None 0 I)
      as [s2 [e2 [q1 [q2 [E1 E2]]]]].
    rewrite E1 in E. cbn in E. rewrite Hrw in E. injection E as <- <- <-.
    unfold Sizeof, addressOf. rewrite sizeof_eq. unfold runVisitor.
    rewrite runVisitorInternal_walk. cbn [nodeVal walkCanSet rewrap].
    rewrite E2. destruct e2; reflexivity.
Qed.

(** At [struct {A uint8; P *struct {U16 uint16}}], with and without a
    pointer to it. *)
Lemma Sizeof_never_panics_witness :
  exists size e,
    Sizeof WithPointer = Return (size, e)
    /\ Sizeof (addressOf WithPointer) = Return (size, e).
Proof.
  destruct (Sizeof_never_panics WithPointer) as [size [e [E1 E2]]].
  exists size, e. split; [exact E1|apply E2; discriminate].
Defined.

(** ** Values that [Sizeof] measures right *)

Lemma int_mod a : int a mod 2 ^ 64 = a mod 2 ^ 64.
Proof.
  unfold int, intN. rewrite Zminus_mod_idemp_l. f_equal. lia.
Qed.

Lemma int_cong a b : a mod 2 ^ 64 = b mod 2 ^ 64 -> int a = int b.
Proof.
  intros Hab. unfold int. rewrite <- (intN_uintN 64 a), <- (intN_uintN 64 b) by lia.
  unfold uintN. rewrite Hab. reflexivity.
Qed.

Lemma int_add_r a b : int (a + int b) = int (a + b).
Proof.
  apply int_cong. rewrite <- Z.add_mod_idemp_r, int_mod, Z.add_mod_idemp_r by lia.
  reflexivity.
Qed.

Lemma int_add_l a b : int (int a + b) = int (a + b).
Proof. rewrite (Z.add_comm (int a)), int_add_r, Z.add_comm. reflexivity. Qed.

Lemma int_mul_r a b : int (a * int b) = int (a * b).
Proof.
  apply int_cong. rewrite <- Z.mul_mod_idemp_r, int_mod, Z.mul_mod_idemp_r by lia.
  reflexivity.
Qed.

Lemma write_buffer (w p : bytes.Buffer) : write_ w p = w ++ p.
Proof. reflexivity. Qed.

Lemma eachIndex_fixed (g : Value -> bytes.Buffer -> outcome (visited bytes.Buffer))
    t elems :
  Forall (fun x => forall w x' w',
              g x w = Return (x', w', None) ->
              exists bs, w' = w ++ bs /\ Z.of_nat (length bs) = t) elems ->
  forall w l w',
    eachIndex g elems w = Return (l, w', None) ->
    exists bs, w' = w ++ bs /\ Z.of_nat (length bs) = Z.of_nat (length elems) * t.
Proof.
  induction 1 as [|x elems Hx _ IH]; intros w l w' Hrun.
  - injection Hrun as <- <-. exists []. rewrite app_nil_r. auto.
  - cbn [eachIndex] in Hrun.
    destruct (g x w) as [[[x1 w1] e1]|] eqn:E; [|discriminate]. simpl in Hrun.
    destruct e1 as [e1|]; [discriminate|].
    destruct (eachIndex g elems w1) as [[[l2 w2] e2]|] eqn:E2; [|discriminate].
    simpl in Hrun. injection Hrun as <- <- ->.
    destruct (Hx _ _ _ E) as [bs1 [-> H1]].
    destruct (IH _ _ _ E2) as [bs2 [-> H2]].
    exists (bs1 ++ bs2). rewrite app_assoc. split; [reflexivity|].
    rewrite length_app. simpl length. lia.
Qed.

(** The bytes that the encoder writes for a value of a type of fixed
    size are as many as the type has. *)
Lemma fixed_length e : forall zero t c o (w : bytes.Buffer) e' w',
  typeSize zero = Some t ->
  measured e = true -> Zero e = zero ->
  encode e c o w = Return (e', w', None) ->
  exists bs, w' = w ++ bs /\ Z.of_nat (length bs) = t.
Proof.
  induction e as [e IH] using Value_children_ind.
  intros zero t c o w e' w' Ht Hm Hz Henc.
  rewrite encode_eq in Henc. unfold runVisitor in Henc.
  rewrite runVisitorInternal_walk in Henc.
  destruct e as [| |wd i|wd u| |b|b| | |z elems| | | | |]; subst zero;
    try discriminate; cbn in Ht, Hm.
  - rewrite Hm in Ht. injection Ht as <-.
    destruct wd; try discriminate; cbn in Henc; injection Henc as <- <-;
      rewrite ?write_buffer; eexists; (split; [reflexivity|]);
      unfold binary.PutUint16, binary.PutUint32, binary.PutUint64;
      rewrite ?put_length; reflexivity.
  - rewrite Hm in Ht. injection Ht as <-.
    destruct wd; try discriminate; cbn in Henc; injection Henc as <- <-;
      rewrite ?write_buffer; eexists; (split; [reflexivity|]);
      unfold binary.PutUint16, binary.PutUint32, binary.PutUint64;
      rewrite ?put_length; reflexivity.
  - injection Ht as <-. cbn in Henc. injection Henc as <- <-.
    rewrite ?write_buffer. eexists. split; [reflexivity|].
    unfold binary.PutUint32. rewrite put_length. reflexivity.
  - injection Ht as <-. cbn in Henc. injection Henc as <- <-.
    rewrite ?write_buffer. eexists. split; [reflexivity|].
    unfold binary.PutUint64. rewrite put_length. reflexivity.
  - destruct (typeSize z) as [tz|] eqn:Hz; [|discriminate]. injection Ht as <-.
    rewrite length_replicate.
    cbn [nodeVal walkCanSet rewrap] in Henc. unfold walk in Henc.
    rewrite newNode_root in Henc. cbn [mbind outcome_bind isLeafKind Kind_of] in Henc.
    unfold encodeVisitor_visit, setLength in Henc.
    cbn [node.set_val rootNode node.val node.sizeof IsValid mbind outcome_bind
         node.endianness node.canSet default] in Henc.
    apply andb_true_iff in Hm as [Hm _].
    simpl in IH. inversion IH as [|? ? _ Hel]; subst.
    destruct (eachIndex _ elems w) as [[[l w1] e1]|] eqn:E; [|discriminate].
    cbn in Henc. injection Henc as <- <- ->.
    apply (eachIndex_fixed _ tz) in E; [exact E|].
    apply Forall_forall. intros x Hin w0 x' w0' Hx.
    rewrite Forall_forall in Hel. rewrite forallb_forall in Hm.
    specialize (Hm x (proj1 (list_elem_of_In _ _) Hin)).
    apply andb_true_iff in Hm as [Hmx Hzx]. apply Value_eqb_eq in Hzx.
    apply (Hel x Hin z tz _ _ _ _ _ Hz Hmx Hzx Hx).
Qed.

Lemma int_int a : int (int a) = int a.
Proof. apply intN_idem. lia. Qed.

(** What [sizeof] returns for an element that the encoder walked
    without an error. *)
Lemma sizeof_measured x c o (w : bytes.Buffer) x' w' :
  measuredAt x ->
  encode x c o w = Return (x', w', None) ->
  exists bs, w' = w ++ bs
             /\ forall cs, sizeof x cs = Return (int (Z.of_nat (length bs)), None).
Proof.
  intros Hx Henc. rewrite encode_eq in Henc. unfold runVisitor in Henc.
  destruct (runVisitorInternal _ x c None None w) as [[[[y p1] w1] e1]|] eqn:E;
    [|discriminate].
  cbn in Henc. injection Henc as <- <- ->.
  destruct (Hx c false o None None None w 0 _ _ _ I eq_refl E) as [bs [ps' [-> Hs]]].
  exists bs. split; [reflexivity|]. intros cs.
  destruct (Hx c cs o None None None w 0 _ _ _ I eq_refl E) as [bs' [ps'' [Hbs Hs']]].
  apply app_inv_head in Hbs. subst bs'.
  rewrite sizeof_eq. unfold runVisitor. rewrite Hs'. reflexivity.
Qed.

(** The path of [sizeofVisitor.visit] that measures every element. *)
Lemma eachIndex_measured c o elems :
  Forall measuredAt elems ->
  forall (w : bytes.Buffer) l w',
    eachIndex (fun x wr => encode x c o wr) elems w = Return (l, w', None) ->
    exists bs, w' = w ++ bs
      /\ forall cs (gs : Value -> Z -> outcome (visited Z)) size,
           (forall x size,
               gs x size = '(isize, err) ← sizeof x cs;
                           match err with
                           | Some e => Return (x, size, Some e)
                           | None => Return (x, int (size + isize), None)
                           end) ->
           int size = size ->
           eachIndex gs elems size
           = Return (elems, int (size + Z.of_nat (length bs)), None).
Proof.
  induction 1 as [|x elems Hx _ IH]; intros w l w' Hrun.
  - injection Hrun as <- <-. exists []. rewrite app_nil_r. split; [reflexivity|].
    intros cs gs size _ Hsize. cbn. rewrite Z.add_0_r, Hsize. reflexivity.
  - cbn [eachIndex] in Hrun.
    destruct (encode x c o w) as [[[x1 w1] e1]|] eqn:E; [|discriminate].
    simpl in Hrun. destruct e1 as [e1|]; [discriminate|].
    destruct (eachIndex _ elems w1) as [[[l2 w2] e2]|] eqn:E2; [|discriminate].
    simpl in Hrun. injection Hrun as <- <- ->.
    destruct (sizeof_measured x c o w _ _ Hx E) as [bs1 [-> Hs1]].
    destruct (IH _ _ _ E2) as [bs2 [-> Hs2]].
    exists (bs1 ++ bs2). rewrite app_assoc. split; [reflexivity|].
    intros cs gs size Hgs Hsize. cbn [eachIndex].
    rewrite Hgs, Hs1. cbn.
    rewrite (Hs2 cs gs _ Hgs (int_int _)). cbn.
    rewrite int_add_l.
    replace (size + int (Z.of_nat (length bs1)) + Z.of_nat (length bs2))
      with (size + Z.of_nat (length bs2) + int (Z.of_nat (length bs1))) by lia.
    rewrite int_add_r, length_app.
    replace (size + Z.of_nat (length bs2) + Z.of_nat (length bs1))
      with (size + Z.of_nat (length bs1 + length bs2)) by lia.
    reflexivity.
Qed.

(** The two paths of [sizeofVisitor.visit] for an array or slice
    with the elements [elems], [val] being the array or slice. *)
Lemma measured_elements zero elems c o (w : bytes.Buffer) l w' :
  forallb (fun e => measured e && Value_eqb (Zero e) zero) elems
  && (isStruct zero || bool_decide (is_Some (typeSize zero))) = true ->
  Forall measuredAt elems ->
  eachIndex (fun x wr => encode x c o wr) elems w = Return (l, w', None) ->
  exists bs, w' = w ++ bs
    /\ forall (val : Value) cs size, int size = size ->
         match elems with
         | [] => Return (val, size, None)
         | first :: _ =>
             if bool_decide (Kind_of zero = Struct) then
               '(_, size, err) ←
                 eachIndex (fun x size =>
                              '(isize, err) ← sizeof x cs;
                              match err with
                              | Some e => Return (x, size, Some e)
                              | None => Return (x, int (size + isize), None)
                              end) elems size;
               Return (val, size, err)
             else
               '(isize, err) ← sizeof first cs;
               match err with
               | Some e => Return (val, size, Some e)
               | None =>
                   Return (val, int (size + int (Z.of_nat (length elems) * isize)), None)
               end
         end = Return (val, int (size + Z.of_nat (length bs)), None).
Proof.
  intros Hm Hel Hrun. apply andb_true_iff in Hm as [Htyped Hkind].
  destruct (eachIndex_measured c o elems Hel w l w' Hrun) as [bs [-> Hslow]].
  exists bs. split; [reflexivity|]. intros val cs size Hsize.
  destruct elems as [|first rest].
  - cbn in Hrun. injection Hrun as _ Hw.
    assert (bs = []) as ->
      by (apply (app_inv_head w); rewrite app_nil_r; symmetry; exact Hw).
    cbn. rewrite Z.add_0_r, Hsize. reflexivity.
  - destruct (bool_decide (Kind_of zero = Struct)) eqn:Hk.
    + rewrite (Hslow cs _ size (fun _ _ => eq_refl) Hsize). reflexivity.
    + apply bool_decide_eq_false in Hk.
      assert (Hns : isStruct zero = false) by (destruct zero; try reflexivity; contradiction).
      rewrite Hns in Hkind. cbn in Hkind. apply bool_decide_eq_true in Hkind as [t Ht].
      assert (Hfixed : Forall (fun x => forall (w : bytes.Buffer) x' w',
                          encode x c o w = Return (x', w', None) ->
                          exists bs, w' = w ++ bs /\ Z.of_nat (length bs) = t)
                         (first :: rest)).
      { apply Forall_forall. intros x Hin w0 x' w0' Hx.
        rewrite forallb_forall in Htyped.
        specialize (Htyped x (proj1 (list_elem_of_In _ _) Hin)).
        apply andb_true_iff in Htyped as [Hmx Hzx]. apply Value_eqb_eq in Hzx.
        apply (fixed_length x zero t _ _ _ _ _ Ht Hmx Hzx Hx). }
      destruct (eachIndex_fixed _ t _ Hfixed _ _ _ Hrun) as [bs' [Hbs' Hlen]].
      apply app_inv_head in Hbs'. subst bs'.
      cbn [eachIndex] in Hrun.
      destruct (encode first c o w) as [[[x1 w1] e1]|] eqn:E1; [|discriminate].
      simpl in Hrun. destruct e1 as [e1|]; [discriminate|].
      inversion Hel as [|? ? Hfirst _]; subst.
      destruct (sizeof_measured first c o w _ _ Hfirst E1) as [bs1 [-> Hs1]].
      inversion Hfixed as [|? ? Hf1 _]; subst.
      destruct (Hf1 _ _ _ E1) as [bs1' [Hbs1 Hlen1]].
      apply app_inv_head in Hbs1. subst bs1'.
      rewrite Hs1. cbn [mbind outcome_bind].
      rewrite Hlen1, Hlen, int_mul_r, int_add_r. reflexivity.
Qed.

(** The visitors at a leaf. *)
Lemma measured_visit o n (w : bytes.Buffer) v' w' :
  measured (node.val n) = true ->
  Forall measuredAt (elements (node.val n)) ->
  encodeVisitor_visit encode o n w = Return (v', w', None) ->
  exists bs,
    w' = w ++ bs
    /\ forall ns size,
         node.val ns = node.val n ->
         node.nullTerminated ns = node.nullTerminated n ->
         int size = size ->
         sizeofVisitor_visit sizeof ns size
         = Return (node.val n, int (size + Z.of_nat (length bs)), None).
Proof.
  intros Hm Hel Henc. unfold encodeVisitor_visit in Henc.
  destruct (setLength n) as [val|]; [|discriminate]. cbn [mbind outcome_bind] in Henc.
  unfold sizeofVisitor_visit.
  destruct (node.val n) as [| |[]|[]| |b|b| | |zero elems|zero elems|s| | |] eqn:Hval;
    try discriminate;
    try (destruct (Int_ val) as [i0|]; [|discriminate]; cbn in Henc;
         injection Henc as <- <-; eexists; (split; [reflexivity|]);
         intros ns size Hns _ _; rewrite Hns;
         unfold binary.PutUint16, binary.PutUint32, binary.PutUint64;
         rewrite ?length_app, ?put_length; reflexivity);
    try (destruct (Uint_ val) as [u0|]; [|discriminate]; cbn in Henc;
         injection Henc as <- <-; eexists; (split; [reflexivity|]);
         intros ns size Hns _ _; rewrite Hns;
         unfold binary.PutUint16, binary.PutUint32, binary.PutUint64;
         rewrite ?length_app, ?put_length; reflexivity);
    try (cbn in Henc; injection Henc as <- <-; eexists; (split; [reflexivity|]);
         intros ns size Hns _ _; rewrite Hns;
         unfold binary.PutUint16, binary.PutUint32, binary.PutUint64;
         rewrite ?length_app, ?put_length; reflexivity).
  - destruct (eachIndex _ elems w) as [[[l w1] e1]|] eqn:E; [|discriminate].
    cbn in Henc. injection Henc as <- <- ->.
    destruct (measured_elements zero elems _ _ w l w1 Hm Hel E) as [bs [-> Hsz]].
    exists bs. split; [reflexivity|]. intros ns size Hns _ Hsize. rewrite Hns.
    apply (Hsz (VArray zero elems) _ size Hsize).
  - destruct (eachIndex _ elems w) as [[[l w1] e1]|] eqn:E; [|discriminate].
    cbn in Henc. injection Henc as <- <- ->.
    destruct (measured_elements zero elems _ _ w l w1 Hm Hel E) as [bs [-> Hsz]].
    exists bs. split; [reflexivity|]. intros ns size Hns _ Hsize. rewrite Hns.
    apply (Hsz (VSlice zero elems) _ size Hsize).
  - destruct (node.nullTerminated n) eqn:Hnt.
    + cbn in Henc. injection Henc as <- <-. exists (s ++ [x00]).
      rewrite app_assoc. split; [reflexivity|]. intros ns size Hns -> _. rewrite Hns.
      rewrite int_add_r, length_app. simpl length.
      replace (Z.of_nat (length s + 1)) with (Z.of_nat (length s) + 1) by lia.
      reflexivity.
    + cbn in Henc. injection Henc as <- <-. exists s. split; [reflexivity|].
      intros ns size Hns -> _. rewrite Hns. reflexivity.
Qed.

(** The loop over the fields of a struct, in the encoder and in the
    measuring visitor. *)
Lemma fieldLoop_measured o all rest : forall i ne ns (w : bytes.Buffer) size ne' w',
  Forall (fun f => measuredAt f.2) rest ->
  drop i all = rest ->
  isStruct (node.val ne) = true -> node.val ns = VStruct all ->
  int size = size ->
  fieldLoop (runVisitorInternal (encodeVisitor_visit encode o)) rest i ne w
  = Return (ne', w', None) ->
  exists bs ns',
    w' = w ++ bs
    /\ fieldLoop (runVisitorInternal (sizeofVisitor_visit sizeof)) rest i ns size
       = Return (ns', int (size + Z.of_nat (length bs)), None)
    /\ node.val ns' = VStruct all.
Proof.
  induction rest as [|[fld x] rest IH]; intros i ne ns w size ne' w' Hrest Hdrop He Hs
    Hsize Hrun.
  - injection Hrun as <- <-. exists [], ns. rewrite app_nil_r. cbn.
    rewrite Z.add_0_r, Hsize. auto.
  - inversion Hrest as [|? ? Hx Hrest']; subst. cbn [snd] in Hx.
    cbn [fieldLoop] in Hrun |- *.
    destruct (runVisitorInternal _ x (node.canSet ne) (Some ne) (Some (Field_of i fld)) w)
      as [[[[x1 p1] w1] e1]|] eqn:E; [|discriminate].
    cbn [mbind outcome_bind] in Hrun. destruct e1 as [e1|]; [discriminate|].
    destruct (node.val ne) as [| | | | | | | | | | | |alle| |] eqn:Halle; try discriminate.
    pose proof (run_field_parent _ _ _ _ _ alle _ _ _ _ _ Halle E) as ->.
    assert (Hp : bothStructs (Some ne) (Some ns) (Some (Field_of i fld)))
      by (cbn; rewrite Halle, Hs; auto).
    destruct (Hx _ (node.canSet ns) _ _ _ _ _ size _ _ _ Hp Hsize E)
      as [bs1 [ps' [-> Hsz]]].
    rewrite Hsz. cbn [mbind outcome_bind].
    pose proof (run_field_parent _ _ _ _ _ all _ _ _ _ _ Hs Hsz) as ->.
    cbn [default] in Hrun |- *.
    assert (Hi : all !! i = Some (fld, x))
      by (rewrite <- (Nat.add_0_r i), <- lookup_drop, Hdrop; reflexivity).
    set (ns1 := storeField i x _) in *.
    assert (Hs1 : node.val ns1 = VStruct all)
      by (apply (storeField_same _ _ _ all fld); [exact Hs|exact Hi]).
    assert (Hd1 : drop (S i) all = rest)
      by (rewrite <- (Nat.add_1_r i), <- drop_drop, Hdrop; reflexivity).
    match type of Hrun with
    | fieldLoop _ _ _ ?m _ = _ =>
        assert (He1 : isStruct (node.val m) = true)
          by (rewrite storeField_struct; cbn; rewrite Halle; reflexivity)
    end.
    destruct (IH (S i) _ ns1 _ (int (size + Z.of_nat (length bs1))) _ _
                Hrest' Hd1 He1 Hs1 (int_int _) Hrun) as [bs2 [ns' [-> [Hloop Hval]]]].
    exists (bs1 ++ bs2), ns'. rewrite app_assoc. split; [reflexivity|].
    split; [|exact Hval]. rewrite Hloop, int_add_l, length_app.
    replace (size + Z.of_nat (length bs1) + Z.of_nat (length bs2))
      with (size + Z.of_nat (length bs1 + length bs2)) by lia.
    reflexivity.
Qed.

Lemma walk_measured x :
  measured x = true ->
  match x with
  | VStruct fields => Forall (fun f => measuredAt f.2) fields
  | _ => Forall measuredAt (elements x)
  end ->
  measuredWalk x.
Proof.
  intros Hm IH c cs o pe ps f w size v' pe' w' Hp Hsize Hrun.
  unfold walk in Hrun |- *.
  destruct (newNode x c pe f) as [[ne qe]|] eqn:Ene; [|discriminate].
  cbn [mbind outcome_bind] in Hrun.
  assert (Hns : exists ns qs, newNode x cs ps f = Return (ns, qs)
                              /\ node.nullTerminated ns = node.nullTerminated ne).
  { destruct pe as [pne|], ps as [pns|], f as [fld|]; try contradiction.
    - destruct Hp as [Hse Hss].
      destruct (node.val pne) as [| | | | | | | | | | | |alle| |] eqn:Halle; try discriminate.
      destruct (node.val pns) as [| | | | | | | | | | | |alls| |] eqn:Halls; try discriminate.
      rewrite (newNode_field _ _ _ _ alle Halle) in Ene. injection Ene as <- _.
      rewrite (newNode_field _ _ _ _ alls Halls). eexists _, _. split; [reflexivity|].
      unfold fieldNode. apply tagNode_nullTerminated. reflexivity.
    - rewrite newNode_root in Ene |- *. injection Ene as <- _.
      eexists _, _. split; reflexivity. }
  destruct Hns as [ns [qs [Ens Hnt]]]. rewrite Ens. cbn [mbind outcome_bind].
  pose proof (newNode_val _ _ _ _ _ _ Ene) as [Hve _].
  pose proof (newNode_val _ _ _ _ _ _ Ens) as [Hvs _].
  destruct (isStruct x) eqn:Hstruct.
  - destruct x as [| | | | | | | | | | | |fields| |]; try discriminate.
    destruct (fieldLoop _ fields 0%nat _ w) as [[[ne1 w1] e1]|] eqn:El; [|discriminate].
    cbn in Hrun. injection Hrun as <- <- <- ->.
    destruct (fieldLoop_measured o fields fields 0%nat
                (node.set_val (VStruct fields) ne)
                (node.set_val (VStruct fields) ns) w size _ _ IH eq_refl eq_refl
                eq_refl Hsize El) as [bs [ns' [-> [Hloop Hval]]]].
    exists bs, qs. split; [reflexivity|]. rewrite Hloop. cbn. rewrite Hval. reflexivity.
  - assert (Hleaf : forall {St} (visit : node.t -> St -> outcome (visited St))
                      (n : node.t) (q : option node.t) (s : St),
              match x with
              | VStruct fields =>
                  '(n0, s0, err) ← fieldLoop (runVisitorInternal visit) fields 0%nat
                                     (node.set_val x n) s;
                  Return (node.val n0, q, s0, err)
              | _ =>
                  if isLeafKind (Kind_of x) then
                    '(val', s0, err) ← visit (node.set_val x n) s;
                    Return (val', q, s0, err)
                  else Return (x, q, s, Some (unsupportedType (Kind_of x)))
              end
              = if isLeafKind (Kind_of x) then
                  '(val', s0, err) ← visit (node.set_val x n) s;
                  Return (val', q, s0, err)
                else Return (x, q, s, Some (unsupportedType (Kind_of x))))
      by (intros; destruct x; try discriminate; reflexivity).
    rewrite Hleaf in Hrun |- *. destruct (isLeafKind (Kind_of x)); [|discriminate].
    destruct (encodeVisitor_visit encode o (node.set_val x ne) w)
      as [[[y w1] e1]|] eqn:Ev; [|discriminate].
    cbn in Hrun. injection Hrun as <- <- <- ->.
    apply measured_visit in Ev as [bs [-> Hsz]].
    + exists bs, qs. split; [reflexivity|].
      rewrite (Hsz (node.set_val x ns) size); [reflexivity|reflexivity|exact Hnt|exact Hsize].
    + exact Hm.
    + cbn [node.val node.set_val]. destruct x; try discriminate; exact IH.
Qed.

Lemma measuredWalk_measuredAt v : measuredWalk (nodeVal v) -> measuredAt v.
Proof.
  intros Hwalk c cs o pe ps f w size v' pe' w' Hp Hsize Hrun.
  rewrite runVisitorInternal_walk in Hrun. rewrite runVisitorInternal_walk.
  destruct (walk _ _ (nodeVal v) (walkCanSet v c) pe f w)
    as [[[[y p1] w1] e1]|] eqn:E; [|discriminate].
  cbn in Hrun. injection Hrun as <- <- <- ->.
  destruct (Hwalk (walkCanSet v c) (walkCanSet v cs) o pe ps f w size _ _ _ Hp Hsize E)
    as [bs [ps' [-> Hsz]]].
  exists bs, ps'. split; [reflexivity|]. rewrite Hsz. cbn.
  rewrite rewrap_nodeVal. reflexivity.
Qed.

(** Every measured value is measured right wherever it is walked. *)
Lemma measured_measuredAt v :
  measured v = true -> measuredWalk v /\ measuredAt v.
Proof.
  induction v as [v IH] using Value_children_ind. intros Hm.
  assert (Hwalk : measuredWalk v).
  { apply walk_measured; [exact Hm|].
    destruct v as [| | | | | | | | |zero elems|zero elems| |fields| |]; try constructor.
    - simpl in IH, Hm. inversion IH as [|? ? _ Hel]; subst.
      apply andb_true_iff in Hm as [Hty _].
      apply Forall_forall. intros y Hin. rewrite Forall_forall in Hel.
      rewrite forallb_forall in Hty.
      specialize (Hty y (proj1 (list_elem_of_In _ _) Hin)).
      apply andb_true_iff in Hty as [Hy _]. apply (Hel y Hin Hy).
    - simpl in IH, Hm. inversion IH as [|? ? _ Hel]; subst.
      apply andb_true_iff in Hm as [Hty _].
      apply Forall_forall. intros y Hin. rewrite Forall_forall in Hel.
      rewrite forallb_forall in Hty.
      specialize (Hty y (proj1 (list_elem_of_In _ _) Hin)).
      apply andb_true_iff in Hty as [Hy _]. apply (Hel y Hin Hy).
    - simpl in IH, Hm. apply (proj1 (List.Forall_map snd _ fields)) in IH.
      apply Forall_forall. intros g Hin. rewrite Forall_forall in IH.
      rewrite forallb_forall in Hm.
      apply (IH g Hin), (Hm g), (proj1 (list_elem_of_In _ _)), Hin. }
  split; [exact Hwalk|]. apply measuredWalk_measuredAt.
  destruct v as [| | | | | | | | | | | | |[x|]|]; try exact Hwalk.
  - simpl in IH, Hm |- *. inversion IH as [|? ? Hx _]; subst. apply Hx, Hm.
  - discriminate.
Qed.

(** Where [Encode] succeeds on a measured value, [Sizeof] returns the
    number of bytes written (as a Go [int]). *)
Theorem Sizeof_is_encoded_length (v v' : Value) (o : binary.ByteOrder)
    (bs : list byte) :
  measured v = true ->
  EncodeWithOrder (W:=bytes.Buffer) [] v o = Return (v', bs, None) ->
  Sizeof v = Return (int (Z.of_nat (length bs)), None).
Proof.
  intros Hm Henc. unfold EncodeWithOrder in Henc. rewrite encode_eq in Henc.
  unfold runVisitor in Henc.
  destruct (runVisitorInternal (encodeVisitor_visit encode o) v false None None
              ([] : bytes.Buffer)) as [[[[y p1] w1] e1]|] eqn:E; [|discriminate].
  cbn in Henc. injection Henc as <- <- ->.
  destruct (proj2 (measured_measuredAt v Hm) false false o None None None [] 0 _ _ _
              I eq_refl E) as [bs' [ps' [Hbs Hsz]]].
  cbn in Hbs. subst bs'.
  unfold Sizeof. rewrite sizeof_eq. unfold runVisitor. rewrite Hsz. reflexivity.
Qed.

(** At the struct of [wire_test.go]: 101 bytes. *)
Lemma Sizeof_is_encoded_length_witness :
  Sizeof (addressOf (refStruct 0 0)) = Return (int (Z.of_nat (length refBytes)), None).
Proof.
  apply (Sizeof_is_encoded_length (addressOf (refStruct 0 0)) (addressOf (refStruct 2 5))
           binary.BigEndian refBytes); reflexivity.
Defined.

(** ** What the target of [Decode] held before *)

Lemma sameDecoded_refl r : sameDecoded r r.
Proof. destruct r as [[[v s] e]|]; simpl; auto. Qed.

Lemma typed_shape v :
  typed v = true ->
  nodeVal v = v /\ nodeVal (Zero v) = Zero v
  /\ (forall c, walkCanSet v c = c) /\ (forall c, walkCanSet (Zero v) c = c)
  /\ (forall y, rewrap v y = y) /\ (forall y, rewrap (Zero v) y = y)
  /\ isStruct (Zero v) = isStruct v /\ Kind_of (Zero v) = Kind_of v.
Proof.
  destruct v as [| |[]|[]| | | | | | | | | | |[]]; simpl; intros; try discriminate;
    repeat split; reflexivity.
Qed.

(** The loop over the elements of an array. *)
Lemma eachIndex_prior (g : Value -> bytes.Buffer -> outcome (visited bytes.Buffer))
    zero elems :
  Forall (fun x => forall r, sameDecoded (g x r) (g zero r)) elems ->
  forall r,
    match eachIndex g elems r, eachIndex g (replicate (length elems) zero) r with
    | Return (l1, s1, e1), Return (l2, s2, e2) =>
        s1 = s2 /\ e1 = e2 /\ (e1 = None -> l1 = l2)
    | Panic y1, Panic y2 => y1 = y2
    | _, _ => False
    end.
Proof.
  induction 1 as [|x elems Hx _ IH]; intros r; [simpl; auto|].
  cbn [length replicate eachIndex]. specialize (Hx r).
  destruct (g x r) as [[[x1 s1] e1]|], (g zero r) as [[[x2 s2] e2]|];
    simpl in Hx |- *; try contradiction; [|exact Hx].
  destruct Hx as [-> [-> Hv]]. destruct e2 as [e2|]; [simpl; split; [|split]; auto; discriminate|].
  specialize (IH s2). rewrite (Hv eq_refl).
  destruct (eachIndex g elems s2) as [[[l1 t1] d1]|],
           (eachIndex g (replicate (length elems) zero) s2) as [[[l2 t2] d2]|];
    simpl in IH |- *; try contradiction; [|exact IH].
  destruct IH as [-> [-> Hl]]. split; [reflexivity|]. split; [reflexivity|].
  intros He. rewrite (Hl He). reflexivity.
Qed.

(** The visitor at the node of a value and at the node of the zero
    value of its type. *)
Lemma decodeVisitor_prior o n nz r :
  node.val nz = Zero (node.val n) ->
  node.canSet nz = node.canSet n ->
  node.sizeFrom nz = node.sizeFrom n ->
  node.endianness nz = node.endianness n ->
  node.nullTerminated nz = node.nullTerminated n ->
  match node.val n with
  | VArray zero elems =>
      Forall (fun x => forall c o r, sameDecoded (decode x c o r) (decode zero c o r)) elems
  | _ => True
  end ->
  sameDecoded (decodeVisitor_visit decode o n r) (decodeVisitor_visit decode o nz r).
Proof.
  intros Hv Hc Hsf He Hn Hel. unfold decodeVisitor_visit.
  rewrite Hv, Hc, Hsf, He, Hn.
  destruct (node.val n) as [| |[]|[]| | | | | |zero elems|zero elems| | | |[]];
    cbn [Zero]; try (simpl; split; [reflexivity|split; [reflexivity|discriminate]]);
    try (destruct (bytes.Read r _) as [[d err] r1];
         destruct (node.canSet n); simpl; auto; fail).
  - (* arrays *)
    pose proof (eachIndex_prior
                  (fun x reader =>
                     decode x (Index_CanSet (VArray zero elems) (node.canSet n))
                       (default o (node.endianness n)) reader) zero elems) as Hloop.
    cbn [Index_CanSet] in Hloop |- *.
    specialize (Hloop (Forall_impl _ _ _ Hel (fun x Hx r0 => Hx _ _ r0)) r).
    destruct (eachIndex _ elems r) as [[[l1 s1] e1]|],
             (eachIndex _ (replicate (length elems) zero) r) as [[[l2 s2] e2]|];
      simpl in Hloop |- *; try contradiction; [|exact Hloop].
    destruct Hloop as [-> [-> Hl]]. split; [reflexivity|]. split; [reflexivity|].
    intros Hnone. rewrite (Hl Hnone). reflexivity.
  - (* slices *)
    destruct (node.sizeFrom n) as [from|];
      [|simpl; split; [reflexivity|split; [reflexivity|discriminate]]].
    destruct (Uint_ from) as [u|]; [|reflexivity]. cbn [mbind outcome_bind].
    unfold Set_MakeSlice.
    destruct (bool_decide (int u < 0)); [reflexivity|].
    destruct (node.canSet n); [|reflexivity]. cbn [negb mbind outcome_bind].
    apply sameDecoded_refl.
  - (* strings *)
    destruct (node.nullTerminated n).
    + destruct (readNullTerminatedString r) as [[str err] r1].
      destruct (node.canSet n); simpl; auto.
    + destruct (node.sizeFrom n) as [from|]; [|reflexivity].
      destruct (Uint_ from) as [u|]; [|reflexivity]. cbn [mbind outcome_bind].
      destruct (bool_decide (2 ^ 63 <= u)); [reflexivity|].
      destruct (bytes.Read r _) as [[buf err] r1].
      destruct (node.canSet n); simpl; auto.
Qed.

Lemma zeroFields_app a b : zeroFields (a ++ b) = zeroFields a ++ zeroFields b.
Proof. apply map_app. Qed.

Lemma storeField_middle x n pre fld y rest :
  node.val n = VStruct (pre ++ (fld, y) :: rest) ->
  node.val (storeField (length pre) x n) = VStruct ((pre ++ [(fld, x)]) ++ rest).
Proof.
  intros Hn. unfold storeField. rewrite Hn. cbn [node.val node.set_val].
  rewrite alter_middle, <- app_assoc. reflexivity.
Qed.

(** The loop over the fields of a struct and of the zero value of its
    type, [pre] being the fields decoded so far. *)
Lemma fieldLoop_prior o rest : forall pre i ne nz r,
  Forall (fun f => priorAt f.2) rest ->
  length pre = i ->
  node.val ne = VStruct (pre ++ rest) ->
  node.val nz = VStruct (pre ++ zeroFields rest) ->
  node.sizeFroms nz = node.sizeFroms ne ->
  node.canSet nz = node.canSet ne ->
  registeredBelow (node.sizeFroms ne) i ->
  match fieldLoop (runVisitorInternal (decodeVisitor_visit decode o)) rest i ne r,
        fieldLoop (runVisitorInternal (decodeVisitor_visit decode o))
          (zeroFields rest) i nz r with
  | Return (ne', s1, e1), Return (nz', s2, e2) =>
      s1 = s2 /\ e1 = e2 /\ (e1 = None -> node.val ne' = node.val nz')
  | Panic y1, Panic y2 => y1 = y2
  | _, _ => False
  end.
Proof.
  induction rest as [|[fld x] rest IH]; intros pre i ne nz r Hrest Hlen He Hz Hsf Hc Hreg.
  - cbn. rewrite He, Hz. auto.
  - inversion Hrest as [|? ? Hx Hrest']; subst. cbn [snd] in Hx.
    cbn [zeroFields map fieldLoop fst snd]. fold (zeroFields rest).
    destruct (Hx (node.canSet ne) o r) as [_ Hfield].
    specialize (Hfield ne nz (Field_of (length pre) fld) _ _ He Hz Hsf Hreg).
    rewrite Hc.
    destruct (runVisitorInternal _ x (node.canSet ne) (Some ne)
                (Some (Field_of (length pre) fld)) r) as [[[[x1 p1] s1] e1]|] eqn:E1;
      destruct (runVisitorInternal _ (Zero x) (node.canSet ne) (Some nz)
                  (Some (Field_of (length pre) fld)) r) as [[[[x2 p2] s2] e2]|] eqn:E2;
      cbn in Hfield |- *.
    + pose proof (run_field_parent _ _ _ _ _ _ _ _ _ _ _ He E1) as ->.
      pose proof (run_field_parent _ _ _ _ _ _ _ _ _ _ _ Hz E2) as ->.
      destruct Hfield as [-> [-> Hv]].
      { intros j Hj. cbn [Index Field_of] in Hj.
        rewrite !lookup_app_l by lia. reflexivity. }
      destruct e2 as [e2|]; [cbn; split; [reflexivity|split; [reflexivity|discriminate]]|].
      rewrite <- (Hv eq_refl). cbn [default].
      apply (IH (pre ++ [(fld, x1)])).
      * exact Hrest'.
      * rewrite length_app. cbn. lia.
      * apply (storeField_middle _ _ _ _ x). exact He.
      * apply (storeField_middle _ _ _ _ (Zero x)). exact Hz.
      * rewrite !storeField_sizeFroms. cbn. rewrite Hsf. reflexivity.
      * rewrite !storeField_canSet. cbn. exact Hc.
      * rewrite storeField_sizeFroms. cbn [node.sizeFroms node.set_sizeFroms].
        apply tagRegister_below, Hreg.
    + exfalso. apply Hfield. intros j Hj. cbn [Index Field_of] in Hj.
      rewrite !lookup_app_l by lia. reflexivity.
    + exfalso. apply Hfield. intros j Hj. cbn [Index Field_of] in Hj.
      rewrite !lookup_app_l by lia. reflexivity.
    + apply Hfield. intros j Hj. cbn [Index Field_of] in Hj.
      rewrite !lookup_app_l by lia. reflexivity.
Qed.

Lemma registeredBelow_none i : registeredBelow None i.
Proof. intros m name j Hm. discriminate. Qed.

(** One step of the walk, when the walks below decode the same. *)
Lemma walk_prior v :
  typed v = true ->
  match v with
  | VArray zero elems => Forall priorAt elems
  | VStruct fields => Forall (fun f => priorAt f.2) fields
  | _ => True
  end ->
  priorAt v.
Proof.
  intros Ht IH c o r.
  destruct (typed_shape v Ht) as [Hnv [Hnz [Hwc [Hwz [Hrw [Hrz [Hsz Hkz]]]]]]].
  assert (Hcore : forall n nz q1 q2,
            node.val n = v -> node.val nz = Zero v ->
            node.canSet nz = node.canSet n ->
            node.sizeFrom nz = node.sizeFrom n ->
            node.endianness nz = node.endianness n ->
            node.nullTerminated nz = node.nullTerminated n ->
            node.sizeFroms n = None -> node.sizeFroms nz = None ->
            sameDecoded
              (dropParent
                 (match v with
                  | VStruct fields =>
                      '(n0, s, err) ←
                        fieldLoop (runVisitorInternal (decodeVisitor_visit decode o))
                          fields 0%nat n r;
                      Return (node.val n0, q1, s, err)
                  | _ =>
                      if isLeafKind (Kind_of v) then
                        '(val', s, err) ← decodeVisitor_visit decode o n r;
                        Return (val', q1, s, err)
                      else Return (v, q1, r, Some (unsupportedType (Kind_of v)))
                  end))
              (dropParent
                 (match Zero v with
                  | VStruct fields =>
                      '(n0, s, err) ←
                        fieldLoop (runVisitorInternal (decodeVisitor_visit decode o))
                          fields 0%nat nz r;
                      Return (node.val n0, q2, s, err)
                  | _ =>
                      if isLeafKind (Kind_of (Zero v)) then
                        '(val', s, err) ← decodeVisitor_visit decode o nz r;
                        Return (val', q2, s, err)
                      else Return (Zero v, q2, r,
                                   Some (unsupportedType (Kind_of (Zero v))))
                  end))).
  { intros n nz q1 q2 Hn Hnz' Hc Hsf He Hnt Hsn Hsnz.
    destruct (isStruct v) eqn:Hs.
    - destruct v as [| | | | | | | | | | | |fields| |]; try discriminate.
      cbn [Zero]. fold (zeroFields fields).
      pose proof (fieldLoop_prior o fields [] 0%nat n nz r IH eq_refl Hn Hnz'
                    (eq_trans Hsnz (eq_sym Hsn)) Hc) as Hloop.
      rewrite Hsn in Hloop. specialize (Hloop (registeredBelow_none 0)).
      destruct (fieldLoop _ fields 0%nat n r) as [[[n1 s1] e1]|],
               (fieldLoop _ (zeroFields fields) 0%nat nz r) as [[[n2 s2] e2]|];
        cbn in Hloop |- *; try contradiction; [|exact Hloop].
      exact Hloop.
    - assert (Hleaf : forall (u : Value) (m : node.t) (q : option node.t),
                isStruct u = false ->
                match u with
                | VStruct fields =>
                    '(n0, s, err) ←
                      fieldLoop (runVisitorInternal (decodeVisitor_visit decode o))
                        fields 0%nat m r;
                    Return (node.val n0, q, s, err)
                | _ =>
                    if isLeafKind (Kind_of u) then
                      '(val', s, err) ← decodeVisitor_visit decode o m r;
                      Return (val', q, s, err)
                    else Return (u, q, r, Some (unsupportedType (Kind_of u)))
                end
                = if isLeafKind (Kind_of u) then
                    '(val', s, err) ← decodeVisitor_visit decode o m r;
                    Return (val', q, s, err)
                  else Return (u, q, r, Some (unsupportedType (Kind_of u))))
        by (intros u m q Hu; destruct u; try discriminate; reflexivity).
      rewrite !Hleaf by congruence. rewrite Hkz.
      destruct (isLeafKind (Kind_of v));
        [|cbn; split; [reflexivity|split; [reflexivity|discriminate]]].
      assert (Hvis : sameDecoded (decodeVisitor_visit decode o n r)
                       (decodeVisitor_visit decode o nz r)).
      { apply decodeVisitor_prior; try assumption; [congruence|].
        rewrite Hn. destruct v as [| | | | | | | | |zero elems| | | | |]; try exact I.
        simpl in Ht. apply Forall_forall. intros x Hin c0 o0 r0.
        rewrite Forall_forall in IH. rewrite forallb_forall in Ht.
        specialize (Ht x (proj1 (list_elem_of_In _ _) Hin)).
        apply andb_true_iff in Ht as [_ Hzx]. apply Value_eqb_eq in Hzx.
        rewrite <- Hzx, !decode_eq. apply (IH x Hin c0 o0 r0). }
      destruct (decodeVisitor_visit decode o n r) as [[[y1 s1] e1]|],
               (decodeVisitor_visit decode o nz r) as [[[y2 s2] e2]|];
        cbn in Hvis |- *; try contradiction; exact Hvis. }
  split.
  - rewrite !runVisitorInternal_walk, Hnv, Hnz, Hwc, Hwz. unfold walk.
    rewrite !newNode_root. cbn [mbind outcome_bind].
    pose proof (Hcore (node.set_val v (rootNode v c))
                  (node.set_val (Zero v) (rootNode (Zero v) c)) None None
                  eq_refl eq_refl eq_refl eq_refl eq_refl eq_refl eq_refl eq_refl) as H.
    unfold dropParent in H |- *.
    match type of H with
    | sameDecoded (?a ≫= _) (?b ≫= _) =>
        destruct a as [[[[y1 p1] s1] e1]|], b as [[[[y2 p2] s2] e2]|]
    end; cbn in H |- *; try contradiction; rewrite ?Hrw, ?Hrz; exact H.
  - intros pe pz fld all allz Hpe Hpz Hsf Hreg Hpre.
    rewrite !runVisitorInternal_walk, Hnv, Hnz, Hwc, Hwz. unfold walk.
    rewrite (newNode_field _ _ _ _ all Hpe), (newNode_field _ _ _ _ allz Hpz).
    cbn [mbind outcome_bind].
    pose proof (Hcore
                  (node.set_val v (fieldNode all pe (Name fld) (Tag fld) v c))
                  (node.set_val (Zero v) (fieldNode allz pz (Name fld) (Tag fld) (Zero v) c))
                  (Some (node.set_sizeFroms
                           (tagRegister (Index fld) (Tag fld) (node.sizeFroms pe)) pe))
                  (Some (node.set_sizeFroms
                           (tagRegister (Index fld) (Tag fld) (node.sizeFroms pz)) pz))
                  eq_refl eq_refl) as H.
    cbn [node.canSet node.sizeFrom node.endianness node.nullTerminated node.sizeFroms
         node.set_val] in H.
    rewrite !fieldNode_canSet, !fieldNode_sizeFrom, !fieldNode_sizeFroms in H.
    specialize (H eq_refl
                  (sizeFroms_lookup_prefix pe pz all allz _ (Index fld) (Name fld)
                     Hpe Hpz eq_refl Hsf Hreg Hpre)).
    assert (He : node.endianness (fieldNode allz pz (Name fld) (Tag fld) (Zero v) c)
                 = node.endianness (fieldNode all pe (Name fld) (Tag fld) v c))
      by (unfold fieldNode; apply tagNode_endianness; reflexivity).
    assert (Hnt : node.nullTerminated (fieldNode allz pz (Name fld) (Tag fld) (Zero v) c)
                  = node.nullTerminated (fieldNode all pe (Name fld) (Tag fld) v c))
      by (unfold fieldNode; apply tagNode_nullTerminated; reflexivity).
    specialize (H He Hnt eq_refl eq_refl).
    unfold dropParent in H |- *.
    match type of H with
    | sameDecoded (?a ≫= _) (?b ≫= _) =>
        destruct a as [[[[y1 p1] s1] e1]|], b as [[[[y2 p2] s2] e2]|]
    end; cbn in H |- *; try contradiction; rewrite ?Hrw, ?Hrz; exact H.
Qed.

Lemma typed_priorAt v : typed v = true -> priorAt v.
Proof.
  induction v as [v IH] using Value_children_ind. intros Ht.
  apply walk_prior; [exact Ht|].
  destruct v as [| | | | | | | | |zero elems| | |fields| |]; try exact I.
  - simpl in IH, Ht. apply Forall_forall. intros x Hin.
    rewrite Forall_forall in IH. apply (IH x (list_elem_of_further _ _ _ Hin)).
    rewrite forallb_forall in Ht.
    specialize (Ht x (proj1 (list_elem_of_In _ _) Hin)).
    apply andb_true_iff in Ht as [Hx _]. exact Hx.
  - simpl in IH, Ht. apply List.Forall_map in IH.
    apply Forall_forall. intros f Hin.
    rewrite Forall_forall in IH. apply (IH f Hin).
    rewrite forallb_forall in Ht.
    exact (Ht f (proj1 (list_elem_of_In _ _) Hin)).
Qed.

Lemma sameDecoded_sym r1 r2 : sameDecoded r1 r2 -> sameDecoded r2 r1.
Proof.
  destruct r1 as [[[v1 s1] e1]|], r2 as [[[v2 s2] e2]|]; simpl; try tauto.
  - intros (-> & -> & Hv). repeat split. intros He. symmetry. exact (Hv He).
  - intros ->. reflexivity.
Qed.

Lemma sameDecoded_trans r1 r2 r3 :
  sameDecoded r1 r2 -> sameDecoded r2 r3 -> sameDecoded r1 r3.
Proof.
  destruct r1 as [[[v1 s1] e1]|], r2 as [[[v2 s2] e2]|], r3 as [[[v3 s3] e3]|];
    simpl; try tauto.
  - intros (-> & -> & H12) (-> & -> & H23). repeat split.
    intros He. rewrite (H12 He). exact (H23 He).
  - intros -> ->. reflexivity.
Qed.

(** [Decode] of a pointer to [v] against [Decode] of a pointer to the
    zero value of the type of [v]. *)
Lemma Decode_zeroed v o r :
  typed v = true ->
  sameDecoded (DecodeWithOrder r (addressOf v) o)
              (DecodeWithOrder r (addressOf (Zero v)) o).
Proof.
  intros Ht. destruct (typed_priorAt v Ht true o r) as [Hroot _].
  destruct (typed_shape v Ht) as [Hnv [Hnz [Hwc [Hwz [Hrw [Hrz _]]]]]].
  unfold DecodeWithOrder. rewrite !decode_eq. unfold runVisitor, addressOf.
  rewrite !runVisitorInternal_walk in Hroot.
  rewrite Hnv, Hnz, Hwc, Hwz in Hroot.
  rewrite !runVisitorInternal_walk.
  cbn [nodeVal walkCanSet rewrap].
  unfold dropParent in Hroot.
  destruct (walk (decodeVisitor_visit decode o)
              (runVisitorInternal (decodeVisitor_visit decode o)) v true None None r)
    as [[[[y1 p1] s1] e1]|],
    (walk (decodeVisitor_visit decode o)
       (runVisitorInternal (decodeVisitor_visit decode o)) (Zero v) true None None r)
    as [[[[y2 p2] s2] e2]|]; cbn in Hroot |- *; try contradiction; [|exact Hroot].
  rewrite Hrw, Hrz in Hroot. destruct Hroot as (Hs & He & Hv).
  repeat split; try assumption. intros H0. rewrite (Hv H0). reflexivity.
Qed.

(** [Decode] does not look at what its target holds: called on
    pointers to two values of one type, with the same input, it reads
    the same bytes and returns the same error or raises the same panic,
    and where it returns no error the two targets hold the same value
    afterwards.  The values are those without pointers inside, whose
    arrays hold elements of their element type. *)
Theorem Decode_ignores_prior_contents (u v : Value) (o : binary.ByteOrder)
    (r : bytes.Buffer) :
  typed u = true -> typed v = true -> Zero u = Zero v ->
  sameDecoded (DecodeWithOrder r (addressOf u) o)
              (DecodeWithOrder r (addressOf v) o).
Proof.
  intros Hu Hv Hz.
  apply (sameDecoded_trans _ (DecodeWithOrder r (addressOf (Zero u)) o)).
  - apply Decode_zeroed. exact Hu.
  - rewrite Hz. apply sameDecoded_sym, Decode_zeroed. exact Hv.
Qed.

Lemma Decode_ignores_prior_contents_witness :
  sameDecoded (DecodeWithOrder refBytes (addressOf (refStruct 0 0)) binary.BigEndian)
              (DecodeWithOrder refBytes (addressOf (refStruct 5 7)) binary.BigEndian).
Proof.
  apply (Decode_ignores_prior_contents (refStruct 0 0) (refStruct 5 7)
           binary.BigEndian refBytes); reflexivity.
Defined.

(** ** [Encode] a second time *)

Lemma sameLen_refl a : sameLen a a.
Proof. split; reflexivity. Qed.

Lemma sameLen_IsValid a b : sameLen a b -> IsValid a = IsValid b.
Proof.
  intros [Hk _]. destruct a, b; try reflexivity; exfalso;
    repeat match goal with
      | w : width |- _ => destruct w
      | o : opaque |- _ => destruct o
      end; discriminate.
Qed.

Lemma related_refl all : related all all.
Proof. induction all; constructor; auto using sameLen_refl. Qed.

Lemma lookupField_related all1 all2 name :
  related all1 all2 -> sameLen (lookupField all1 name) (lookupField all2 name).
Proof.
  induction 1 as [|[[nm1 t1] x1] [[nm2 t2] x2] all1 all2 [Hf Hx] _ IH];
    [apply sameLen_refl|].
  cbn [fst snd] in Hf, Hx. injection Hf as -> ->.
  cbn [lookupField]. destruct (bool_decide (nm2 = name)); assumption.
Qed.

(** The tag loop in the two traversals. *)
Lemma tagNode_related all1 all2 tags : forall n1 n2,
  related all1 all2 ->
  sameLen (node.sizeof n1) (node.sizeof n2) ->
  node.endianness n1 = node.endianness n2 ->
  node.nullTerminated n1 = node.nullTerminated n2 ->
  sameLen (node.sizeof (tagNode all1 tags n1)) (node.sizeof (tagNode all2 tags n2))
  /\ node.endianness (tagNode all1 tags n1) = node.endianness (tagNode all2 tags n2)
  /\ node.nullTerminated (tagNode all1 tags n1)
     = node.nullTerminated (tagNode all2 tags n2).
Proof.
  induction tags as [|x tags IH]; intros n1 n2 Hall Hs He Hn; [auto|].
  unfold tagNode in IH |- *. cbn [foldl].
  apply IH; try exact Hall; destruct (classify x); cbn; try assumption; try reflexivity.
  apply lookupField_related, Hall.
Qed.

(** The loop over the elements of an array or slice. *)
Lemma eachIndex_again (g : Value -> bytes.Buffer -> outcome (visited bytes.Buffer))
    elems :
  Forall (fun x => forall w1 w2 x' w1' e,
            g x w1 = Return (x', w1', e) ->
            exists bs, w1' = w1 ++ bs /\ g x' w2 = Return (x', w2 ++ bs, e)) elems ->
  forall w1 w2 elems' w1' e,
    eachIndex g elems w1 = Return (elems', w1', e) ->
    length elems' = length elems
    /\ exists bs, w1' = w1 ++ bs
                  /\ eachIndex g elems' w2 = Return (elems', w2 ++ bs, e).
Proof.
  induction 1 as [|x elems Hx _ IH]; intros w1 w2 elems' w1' e Hrun.
  - injection Hrun as <- <- <-. split; [reflexivity|].
    exists []. rewrite !app_nil_r. split; reflexivity.
  - cbn [eachIndex] in Hrun.
    destruct (g x w1) as [[[x1 s1] e1]|] eqn:E; [|discriminate].
    destruct (Hx w1 w2 _ _ _ E) as [bs1 [-> Hx2]].
    cbn [mbind outcome_bind] in Hrun. destruct e1 as [e1|].
    + injection Hrun as <- <- <-. split; [reflexivity|].
      exists bs1. split; [reflexivity|]. cbn [eachIndex]. rewrite Hx2. reflexivity.
    + destruct (eachIndex g elems (w1 ++ bs1)) as [[[l1 t1] d1]|] eqn:El; [|discriminate].
      cbn in Hrun. injection Hrun as <- <- <-.
      destruct (IH _ (w2 ++ bs1) _ _ _ El) as [Hlen [bs2 [-> Hl2]]].
      split; [cbn; rewrite Hlen; reflexivity|].
      exists (bs1 ++ bs2). rewrite !app_assoc. split; [reflexivity|].
      cbn [eachIndex]. rewrite Hx2. cbn [mbind outcome_bind]. rewrite Hl2. reflexivity.
Qed.

Lemma writeString_buffer (w s : bytes.Buffer) : (io.WriteString w s).2 = w ++ s.
Proof. reflexivity. Qed.

(** The visitor at a node and at the node of what it left there. *)
Lemma encodeVisitor_again o n1 n2 (w1 w2 : bytes.Buffer) y w1' e :
  node.canSet n2 = node.canSet n1 ->
  sameLen (node.sizeof n1) (node.sizeof n2) ->
  node.endianness n2 = node.endianness n1 ->
  node.nullTerminated n2 = node.nullTerminated n1 ->
  node.val n2 = y ->
  Forall (fun x => forall c o (w1 w2 : bytes.Buffer) x' w1' e,
            encode x c o w1 = Return (x', w1', e) ->
            exists bs, w1' = w1 ++ bs /\ encode x' c o w2 = Return (x', w2 ++ bs, e))
    (elements (node.val n1)) ->
  encodeVisitor_visit encode o n1 w1 = Return (y, w1', e) ->
  sameLen (node.val n1) y
  /\ exists bs, w1' = w1 ++ bs
                /\ encodeVisitor_visit encode o n2 w2 = Return (y, w2 ++ bs, e).
Proof.
  intros Hc Hs He Hn Hy Hel Hrun.
  pose proof (sameLen_IsValid _ _ Hs) as Hvalid. destruct Hs as [_ Hlen].
  destruct n1 as [x c sz1 sf1 sfs1 en nt], n2 as [x2 c2 sz2 sf2 sfs2 en2 nt2].
  cbn [node.val node.canSet node.sizeof node.endianness node.nullTerminated] in *.
  subst c2 en2 nt2 x2.
  unfold encodeVisitor_visit, setLength in Hrun |- *.
  cbn [node.val node.canSet node.sizeof node.endianness node.nullTerminated] in *.
  rewrite <- Hvalid, <- Hlen.
  destruct x as [| |[]|[]| | | | | |zero elems|zero elems| | | |];
    cbn [mbind outcome_bind] in Hrun.
  all: destruct (IsValid sz1); try destruct (Len sz1) as [len|]; destruct c;
    cbn in Hrun; try discriminate.
  all: try (injection Hrun as <- <- <-; split; [split; reflexivity|];
            cbn; rewrite ?writeString_buffer, ?write_buffer;
            first [ exists []; rewrite !app_nil_r; split; reflexivity
                  | rewrite <- ?app_assoc; eexists; split; reflexivity ]).
  all: try (destruct nt; injection Hrun as <- <- <-; (split; [split; reflexivity|]);
            cbn; rewrite ?writeString_buffer, ?write_buffer, <- ?app_assoc;
            eexists; split; reflexivity).
  all: cbn [elements] in Hel;
    destruct (eachIndex _ elems w1) as [[[l1 t1] d1]|] eqn:El; [|discriminate];
    cbn in Hrun; injection Hrun as <- <- <-;
    match type of El with
    | eachIndex ?g _ _ = _ => pose proof (eachIndex_again g elems) as HH
    end;
    cbv beta in HH;
    specialize (HH (Forall_impl _ _ _ Hel (fun x Hx w1 w2 => Hx _ _ w1 w2)));
    destruct (HH w1 w2 _ _ _ El) as [Hlen' [bs [-> Hl2]]];
    (split; [split; cbn; [reflexivity|rewrite Hlen'; reflexivity]|]);
    exists bs; (split; [reflexivity|]); cbn; rewrite Hl2; reflexivity.
Qed.

(** The loop over the fields of a struct, [pre] being the fields
    walked so far, and over the fields it left. *)
Lemma fieldLoop_again o rest : forall pre i n1 (w1 : bytes.Buffer) n1' w1' e,
  Forall (fun f => againAt f.2) rest ->
  length pre = i ->
  node.val n1 = VStruct (pre ++ rest) ->
  fieldLoop (runVisitorInternal (encodeVisitor_visit encode o)) rest i n1 w1
  = Return (n1', w1', e) ->
  exists rest' bs,
    node.val n1' = VStruct (pre ++ rest') /\ related rest rest' /\ w1' = w1 ++ bs
    /\ forall n2 (w2 : bytes.Buffer),
         node.val n2 = VStruct (pre ++ rest') -> node.canSet n2 = node.canSet n1 ->
         exists n2',
           fieldLoop (runVisitorInternal (encodeVisitor_visit encode o)) rest' i n2 w2
           = Return (n2', w2 ++ bs, e)
           /\ node.val n2' = VStruct (pre ++ rest').
Proof.
  induction rest as [|[fld x] rest IH]; intros pre i n1 w1 n1' w1' e Hrest Hlen Hn1 Hrun.
  - injection Hrun as <- <- <-. exists [], []. rewrite !app_nil_r.
    split; [rewrite Hn1, app_nil_r; reflexivity|]. split; [constructor|].
    split; [reflexivity|].
    intros n2 w2 Hn2 _. exists n2. rewrite app_nil_r. split; [reflexivity|exact Hn2].
  - inversion Hrest as [|? ? Hx Hrest']; subst. cbn [snd] in Hx.
    cbn [fieldLoop] in Hrun.
    destruct (runVisitorInternal _ x (node.canSet n1) (Some n1)
                (Some (Field_of (length pre) fld)) w1) as [[[[x1 p1] s1] e1]|] eqn:E1;
      [|discriminate].
    pose proof (run_field_parent _ _ _ _ _ _ _ _ _ _ _ Hn1 E1) as ->.
    cbn [mbind outcome_bind default from_option id] in Hrun.
    (* what the walk of the field left is as long as the field was *)
    assert (Hfirst : sameLen x x1 /\ exists bs1, s1 = w1 ++ bs1).
    { assert (Hst : sameTargets (Some n1) (Some n1) (Some (Field_of (length pre) fld))).
      { exists (pre ++ (fld, x) :: rest), (pre ++ (fld, x) :: rest).
        repeat split; auto using related_refl. }
      destruct (Hx _ _ _ _ _ _ w1 _ _ _ _ Hst E1) as [Hs [bs1 [_ [-> _]]]].
      split; [exact Hs|]. exists bs1. reflexivity. }
    destruct Hfirst as [Hsame [bs1 ->]].
    set (n1a := storeField (length pre) x1
                  (node.set_sizeFroms
                     (tagRegister (Index (Field_of (length pre) fld))
                        (Tag (Field_of (length pre) fld)) (node.sizeFroms n1)) n1)) in *.
    assert (Hn1a : node.val n1a = VStruct ((pre ++ [(fld, x1)]) ++ rest))
      by (apply (storeField_middle _ _ _ _ x); exact Hn1).
    assert (Hc1a : node.canSet n1a = node.canSet n1)
      by (unfold n1a; rewrite storeField_canSet; reflexivity).
    assert (Hstep : forall rest' n2 (w2 : bytes.Buffer),
              related rest rest' ->
              node.val n2 = VStruct (pre ++ (fld, x1) :: rest') ->
              node.canSet n2 = node.canSet n1 ->
              exists p2',
                runVisitorInternal (encodeVisitor_visit encode o) x1 (node.canSet n2)
                  (Some n2) (Some (Field_of (length pre) fld)) w2
                = Return (x1, Some p2', w2 ++ bs1, e1)
                /\ node.val (storeField (length pre) x1 p2')
                   = VStruct (pre ++ (fld, x1) :: rest')
                /\ node.canSet (storeField (length pre) x1 p2') = node.canSet n1).
    { intros rest' n2 w2 Hrel Hn2 Hc2. rewrite Hc2.
      assert (Hst : sameTargets (Some n1) (Some n2) (Some (Field_of (length pre) fld))).
      { exists (pre ++ (fld, x) :: rest), (pre ++ (fld, x1) :: rest').
        repeat split; auto.
        apply Forall2_app; [apply related_refl|]. constructor; [|exact Hrel].
        split; [reflexivity|exact Hsame]. }
      destruct (Hx _ _ _ _ _ _ w2 _ _ _ _ Hst E1) as [_ [bs1' [p2' [Hbs Hrun2]]]].
      apply app_inv_head in Hbs. subst bs1'.
      pose proof (run_field_parent _ _ _ _ _ _ _ _ _ _ _ Hn2 Hrun2) as Hp2.
      rewrite Hp2 in Hrun2. eexists. split; [exact Hrun2|]. split.
      - apply (storeField_same _ _ _ _ fld); [exact Hn2|].
        rewrite lookup_app_r by lia. rewrite Nat.sub_diag. reflexivity.
      - rewrite storeField_canSet. exact Hc2. }
    destruct e1 as [e1|].
    + injection Hrun as <- <- <-.
      exists ((fld, x1) :: rest), bs1.
      split; [rewrite Hn1a, <- app_assoc; reflexivity|].
      split; [constructor; [split; [reflexivity|exact Hsame]|apply related_refl]|].
      split; [reflexivity|].
      intros n2 w2 Hn2 Hc2.
      destruct (Hstep rest n2 w2 (related_refl _) Hn2 Hc2) as [p2' [Hrun2 [Hv2 _]]].
      cbn [fieldLoop]. rewrite Hrun2. cbn [mbind outcome_bind default from_option id].
      eexists. split; [reflexivity|exact Hv2].
    + destruct (IH (pre ++ [(fld, x1)]) (S (length pre)) n1a (w1 ++ bs1) n1' w1' e Hrest')
        as [rest' [bs2 [Hn1' [Hrel [-> Hsim]]]]].
      * rewrite length_app. cbn. lia.
      * exact Hn1a.
      * exact Hrun.
      * exists ((fld, x1) :: rest'), (bs1 ++ bs2).
        split; [rewrite Hn1', <- app_assoc; reflexivity|].
        split; [constructor; [split; [reflexivity|exact Hsame]|exact Hrel]|].
        split; [rewrite app_assoc; reflexivity|].
        intros n2 w2 Hn2 Hc2.
        destruct (Hstep rest' n2 w2 Hrel Hn2 Hc2) as [p2' [Hrun2 [Hv2 Hc2']]].
        cbn [fieldLoop]. rewrite Hrun2. cbn [mbind outcome_bind default from_option id].
        destruct (Hsim (storeField (length pre) x1 p2') (w2 ++ bs1))
          as [n2' [Hloop2 Hv2']].
        -- rewrite Hv2, <- app_assoc. reflexivity.
        -- rewrite Hc2', Hc1a. reflexivity.
        -- rewrite Hloop2.
           exists n2'. rewrite <- app_assoc in Hv2'. rewrite app_assoc.
           split; [reflexivity|exact Hv2'].
Qed.

(** [encode], the walk without a parent. *)
Lemma againAt_encode x :
  againAt x ->
  forall c o (w1 w2 : bytes.Buffer) x' w1' e,
    encode x c o w1 = Return (x', w1', e) ->
    exists bs, w1' = w1 ++ bs /\ encode x' c o w2 = Return (x', w2 ++ bs, e).
Proof.
  intros Hx c o w1 w2 x' w1' e Hrun. rewrite encode_eq in Hrun |- *.
  unfold runVisitor in Hrun |- *.
  destruct (runVisitorInternal _ x c None None w1) as [[[[y p1] s1] e1]|] eqn:E;
    [|discriminate].
  cbn in Hrun. injection Hrun as <- <- <-.
  destruct (Hx c o None None None w1 w2 _ _ _ _ I E) as [_ [bs [p2' [-> Hrun2]]]].
  exists bs. split; [reflexivity|]. rewrite Hrun2. reflexivity.
Qed.

Lemma sameLen_isStruct a b : sameLen a b -> isStruct b = isStruct a.
Proof.
  intros [Hk _]. destruct a, b; try reflexivity; exfalso;
    repeat match goal with
      | w : width |- _ => destruct w
      | o : opaque |- _ => destruct o
      end; discriminate.
Qed.

(** One step of the walk, when the walks below can be done again. *)
Lemma walk_again x :
  match x with
  | VStruct fields => Forall (fun f => againAt f.2) fields
  | _ => Forall againAt (elements x)
  end ->
  againWalk x.
Proof.
  intros IH c o p1 p2 f w1 w2 x' p1' w1' e Hst Hrun.
  unfold walk in Hrun.
  destruct (newNode x c p1 f) as [[n1 q1]|] eqn:En1; [|discriminate].
  cbn [mbind outcome_bind] in Hrun.
  assert (Hn2 : forall y, exists n2 q2,
             newNode y c p2 f = Return (n2, q2)
             /\ sameLen (node.sizeof n1) (node.sizeof n2)
             /\ node.endianness n2 = node.endianness n1
             /\ node.nullTerminated n2 = node.nullTerminated n1).
  { intros y. destruct p1 as [pn1|], p2 as [pn2|], f as [fld|]; try contradiction.
    - destruct Hst as [all1 [all2 [Hv1 [Hv2 [Hc Hrel]]]]].
      rewrite (newNode_field _ _ _ _ all1 Hv1) in En1. injection En1 as <- _.
      rewrite (newNode_field _ _ _ _ all2 Hv2). eexists _, _. split; [reflexivity|].
      unfold fieldNode.
      destruct (tagNode_related all1 all2 (Tag fld)
                  (node.mk x c VInvalid (sizeFroms_lookup pn1 (Name fld)) None None false)
                  (node.mk y c VInvalid (sizeFroms_lookup pn2 (Name fld)) None None false)
                  Hrel (sameLen_refl _) eq_refl eq_refl) as [Hs [He Hn]].
      auto.
    - rewrite newNode_root in En1 |- *. injection En1 as <- _.
      eexists _, _. split; [reflexivity|]. repeat split; reflexivity. }
  pose proof (newNode_val _ _ _ _ _ _ En1) as [_ Hc1].
  assert (Hleaf : forall (u : Value) (n : node.t) (q : option node.t) (w : bytes.Buffer),
            isStruct u = false ->
            match u with
            | VStruct fields =>
                '(n0, s0, err) ←
                  fieldLoop (runVisitorInternal (encodeVisitor_visit encode o))
                    fields 0%nat (node.set_val u n) w;
                Return (node.val n0, q, s0, err)
            | _ =>
                if isLeafKind (Kind_of u) then
                  '(val', s0, err) ← encodeVisitor_visit encode o (node.set_val u n) w;
                  Return (val', q, s0, err)
                else Return (u, q, w, Some (unsupportedType (Kind_of u)))
            end
            = if isLeafKind (Kind_of u) then
                '(val', s0, err) ← encodeVisitor_visit encode o (node.set_val u n) w;
                Return (val', q, s0, err)
              else Return (u, q, w, Some (unsupportedType (Kind_of u))))
    by (intros u n q w Hu; destruct u; try discriminate; reflexivity).
  destruct (isStruct x) eqn:Hstruct.
  - destruct x as [| | | | | | | | | | | |fields| |]; try discriminate.
    destruct (fieldLoop _ fields 0%nat _ w1) as [[[n1' s1] e1]|] eqn:El; [|discriminate].
    cbn in Hrun. injection Hrun as <- <- <- <-.
    destruct (fieldLoop_again o fields [] 0%nat (node.set_val (VStruct fields) n1)
                w1 _ _ _ IH eq_refl eq_refl El)
      as [rest' [bs [Hv1' [Hrel [-> Hsim]]]]].
    cbn [app] in Hv1'. rewrite Hv1'.
    split; [split; reflexivity|].
    destruct (Hn2 (VStruct rest')) as [n2 [q2 [En2 _]]].
    pose proof (newNode_val _ _ _ _ _ _ En2) as [_ Hc2].
    exists bs, q2. split; [reflexivity|].
    unfold walk. rewrite En2. cbn [mbind outcome_bind].
    destruct (Hsim (node.set_val (VStruct rest') n2) w2 eq_refl) as [n2' [Hloop2 Hv2']].
    { cbn [node.canSet node.set_val]. congruence. }
    rewrite Hloop2. cbn. rewrite Hv2'. reflexivity.
  - rewrite Hleaf in Hrun by exact Hstruct.
    destruct (isLeafKind (Kind_of x)) eqn:Hkind.
    + destruct (encodeVisitor_visit encode o (node.set_val x n1) w1)
        as [[[y s1] e1]|] eqn:Ev; [|discriminate].
      cbn in Hrun. injection Hrun as <- <- <- <-.
      destruct (Hn2 y) as [n2 [q2 [En2 [Hs [He Hn]]]]].
      pose proof (newNode_val _ _ _ _ _ _ En2) as [_ Hc2].
      destruct (encodeVisitor_again o (node.set_val x n1) (node.set_val y n2)
                  w1 w2 y s1 e1) as [Hsame [bs [-> Hv2]]]; try assumption.
      * cbn [node.canSet node.set_val]. congruence.
      * reflexivity.
      * cbn [node.val node.set_val].
        assert (Hel : Forall againAt (elements x))
          by (destruct x; try discriminate; exact IH).
        apply (Forall_impl _ _ _ Hel). intros z Hz. apply againAt_encode, Hz.
      * cbn [node.val node.set_val] in Hsame. split; [exact Hsame|].
        exists bs, q2. split; [reflexivity|].
        unfold walk. rewrite En2. cbn [mbind outcome_bind].
        rewrite Hleaf by (rewrite (sameLen_isStruct _ _ Hsame); exact Hstruct).
        destruct Hsame as [Hk _]. rewrite <- Hk, Hkind, Hv2. reflexivity.
    + injection Hrun as <- <- <- <-. split; [apply sameLen_refl|].
      destruct (Hn2 x) as [n2 [q2 [En2 _]]].
      exists [], q2. rewrite !app_nil_r. split; [reflexivity|].
      unfold walk. rewrite En2. cbn [mbind outcome_bind].
      rewrite Hleaf by exact Hstruct. rewrite Hkind. reflexivity.
Qed.

Lemma notPtr_shape v :
  Kind_of v <> Ptr ->
  nodeVal v = v /\ (forall c, walkCanSet v c = c) /\ (forall y, rewrap v y = y).
Proof. destruct v; intros Hk; try (repeat split; reflexivity). contradiction. Qed.

Lemma sameLen_pointer x y :
  sameLen x y -> sameLen (VPtr (Some x)) (VPtr (Some y)).
Proof.
  intros [Hk Hl]. split; [reflexivity|].
  destruct x, y; try reflexivity; try (injection Hl as Hl; cbn [Len]; rewrite Hl; reflexivity);
    exfalso;
    repeat match goal with
      | w : width |- _ => destruct w
      | o : opaque |- _ => destruct o
      end; discriminate.
Qed.

Lemma againWalk_againAt v : againWalk (nodeVal v) -> againAt v.
Proof.
  intros Hwalk c o p1 p2 f w1 w2 v' p1' w1' e Hst Hrun.
  rewrite runVisitorInternal_walk in Hrun.
  destruct (walk _ _ (nodeVal v) (walkCanSet v c) p1 f w1)
    as [[[[y q1] s1] e1]|] eqn:E; [|discriminate].
  cbn in Hrun. injection Hrun as <- <- <- <-.
  destruct (Hwalk _ _ _ _ _ _ w2 _ _ _ _ Hst E) as [Hsame [bs [p2' [-> Hrun2]]]].
  destruct (decide (Kind_of v = Ptr)) as [Hptr|Hptr].
  - destruct v as [| | | | | | | | | | | | |[x|]|];
      try (exfalso; repeat match goal with
                      | w : width |- _ => destruct w
                      | o : opaque |- _ => destruct o
                      end; discriminate).
    + cbn [nodeVal walkCanSet rewrap] in *. split; [apply sameLen_pointer, Hsame|].
      exists bs, p2'. split; [reflexivity|].
      rewrite runVisitorInternal_walk. cbn [nodeVal walkCanSet rewrap].
      rewrite Hrun2. reflexivity.
    + cbn [nodeVal walkCanSet rewrap] in *. split; [split; reflexivity|].
      exists bs, p2'. split; [reflexivity|].
      rewrite runVisitorInternal_walk. cbn [nodeVal walkCanSet rewrap].
      assert (Hy : y = VInvalid).
      { destruct Hsame as [Hk _]. destruct y; try reflexivity; exfalso;
          repeat match goal with
            | w : width |- _ => destruct w
            | o : opaque |- _ => destruct o
            end; discriminate. }
      rewrite Hy in Hrun2. rewrite Hrun2. reflexivity.
  - destruct (notPtr_shape v Hptr) as [Hnv [Hwc Hrw]].
    rewrite Hnv in Hsame, E. rewrite Hrw. split; [exact Hsame|].
    assert (Hptr' : Kind_of y <> Ptr) by (destruct Hsame as [<- _]; exact Hptr).
    destruct (notPtr_shape y Hptr') as [Hnv' [Hwc' Hrw']].
    exists bs, p2'. split; [reflexivity|].
    rewrite runVisitorInternal_walk, Hnv', Hwc', <- (Hwc c), Hrun2. cbn.
    rewrite Hrw'. reflexivity.
Qed.

(** Whatever the encoder walks it can walk again. *)
Lemma again_everywhere v : againWalk v /\ againAt v.
Proof.
  induction v as [v IH] using Value_children_ind.
  assert (Hwalk : againWalk v).
  { apply walk_again.
    destruct v as [| | | | | | | | |zero elems|zero elems| |fields| |]; try constructor.
    - simpl in IH. inversion IH as [|? ? _ Hel]; subst.
      apply (Forall_impl _ _ _ Hel). intros y Hy. apply Hy.
    - simpl in IH. inversion IH as [|? ? _ Hel]; subst.
      apply (Forall_impl _ _ _ Hel). intros y Hy. apply Hy.
    - simpl in IH. apply List.Forall_map in IH.
      apply (Forall_impl _ _ _ IH). intros y Hy. apply Hy. }
  split; [exact Hwalk|]. apply againWalk_againAt.
  destruct v as [| | | | | | | | | | | | |[x|]|]; try exact Hwalk.
  - simpl in IH. inversion IH as [|? ? Hx _]; subst. apply Hx.
  - apply walk_again. constructor.
Qed.

(** [Encode] is idempotent.  Whenever it returns, a second [Encode]
    of the value it left, the length fields now patched, leaves the same
    value again, writes the same bytes and returns the same error. *)
Theorem Encode_twice (v v' : Value) (o : binary.ByteOrder) (bs : list byte)
    (e : option error) (w : bytes.Buffer) :
  EncodeWithOrder ([] : bytes.Buffer) v o = Return (v', bs, e) ->
  EncodeWithOrder w v' o = Return (v', w ++ bs, e).
Proof.
  unfold EncodeWithOrder. intros Hrun.
  destruct (againAt_encode v (proj2 (again_everywhere v)) false o [] w _ _ _ Hrun)
    as [bs' [Hbs Hrun2]].
  cbn [app] in Hbs. subst bs'. exact Hrun2.
Qed.

(** The reference struct of [wire_test.go] with length fields that
    are off: the first [Encode] puts 2 and 5 there, the second finds
    them. *)
Lemma Encode_twice_witness :
  EncodeWithOrder [x00] (addressOf (refStruct 2 5)) binary.BigEndian
  = Return (addressOf (refStruct 2 5), [x00] ++ refBytes, None).
Proof.
  apply (Encode_twice (addressOf (refStruct 0 0)) (addressOf (refStruct 2 5))
           binary.BigEndian refBytes None [x00]).
  vm_compute. reflexivity.
Defined.

(** ** The errors returned *)

Lemma eachIndex_errs {St : Type} (okErr : error -> Prop)
    (g : Value -> St -> outcome (visited St)) elems :
  Forall (fun x => forall s x' s' e, g x s = Return (x', s', Some e) -> okErr e) elems ->
  forall s l s' e, eachIndex g elems s = Return (l, s', Some e) -> okErr e.
Proof.
  induction 1 as [|x elems Hx _ IH]; intros s l s' e Hrun; [discriminate|].
  cbn [eachIndex] in Hrun.
  destruct (g x s) as [[[x1 s1] [e1|]]|] eqn:E; [| |discriminate]; cbn in Hrun.
  - injection Hrun as _ _ <-. exact (Hx _ _ _ _ E).
  - destruct (eachIndex g elems s1) as [[[l1 t1] d1]|] eqn:El; [|discriminate].
    cbn in Hrun. injection Hrun as _ _ ->. exact (IH _ _ _ _ El).
Qed.

Lemma eachFresh_errs {St : Type} (okErr : error -> Prop)
    (g : St -> outcome (visited St)) zero :
  (forall s x' s' e, g s = Return (x', s', Some e) -> okErr e) ->
  forall len s l s' e, eachFresh g len zero s = Return (l, s', Some e) -> okErr e.
Proof.
  intros Hg. induction len as [|len IH]; intros s l s' e Hrun; [discriminate|].
  cbn [eachFresh] in Hrun.
  destruct (g s) as [[[x1 s1] [e1|]]|] eqn:E; [| |discriminate]; cbn in Hrun.
  - injection Hrun as _ _ <-. exact (Hg _ _ _ _ E).
  - destruct (eachFresh g len zero s1) as [[[l1 t1] d1]|] eqn:El; [|discriminate].
    cbn in Hrun. injection Hrun as _ _ ->. exact (IH _ _ _ _ El).
Qed.

Section Errors.
Context {P St : Type} (visit : P -> node.t -> St -> outcome (visited St)).
Variable okErr : error -> Prop.
Hypothesis okErr_unsupported : forall k, okErr (unsupportedType k).
Hypothesis visit_errs : forall o n s v' s' e,
  Forall (errsAt visit okErr) (children (node.val n)) ->
  visit o n s = Return (v', s', Some e) -> okErr e.

Lemma fieldLoop_errs o rest : forall i n s n' s' e,
  Forall (fun f => errsAt visit okErr f.2) rest ->
  fieldLoop (runVisitorInternal (visit o)) rest i n s = Return (n', s', Some e) ->
  okErr e.
Proof.
  induction rest as [|[fld x] rest IH]; intros i n s n' s' e Hrest Hrun; [discriminate|].
  inversion Hrest as [|? ? Hx Hrest']; subst. cbn [snd] in Hx.
  cbn [fieldLoop] in Hrun.
  destruct (runVisitorInternal _ x (node.canSet n) (Some n) (Some (Field_of i fld)) s)
    as [[[[x1 p1] s1] [e1|]]|] eqn:E; [| |discriminate]; cbn in Hrun.
  - injection Hrun as _ _ <-. exact (Hx _ _ _ _ _ _ _ _ _ E).
  - exact (IH _ _ _ _ _ _ Hrest' Hrun).
Qed.

Lemma walk_errs x o c p f s x' p' s' e :
  Forall (errsAt visit okErr) (children x) ->
  walk (visit o) (runVisitorInternal (visit o)) x c p f s = Return (x', p', s', Some e) ->
  okErr e.
Proof.
  intros IH Hrun. unfold walk in Hrun.
  destruct (newNode x c p f) as [[n q]|] eqn:En; [|discriminate].
  cbn [mbind outcome_bind] in Hrun.
  pose proof (newNode_val _ _ _ _ _ _ En) as [Hv _].
  destruct (isStruct x) eqn:Hstruct.
  - destruct x as [| | | | | | | | | | | |fields| |]; try discriminate.
    destruct (fieldLoop _ fields 0%nat _ s) as [[[n1 s1] e1]|] eqn:El; [|discriminate].
    cbn in Hrun. injection Hrun as _ _ _ ->.
    apply (fieldLoop_errs _ _ _ _ _ _ _ _ (proj1 (List.Forall_map _ _ _) IH) El).
  - assert (Hleaf :
      (if isLeafKind (Kind_of x) then
         '(val', s0, err) ← visit o (node.set_val x n) s; Return (val', q, s0, err)
       else Return (x, q, s, Some (unsupportedType (Kind_of x))))
      = Return (x', p', s', Some e))
      by (destruct x; try discriminate; exact Hrun).
    destruct (isLeafKind (Kind_of x)).
    + destruct (visit o (node.set_val x n) s) as [[[y s1] e1]|] eqn:Ev; [|discriminate].
      cbn in Hleaf. injection Hleaf as _ _ _ ->.
      apply (visit_errs o (node.set_val x n) _ _ _ _ IH Ev).
    + injection Hleaf as _ _ _ <-. apply okErr_unsupported.
Qed.

Lemma errs_everywhere v : errsAt visit okErr v.
Proof.
  assert (Hboth : forall v,
            (forall o c p f s x' p' s' e,
               walk (visit o) (runVisitorInternal (visit o)) v c p f s
               = Return (x', p', s', Some e) -> okErr e)
            /\ errsAt visit okErr v).
  { clear v. induction v as [v IH] using Value_children_ind.
    assert (Hwalk : forall o c p f s x' p' s' e,
              walk (visit o) (runVisitorInternal (visit o)) v c p f s
              = Return (x', p', s', Some e) -> okErr e).
    { intros o c p f s x' p' s' e. apply walk_errs.
      apply (Forall_impl _ _ _ IH). intros y Hy. apply Hy. }
    split; [exact Hwalk|].
    intros o c p f s v' p' s' e Hrun. rewrite runVisitorInternal_walk in Hrun.
    destruct (walk _ _ (nodeVal v) (walkCanSet v c) p f s)
      as [[[[y q] s1] e1]|] eqn:E; [|discriminate].
    cbn in Hrun. injection Hrun as _ _ _ ->.
    destruct v as [| | | | | | | | | | | | |[x|]|]; cbn [nodeVal] in E;
      try exact (Hwalk _ _ _ _ _ _ _ _ _ E).
    - simpl in IH. inversion IH as [|? ? Hx _]; subst.
      exact (proj1 Hx _ _ _ _ _ _ _ _ _ E).
    - exact (walk_errs VInvalid _ _ _ _ _ _ _ _ _ (List.Forall_nil _) E). }
  apply Hboth.
Qed.
End Errors.

(** *** [Sizeof] *)

Lemma elements_children x v : x ∈ elements v -> x ∈ children v.
Proof.
  destruct v; cbn; intros Hin; try (apply list_elem_of_further; exact Hin);
    inversion Hin.
Qed.

Lemma sizeofVisitor_errs n size v' size' e :
  Forall (errsAt (fun _ : unit => sizeofVisitor_visit sizeof)
            (fun e => exists k, e = unsupportedType k)) (children (node.val n)) ->
  sizeofVisitor_visit sizeof n size = Return (v', size', Some e) ->
  exists k, e = unsupportedType k.
Proof.
  intros IH Hrun. unfold sizeofVisitor_visit in Hrun.
  assert (Hsize : forall x c isize e0, x ∈ elements (node.val n) ->
            sizeof x c = Return (isize, Some e0) -> exists k, e0 = unsupportedType k).
  { intros x c isize e0 Hin Hs. rewrite sizeof_eq in Hs. unfold runVisitor in Hs.
    destruct (runVisitorInternal _ x c None None 0) as [[[[y q] s1] [e1|]]|] eqn:E;
      [| |discriminate]; cbn in Hs; [|discriminate].
    injection Hs as _ <-. rewrite Forall_forall in IH.
    exact (IH x (elements_children _ _ Hin) tt _ _ _ _ _ _ _ _ E). }
  destruct (node.val n) as [| |[]|[]| | | | | |zero elems|zero elems| | | |];
    try discriminate; try (injection Hrun as _ _ <-; eexists; reflexivity).
  all: cbn [elements] in Hsize.
  all: try (destruct (node.nullTerminated n); discriminate).
  all: destruct elems as [|first elems]; [discriminate|].
  all: case_bool_decide.
  all: try (destruct (sizeof first _) as [[isize [e1|]]|] eqn:Ef; [| |discriminate];
            cbn in Hrun; [|discriminate]; injection Hrun as _ _ <-;
            apply (Hsize _ _ _ _ (list_elem_of_here _ _) Ef)).
  all: destruct (eachIndex _ (first :: elems) size) as [[[l1 t1] d1]|] eqn:El;
    [|discriminate]; cbn in Hrun; injection Hrun as _ _ ->.
  all: refine (eachIndex_errs (fun e => exists k, e = unsupportedType k)
                 _ _ _ _ _ _ _ El); apply Forall_forall;
    intros x Hin s x' s' e0 Hg;
    destruct (sizeof x _) as [[isize [e1|]]|] eqn:Ex; [| |discriminate];
    cbn in Hg; [|discriminate]; injection Hg as _ _ <-;
    apply (Hsize _ _ _ _ Hin Ex).
Qed.

(** [Sizeof] fails in one way only: the error it returns is the
    unsupported-type error of some kind, and the size that comes with
    it is -1. *)
Theorem Sizeof_errors (v : Value) (size : Z) (e : error) :
  Sizeof v = Return (size, Some e) ->
  size = -1 /\ exists k, e = unsupportedType k.
Proof.
  unfold Sizeof. rewrite sizeof_eq. unfold runVisitor. intros Hrun.
  destruct (runVisitorInternal _ v false None None 0) as [[[[y q] s1] [e1|]]|] eqn:E;
    [| |discriminate]; cbn in Hrun; [|discriminate].
  injection Hrun as <- <-. split; [reflexivity|].
  refine (errs_everywhere (fun _ : unit => sizeofVisitor_visit sizeof)
            (fun e => exists k, e = unsupportedType k) _ _ v tt _ _ _ _ _ _ _ _ E).
  - intros k. exists k. reflexivity.
  - intros _ n s v' s' e0. apply sizeofVisitor_errs.
Qed.

Lemma Sizeof_errors_witness :
  -1 = -1 /\ exists k, unsupportedType Bool = unsupportedType k.
Proof. apply (Sizeof_errors (VBool true) (-1) (unsupportedType Bool)). reflexivity. Defined.

(** *** [Encode] *)

Section EncodeErrors.
Context {W : Type} `{io.Writer W}.

Lemma encodeVisitor_errs o n (w : W) v' w' e :
  Forall (errsAt (fun o => encodeVisitor_visit (W:=W) encode o)
            (fun e => exists k, e = unsupportedType k)) (children (node.val n)) ->
  encodeVisitor_visit encode o n w = Return (v', w', Some e) ->
  exists k, e = unsupportedType k.
Proof.
  intros IH Hrun. unfold encodeVisitor_visit in Hrun.
  destruct (setLength n) as [val|]; [|discriminate]. cbn [mbind outcome_bind] in Hrun.
  assert (Hnested : forall x c o' (w0 : W) x' w0' e0, x ∈ elements (node.val n) ->
            encode x c o' w0 = Return (x', w0', Some e0) ->
            exists k, e0 = unsupportedType k).
  { intros x c o' w0 x' w0' e0 Hin He. rewrite encode_eq in He. unfold runVisitor in He.
    destruct (runVisitorInternal _ x c None None w0) as [[[[y q] s1] e1]|] eqn:E;
      [|discriminate].
    cbn in He. injection He as _ _ ->. rewrite Forall_forall in IH.
    exact (IH x (elements_children _ _ Hin) _ _ _ _ _ _ _ _ _ E). }
  destruct (node.val n) as [| |[]|[]| | | | | |zero elems|zero elems| | | |];
    try (injection Hrun as _ _ <-; eexists; reflexivity);
    try (destruct (Int_ val); discriminate);
    try (destruct (Uint_ val); discriminate);
    try discriminate.
  all: try (destruct (node.nullTerminated n); discriminate).
  all: cbn [elements] in Hnested.
  all: destruct (eachIndex _ elems w) as [[[l1 t1] d1]|] eqn:El;
    [|discriminate]; cbn in Hrun; injection Hrun as _ _ ->.
  all: refine (eachIndex_errs (fun e => exists k, e = unsupportedType k)
                 _ _ _ _ _ _ _ El); apply Forall_forall;
    intros x Hin s x' s' e0 Hg; apply (Hnested _ _ _ _ _ _ _ Hin Hg).
Qed.

(** [Encode] fails in one way only, whatever the writer does: the
    error it returns is the unsupported-type error of some kind. *)
Theorem Encode_errors (w : W) (v : Value) (o : binary.ByteOrder)
    (v' : Value) (w' : W) (e : error) :
  EncodeWithOrder w v o = Return (v', w', Some e) ->
  exists k, e = unsupportedType k.
Proof.
  unfold EncodeWithOrder. rewrite encode_eq. unfold runVisitor. intros Hrun.
  destruct (runVisitorInternal _ v false None None w) as [[[[y q] s1] e1]|] eqn:E;
    [|discriminate].
  cbn in Hrun. injection Hrun as _ _ ->.
  refine (errs_everywhere (fun o => encodeVisitor_visit (W:=W) encode o)
            (fun e => exists k, e = unsupportedType k) _ _ v o _ _ _ _ _ _ _ _ E).
  - intros k. exists k. reflexivity.
  - intros o' n s v0 s' e0. apply encodeVisitor_errs.
Qed.
End EncodeErrors.

(** A writer that fails and a value of kind bool. *)
Lemma Encode_errors_witness :
  exists k, unsupportedType Bool = unsupportedType k.
Proof.
  apply (Encode_errors {| failure := io.EOF; calls := 0 |} (VBool true)
           binary.LittleEndian (VBool true) {| failure := io.EOF; calls := 0 |}
           (unsupportedType Bool)).
  reflexivity.
Defined.

(** *** [Decode] *)

Lemma Read_error r p d e r' : bytes.Read r p = (d, Some e, r') -> e = io.EOF.
Proof.
  unfold bytes.Read. destruct r; [|discriminate].
  destruct (decide (length p = 0%nat)); [discriminate|]. congruence.
Qed.

Lemma readNull_error r : forall buf s e r',
  readNull r buf = (s, Some e, r') -> e = io.EOF.
Proof.
  induction r as [|b r IH]; intros buf s e r' Hrun; cbn [readNull] in Hrun.
  - congruence.
  - destruct (Byte.eqb b x00); [discriminate|]. exact (IH _ _ _ _ Hrun).
Qed.

Lemma decodeVisitor_errs o n (r : bytes.Buffer) v' r' e :
  Forall (errsAt (fun o => decodeVisitor_visit decode o) decodeError)
    (children (node.val n)) ->
  decodeVisitor_visit decode o n r = Return (v', r', Some e) ->
  decodeError e.
Proof.
  intros IH Hrun. unfold decodeVisitor_visit in Hrun.
  assert (Hnested : forall x c o' (r0 : bytes.Buffer) x' r0' e0,
            x ∈ children (node.val n) ->
            decode x c o' r0 = Return (x', r0', Some e0) -> decodeError e0).
  { intros x c o' r0 x' r0' e0 Hin He. rewrite decode_eq in He. unfold runVisitor in He.
    destruct (runVisitorInternal _ x c None None r0) as [[[[y q] s1] e1]|] eqn:E;
      [|discriminate].
    cbn in He. injection He as _ _ ->. rewrite Forall_forall in IH.
    exact (IH x Hin _ _ _ _ _ _ _ _ _ E). }
  destruct (node.val n) as [| |[]|[]| | | | | |zero elems|zero elems|str| | |];
    try (injection Hrun as _ _ <-; left; eexists; reflexivity).
  all: try (destruct (bytes.Read r _) as [[d err] r1] eqn:Er;
            match type of Hrun with
            | (?m ≫= _) = _ => destruct m; [|discriminate]
            end;
            cbn in Hrun; injection Hrun as _ _ ->;
            right; right; exact (Read_error _ _ _ _ _ Er)).
  - (* arrays *)
    destruct (eachIndex _ elems r) as [[[l1 t1] d1]|] eqn:El; [|discriminate].
    cbn in Hrun. injection Hrun as _ _ ->.
    refine (eachIndex_errs decodeError _ _ _ _ _ _ _ El). apply Forall_forall.
    intros x Hin s x' s' e0 Hg.
    apply (Hnested _ _ _ _ _ _ _ (list_elem_of_further _ _ _ Hin) Hg).
  - (* slices *)
    destruct (node.sizeFrom n) as [from|].
    + destruct (Uint_ from) as [u|]; [|discriminate]. cbn [mbind outcome_bind] in Hrun.
      destruct (Set_MakeSlice _ _ _); [|discriminate]. cbn [mbind outcome_bind] in Hrun.
      destruct (eachFresh _ _ zero r) as [[[l1 t1] d1]|] eqn:El; [|discriminate].
      cbn in Hrun. injection Hrun as _ _ ->.
      refine (eachFresh_errs decodeError _ _ _ _ _ _ _ _ El).
      intros s x' s' e0 Hg. apply (Hnested _ _ _ _ _ _ _ (list_elem_of_here _ _) Hg).
    + injection Hrun as _ _ <-. right. left. reflexivity.
  - (* strings *)
    destruct (node.nullTerminated n).
    + destruct (readNullTerminatedString r) as [[s err] r1] eqn:Er.
      destruct (SetString _ _ _); [|discriminate].
      cbn in Hrun. injection Hrun as _ _ ->.
      right; right. exact (readNull_error _ _ _ _ _ Er).
    + destruct (node.sizeFrom n) as [from|]; [|discriminate].
      destruct (Uint_ from) as [u|]; [|discriminate]. cbn [mbind outcome_bind] in Hrun.
      case_bool_decide; [discriminate|].
      destruct (bytes.Read r _) as [[d err] r1] eqn:Er.
      destruct (SetString _ _ _); [|discriminate].
      cbn in Hrun. injection Hrun as _ _ ->.
      right; right. exact (Read_error _ _ _ _ _ Er).
Qed.

(** [Decode] from a [bytes.Buffer] fails in three ways only: the
    error it returns is the unsupported-type error of some kind, the
    error "wire: slice with no size source", or [io.EOF]. *)
Theorem Decode_errors (r : bytes.Buffer) (v : Value) (o : binary.ByteOrder)
    (v' : Value) (r' : bytes.Buffer) (e : error) :
  DecodeWithOrder r v o = Return (v', r', Some e) ->
  decodeError e.
Proof.
  unfold DecodeWithOrder. rewrite decode_eq. unfold runVisitor. intros Hrun.
  destruct (runVisitorInternal _ v false None None r) as [[[[y q] s1] e1]|] eqn:E;
    [|discriminate].
  cbn in Hrun. injection Hrun as _ _ ->.
  refine (errs_everywhere (fun o => decodeVisitor_visit decode o) decodeError
            _ _ v o _ _ _ _ _ _ _ _ E).
  - intros k. left. exists k. reflexivity.
  - intros o' n s v0 s' e0. apply decodeVisitor_errs.
Qed.

(** A [uint16] and no input. *)
Lemma Decode_errors_witness : decodeError io.EOF.
Proof.
  apply (Decode_errors [] (addressOf (VUint W16 0)) binary.LittleEndian
           (addressOf (VUint W16 0)) [] io.EOF).
  reflexivity.
Defined.

(** ** Targets on which [Decode] cannot panic *)

Lemma panicFree_struct src nt fields :
  panicFree src nt (VStruct fields) = panicFreeFields fields fields 0 None.
Proof.
  cbn [panicFree]. generalize fields at 1 3 as all. generalize 0%nat as i.
  generalize (@None (gmap string nat)) as reg.
  induction fields as [|[[nm tags] x] rest IH]; intros reg i all; [reflexivity|].
  cbn [panicFreeFields]. rewrite <- IH. reflexivity.
Qed.

Lemma tagNode_hasNullterm all tags : forall n,
  node.nullTerminated (tagNode all tags n) = node.nullTerminated n || hasNullterm tags.
Proof.
  induction tags as [|x tags IH]; intros n; [cbn; rewrite orb_false_r; reflexivity|].
  unfold tagNode in IH |- *. cbn [foldl hasNullterm existsb]. rewrite IH.
  destruct (classify x), n; cbn; rewrite ?orb_true_r; reflexivity.
Qed.

Lemma uintN_below w x : 0 < w <= 63 -> 0 <= uintN w x < 2 ^ 63.
Proof.
  intros Hw. unfold uintN.
  pose proof (Z.mod_pos_bound x (2 ^ w) ltac:(apply Z.pow_pos_nonneg; lia)).
  pose proof (Z.pow_le_mono_r 2 w 63 ltac:(lia) ltac:(lia)). lia.
Qed.

Lemma eachIndex_calm (g : Value -> bytes.Buffer -> outcome (visited bytes.Buffer))
    elems :
  Forall (fun x => forall r, exists x' r' e, g x r = Return (x', r', e)) elems ->
  forall r, exists l r' e, eachIndex g elems r = Return (l, r', e).
Proof.
  induction 1 as [|x elems Hx _ IH]; intros r; [eexists _, _, _; reflexivity|].
  cbn [eachIndex]. destruct (Hx r) as [x' [r1 [[e|] ->]]]; cbn.
  - eexists _, _, _; reflexivity.
  - destruct (IH r1) as [l [r' [e ->]]]. cbn. eexists _, _, _; reflexivity.
Qed.

Lemma eachFresh_calm (g : bytes.Buffer -> outcome (visited bytes.Buffer)) zero :
  (forall r, exists x' r' e, g r = Return (x', r', e)) ->
  forall len r, exists l r' e, eachFresh g len zero r = Return (l, r', e).
Proof.
  intros Hg. induction len as [|len IH]; intros r; [eexists _, _, _; reflexivity|].
  cbn [eachFresh]. destruct (Hg r) as [x' [r1 [[e|] ->]]]; cbn.
  - eexists _, _, _; reflexivity.
  - destruct (IH r1) as [l [r' [e ->]]]. cbn. eexists _, _, _; reflexivity.
Qed.

(** The visitor at a node that is as [src] and [nt] say. *)
Lemma decodeVisitor_calm o n (r : bytes.Buffer) src nt :
  node.canSet n = true ->
  srcOk src (node.sizeFrom n) -> node.nullTerminated n = nt ->
  panicFree src nt (node.val n) = true ->
  match node.val n with
  | VArray _ elems =>
      Forall (fun y => forall o r, exists y' r' e, decode y true o r = Return (y', r', e))
        elems
  | VSlice zero _ =>
      panicFree None false zero = true ->
      forall o r, exists y' r' e, decode zero true o r = Return (y', r', e)
  | _ => True
  end ->
  exists v' r' e,
    decodeVisitor_visit decode o n r = Return (v', r', e)
    /\ (e = None -> settled (node.val n) v').
Proof.
  intros Hc Hsrc Hnt Hfree Hel. unfold decodeVisitor_visit. rewrite Hc, Hnt.
  destruct (node.val n) as [| |[]|[]| | | | | |zero elems|zero elems|str| | |];
    try (eexists _, _, _; split; [reflexivity|discriminate]);
    try (destruct (bytes.Read r _) as [[d err] r1]; cbn;
         eexists _, _, _; split; [reflexivity|];
         intros _; split; [reflexivity|];
         first [ cbn; discriminate
               | intros _; eexists _, _; split; [reflexivity|];
                 apply uintN_below; cbn; lia ]).
  - (* arrays *)
    cbn [Index_CanSet].
    destruct (eachIndex_calm
                (fun x reader => decode x true (default o (node.endianness n)) reader)
                elems (Forall_impl _ _ _ Hel (fun y Hy r0 => Hy _ r0)) r)
      as [l [r' [e ->]]].
    cbn. eexists _, _, _. split; [reflexivity|]. intros _. split; [reflexivity|discriminate].
  - (* slices *)
    cbn [panicFree] in Hfree. destruct src as [[|]|]; cbn in Hsrc.
    + destruct Hsrc as [w [u [-> Hu]]]. cbn [Uint_ mbind outcome_bind].
      assert (Hint : int u = u) by (apply intN_small; lia). rewrite Hint.
      unfold Set_MakeSlice. rewrite bool_decide_eq_false_2 by lia. cbn.
      destruct (eachFresh_calm
                  (fun reader => decode zero true (default o (node.endianness n)) reader)
                  zero (fun r0 => Hel Hfree _ r0) (Z.to_nat u) r) as [l [r' [e ->]]].
      cbn. eexists _, _, _. split; [reflexivity|].
      intros _. split; [reflexivity|discriminate].
    + discriminate.
    + rewrite Hsrc. eexists _, _, _. split; [reflexivity|discriminate].
  - (* strings *)
    cbn [panicFree] in Hfree. destruct nt.
    + destruct (readNullTerminatedString r) as [[s err] r1]. cbn.
      eexists _, _, _. split; [reflexivity|]. intros _. split; [reflexivity|discriminate].
    + cbn in Hfree. apply bool_decide_eq_true in Hfree. subst src.
      destruct Hsrc as [w [u [-> Hu]]]. cbn [Uint_ mbind outcome_bind].
      rewrite bool_decide_eq_false_2 by lia.
      destruct (bytes.Read r _) as [[d err] r1]. cbn.
      eexists _, _, _. split; [reflexivity|]. intros _. split; [reflexivity|discriminate].
Qed.

(** The [sizeFrom] of a field's node, [pre] being what the loop left
    of the fields [pre0] before it. *)
Lemma source_ok pre0 pre rest pn nm :
  node.val pn = VStruct (pre ++ rest) ->
  registeredBelow (node.sizeFroms pn) (length pre) ->
  Forall2 (fun f g => settled f.2 g.2) pre0 pre ->
  srcOk (sourceOf (pre0 ++ rest) (node.sizeFroms pn) nm) (sizeFroms_lookup pn nm).
Proof.
  intros Hv Hreg Hpre. unfold sourceOf, sizeFroms_lookup. rewrite Hv.
  destruct (node.sizeFroms pn) as [m|]; [|reflexivity]. cbn [mbind option_bind].
  destruct (m !! nm) as [j|] eqn:Hj; [|reflexivity]. cbn [mbind option_bind].
  pose proof (Hreg m nm j eq_refl Hj) as Hlt.
  pose proof (Forall2_length _ _ _ Hpre) as Hlen.
  rewrite !lookup_app_l by lia.
  destruct (pre !! j) as [g|] eqn:Hg.
  - destruct (Forall2_lookup_r _ _ _ _ _ Hpre Hg) as [f0 [Hf [Hs1 Hs2]]].
    rewrite Hf. cbn [mbind option_bind]. destruct (sizer f0.2) eqn:Hsz; [|exact I].
    destruct (Hs2 eq_refl) as [w [u [Hval Hu]]]. exists w, u. rewrite Hval. auto.
  - apply lookup_ge_None in Hg. lia.
Qed.

(** The loop over the fields of a struct. *)
Lemma fieldLoop_calm o rest : forall pre0 pre pn (r : bytes.Buffer),
  Forall (fun f => forall src nt, panicFree src nt f.2 = true -> calmAt src nt f.2) rest ->
  node.val pn = VStruct (pre ++ rest) -> node.canSet pn = true ->
  Forall2 (fun f g => settled f.2 g.2) pre0 pre ->
  registeredBelow (node.sizeFroms pn) (length pre) ->
  panicFreeFields (pre0 ++ rest) rest (length pre) (node.sizeFroms pn) = true ->
  exists n' r' e,
    fieldLoop (runVisitorInternal (decodeVisitor_visit decode o)) rest (length pre) pn r
    = Return (n', r', e).
Proof.
  induction rest as [|[[nm tags] x] rest IH];
    intros pre0 pre pn r Hrest Hv Hc Hpre Hreg Hfree; [eexists _, _, _; reflexivity|].
  inversion Hrest as [|? ? Hx Hrest']; subst. cbn [snd] in Hx.
  cbn [panicFreeFields] in Hfree. apply andb_true_iff in Hfree as [Hfx Hfree].
  cbn [fieldLoop]. rewrite Hc.
  assert (Hwc : walkCanSet x true = true) by (destruct x; reflexivity).
  destruct (Hx _ _ Hfx o true (Some pn) (Some (Field_of (length pre) (nm, tags))) r
              _ _ (eq_trans (f_equal (fun c => newNode (nodeVal x) c _ _) Hwc)
                     (newNode_field _ _ _ _ _ Hv)) Hwc)
    as [x1 [r1 [e1 [Hrun Hset]]]].
  - rewrite fieldNode_sizeFrom. exact (source_ok pre0 pre _ pn nm Hv Hreg Hpre).
  - unfold fieldNode. rewrite tagNode_hasNullterm. reflexivity.
  - rewrite Hrun. cbn [mbind outcome_bind default from_option id].
    destruct e1 as [e1|]; [eexists _, _, _; reflexivity|].
    set (pn1 := storeField (length pre) x1 _).
    assert (Hv1 : node.val pn1 = VStruct ((pre ++ [(nm, tags, x1)]) ++ rest))
      by (apply (storeField_middle _ _ _ _ x); exact Hv).
    assert (Hs1 : node.sizeFroms pn1
                  = tagRegister (length pre) tags (node.sizeFroms pn))
      by (unfold pn1; rewrite storeField_sizeFroms; reflexivity).
    replace (S (length pre)) with (length (pre ++ [(nm, tags, x1)]))
      by (rewrite length_app; cbn; lia).
    apply (IH (pre0 ++ [(nm, tags, x)])); try assumption.
    + unfold pn1. rewrite storeField_canSet. exact Hc.
    + apply Forall2_app; [exact Hpre|]. constructor; [|constructor].
      exact (Hset eq_refl).
    + rewrite Hs1, length_app, Nat.add_1_r. apply tagRegister_below, Hreg.
    + rewrite Hs1, length_app, Nat.add_1_r, <- app_assoc. exact Hfree.
Qed.

(** [decode], the walk without a parent. *)
Lemma calmAt_decode y :
  calmAt None false y ->
  forall o (r : bytes.Buffer), exists y' r' e, decode y true o r = Return (y', r', e).
Proof.
  intros Hy o r. rewrite decode_eq. unfold runVisitor.
  assert (Hwc : walkCanSet y true = true) by (destruct y; reflexivity).
  destruct (Hy o true None None r _ _ (newNode_root _ _) Hwc eq_refl eq_refl)
    as [y' [r' [e [-> _]]]].
  cbn. eexists _, _, _. reflexivity.
Qed.

Lemma isStruct_sizer v : isStruct v = true -> sizer v = false.
Proof. destruct v; try discriminate. reflexivity. Qed.

(** One step of the walk, when the walks below return. *)
Lemma walk_calm src nt x :
  panicFree src nt x = true ->
  Forall (fun y => forall src nt, panicFree src nt y = true -> calmAt src nt y)
    (children x) ->
  calmWalk src nt x.
Proof.
  intros Hfree IH o p f r n q En Hsrc Hnt. unfold walk. rewrite En.
  cbn [mbind outcome_bind].
  pose proof (newNode_val _ _ _ _ _ _ En) as [Hv Hc].
  destruct (isStruct x) eqn:Hstruct.
  - destruct x as [| | | | | | | | | | | |fields| |]; try discriminate.
    rewrite panicFree_struct in Hfree.
    destruct (fieldLoop_calm o fields [] [] (node.set_val (VStruct fields) n) r)
      as [n' [r' [e Hloop]]].
    + cbn [children] in IH. exact (proj1 (List.Forall_map _ _ _) IH).
    + reflexivity.
    + exact Hc.
    + constructor.
    + cbn [node.sizeFroms node.set_val]. rewrite (newNode_sizeFroms _ _ _ _ _ _ En).
      apply registeredBelow_none.
    + cbn [node.sizeFroms node.set_val length app].
      rewrite (newNode_sizeFroms _ _ _ _ _ _ En). exact Hfree.
    + cbn [length] in Hloop. rewrite Hloop. cbn.
      eexists _, _, _. split; [reflexivity|]. intros _.
      apply fieldLoop_struct in Hloop as [Hs _].
      split; [|discriminate]. cbn [sizer]. apply isStruct_sizer. rewrite Hs. reflexivity.
  - assert (Hleaf :
      match x with
      | VStruct fields =>
          '(n0, s0, err) ←
            fieldLoop (runVisitorInternal (decodeVisitor_visit decode o))
              fields 0%nat (node.set_val x n) r;
          Return (node.val n0, q, s0, err)
      | _ =>
          if isLeafKind (Kind_of x) then
            '(val', s0, err) ← decodeVisitor_visit decode o (node.set_val x n) r;
            Return (val', q, s0, err)
          else Return (x, q, r, Some (unsupportedType (Kind_of x)))
      end
      = if isLeafKind (Kind_of x) then
          '(val', s0, err) ← decodeVisitor_visit decode o (node.set_val x n) r;
          Return (val', q, s0, err)
        else Return (x, q, r, Some (unsupportedType (Kind_of x))))
      by (destruct x; try discriminate; reflexivity).
    rewrite Hleaf.
    destruct (isLeafKind (Kind_of x));
      [|eexists _, _, _; split; [reflexivity|discriminate]].
    destruct (decodeVisitor_calm o (node.set_val x n) r src nt)
      as [v' [r' [e [Hvis Hset]]]]; try assumption.
    + cbn [node.val node.set_val].
      destruct x as [| | | | | | | | |zero elems|zero elems| | | |]; try exact I.
      * cbn [children panicFree] in IH, Hfree.
        inversion IH as [|? ? _ Hel]; subst.
        apply Forall_forall. intros y Hin. apply calmAt_decode.
        rewrite Forall_forall in Hel. apply (Hel y Hin).
        rewrite forallb_forall in Hfree.
        exact (Hfree y (proj1 (list_elem_of_In _ _) Hin)).
      * cbn [children] in IH. inversion IH as [|? ? Hz _]; subst.
        intros Hfz. apply calmAt_decode, Hz, Hfz.
    + rewrite Hvis. cbn. eexists _, _, _. split; [reflexivity|exact Hset].
Qed.

Lemma calmWalk_calmAt src nt v : calmWalk src nt (nodeVal v) -> calmAt src nt v.
Proof.
  intros Hwalk o c p f r n q En Hwc Hsrc Hnt.
  rewrite runVisitorInternal_walk. rewrite Hwc in En |- *.
  destruct (Hwalk o p f r n q En Hsrc Hnt) as [x' [r' [e [-> Hset]]]].
  cbn. eexists _, _, _. split; [reflexivity|].
  intros He. specialize (Hset He).
  destruct v as [| | | | | | | | | | | | |[x|]|]; try exact Hset;
    (split; [reflexivity|discriminate]).
Qed.

(** Every target that passes [panicFree] is walked without a panic. *)
Lemma panicFree_calm v : forall src nt,
  panicFree src nt v = true -> calmWalk src nt v /\ calmAt src nt v.
Proof.
  induction v as [v IH] using Value_children_ind. intros src nt Hfree.
  assert (Hwalk : calmWalk src nt v).
  { apply walk_calm; [exact Hfree|].
    apply (Forall_impl _ _ _ IH). intros y Hy src' nt' Hf. apply (Hy src' nt' Hf). }
  split; [exact Hwalk|]. apply calmWalk_calmAt.
  destruct v as [| | | | | | | | | | | | |[x|]|]; try exact Hwalk.
  - cbn [children] in IH. inversion IH as [|? ? Hx _]; subst.
    apply (Hx src nt Hfree).
  - apply walk_calm; [reflexivity|constructor].
Qed.

(** [Decode] through a pointer cannot panic, whatever the input, on
    a target that passes [panicFree]: its strings are null-terminated
    or sized by a [uint8], [uint16] or [uint32] field declared before
    them, its slices are sized by such a field or not at all.  It
    returns, with or without an error. *)
Theorem Decode_never_panics (v : Value) (o : binary.ByteOrder) (r : bytes.Buffer) :
  panicFree None false v = true ->
  exists v' r' e, DecodeWithOrder r (addressOf v) o = Return (addressOf v', r', e).
Proof.
  intros Hfree. unfold DecodeWithOrder. rewrite decode_eq.
  unfold runVisitor, addressOf. rewrite runVisitorInternal_walk.
  cbn [nodeVal walkCanSet rewrap].
  destruct (proj1 (panicFree_calm v None false Hfree) o None None r _ _
              (newNode_root _ _) eq_refl eq_refl) as [x' [r' [e [-> _]]]].
  cbn. eexists _, _, _. reflexivity.
Qed.

(** The reference struct of [wire_test.go] and three bytes of input. *)
Lemma Decode_never_panics_witness :
  exists v' r' e,
    DecodeWithOrder [x01; x02; x03] (addressOf (refStruct 0 0)) binary.BigEndian
    = Return (addressOf v', r', e).
Proof.
  apply (Decode_never_panics (refStruct 0 0) binary.BigEndian [x01; x02; x03]).
  vm_compute. reflexivity.
Defined.

(** ** Values on which [Encode] cannot panic *)

Lemma sameLen_sym a b : sameLen a b -> sameLen b a.
Proof. intros [Hk Hl]. split; symmetry; assumption. Qed.

Lemma sameLen_trans a b c : sameLen a b -> sameLen b c -> sameLen a c.
Proof. intros [Hk Hl] [Hk' Hl']. split; congruence. Qed.

Lemma patchFree_sameLen sz sz' v :
  sameLen sz sz' -> patchFree sz v = patchFree sz' v.
Proof.
  intros Hs. pose proof (sameLen_IsValid _ _ Hs) as Hv. destruct Hs as [_ Hl].
  induction v as [v IH] using Value_children_ind.
  destruct v as [| |[]|[]| | | | | | | | | |[x|]|]; try reflexivity;
    try (cbn [patchFree]; unfold hasLen; rewrite Hv, Hl; reflexivity).
  cbn [patchFree children] in IH |- *. inversion IH; subst. assumption.
Qed.

(** The visitor at a node that can be set. *)
Lemma encodeVisitor_quiet o n (w : bytes.Buffer) sz :
  node.canSet n = true ->
  sameLen sz (node.sizeof n) ->
  patchFree sz (node.val n) = true ->
  Forall (fun y => forall o (w : bytes.Buffer),
            exists y' w' e, encode y true o w = Return (y', w', e))
    (elements (node.val n)) ->
  exists v' w' e, encodeVisitor_visit encode o n w = Return (v', w', e).
Proof.
  intros Hc Hs Hfree Hel. rewrite (patchFree_sameLen _ _ _ Hs) in Hfree.
  unfold encodeVisitor_visit, setLength. rewrite Hc.
  destruct (node.val n) as [| |[]|[]| | | | | |zero elems|zero elems|str| | |];
    cbn [patchFree] in Hfree.
  all: try (destruct (IsValid (node.sizeof n)); cbn; eexists _, _, _; reflexivity).
  all: try (unfold hasLen in Hfree; destruct (IsValid (node.sizeof n));
            [destruct (Len (node.sizeof n)); [|discriminate]|];
            cbn; eexists _, _, _; reflexivity).
  all: try (destruct (IsValid (node.sizeof n)); cbn; destruct (node.nullTerminated n);
            eexists _, _, _; reflexivity).
  all: cbn [elements Index_CanSet] in Hel;
    assert (Hloop : exists l w' e,
              eachIndex (fun x writer => encode x true (default o (node.endianness n)) writer)
                elems w = Return (l, w', e))
      by (apply eachIndex_calm; apply (Forall_impl _ _ _ Hel); intros y Hy r0; apply Hy);
    destruct Hloop as [l [w' [e Hloop]]];
    destruct (IsValid (node.sizeof n)); cbn; rewrite Hloop; cbn;
    eexists _, _, _; reflexivity.
Qed.

Lemma fieldNode_target all cur pn nm tags val c :
  related all cur ->
  sameLen (targetOf all tags) (node.sizeof (fieldNode cur pn nm tags val c)).
Proof.
  intros Hrel. unfold targetOf, fieldNode.
  apply (tagNode_related all cur tags (rootNode VInvalid true)
           (node.mk val c VInvalid (sizeFroms_lookup pn nm) None None false) Hrel
           (sameLen_refl _) eq_refl eq_refl).
Qed.

(** The loop over the fields of a struct, [pre] being what it left of
    the fields [pre0] before. *)
Lemma fieldLoop_quiet o rest : forall pre0 pre pn (w : bytes.Buffer),
  Forall (fun f => forall sz, patchFree sz f.2 = true -> quietAt sz f.2) rest ->
  node.val pn = VStruct (pre ++ rest) -> node.canSet pn = true ->
  related pre0 pre ->
  forallb (fun f => patchFree (targetOf (pre0 ++ rest) f.1.2) f.2) rest = true ->
  exists n' w' e,
    fieldLoop (runVisitorInternal (encodeVisitor_visit encode o)) rest (length pre) pn w
    = Return (n', w', e).
Proof.
  induction rest as [|[[nm tags] x] rest IH];
    intros pre0 pre pn w Hrest Hv Hc Hpre Hfree; [eexists _, _, _; reflexivity|].
  inversion Hrest as [|? ? Hx Hrest']; subst. cbn [snd] in Hx.
  cbn [forallb fst snd] in Hfree. apply andb_true_iff in Hfree as [Hfx Hfree].
  cbn [fieldLoop]. rewrite Hc.
  assert (Hwc : walkCanSet x true = true) by (destruct x; reflexivity).
  destruct (Hx _ Hfx o true (Some pn) (Some (Field_of (length pre) (nm, tags))) w
              _ _ (eq_trans (f_equal (fun c => newNode (nodeVal x) c _ _) Hwc)
                     (newNode_field _ _ _ _ _ Hv)) Hwc)
    as [x1 [w1 [e1 Hrun]]].
  - apply fieldNode_target. apply Forall2_app; [exact Hpre|apply related_refl].
  - rewrite Hrun. cbn [mbind outcome_bind default from_option id].
    destruct e1 as [e1|]; [eexists _, _, _; reflexivity|].
    assert (Hsame : sameLen x x1).
    { refine (proj1 (proj2 (again_everywhere x) true o (Some pn) (Some pn) _ w w
                       _ _ _ _ _ Hrun)).
      exists (pre ++ (nm, tags, x) :: rest), (pre ++ (nm, tags, x) :: rest).
      repeat split; auto using related_refl. }
    set (pn1 := storeField (length pre) x1 _).
    assert (Hv1 : node.val pn1 = VStruct ((pre ++ [(nm, tags, x1)]) ++ rest))
      by (apply (storeField_middle _ _ _ _ x); exact Hv).
    replace (S (length pre)) with (length (pre ++ [(nm, tags, x1)]))
      by (rewrite length_app; cbn; lia).
    apply (IH (pre0 ++ [(nm, tags, x)])); try assumption.
    + unfold pn1. rewrite storeField_canSet. exact Hc.
    + apply Forall2_app; [exact Hpre|]. constructor; [|constructor].
      split; [reflexivity|exact Hsame].
    + rewrite <- app_assoc. exact Hfree.
Qed.

(** [encode], the walk without a parent. *)
Lemma quietAt_encode y :
  quietAt VInvalid y ->
  forall o (w : bytes.Buffer), exists y' w' e, encode y true o w = Return (y', w', e).
Proof.
  intros Hy o w. rewrite encode_eq. unfold runVisitor.
  assert (Hwc : walkCanSet y true = true) by (destruct y; reflexivity).
  destruct (Hy o true None None w _ _ (newNode_root _ _) Hwc (sameLen_refl _))
    as [y' [w' [e ->]]].
  cbn. eexists _, _, _. reflexivity.
Qed.

(** One step of the walk, when the walks below return. *)
Lemma walk_quiet sz x :
  patchFree sz x = true ->
  Forall (fun y => forall sz, patchFree sz y = true -> quietAt sz y) (children x) ->
  quietWalk sz x.
Proof.
  intros Hfree IH o p f w n q En Hsz. unfold walk. rewrite En.
  cbn [mbind outcome_bind].
  pose proof (newNode_val _ _ _ _ _ _ En) as [Hv Hc].
  destruct (isStruct x) eqn:Hstruct.
  - destruct x as [| | | | | | | | | | | |fields| |]; try discriminate.
    cbn [patchFree] in Hfree.
    destruct (fieldLoop_quiet o fields [] [] (node.set_val (VStruct fields) n) w)
      as [n' [w' [e Hloop]]].
    + cbn [children] in IH. exact (proj1 (List.Forall_map _ _ _) IH).
    + reflexivity.
    + exact Hc.
    + constructor.
    + exact Hfree.
    + cbn [length] in Hloop. rewrite Hloop. cbn. eexists _, _, _. reflexivity.
  - assert (Hleaf :
      match x with
      | VStruct fields =>
          '(n0, s0, err) ←
            fieldLoop (runVisitorInternal (encodeVisitor_visit encode o))
              fields 0%nat (node.set_val x n) w;
          Return (node.val n0, q, s0, err)
      | _ =>
          if isLeafKind (Kind_of x) then
            '(val', s0, err) ← encodeVisitor_visit encode o (node.set_val x n) w;
            Return (val', q, s0, err)
          else Return (x, q, w, Some (unsupportedType (Kind_of x)))
      end
      = if isLeafKind (Kind_of x) then
          '(val', s0, err) ← encodeVisitor_visit encode o (node.set_val x n) w;
          Return (val', q, s0, err)
        else Return (x, q, w, Some (unsupportedType (Kind_of x))))
      by (destruct x; try discriminate; reflexivity).
    rewrite Hleaf.
    destruct (isLeafKind (Kind_of x)); [|eexists _, _, _; reflexivity].
    destruct (encodeVisitor_quiet o (node.set_val x n) w sz)
      as [v' [w' [e Hvis]]]; try assumption.
    + cbn [node.val node.set_val].
      assert (Hel : Forall (fun y => forall sz, patchFree sz y = true -> quietAt sz y)
                      (elements x) /\ forallb (patchFree VInvalid) (elements x) = true).
      { destruct x as [| | | | | | | | |zero elems|zero elems| | | |];
          try (split; [constructor|reflexivity]);
          cbn [children elements patchFree] in IH, Hfree |- *;
          inversion IH; subst; auto. }
      destruct Hel as [Hq Hf]. apply Forall_forall. intros y Hin.
      apply quietAt_encode. rewrite Forall_forall in Hq. apply (Hq y Hin).
      rewrite forallb_forall in Hf. exact (Hf y (proj1 (list_elem_of_In _ _) Hin)).
    + rewrite Hvis. cbn. eexists _, _, _. reflexivity.
Qed.

Lemma quietWalk_quietAt sz v : quietWalk sz (nodeVal v) -> quietAt sz v.
Proof.
  intros Hwalk o c p f w n q En Hwc Hsz.
  rewrite runVisitorInternal_walk. rewrite Hwc in En |- *.
  destruct (Hwalk o p f w n q En Hsz) as [x' [w' [e ->]]].
  cbn. eexists _, _, _. reflexivity.
Qed.

(** Every value that passes [patchFree] is walked without a panic. *)
Lemma patchFree_quiet v : forall sz,
  patchFree sz v = true -> quietWalk sz v /\ quietAt sz v.
Proof.
  induction v as [v IH] using Value_children_ind. intros sz Hfree.
  assert (Hwalk : quietWalk sz v).
  { apply walk_quiet; [exact Hfree|].
    apply (Forall_impl _ _ _ IH). intros y Hy sz' Hf. apply (Hy sz' Hf). }
  split; [exact Hwalk|]. apply quietWalk_quietAt.
  destruct v as [| | | | | | | | | | | | |[x|]|]; try exact Hwalk.
  - cbn [children] in IH. inversion IH as [|? ? Hx _]; subst.
    apply (Hx sz Hfree).
  - apply walk_quiet; [reflexivity|constructor].
Qed.

(** [Encode] through a pointer cannot panic on a value that passes
    [patchFree]: wherever a field of kind int8, int32, int64, uint8,
    uint32 or uint64 carries a [sizeof] directive, the last one names
    a field that has a length (an array, a slice, a string, a channel,
    a map or a pointer to an array) or no field of the struct.  It returns, with or without
    an error. *)
Theorem Encode_never_panics (v : Value) (o : binary.ByteOrder) (w : bytes.Buffer) :
  patchFree VInvalid v = true ->
  exists v' w' e, EncodeWithOrder w (addressOf v) o = Return (addressOf v', w', e).
Proof.
  intros Hfree. unfold EncodeWithOrder. rewrite encode_eq.
  unfold runVisitor, addressOf. rewrite runVisitorInternal_walk.
  cbn [nodeVal walkCanSet rewrap].
  destruct (proj1 (patchFree_quiet v VInvalid Hfree) o None None w _ _
              (newNode_root _ _) (sameLen_refl _)) as [x' [w' [e ->]]].
  cbn. eexists _, _, _. reflexivity.
Qed.

(** The reference struct of [wire_test.go]. *)
Lemma Encode_never_panics_witness :
  exists v' w' e,
    EncodeWithOrder ([] : bytes.Buffer) (addressOf (refStruct 0 0)) binary.BigEndian
    = Return (addressOf v', w', e).
Proof.
  apply (Encode_never_panics (refStruct 0 0) binary.BigEndian []).
  vm_compute. reflexivity.
Defined.
